(** * StoreWithCache: a read-through entity cache with ordered write buffers

    A shallow embedding of the two [StoreWithCache] classes of the
    repository (the variant with relation paths, module [V1], and the
    variant with a plain deferred list, module [V2]), of the helpers
    they are built from and of the batch handler that uses them (module
    [Main]), followed by the properties of the specification that were
    checked against them.

    JavaScript objects live in a heap of locations, so that two references
    to one object are two copies of one location; a [Map] is an association
    list in insertion order; asynchronous methods are run to completion, one
    after the other, in a state monad that keeps the state when an
    exception is thrown. *)

From stdpp Require Import base option list strings.
From Stdlib Require Import Lia.

Open Scope string_scope.
Open Scope list_scope.

(** ** JavaScript [Map] and [Set] with string keys, in insertion order *)

Module JsMap.
Section defs.
Context {V : Type}.

Fixpoint get (k : string) (m : list (string * V)) : option V :=
  match m with
  | [] => None
  | (k', v) :: m' => if decide (k = k') then Some v else get k m'
  end.

Definition has (k : string) (m : list (string * V)) : bool :=
  match get k m with Some _ => true | None => false end.

(** [set] keeps the position of a key that is already there and appends
    a new key at the end. *)
Fixpoint set (k : string) (v : V) (m : list (string * V)) : list (string * V) :=
  match m with
  | [] => [(k, v)]
  | (k', v') :: m' =>
      if decide (k = k') then (k, v) :: m' else (k', v') :: set k v m'
  end.

Fixpoint delete (k : string) (m : list (string * V)) : list (string * V) :=
  match m with
  | [] => []
  | (k', v') :: m' =>
      if decide (k = k') then delete k m' else (k', v') :: delete k m'
  end.

Definition keys (m : list (string * V)) : list string := m.*1.
Definition values (m : list (string * V)) : list V := m.*2.
Definition size (m : list (string * V)) : nat := length m.
End defs.
End JsMap.

Module JsSet.
Definition has (k : string) (s : list string) : bool := bool_decide (k ∈ s).
Definition add (k : string) (s : list string) : list string :=
  if has k s then s else s ++ [k].
Fixpoint delete (k : string) (s : list string) : list string :=
  match s with
  | [] => []
  | k' :: s' => if decide (k = k') then delete k s' else k' :: delete k s'
  end.
End JsSet.

(** A [Map<string, Map<string, V>>] whose inner maps are created on first
    use ([getCacheMap], [getInsertList], [getUpsertList]). *)
Module Nested.
Section defs.
Context {V : Type}.

(** The body shared by the [get...] helpers: look the name up, and
    register an empty map under it when there is none. *)
Definition ensure (name : string) (m : list (string * list (string * V)))
  : list (string * list (string * V)) :=
  match JsMap.get name m with
  | Some _ => m
  | None => JsMap.set name [] m
  end.

Definition inner (name : string) (m : list (string * list (string * V)))
  : list (string * V) :=
  default [] (JsMap.get name m).

(** A mutation of the inner map registered under [name]. *)
Definition update (name : string) (f : list (string * V) → list (string * V))
    (m : list (string * list (string * V))) : list (string * list (string * V)) :=
  JsMap.set name (f (inner name m)) m.

Definition lookup (name k : string) (m : list (string * list (string * V)))
  : option V :=
  JsMap.get k (inner name m).
End defs.
End Nested.

(** ** Objects and the heap *)

Definition loc := nat.

(** What a property of an entity can hold: a primitive (kept as its
    printed form), a reference to another entity, or an array of them. *)
Inductive Value :=
| VUndefined
| VNull
| VPrim (s : string)
| VRef (l : loc)
| VArr (ls : list loc).

(** An entity object: its class ([constructor.name]), the [id] that the
    [Entity] interface requires, and its other own properties. *)
Record Obj := {
  constructor_name : string;
  id : string;
  props : list (string * Value);
}.

Definition obj_with_id (i : string) (o : Obj) : Obj :=
  {| constructor_name := constructor_name o; id := i; props := props o |}.

Definition obj_with_prop (p : string) (v : Value) (o : Obj) : Obj :=
  {| constructor_name := constructor_name o; id := id o;
     props := JsMap.set p v (props o) |}.

(** [o[p]]: a missing property reads as [undefined]. *)
Definition obj_get (p : string) (o : Obj) : Value :=
  default VUndefined (JsMap.get p (props o)).

(** [p in o] *)
Definition obj_has (p : string) (o : Obj) : bool := JsMap.has p (props o).

(** ** Schema metadata (TypeORM's [EntityMetadata], as far as it is read) *)

Record RelationMetadata := {
  rel_propertyName : string;
  isOneToMany : bool;
}.

Record ColumnMetadata := {
  propertyName : string;
  relationMetadata : option RelationMetadata;
}.

(** [columns] lists the columns other than the primary column [id], which
    every entity class declares. [foreignKeys] holds, for each foreign
    key, [referencedEntityMetadata.name]. *)
Record EntityMetadata := {
  md_name : string;
  columns : list ColumnMetadata;
  md_relations : list RelationMetadata;
  foreignKeys : list string;
}.

(** [entityMetadatasMap.get(entity.constructor)] *)
Definition metadata_of (mds : list EntityMetadata) (cls : string)
  : option EntityMetadata :=
  list_find (λ md, md_name md = cls) mds ≫= λ p, Some p.2.

(** ** The dependency graph ([graph-data-structure]) *)

Module Graph.
(** The adjacency lists, keyed by node in insertion order. *)
Definition t := list (string * list string).

Definition empty : t := [].

Definition adjacent (node : string) (g : t) : list string :=
  default [] (JsMap.get node g).

Definition addNode (node : string) (g : t) : t :=
  JsMap.set node (adjacent node g) g.

Definition addEdge (u v : string) (g : t) : t :=
  let g := addNode v (addNode u g) in
  JsMap.set u (adjacent u g ++ [v]) g.

Definition nodes (g : t) : list string := JsMap.keys g.

Definition has_edge (u v : string) (g : t) : Prop := v ∈ adjacent u g.
End Graph.

(** The graph that [getTopologicalOrder] builds: a node per entity type
    and an edge from a type to every type one of its foreign keys
    references. *)
Definition schema_graph (mds : list EntityMetadata) : Graph.t :=
  foldl (λ g md,
           foldl (λ g fk, Graph.addEdge (md_name md) fk g)
                 (Graph.addNode (md_name md) g) (foreignKeys md))
        Graph.empty mds.

(** ** Relation paths ([FindOptionsRelations]) *)

#[warnings="-register-all"] Inductive RelVal :=
| RFlag (b : bool)
| RNested (r : list (string * RelVal)).

(** [mergedObject[key] = ...] for one key of [b], given the value already
    under that key. *)
Fixpoint merge_value (value : option RelVal) (bValue : RelVal) : RelVal :=
  match bValue with
  | RNested rb =>
      match value with
      | Some (RNested ra) =>
          RNested
            ((fix merge_keys (acc : list (string * RelVal))
                  (b : list (string * RelVal)) : list (string * RelVal) :=
                match b with
                | [] => acc
                | (key, bv) :: b' =>
                    merge_keys
                      (JsMap.set key (merge_value (JsMap.get key acc) bv) acc) b'
                end) ra rb)
      | _ => bValue
      end
  | RFlag bb =>
      match value with
      | Some (RNested ra) => RNested ra
      | Some (RFlag true) => RFlag true
      | _ => RFlag bb
      end
  end.

Definition mergeRelataions (a b : list (string * RelVal))
  : list (string * RelVal) :=
  foldl (λ acc kv, JsMap.set kv.1 (merge_value (JsMap.get kv.1 acc) kv.2) acc)
        (foldl (λ acc kv, JsMap.set kv.1 kv.2 acc) [] a) b.

(** ** Queries and the persistent store *)

(** The only filter the cache builds itself is [{id: In([...])}];
    anything else comes from the caller and is passed on untouched. *)
Inductive Where :=
| WIdIn (ids : list string)
| WCaller (w : string).

Record FindOptions := {
  fo_where : option Where;
  fo_relations : option (list (string * RelVal));
}.

(** What a query of the store hands back: freshly built objects, whose
    references to one another are indices into the batch, and the
    positions of the rows that answer the query. *)
Record Fetched := {
  fetched_objects : list Obj;
  fetched_roots : list nat;
}.

(** The [Store] of [@subsquid/typeorm-store], over an abstract database.
    Writes read the entities they are given from the heap. *)
Class Store := {
  DB : Type;
  store_insert : DB → list Obj → list loc → DB;
  store_upsert : DB → list Obj → list loc → DB;
  store_find : DB → string → FindOptions → Fetched;
  store_findBy : DB → string → Where → Fetched;
  store_findOne : DB → string → FindOptions → Fetched;
  store_findOneBy : DB → string → Where → Fetched;
  store_get : DB → string → string + FindOptions → Fetched;
  store_count : DB → string → FindOptions → nat;
  store_countBy : DB → string → Where → nat;
}.

(** The calls made on the store, in the order they were issued. A write
    records the buffer it drained and the entities as they were then. *)
Inductive StoreCall :=
| CInsert (name : string) (entities : list (loc * Obj))
| CUpsert (name : string) (entities : list (loc * Obj))
| CFind (cls : string) (options : FindOptions)
| CFindBy (cls : string) (w : Where)
| CFindOne (cls : string) (options : FindOptions)
| CFindOneBy (cls : string) (w : Where)
| CGet (cls : string) (idOrOptions : string + FindOptions)
| CCount (cls : string) (options : FindOptions)
| CCountBy (cls : string) (w : Where).

Definition is_query (c : StoreCall) : bool :=
  match c with
  | CInsert _ _ | CUpsert _ _ => false
  | _ => true
  end.

(** What the process runs in: the store, the schema of its connection,
    the topological sort of the graph package, and the depth of the call
    stack (a recursion deeper than that throws a [RangeError]). *)
Class Runtime := {
  rt_store :: Store;
  entityMetadatas : list EntityMetadata;
  topologicalSort : Graph.t → list string;
  stack_limit : nat;
}.

(** ** Exceptions and the state monad *)

Inductive Error :=
| AssertionError (message : option string)
| RangeError
| TypeError
| NotImplemented.

Inductive Outcome (A : Type) :=
| Ok (a : A)
| Throw (e : Error).
Arguments Ok {A} a.
Arguments Throw {A} e.

Section monad.
Context {S : Type}.

Definition M (A : Type) : Type := S → S * Outcome A.

Definition ret {A} (a : A) : M A := λ s, (s, Ok a).

Definition bind {A B} (m : M A) (f : A → M B) : M B :=
  λ s, match m s with
       | (s', Ok a) => f a s'
       | (s', Throw e) => (s', Throw e)
       end.

Definition throw {A} (e : Error) : M A := λ s, (s, Throw e).

Definition gets {A} (f : S → A) : M A := λ s, (s, Ok (f s)).

Definition modify (f : S → S) : M unit := λ s, (f s, Ok tt).

(** [assert(b, message)] *)
Definition assert (b : bool) (message : option string) : M unit :=
  if b then ret tt else throw (AssertionError message).

Definition when (b : bool) (m : M unit) : M unit :=
  if b then m else ret tt.

(** [for (const x of l) { f x }] *)
Fixpoint for_each {A} (l : list A) (f : A → M unit) : M unit :=
  match l with
  | [] => ret tt
  | x :: l' => bind (f x) (λ _, for_each l' f)
  end.

(** The same loop, collecting what each round yields. *)
Fixpoint map_each {A B} (l : list A) (f : A → M B) : M (list B) :=
  match l with
  | [] => ret []
  | x :: l' => bind (f x) (λ y, bind (map_each l' f) (λ ys, ret (y :: ys)))
  end.
End monad.

Declare Scope js_scope.
Delimit Scope js_scope with js.
Notation "x <- m ;; f" := (bind m (λ x, f))
  (at level 100, m at next level, f at level 200, only parsing,
   right associativity) : js_scope.
Notation "m ;; f" := (bind m (λ _, f))
  (at level 100, f at level 200, only parsing,
   right associativity) : js_scope.
Open Scope js_scope.

(** ** The state of a [StoreWithCache], the heap and the store

    [D] is what the deferred-load registry keeps per entity type: the two
    variants differ in it. *)

Record State {D : Type} `{Store} := {
  heap : list Obj;
  db : DB;
  calls : list StoreCall;
  deferred : list (string * D);
  cacheMap : list (string * list (string * option loc));
  classes : list (string * string);
  insertMap : list (string * list (string * loc));
  upsertMap : list (string * list (string * loc));
}.
Arguments State D {_}.

Section state.
Context {D : Type} `{rt : Runtime}.
Implicit Types (st : State D).

Definition init (d : DB) : State D :=
  {| heap := []; db := d; calls := []; deferred := []; cacheMap := [];
     classes := []; insertMap := []; upsertMap := [] |}.

Definition with_heap (f : list Obj → list Obj) st : State D :=
  {| heap := f (heap st); db := db st; calls := calls st;
     deferred := deferred st; cacheMap := cacheMap st; classes := classes st;
     insertMap := insertMap st; upsertMap := upsertMap st |}.

Definition with_store (d : DB) (c : StoreCall) st : State D :=
  {| heap := heap st; db := d; calls := calls st ++ [c];
     deferred := deferred st; cacheMap := cacheMap st; classes := classes st;
     insertMap := insertMap st; upsertMap := upsertMap st |}.

Definition with_deferred (f : list (string * D) → list (string * D)) st
  : State D :=
  {| heap := heap st; db := db st; calls := calls st;
     deferred := f (deferred st); cacheMap := cacheMap st;
     classes := classes st; insertMap := insertMap st;
     upsertMap := upsertMap st |}.

Definition with_cacheMap
    (f : list (string * list (string * option loc)) →
         list (string * list (string * option loc))) st : State D :=
  {| heap := heap st; db := db st; calls := calls st;
     deferred := deferred st; cacheMap := f (cacheMap st);
     classes := classes st; insertMap := insertMap st;
     upsertMap := upsertMap st |}.

Definition with_classes (f : list (string * string) → list (string * string))
    st : State D :=
  {| heap := heap st; db := db st; calls := calls st;
     deferred := deferred st; cacheMap := cacheMap st;
     classes := f (classes st); insertMap := insertMap st;
     upsertMap := upsertMap st |}.

Definition with_insertMap
    (f : list (string * list (string * loc)) →
         list (string * list (string * loc))) st : State D :=
  {| heap := heap st; db := db st; calls := calls st;
     deferred := deferred st; cacheMap := cacheMap st;
     classes := classes st; insertMap := f (insertMap st);
     upsertMap := upsertMap st |}.

Definition with_upsertMap
    (f : list (string * list (string * loc)) →
         list (string * list (string * loc))) st : State D :=
  {| heap := heap st; db := db st; calls := calls st;
     deferred := deferred st; cacheMap := cacheMap st;
     classes := classes st; insertMap := insertMap st;
     upsertMap := f (upsertMap st) |}.

(** *** Objects *)

(** Following a reference. A dangling one cannot be built in JavaScript;
    the model answers it with a [TypeError]. *)
Definition deref (l : loc) : M (S:=State D) Obj :=
  o <- gets (λ st, heap st !! l) ;;
  match o with
  | Some o => ret o
  | None => throw TypeError
  end.

(** [new constructor()] and every other creation of an object. *)
Definition alloc (o : Obj) : M (S:=State D) loc :=
  l <- gets (λ st, length (heap st)) ;;
  modify (with_heap (λ h, h ++ [o])) ;;
  ret l.

Definition id_of (l : loc) : M (S:=State D) string :=
  o <- deref l ;; ret (id o).

Definition constructor_of (l : loc) : M (S:=State D) string :=
  o <- deref l ;; ret (constructor_name o).

Definition read_prop (l : loc) (p : string) : M (S:=State D) Value :=
  o <- deref l ;; ret (obj_get p o).

Definition has_prop (l : loc) (p : string) : M (S:=State D) bool :=
  o <- deref l ;; ret (obj_has p o).

(** [l[p] = v] *)
Definition write_prop (l : loc) (p : string) (v : Value) : M (S:=State D) unit :=
  o <- deref l ;;
  modify (with_heap (λ h, <[l := obj_with_prop p v o]> h)).

(** [l.id = i] *)
Definition write_id (l : loc) (i : string) : M (S:=State D) unit :=
  o <- deref l ;;
  modify (with_heap (λ h, <[l := obj_with_id i o]> h)).

(** *** Calls on the store *)

Definition shift_value (base : nat) (v : Value) : Value :=
  match v with
  | VRef l => VRef (base + l)
  | VArr ls => VArr ((λ l, base + l) <$> ls)
  | _ => v
  end.

Definition shift_obj (base : nat) (o : Obj) : Obj :=
  {| constructor_name := constructor_name o; id := id o;
     props := (λ kv, (kv.1, shift_value base kv.2)) <$> props o |}.

(** The objects a query returns are new objects in the heap. *)
Definition materialize (f : Fetched) : M (S:=State D) (list loc) :=
  base <- gets (λ st, length (heap st)) ;;
  modify (with_heap (λ h, h ++ (shift_obj base <$> fetched_objects f))) ;;
  ret ((λ r, base + r) <$> fetched_roots f).

Definition snapshot st (ls : list loc) : list (loc * Obj) :=
  omap (λ l, (λ o, (l, o)) <$> heap st !! l) ls.

(** [this.store.insert([...entities])], for the buffer of [name] *)
Definition call_insert (name : string) (ls : list loc) : M (S:=State D) unit :=
  modify (λ st, with_store (store_insert (db st) (heap st) ls)
                           (CInsert name (snapshot st ls)) st).

Definition call_upsert (name : string) (ls : list loc) : M (S:=State D) unit :=
  modify (λ st, with_store (store_upsert (db st) (heap st) ls)
                           (CUpsert name (snapshot st ls)) st).

Definition call_find (cls : string) (o : FindOptions) : M (S:=State D) (list loc) :=
  f <- gets (λ st, store_find (db st) cls o) ;;
  modify (λ st, with_store (db st) (CFind cls o) st) ;;
  materialize f.

Definition call_findBy (cls : string) (w : Where) : M (S:=State D) (list loc) :=
  f <- gets (λ st, store_findBy (db st) cls w) ;;
  modify (λ st, with_store (db st) (CFindBy cls w) st) ;;
  materialize f.

Definition call_findOne (cls : string) (o : FindOptions)
  : M (S:=State D) (option loc) :=
  f <- gets (λ st, store_findOne (db st) cls o) ;;
  modify (λ st, with_store (db st) (CFindOne cls o) st) ;;
  ls <- materialize f ;;
  ret (head ls).

Definition call_findOneBy (cls : string) (w : Where)
  : M (S:=State D) (option loc) :=
  f <- gets (λ st, store_findOneBy (db st) cls w) ;;
  modify (λ st, with_store (db st) (CFindOneBy cls w) st) ;;
  ls <- materialize f ;;
  ret (head ls).

Definition call_get (cls : string) (a : string + FindOptions)
  : M (S:=State D) (option loc) :=
  f <- gets (λ st, store_get (db st) cls a) ;;
  modify (λ st, with_store (db st) (CGet cls a) st) ;;
  ls <- materialize f ;;
  ret (head ls).

Definition call_count (cls : string) (o : FindOptions) : M (S:=State D) nat :=
  n <- gets (λ st, store_count (db st) cls o) ;;
  modify (λ st, with_store (db st) (CCount cls o) st) ;;
  ret n.

Definition call_countBy (cls : string) (w : Where) : M (S:=State D) nat :=
  n <- gets (λ st, store_countBy (db st) cls w) ;;
  modify (λ st, with_store (db st) (CCountBy cls w) st) ;;
  ret n.

(** *** The private helpers both variants share *)

Definition getCacheMap (name : string) : M (S:=State D) unit :=
  modify (with_cacheMap (Nested.ensure name)).

Definition getInsertList (name : string) : M (S:=State D) unit :=
  modify (with_insertMap (Nested.ensure name)).

Definition getUpsertList (name : string) : M (S:=State D) unit :=
  modify (with_upsertMap (Nested.ensure name)).

(** [getTopologicalOrder]. The [@def] decorator keeps the first result;
    the metadata of a connection does not change, so the kept list is
    the list computed here. *)
Definition getTopologicalOrder : M (S:=State D) (list string) :=
  ret (reverse (topologicalSort (schema_graph entityMetadatas))).

(** *** Copying on read *)

(** [copy] of the package copy-anything, on an object. A plain object
    (its [constructor.name] is [Object]) is copied into a new plain
    object, property by property, each value with [copy] again; anything
    that is not a plain object, so every instance of an entity class, is
    returned as it is. A plain object is copied once per path that
    reaches it, and a cyclic graph of plain objects exhausts the stack. *)
Fixpoint copy_anything (depth : nat) (target : loc) : M (S:=State D) loc :=
  match depth with
  | 0 => throw RangeError
  | S depth' =>
      o <- deref target ;;
      if bool_decide (constructor_name o = "Object") then
        ps <- map_each (props o) (λ kv,
                match kv.2 with
                | VRef r => c <- copy_anything depth' r ;; ret (kv.1, VRef c)
                | VArr rs =>
                    cs <- map_each rs (copy_anything depth') ;; ret (kv.1, VArr cs)
                | v => ret (kv.1, v)
                end) ;;
        alloc {| constructor_name := "Object"; id := id o; props := ps |}
      else ret target
  end.

(** What [structuredClone] makes of an object, in a heap of [base]
    objects whose clones come after them in the same order: a plain
    object (the class is lost) with the same own properties, whose
    references are to the clones. *)
Definition clone_obj (base : nat) (o : Obj) : Obj :=
  {| constructor_name := "Object"; id := id o;
     props := (λ kv, (kv.1, shift_value base kv.2)) <$> props o |}.

(** [structuredClone] of an object: a new object for it and for every
    object it reaches, one clone per object however many paths reach it,
    so that shared and cyclic references are kept; it does not throw.
    The clone of the object at [l] is the object at [base + l]. The heap
    of the model is not collected: the objects that [l] does not reach
    get a clone of their own as well, to which nothing refers. *)
Definition structuredClone (l : loc) : M (S:=State D) loc :=
  deref l ;;
  base <- gets (λ st, length (heap st)) ;;
  modify (with_heap (λ h, h ++ (clone_obj base <$> h))) ;;
  ret (base + l).
End state.

Definition empty_options : FindOptions :=
  {| fo_where := None; fo_relations := None |}.

(** [cached == null], for what [_cacheMap.get(id)] returned: [None] is
    [undefined] (no entry), [Some None] is the entry [null]. *)
Definition is_nullish (c : option (option loc)) : bool :=
  match c with
  | Some (Some _) => false
  | _ => true
  end.

(** The handle [defer] returns. [@def] keeps what the first [get]
    produced. *)
Record DeferredValue := {
  dv_entityClass : string;
  dv_id : string;
  dv_memo : option (Outcome (option loc));
}.

(** ** The variant with relation paths *)

Module V1.

Record DeferData := {
ids : list string;
relations : list (string * RelVal);
}.

Section ops.
Context `{rt : Runtime}.

Local Abbreviation St := (State DeferData).
Local Abbreviation M := (M (S:=State DeferData)).

Definition new_DeferData : DeferData := {| ids := []; relations := [] |}.

Definition getDeferData (name : string) : M DeferData :=
  modify (with_deferred (λ m,
    match JsMap.get name m with
    | Some _ => m
    | None => JsMap.set name new_DeferData m
    end)) ;;
  gets (λ st, default new_DeferData (JsMap.get name (deferred st))).

(** [entity[rel] == null ? undefined : await this.cache(entity[rel])].
    A relation property holds an entity, an array of entities or
    nothing. *)
Definition cache_relation (rec : list loc → M (list loc)) (v : Value)
  : M Value :=
  match v with
  | VUndefined | VNull => ret VUndefined
  | VRef l =>
      cs <- rec [l] ;;
      ret (match cs with c :: _ => VRef c | [] => VUndefined end)
  | VArr [] => rec [] ;; ret VUndefined
  | VArr ls => cs <- rec ls ;; ret (VArr cs)
  | VPrim _ => throw TypeError
  end.

(** One round of [for (const column of metadata.columns)]. *)
Definition cache_column (rec : list loc → M (list loc)) (entity cached : loc)
    (column : ColumnMetadata) : M unit :=
  match relationMetadata column with
  | Some rm =>
      present <- has_prop entity (rel_propertyName rm) ;;
      (if present : bool then
         assert (negb (isOneToMany rm))
                (Some "OneToMany relations can't be cached") ;;
         v <- read_prop entity (rel_propertyName rm) ;;
         c <- cache_relation rec v ;;
         write_prop cached (rel_propertyName rm) c
       else ret tt) ;;
      if bool_decide (propertyName column ≠ rel_propertyName rm) then
        v <- read_prop entity (propertyName column) ;;
        write_prop cached (propertyName column) v
      else ret tt
  | None =>
      v <- read_prop entity (propertyName column) ;;
      write_prop cached (propertyName column) v
  end.

(** One round of [for (const entity of entities)] in [cache], with the
    cache map of [mapName]. *)
Definition cache_entity (rec : list loc → M (list loc)) (mapName : string)
    (entity : loc) : M loc :=
  cls <- constructor_of entity ;;
  eid <- id_of entity ;;
  c <- gets (λ st, Nested.lookup mapName eid (cacheMap st)) ;;
  cached <- match c with
            | Some (Some l) => ret l
            | _ => alloc {| constructor_name := cls; id := ""; props := [] |}
            end ;;
  match metadata_of entityMetadatas cls with
  | None => throw (AssertionError (Some ("Missing metadata for " +:+ cls)))
  | Some metadata =>
      write_id cached eid ;;
      for_each (columns metadata) (cache_column rec entity cached) ;;
      cid <- id_of cached ;;
      modify (with_cacheMap (Nested.update mapName (JsMap.set cid (Some cached)))) ;;
      ret cached
  end.

(** [cache], on the array [Array.isArray(e) ? e : [e]]; the answer for
    the empty array stands for [undefined]. [depth] is what is left of
    the call stack. *)
Fixpoint cache (depth : nat) (entities : list loc) : M (list loc) :=
  match depth with
  | 0 => throw RangeError
  | S depth' =>
      match entities with
      | [] => ret []
      | e0 :: _ =>
          name0 <- constructor_of e0 ;;
          getCacheMap name0 ;;
          map_each entities (cache_entity (cache depth') name0)
      end
  end.

(** [await this.cache(entity)] on a single entity. *)
Definition cache_one (entity : loc) : M loc :=
  cs <- cache stack_limit [entity] ;;
  match cs with
  | c :: _ => ret c
  | [] => throw TypeError
  end.

Definition insert_entity (entityName : string) (entity : loc) : M unit :=
  eid <- id_of entity ;;
  inInsert <- gets (λ st, JsMap.has eid (Nested.inner entityName (insertMap st))) ;;
  assert (negb inInsert) None ;;
  inUpsert <- gets (λ st, JsMap.has eid (Nested.inner entityName (upsertMap st))) ;;
  assert (negb inUpsert) None ;;
  c <- gets (λ st, Nested.lookup entityName eid (cacheMap st)) ;;
  assert (is_nullish c) None ;;
  cached <- cache_one entity ;;
  cid <- id_of cached ;;
  modify (with_insertMap (Nested.update entityName (JsMap.set cid cached))).

(** [insert(e)], on the array [Array.isArray(e) ? e : [e]]. *)
Definition insert (entities : list loc) : M unit :=
  match entities with
  | [] => ret tt
  | e0 :: _ =>
      entityName <- constructor_of e0 ;;
      getInsertList entityName ;;
      getUpsertList entityName ;;
      getCacheMap entityName ;;
      for_each entities (insert_entity entityName)
  end.

Definition upsert_entity (entityName : string) (entity : loc) : M unit :=
  cached <- cache_one entity ;;
  cid <- id_of cached ;;
  inInsert <- gets (λ st, JsMap.has cid (Nested.inner entityName (insertMap st))) ;;
  if inInsert : bool then ret tt
  else modify (with_upsertMap (Nested.update entityName (JsMap.set cid cached))).

Definition upsert (entities : list loc) : M unit :=
  match entities with
  | [] => ret tt
  | e0 :: _ =>
      entityName <- constructor_of e0 ;;
      getInsertList entityName ;;
      getUpsertList entityName ;;
      for_each entities (upsert_entity entityName)
  end.

Definition save (entities : list loc) : M unit := upsert entities.

Definition remove : M unit := throw NotImplemented.

(** One round of [for (const name of entityOrder)] in [flush], up to
    the test that ends the loop. *)
Definition flush_entry (name : string) : M unit :=
  getInsertList name ;;
  _insertList <- gets (λ st, Nested.inner name (insertMap st)) ;;
  when (bool_decide (0 < JsMap.size _insertList))
       (call_insert name (JsMap.values _insertList)) ;;
  modify (with_insertMap (Nested.update name (λ _, []))) ;;
  getUpsertList name ;;
  _upsertList <- gets (λ st, Nested.inner name (upsertMap st)) ;;
  when (bool_decide (0 < JsMap.size _upsertList))
       (call_upsert name (JsMap.values _upsertList)) ;;
  modify (with_upsertMap (Nested.update name (λ _, []))).

Fixpoint flush_loop (entityOrder : list string) (entityClass : option string)
  : M unit :=
  match entityOrder with
  | [] => ret tt
  | name :: rest =>
      flush_entry name ;;
      if bool_decide (entityClass = Some name) then ret tt
      else flush_loop rest entityClass
  end.

Definition flush (entityClass : option string) : M unit :=
  entityOrder <- getTopologicalOrder ;;
  flush_loop entityOrder entityClass.

Definition count (entityClass : string) (options : option FindOptions) : M nat :=
  flush (Some entityClass) ;;
  call_count entityClass (default empty_options options).

Definition countBy (entityClass : string) (w : Where) : M nat :=
  flush (Some entityClass) ;;
  call_countBy entityClass w.

(** [options.relations = options.relations != null ? merge... : ...] *)
Definition with_deferred_relations (options : FindOptions) (d : DeferData)
  : FindOptions :=
  {| fo_where := fo_where options;
     fo_relations :=
       Some match fo_relations options with
            | Some r => mergeRelataions r (relations d)
            | None => relations d
            end |}.

Definition find (entityClass : string) (options : option FindOptions)
  : M (list loc) :=
  flush (Some entityClass) ;;
  _deferData <- getDeferData entityClass ;;
  res <- call_find entityClass
           (with_deferred_relations (default empty_options options) _deferData) ;;
  cache stack_limit res ;;
  ret res.

Definition findBy (entityClass : string) (w : Where) : M (list loc) :=
  flush (Some entityClass) ;;
  res <- call_findBy entityClass w ;;
  cache stack_limit res ;;
  ret res.

Definition findOne (entityClass : string) (options : FindOptions)
  : M (option loc) :=
  flush (Some entityClass) ;;
  _deferData <- getDeferData entityClass ;;
  res <- call_findOne entityClass (with_deferred_relations options _deferData) ;;
  match res with
  | Some r => cache_one r ;; ret res
  | None => ret res
  end.

Definition findOneBy (entityClass : string) (w : Where) : M (option loc) :=
  flush (Some entityClass) ;;
  res <- call_findOneBy entityClass w ;;
  match res with
  | Some r => cache_one r ;; ret res
  | None => ret res
  end.

Definition assertNotNull {A} (val : option A) : M A :=
  match val with
  | Some v => ret v
  | None => throw (AssertionError None)
  end.

Definition findOneOrFail (entityClass : string) (options : FindOptions) : M loc :=
  r <- findOne entityClass options ;; assertNotNull r.

Definition findOneByOrFail (entityClass : string) (w : Where) : M loc :=
  r <- findOneBy entityClass w ;; assertNotNull r.

Definition load (entityClass : string) : M unit :=
  _deferData <- getDeferData entityClass ;;
  if bool_decide (length (ids _deferData) = 0) then ret tt
  else
    getCacheMap entityClass ;;
    for_each (ids _deferData) (λ id,
      known <- gets (λ st, JsMap.has id (Nested.inner entityClass (cacheMap st))) ;;
      if known : bool then ret tt
      else modify (with_cacheMap (Nested.update entityClass (JsMap.set id None)))) ;;
    find entityClass
         (Some {| fo_where := Some (WIdIn (ids _deferData));
                  fo_relations := Some (relations _deferData) |}) ;;
    modify (with_deferred (JsMap.delete entityClass)).

(** [copy] of the package copy-anything. *)
Definition copy (l : loc) : M loc := copy_anything stack_limit l.

(** [v && this.cache(v)] *)
Definition cache_found (v : option loc) : M (option loc) :=
  match v with
  | Some v => c <- cache_one v ;; ret (Some c)
  | None => ret None
  end.

Definition get (entityClass : string) (optionsOrId : string + FindOptions)
  : M (option loc) :=
  match optionsOrId with
  | inl id =>
      load entityClass ;;
      getCacheMap entityClass ;;
      entity <- gets (λ st, Nested.lookup entityClass id (cacheMap st)) ;;
      match entity with
      | Some (Some l) => c <- copy l ;; ret (Some c)
      | Some None => ret None
      | None =>
          flush (Some entityClass) ;;
          v <- call_get entityClass (inl id) ;;
          cache_found v
      end
  | inr options =>
      flush (Some entityClass) ;;
      v <- call_get entityClass (inr options) ;;
      cache_found v
  end.

Definition getOrFail (entityClass : string) (optionsOrId : string + FindOptions)
  : M loc :=
  r <- get entityClass optionsOrId ;; assertNotNull r.

Definition defer (entityClass : string) (id : string)
    (rels : option (list (string * RelVal))) : M DeferredValue :=
  modify (with_classes (JsMap.set entityClass entityClass)) ;;
  getDeferData entityClass ;;
  modify (with_deferred (λ m,
    let d := default new_DeferData (JsMap.get entityClass m) in
    JsMap.set entityClass
      {| ids := JsSet.add id (ids d);
         relations := match rels with
                      | Some r => mergeRelataions (relations d) r
                      | None => relations d
                      end |} m)) ;;
  ret {| dv_entityClass := entityClass; dv_id := id; dv_memo := None |}.

(** [DeferredValue.get]: the first call asks the store, later calls
    repeat what the first produced. *)
Definition DeferredValue_get (h : DeferredValue) (st : St)
  : St * DeferredValue * Outcome (option loc) :=
  match dv_memo h with
  | Some r => (st, h, r)
  | None =>
      let '(st', r) := get (dv_entityClass h) (inl (dv_id h)) st in
      (st', {| dv_entityClass := dv_entityClass h; dv_id := dv_id h;
               dv_memo := Some r |}, r)
  end.

(** *** A session

    What the application does between the start of a session and its
    end: it builds entities and changes them, among them those [get]
    handed to it, and it calls the store with cache. A call that throws
    leaves the state as it was when it threw. *)
Inductive Op :=
| New (o : Obj)
| SetProp (l : loc) (p : string) (v : Value)
| SetId (l : loc) (i : string)
| Insert (entities : list loc)
| Upsert (entities : list loc)
| Save (entities : list loc)
| Remove
| Count (entityClass : string) (options : option FindOptions)
| CountBy (entityClass : string) (w : Where)
| Find (entityClass : string) (options : option FindOptions)
| FindBy (entityClass : string) (w : Where)
| FindOne (entityClass : string) (options : FindOptions)
| FindOneBy (entityClass : string) (w : Where)
| FindOneOrFail (entityClass : string) (options : FindOptions)
| FindOneByOrFail (entityClass : string) (w : Where)
| Get (entityClass : string) (optionsOrId : string + FindOptions)
| GetOrFail (entityClass : string) (optionsOrId : string + FindOptions)
| Defer (entityClass : string) (id : string) (rels : option (list (string * RelVal)))
| Resolve (h : DeferredValue)
| Flush (entityClass : option string).

Definition exec (op : Op) (st : St) : St :=
  match op with
  | New o => (alloc o st).1
  | SetProp l p v => (write_prop l p v st).1
  | SetId l i => (write_id l i st).1
  | Insert es => (insert es st).1
  | Upsert es => (upsert es st).1
  | Save es => (save es st).1
  | Remove => (remove st).1
  | Count c o => (count c o st).1
  | CountBy c w => (countBy c w st).1
  | Find c o => (find c o st).1
  | FindBy c w => (findBy c w st).1
  | FindOne c o => (findOne c o st).1
  | FindOneBy c w => (findOneBy c w st).1
  | FindOneOrFail c o => (findOneOrFail c o st).1
  | FindOneByOrFail c w => (findOneByOrFail c w st).1
  | Get c a => (get c a st).1
  | GetOrFail c a => (getOrFail c a st).1
  | Defer c i r => (defer c i r st).1
  | Resolve h => (DeferredValue_get h st).1.1
  | Flush c => (flush c st).1
  end.

Definition run (ops : list Op) (st : St) : St := foldl (λ st op, exec op st) st ops.
End ops.
End V1.

(** ** The variant with a plain deferred list *)

Module V2.
Section ops.
Context `{rt : Runtime}.

Local Abbreviation St := (State (list string)).
Local Abbreviation M := (M (S:=State (list string))).

Definition getDeferList (name : string) : M unit :=
  modify (with_deferred (λ m,
    match JsMap.get name m with
    | Some _ => m
    | None => JsMap.set name [] m
    end)).

Definition deferList_of (name : string) (st : St) : list string :=
  default [] (JsMap.get name (deferred st)).

(** A mutation of the set registered under [name]. *)
Definition update_deferList (name : string) (f : list string → list string)
  : M unit :=
  modify (with_deferred (λ m, JsMap.set name (f (default [] (JsMap.get name m))) m)).

(** One round of [for (const relation of metadata.relations)]. *)
Definition cache_relation (rec : list loc → M (list loc)) (entity : loc)
    (relation : RelationMetadata) : M unit :=
  value <- read_prop entity (rel_propertyName relation) ;;
  match value with
  | VUndefined | VNull => ret tt
  | VRef l => rec [l] ;; ret tt
  | VArr ls => rec ls ;; ret tt
  | VPrim _ => throw TypeError
  end.

(** One round of [for (const entity of entities)] in [cache]. *)
Definition cache_entity (rec : list loc → M (list loc)) (mapName : string)
    (entity : loc) : M loc :=
  eid <- id_of entity ;;
  update_deferList mapName (JsSet.delete eid) ;;
  modify (with_cacheMap (Nested.update mapName (JsMap.set eid (Some entity)))) ;;
  cls <- constructor_of entity ;;
  match metadata_of entityMetadatas cls with
  | None => throw (AssertionError None)
  | Some metadata =>
      for_each (md_relations metadata) (cache_relation rec entity) ;;
      ret entity
  end.

(** [cache], on the array [Array.isArray(e) ? e : [e]]; the answer for
    the empty array stands for [undefined]. *)
Fixpoint cache (depth : nat) (entities : list loc) : M (list loc) :=
  match depth with
  | 0 => throw RangeError
  | S depth' =>
      match entities with
      | [] => ret []
      | e0 :: _ =>
          name0 <- constructor_of e0 ;;
          getDeferList name0 ;;
          getCacheMap name0 ;;
          map_each entities (cache_entity (cache depth') name0)
      end
  end.

Definition cache_one (entity : loc) : M loc :=
  cs <- cache stack_limit [entity] ;;
  match cs with
  | c :: _ => ret c
  | [] => throw TypeError
  end.

(** [v && this.cache(v)] *)
Definition cache_found (v : option loc) : M (option loc) :=
  match v with
  | Some v => c <- cache_one v ;; ret (Some c)
  | None => ret None
  end.

Definition insert_entity (entityName : string) (entity : loc) : M unit :=
  eid <- id_of entity ;;
  update_deferList entityName (JsSet.delete eid) ;;
  inInsert <- gets (λ st, JsMap.has eid (Nested.inner entityName (insertMap st))) ;;
  assert (negb inInsert) None ;;
  inUpsert <- gets (λ st, JsMap.has eid (Nested.inner entityName (upsertMap st))) ;;
  assert (negb inUpsert) None ;;
  c <- gets (λ st, Nested.lookup entityName eid (cacheMap st)) ;;
  assert (is_nullish c) None ;;
  modify (with_insertMap (Nested.update entityName (JsMap.set eid entity))) ;;
  modify (with_cacheMap (Nested.update entityName (JsMap.set eid (Some entity)))).

Definition insert (entities : list loc) : M unit :=
  match entities with
  | [] => ret tt
  | e0 :: _ =>
      entityName <- constructor_of e0 ;;
      getDeferList entityName ;;
      getInsertList entityName ;;
      getUpsertList entityName ;;
      getCacheMap entityName ;;
      for_each entities (insert_entity entityName)
  end.

Definition upsert_entity (entityName : string) (entity : loc) : M unit :=
  eid <- id_of entity ;;
  update_deferList entityName (JsSet.delete eid) ;;
  inInsert <- gets (λ st, JsMap.has eid (Nested.inner entityName (insertMap st))) ;;
  (if inInsert : bool then ret tt
   else modify (with_upsertMap (Nested.update entityName (JsMap.set eid entity)))) ;;
  modify (with_cacheMap (Nested.update entityName (JsMap.set eid (Some entity)))).

Definition upsert (entities : list loc) : M unit :=
  match entities with
  | [] => ret tt
  | e0 :: _ =>
      entityName <- constructor_of e0 ;;
      getDeferList entityName ;;
      getInsertList entityName ;;
      getUpsertList entityName ;;
      getCacheMap entityName ;;
      for_each entities (upsert_entity entityName)
  end.

Definition save (entities : list loc) : M unit := upsert entities.

Definition remove : M unit := throw NotImplemented.

(** One round of [for (const name of entityOrder)] in [flush], up to
    the test that ends the loop. *)
Definition flush_entry (name : string) : M unit :=
  getCacheMap name ;;
  getInsertList name ;;
  _insertList <- gets (λ st, Nested.inner name (insertMap st)) ;;
  when (bool_decide (0 < JsMap.size _insertList))
       (call_insert name (JsMap.values _insertList)) ;;
  modify (with_insertMap (Nested.update name (λ _, []))) ;;
  getUpsertList name ;;
  _upsertList <- gets (λ st, Nested.inner name (upsertMap st)) ;;
  when (bool_decide (0 < JsMap.size _upsertList))
       (call_upsert name (JsMap.values _upsertList)) ;;
  modify (with_upsertMap (Nested.update name (λ _, []))).

Fixpoint flush_loop (entityOrder : list string) (entityClass : string)
  : M unit :=
  match entityOrder with
  | [] => ret tt
  | name :: rest =>
      flush_entry name ;;
      if bool_decide (entityClass = name) then ret tt
      else flush_loop rest entityClass
  end.

Definition flush (entityClass : string) : M unit :=
  entityOrder <- getTopologicalOrder ;;
  flush_loop entityOrder entityClass.

Definition count (entityClass : string) (options : option FindOptions) : M nat :=
  flush entityClass ;;
  call_count entityClass (default empty_options options).

Definition countBy (entityClass : string) (w : Where) : M nat :=
  flush entityClass ;;
  call_countBy entityClass w.

Definition find (entityClass : string) (options : option FindOptions)
  : M (list loc) :=
  flush entityClass ;;
  v <- call_find entityClass (default empty_options options) ;;
  cache stack_limit v.

Definition findBy (entityClass : string) (w : Where) : M (list loc) :=
  flush entityClass ;;
  v <- call_findBy entityClass w ;;
  cache stack_limit v.

Definition findOne (entityClass : string) (options : FindOptions)
  : M (option loc) :=
  flush entityClass ;;
  v <- call_findOne entityClass options ;;
  cache_found v.

Definition findOneBy (entityClass : string) (w : Where) : M (option loc) :=
  flush entityClass ;;
  v <- call_findOneBy entityClass w ;;
  cache_found v.

Definition assertNotNull {A} (val : option A) : M A :=
  match val with
  | Some v => ret v
  | None => throw (AssertionError None)
  end.

Definition findOneOrFail (entityClass : string) (options : FindOptions) : M loc :=
  r <- findOne entityClass options ;; assertNotNull r.

Definition findOneByOrFail (entityClass : string) (w : Where) : M loc :=
  r <- findOneBy entityClass w ;; assertNotNull r.

(** One round of [for (const [name, _deferList] of this.deferList)].
    The sets that a round adds to the map are empty and stay so until
    the loop ends, so the loop runs over the names present when it
    starts and reads each set as it is when its round comes. *)
Definition load_entry (name : string) : M unit :=
  _deferList <- gets (deferList_of name) ;;
  if bool_decide (length _deferList = 0) then ret tt
  else
    entityClass <- gets (λ st, JsMap.get name (classes st)) ;;
    match entityClass with
    | None => throw (AssertionError None)
    | Some entityClass =>
        find entityClass
             (Some {| fo_where := Some (WIdIn _deferList); fo_relations := None |}) ;;
        getCacheMap name ;;
        remaining <- gets (deferList_of name) ;;
        for_each remaining (λ id,
          known <- gets (λ st, JsMap.has id (Nested.inner name (cacheMap st))) ;;
          if known : bool then ret tt
          else modify (with_cacheMap (Nested.update name (JsMap.set id None)))) ;;
        update_deferList name (λ _, [])
    end.

Definition load : M unit :=
  names <- gets (λ st, JsMap.keys (deferred st)) ;;
  for_each names load_entry.

Definition get (entityClass : string) (optionsOrId : string + FindOptions)
  : M (option loc) :=
  match optionsOrId with
  | inl id =>
      load ;;
      getCacheMap entityClass ;;
      entity <- gets (λ st, Nested.lookup entityClass id (cacheMap st)) ;;
      match entity with
      | Some (Some l) => c <- structuredClone l ;; ret (Some c)
      | Some None => ret None
      | None =>
          flush entityClass ;;
          v <- call_get entityClass (inl id) ;;
          cache_found v
      end
  | inr options =>
      flush entityClass ;;
      v <- call_get entityClass (inr options) ;;
      cache_found v
  end.

Definition getOrFail (entityClass : string) (optionsOrId : string + FindOptions)
  : M loc :=
  r <- get entityClass optionsOrId ;; assertNotNull r.

Definition defer (entityClass : string) (id : string) : M DeferredValue :=
  modify (with_classes (JsMap.set entityClass entityClass)) ;;
  getDeferList entityClass ;;
  getCacheMap entityClass ;;
  known <- gets (λ st, JsMap.has id (Nested.inner entityClass (cacheMap st))) ;;
  (if known : bool then ret tt
   else update_deferList entityClass (JsSet.add id)) ;;
  ret {| dv_entityClass := entityClass; dv_id := id; dv_memo := None |}.

Definition DeferredValue_get (h : DeferredValue) (st : St)
  : St * DeferredValue * Outcome (option loc) :=
  match dv_memo h with
  | Some r => (st, h, r)
  | None =>
      let '(st', r) := get (dv_entityClass h) (inl (dv_id h)) st in
      (st', {| dv_entityClass := dv_entityClass h; dv_id := dv_id h;
               dv_memo := Some r |}, r)
  end.

(** *** A session of the second variant

    What an application can do with the store and with the objects it
    holds, one step after the other. A step that throws leaves the state
    it has reached, and the session goes on. *)
Inductive Op :=
| New (o : Obj)
| SetProp (l : loc) (p : string) (v : Value)
| SetId (l : loc) (i : string)
| Insert (entities : list loc)
| Upsert (entities : list loc)
| Save (entities : list loc)
| Remove
| Count (entityClass : string) (options : option FindOptions)
| CountBy (entityClass : string) (w : Where)
| Find (entityClass : string) (options : option FindOptions)
| FindBy (entityClass : string) (w : Where)
| FindOne (entityClass : string) (options : FindOptions)
| FindOneBy (entityClass : string) (w : Where)
| FindOneOrFail (entityClass : string) (options : FindOptions)
| FindOneByOrFail (entityClass : string) (w : Where)
| Get (entityClass : string) (optionsOrId : string + FindOptions)
| GetOrFail (entityClass : string) (optionsOrId : string + FindOptions)
| Defer (entityClass : string) (id : string)
| Resolve (h : DeferredValue)
| Flush (entityClass : string).

Definition exec (op : Op) (st : St) : St :=
  match op with
  | New o => (alloc o st).1
  | SetProp l p v => (write_prop l p v st).1
  | SetId l i => (write_id l i st).1
  | Insert es => (insert es st).1
  | Upsert es => (upsert es st).1
  | Save es => (save es st).1
  | Remove => (remove st).1
  | Count c o => (count c o st).1
  | CountBy c w => (countBy c w st).1
  | Find c o => (find c o st).1
  | FindBy c w => (findBy c w st).1
  | FindOne c o => (findOne c o st).1
  | FindOneBy c w => (findOneBy c w st).1
  | FindOneOrFail c o => (findOneOrFail c o st).1
  | FindOneByOrFail c w => (findOneByOrFail c w st).1
  | Get c a => (get c a st).1
  | GetOrFail c a => (getOrFail c a st).1
  | Defer c i => (defer c i st).1
  | Resolve h => (DeferredValue_get h st).1.1
  | Flush c => (flush c st).1
  end.

Definition run (ops : list Op) (st : St) : St := foldl (λ st op, exec op st) st ops.
End ops.
End V2.

(** ** The batch handler of the squid ([src/main.ts])

    The handler is written against [./store] and uses three of its
    operations; either variant provides them. *)

Class StoreWithCache (D : Type) `{Runtime} := {
  swc_insert : list loc → M (S:=State D) unit;
  swc_defer : string → string → M (S:=State D) DeferredValue;
  swc_get : DeferredValue → State D → State D * DeferredValue * Outcome (option loc);
}.

#[export] Instance V1_StoreWithCache `{Runtime} : StoreWithCache V1.DeferData := {|
  swc_insert := V1.insert;
  swc_defer := λ entityClass id, V1.defer entityClass id None;
  swc_get := V1.DeferredValue_get;
|}.

#[export] Instance V2_StoreWithCache `{Runtime} : StoreWithCache (list string) := {|
  swc_insert := V2.insert;
  swc_defer := V2.defer;
  swc_get := V2.DeferredValue_get;
|}.

Module Main.

(** What the handler reads of a block header, a transaction and a log.
    Numbers are kept as their printed form. *)
Record Block := { height : string; timestamp : string }.

Record Transaction := { hash : string }.

Record Log := {
  log_id : string;
  topics : list string;
  data : string;
  log_block : Block;
  transaction : option Transaction;
}.

Record BlockData := { header : Block; logs : list Log }.

Record TransferEvent := {
  te_id : string;
  te_block : Block;
  te_transaction : Transaction;
  fromId : string;
  from : DeferredValue;
  toId : string;
  to : DeferredValue;
  amount : string;
}.

(** What the handler takes from generated code and from the language:
    the topic and the decoder of the ERC-20 [Transfer] event, which
    yields [from], [to] and [value] or throws; [toLowerCase]; and the
    constructors of the two model classes, [new Account({id})] and
    [new Transfer({id, blockNumber, timestamp, txHash, from, to, amount})]. *)
Class Generated := {
  Transfer_topic : string;
  Transfer_decode : Log → Outcome (string * string * string);
  toLowerCase : string → string;
  new_Account : string → Obj;
  new_Transfer : string → string → string → string → loc → loc → string → Obj;
}.

(** [new StoreWithCache(ctx.store)]: the maps of the new object are
    empty; the heap, the store and the calls made on it are what they
    were. *)
Definition new_StoreWithCache {D} `{Store} (st : State D) : State D :=
  {| heap := heap st; db := db st; calls := calls st; deferred := [];
     cacheMap := []; classes := []; insertMap := []; upsertMap := [] |}.

Section handler.
Context {D : Type} `{rt : Runtime} `{gen : Generated} `{swc : !StoreWithCache D}.
Local Abbreviation M := (M (S:=State D)).

(** [assertNotNull] of the processor package, with its message. *)
Definition assertNotNull {A} (val : option A) (msg : string) : M A :=
  match val with
  | Some v => ret v
  | None => throw (AssertionError (Some msg))
  end.

(** [ctx.log.debug] writes to the log of the process and is left out. *)
Definition getTransfer (log : Log) : M TransferEvent :=
  event <- (λ st, (st, Transfer_decode log)) ;;
  let '(event_from, event_to, event_value) := event in
  let from := toLowerCase event_from in
  let to := toLowerCase event_to in
  let amount := event_value in
  transaction <- assertNotNull (transaction log) "Missing transaction" ;;
  from_value <- swc_defer "Account" from ;;
  to_value <- swc_defer "Account" to ;;
  ret {| te_id := log_id log; te_block := log_block log;
         te_transaction := transaction;
         fromId := from; from := from_value;
         toId := to; to := to_value;
         amount := amount |}.

Definition createAccount (id : string) : M loc :=
  acc <- alloc (new_Account id) ;;
  swc_insert [acc] ;;
  ret acc.

(** [await t.from.get()]. The handle is not used again, so what it
    keeps of the answer is dropped. *)
Definition DeferredValue_get (h : DeferredValue) : M (option loc) :=
  λ st, let '(st', _, r) := swc_get h st in (st', r).

Fixpoint processTransfers_loop (transfersData : list TransferEvent)
    (transfers : list loc) : M (list loc) :=
  match transfersData with
  | [] => ret transfers
  | t :: rest =>
      from <- DeferredValue_get (from t) ;;
      from <- match from with
              | Some from => ret from
              | None => createAccount (fromId t)
              end ;;
      to <- DeferredValue_get (to t) ;;
      to <- match to with
            | Some to => ret to
            | None => createAccount (toId t)
            end ;;
      transfer <- alloc (new_Transfer (te_id t) (height (te_block t))
                           (timestamp (te_block t)) (hash (te_transaction t))
                           from to (amount t)) ;;
      processTransfers_loop rest (transfers ++ [transfer])
  end.

Definition processTransfers (transfersData : list TransferEvent) : M unit :=
  transfers <- processTransfers_loop transfersData [] ;;
  swc_insert transfers.

(** [for (let log of block.logs)] *)
Fixpoint logs_loop (logs : list Log) (transfers : list TransferEvent)
  : M (list TransferEvent) :=
  match logs with
  | [] => ret transfers
  | log :: rest =>
      if bool_decide (topics log !! 0%nat = Some Transfer_topic)
      then t <- getTransfer log ;; logs_loop rest (transfers ++ [t])
      else logs_loop rest transfers
  end.

(** [for (let block of ctx.blocks)] *)
Fixpoint blocks_loop (blocks : list BlockData) (transfers : list TransferEvent)
  : M (list TransferEvent) :=
  match blocks with
  | [] => ret transfers
  | block :: rest =>
      transfers <- logs_loop (logs block) transfers ;;
      blocks_loop rest transfers
  end.

(** The function given to [processor.run], on the blocks of a batch. *)
Definition handler (blocks : list BlockData) : M unit :=
  modify new_StoreWithCache ;;
  transfers <- blocks_loop blocks [] ;;
  processTransfers transfers.
End handler.
End Main.

(** ** A runtime to run the examples in

    A store that keeps its rows in a list, with the scalar columns of the
    entities it was given, and the depth-first topological sort of the
    graph package. The schema is the one of the squid: a [Transfer] refers
    to two [Account]s. *)

Module Demo.
Definition is_scalar (v : Value) : bool :=
  match v with
  | VRef _ | VArr _ => false
  | _ => true
  end.

Definition row_of (o : Obj) : Obj :=
  {| constructor_name := constructor_name o; id := id o;
     props := filter (λ kv, is_scalar kv.2 = true) (props o) |}.

Definition same_row (a b : Obj) : bool :=
  bool_decide (constructor_name a = constructor_name b ∧ id a = id b).

Definition put_row (db : list Obj) (o : Obj) : list Obj :=
  if existsb (same_row o) db
  then (λ r, if same_row o r then o else r) <$> db
  else db ++ [o].

Definition matches (cls : string) (w : option Where) (o : Obj) : bool :=
  bool_decide (constructor_name o = cls) &&
  match w with
  | Some (WIdIn ids) => bool_decide (id o ∈ ids)
  | _ => true
  end.

Definition rows (db : list Obj) (cls : string) (w : option Where) : Fetched :=
  let found := filter (λ o, matches cls w o = true) db in
  {| fetched_objects := found; fetched_roots := seq 0 (length found) |}.

Definition first_row (f : Fetched) : Fetched :=
  {| fetched_objects := take 1 (fetched_objects f);
     fetched_roots := take 1 (fetched_roots f) |}.

#[export] Instance store : Store := {|
  DB := list Obj;
  store_insert db h ls := db ++ (row_of <$> omap (λ l, h !! l) ls);
  store_upsert db h ls := foldl put_row db (row_of <$> omap (λ l, h !! l) ls);
  store_find db cls o := rows db cls (fo_where o);
  store_findBy db cls w := rows db cls (Some w);
  store_findOne db cls o := first_row (rows db cls (fo_where o));
  store_findOneBy db cls w := first_row (rows db cls (Some w));
  store_get db cls a :=
    first_row (rows db cls match a with
                           | inl i => Some (WIdIn [i])
                           | inr o => fo_where o
                           end);
  store_count db cls o := length (fetched_objects (rows db cls (fo_where o)));
  store_countBy db cls w := length (fetched_objects (rows db cls (Some w)));
|}.

(** The depth-first search of the graph package: a node is listed once
    all the nodes it points to are. *)
Fixpoint DFSVisit (fuel : nat) (g : Graph.t) (acc : list string * list string)
    (node : string) : list string * list string :=
  match fuel with
  | 0 => acc
  | S fuel' =>
      if bool_decide (node ∈ acc.1) then acc
      else
        let acc' := foldl (DFSVisit fuel' g) (node :: acc.1, acc.2)
                          (Graph.adjacent node g) in
        (acc'.1, acc'.2 ++ [node])
  end.

Definition depthFirstSearch (g : Graph.t) : list string :=
  (foldl (DFSVisit (S (length (Graph.nodes g))) g) ([], []) (Graph.nodes g)).2.

Definition dfs_topologicalSort (g : Graph.t) : list string :=
  reverse (depthFirstSearch g).

Definition Account : EntityMetadata :=
  {| md_name := "Account"; columns := []; md_relations := []; foreignKeys := [] |}.

Definition Transfer : EntityMetadata :=
  {| md_name := "Transfer";
     columns :=
       [ {| propertyName := "blockNumber"; relationMetadata := None |};
         {| propertyName := "from";
            relationMetadata :=
              Some {| rel_propertyName := "from"; isOneToMany := false |} |};
         {| propertyName := "to";
            relationMetadata :=
              Some {| rel_propertyName := "to"; isOneToMany := false |} |};
         {| propertyName := "amount"; relationMetadata := None |} ];
     md_relations :=
       [ {| rel_propertyName := "from"; isOneToMany := false |};
         {| rel_propertyName := "to"; isOneToMany := false |} ];
     foreignKeys := ["Account"; "Account"] |}.

#[export] Instance runtime : Runtime := {|
  rt_store := store;
  entityMetadatas := [Transfer; Account];
  topologicalSort := dfs_topologicalSort;
  stack_limit := 8;
|}.

Definition account (i : string) : Obj :=
  {| constructor_name := "Account"; id := i; props := [] |}.

Definition transfer (i : string) (from to : loc) (amount : string) : Obj :=
  {| constructor_name := "Transfer"; id := i;
     props := [("from", VRef from); ("to", VRef to); ("amount", VPrim amount)] |}.

(** Two accounts and a transfer between them, as the application builds
    them, in a session that has done nothing yet. *)
Definition objects : list Obj :=
  [account "0xabc"; account "0xdef"; transfer "t1" 0 1 "5"].

Definition start {D} : State D := with_heap (λ _, objects) (init (D:=D) []).

(** The first account and the transfer are inserted and wait for the
    next flush. *)
Definition pending : State V1.DeferData :=
  ((V1.insert [0] ;; V1.insert [2]) start).1.

(** The same in the second variant. *)
Definition pending2 : State (list string) :=
  ((V2.insert [0] ;; V2.insert [2]) start).1.

(** An account, a transfer from it, and the same transfer as the
    application builds it again later, with another amount and without
    its sender. *)
Definition revisions : list Obj :=
  [account "0xabc";
   {| constructor_name := "Transfer"; id := "t1";
      props := [("from", VRef 0); ("amount", VPrim "5")] |};
   {| constructor_name := "Transfer"; id := "t1";
      props := [("amount", VPrim "7")] |}].



(** A new session over a store that has one transfer, of the amount
    5. *)
Definition cold {D} : State D :=
  init (D:=D) [{| constructor_name := "Transfer"; id := "t1";
                  props := [("amount", VPrim "5")] |}].

(** The generated code, for logs that carry the fields of the event in
    their data as [from,to,value]. *)
Definition lower (c : Ascii.ascii) : Ascii.ascii :=
  let n := Ascii.nat_of_ascii c in
  if bool_decide (65 ≤ n ≤ 90)%nat then Ascii.ascii_of_nat (n + 32) else c.

Fixpoint lowercase (s : string) : string :=
  match s with
  | EmptyString => EmptyString
  | String c s => String (lower c) (lowercase s)
  end.

Fixpoint split_at_comma (s : string) : list string :=
  match s with
  | EmptyString => [EmptyString]
  | String c s =>
      if bool_decide (Ascii.nat_of_ascii c = 44%nat) then EmptyString :: split_at_comma s
      else match split_at_comma s with
           | w :: ws => String c w :: ws
           | [] => [String c EmptyString]
           end
  end.

#[export] Instance generated : Main.Generated := {|
  Main.Transfer_topic := "0xddf252ad";
  Main.Transfer_decode := λ log,
    match split_at_comma (Main.data log) with
    | [f; t; v] => Ok (f, t, v)
    | _ => Throw TypeError
    end;
  Main.toLowerCase := lowercase;
  Main.new_Account := account;
  Main.new_Transfer := λ i blockNumber timestamp txHash from to amount,
    {| constructor_name := "Transfer"; id := i;
       props := [("blockNumber", VPrim blockNumber); ("timestamp", VPrim timestamp);
                 ("txHash", VPrim txHash); ("from", VRef from); ("to", VRef to);
                 ("amount", VPrim amount)] |};
|}.

Definition transfer_log (i data : string) : Main.Log :=
  {| Main.log_id := i; Main.topics := ["0xddf252ad"]; Main.data := data;
     Main.log_block := {| Main.height := "7"; Main.timestamp := "1700" |};
     Main.transaction := Some {| Main.hash := "0xfeed" |} |}.

(** A batch of one block with two transfers and a log of another
    event. *)
Definition batch : list Main.BlockData :=
  [{| Main.header := {| Main.height := "7"; Main.timestamp := "1700" |};
      Main.logs :=
        [transfer_log "t1" "0xAB,0xcd,5";
         {| Main.log_id := "a1"; Main.topics := ["0x8c5be1e5"]; Main.data := "";
            Main.log_block := {| Main.height := "7"; Main.timestamp := "1700" |};
            Main.transaction := None |};
         transfer_log "t2" "0xcd,0xEF,9"] |}].
End Demo.

(** * The vocabulary of the properties *)

(** ** A frame rule for the state monad *)

Section frames_def.
Context {S : Type} (R : S → S → Prop).

(** [m] takes every state to a state related to it by [R], whether it
    returns or throws. *)
Definition frames {A} (m : M (S:=S) A) : Prop := ∀ s, R s (m s).1.
End frames_def.

(** The relation between two states that agree on what [f] reads. *)
Definition keeps {S A} (f : S → A) : S → S → Prop := λ s s', f s' = f s.

(** Two states with the same heap, the same deferred-load registry and
    the same entry, or none, under every type and id of the cache. *)
Definition same_cache {D} `{Store} (s s' : State D) : Prop :=
  heap s' = heap s ∧ deferred s' = deferred s ∧
  ∀ name k, Nested.lookup name k (cacheMap s') = Nested.lookup name k (cacheMap s).

Section pending_def.
Context {D : Type} `{rt : Runtime}.
Implicit Types (st : State D).

(** The calls one round of the loop of [flush] makes for [name]: a bulk
    insert when the insert buffer of [name] holds something, then a bulk
    upsert when its upsert buffer does. *)
Definition pending_calls st (name : string) : list StoreCall :=
  (if bool_decide (0 < JsMap.size (Nested.inner name (insertMap st)))
   then [CInsert name (snapshot st (JsMap.values (Nested.inner name (insertMap st))))]
   else []) ++
  (if bool_decide (0 < JsMap.size (Nested.inner name (upsertMap st)))
   then [CUpsert name (snapshot st (JsMap.values (Nested.inner name (upsertMap st))))]
   else []).
End pending_def.

(** ** Orders *)

(** [u] occurs in [l] somewhere before [v]. *)
Definition precedes (u v : string) (l : list string) : Prop :=
  ∃ l1 l2 l3, l = l1 ++ u :: l2 ++ v :: l3.

(** What the graph package promises of its topological sort on a graph
    without cycles: every node is listed once, and a node is listed before
    the nodes its edges lead to. *)
Definition is_topological_order (g : Graph.t) (l : list string) : Prop :=
  NoDup l ∧ (∀ n, n ∈ Graph.nodes g → n ∈ l) ∧
  ∀ u v, Graph.has_edge u v g → precedes u v l.

(** The types a flush gets to: those of the order up to the type it is to
    stop at, that one included, or all of them. *)
Fixpoint flushed (entityClass : option string) (entityOrder : list string)
  : list string :=
  match entityOrder with
  | [] => []
  | name :: rest =>
      name :: if bool_decide (entityClass = Some name) then []
              else flushed entityClass rest
  end.

(** ** The entity cache *)

Section cache_vocabulary.
Context {D : Type} `{Store}.
Implicit Types (s : State D).

(** The cache holds the object [l] for the id [k] of the type [name]. *)
Definition present s (name k : string) (l : loc) : Prop :=
  Nested.lookup name k (cacheMap s) = Some (Some l).

(** The objects the cache holds exist, and the cache holds an object for
    one id only. This is so whatever the application writes into the
    objects it was handed. *)
Definition cache_wf s : Prop :=
  (∀ name k l, present s name k l → is_Some (heap s !! l)) ∧
  (∀ name k name' k' l, present s name k l → present s name' k' l → k = k').

(** What caching entities does to a state: objects are added to the heap
    and properties are written; an object keeps its class, and its id
    unless it is the object the cache holds for another id, which then
    becomes its id; the cache keeps the objects it holds, every object it
    comes to hold is a new one that carries the id it is held for, and an
    entry changes only by coming to hold an object; nothing else
    changes. *)
Record cache_effect s s' : Prop := {
  ce_wf : cache_wf s';
  ce_grows : (length (heap s) ≤ length (heap s'))%nat;
  ce_objects : ∀ l o, heap s !! l = Some o →
    ∃ o', heap s' !! l = Some o' ∧ constructor_name o' = constructor_name o ∧
          (id o' = id o ∨ ∃ name, present s name (id o') l);
  ce_new : ∀ name k l, present s' name k l →
    present s name k l ∨
    ((length (heap s) ≤ l)%nat ∧ ∃ o', heap s' !! l = Some o' ∧ id o' = k);
  ce_stable : ∀ name k l, present s name k l → present s' name k l;
  ce_entries : ∀ name k,
    Nested.lookup name k (cacheMap s') = Nested.lookup name k (cacheMap s) ∨
    ∃ l, present s' name k l;
  ce_insertMap : insertMap s' = insertMap s;
  ce_upsertMap : upsertMap s' = upsertMap s;
  ce_deferred : deferred s' = deferred s;
  ce_classes : classes s' = classes s;
  ce_calls : calls s' = calls s;
  ce_db : db s' = db s;
}.

Definition cache_step s s' : Prop := cache_wf s → cache_effect s s'.
End cache_vocabulary.

(** ** The write buffers *)

Section buffer_vocabulary.
Context {D : Type} `{Store}.
Implicit Types (s : State D).

(** The id [k] waits in the insert buffer of the type [name]. *)
Definition pending_insert s (name k : string) : Prop :=
  JsMap.has k (Nested.inner name (insertMap s)) = true.

(** The id [k] waits in the upsert buffer of the type [name]. *)
Definition pending_upsert s (name k : string) : Prop :=
  JsMap.has k (Nested.inner name (upsertMap s)) = true.

(** No id waits in both buffers of a type. *)
Definition buffers_disjoint s : Prop :=
  ∀ name k, ¬ (pending_insert s name k ∧ pending_upsert s name k).

(** What holds of the state of a session at any time. *)
Definition session_inv s : Prop := cache_wf s ∧ buffers_disjoint s.

Definition inv_step s s' : Prop := session_inv s → session_inv s'.
End buffer_vocabulary.

(** ** What a read leaves alone *)

(** The part of the state a flush works on: the calls made so far, the
    database, and the two write buffers. *)
Definition outside {D} `{Store} (s : State D) :=
  (calls s, db s, insertMap s, upsertMap s).

(** The part of the state a flush reads. *)
Definition flush_input {D} `{Store} (s : State D) :=
  (heap s, calls s, db s, insertMap s, upsertMap s).

(** The state [s'] is the state [flushed_state] after the one call [q]
    on the store: the read that led to [s'] flushed first and asked the
    store afterwards, and it left the buffers as the flush left them. *)
Definition flushes_then_asks {D} `{Store} (flushed_state s' : State D)
    (q : StoreCall) : Prop :=
  calls s' = calls flushed_state ++ [q] ∧
  insertMap s' = insertMap flushed_state ∧
  upsertMap s' = upsertMap flushed_state.

(** The calls of [s] are still there in [s'], in front of those made since. *)
Definition extends {D} `{Store} (s s' : State D) : Prop :=
  ∃ cs, calls s' = calls s ++ cs.

(** Everything in the state but the heap. *)
Definition but_heap {D} `{Store} (s : State D) :=
  (calls s, db s, insertMap s, upsertMap s, deferred s, cacheMap s, classes s).

(** Since [s], the store was called for writes only. *)
Definition writes_only {D} `{Store} (s s' : State D) : Prop :=
  ∃ cs, calls s' = calls s ++ cs ∧ Forall (λ c, is_query c = false) cs.

(** Every type and id that has an entry in the cache of [s], an entity or
    the absent marker, has one in the cache of [s']. *)
Definition entries_kept {D} `{Store} (s s' : State D) : Prop :=
  ∀ name k, is_Some (Nested.lookup name k (cacheMap s)) →
            is_Some (Nested.lookup name k (cacheMap s')).

(** ** Deferred loads (first variant) *)

(** The ids that wait in the deferred set of a type. *)
Definition V1_deferred_ids `{Store} (s : State V1.DeferData) (cls : string)
  : list string :=
  V1.ids (default V1.new_DeferData (JsMap.get cls (deferred s))).

(** [defer] called for each of the ids, with the relations asked for
    with it, one call after the other. *)
Definition V1_defer_all `{Runtime} (cls : string)
    (requests : list (string * option (list (string * RelVal))))
    (s : State V1.DeferData) : State V1.DeferData :=
  foldl (λ s r, (V1.defer cls r.1 r.2 s).1) s requests.


(** ** What a computation can throw *)

(** Whatever [m] throws satisfies [P]. *)
Definition raises {S A} (P : Error → Prop) (m : M (S:=S) A) : Prop :=
  ∀ s s' e, m s = (s', Throw e) → P e.

(** An error other than the failure of an [assert] without a message,
    which is what the checks of [insert] and [assertNotNull] throw. *)
Definition not_bare_assertion (e : Error) : Prop := e ≠ AssertionError None.

(** ** Known ids *)

Section known_vocabulary.
Context {D : Type} `{rt : Runtime}.
Implicit Types (s : State D).

(** What the three checks of [insert] look for: the id waits in the
    insert buffer or in the upsert buffer of the type, or the cache holds
    an entity for it. *)
Definition duplicate s (name k : string) : Prop :=
  pending_insert s name k ∨ pending_upsert s name k ∨ ∃ l, present s name k l.

(** The state once the buffers and the cache map of [name] are
    registered, as [insert] does before its loop. *)
Definition registered (name : string) s : State D :=
  with_cacheMap (Nested.ensure name)
    (with_upsertMap (Nested.ensure name)
       (with_insertMap (Nested.ensure name) s)).

(** The entity sets none of the relations its type declares. *)
Definition sets_no_relation (o : Obj) : Prop :=
  ∃ md, metadata_of entityMetadatas (constructor_name o) = Some md ∧
        ∀ c rm, c ∈ columns md → relationMetadata c = Some rm →
                obj_has (rel_propertyName rm) o = false.
End known_vocabulary.

(** The same for the second variant, which registers the deferred set of
    the type as well. *)
Definition V2_registered `{Runtime} (name : string) (s : State (list string))
  : State (list string) :=
  registered name
    (with_deferred (λ m, match JsMap.get name m with
                         | Some _ => m
                         | None => JsMap.set name [] m
                         end) s).

(** The state once [k] is taken out of the deferred set of [name]. *)
Definition V2_undeferred `{Runtime} (name k : string) (s : State (list string))
  : State (list string) :=
  with_deferred (λ m, JsMap.set name (JsSet.delete k (default [] (JsMap.get name m))) m) s.

(** The ids of the entities of an array, in the order of the array. *)
Definition ids_of {D} `{Store} (s : State D) (es : list loc) : list string :=
  omap (λ e, id <$> heap s !! e) es.

(** ** What the write operations of the first variant do to a state *)

Section write_vocabulary.
Context {D : Type} `{Store}.
Implicit Types (s : State D).

(** The cache does not hold the object [l]: it is an object of the
    application. *)
Definition unheld s (l : loc) : Prop := ∀ name k, ¬ present s name k l.

(** An object of the application keeps its class and its id and stays
    one; the cache keeps the objects it holds, and the buffers the ids
    that wait in them. *)
Record write_effect s s' : Prop := {
  we_wf : cache_wf s';
  we_objects : ∀ l o, heap s !! l = Some o → unheld s l →
    ∃ o', heap s' !! l = Some o' ∧ constructor_name o' = constructor_name o ∧
          id o' = id o ∧ unheld s' l;
  we_present : ∀ name k l, present s name k l → present s' name k l;
  we_insert : ∀ name k, pending_insert s name k → pending_insert s' name k;
  we_upsert : ∀ name k, pending_upsert s name k → pending_upsert s' name k;
}.

Definition write_step s s' : Prop := cache_wf s → write_effect s s'.
End write_vocabulary.

(** ** The bulk upsert of a type *)



(** ** Ids the store does not have *)

(** A find on the type [cls] with the filter [{id: In(ids)}] answers with
    no row, whatever relations it is to load. *)
Definition finds_nothing `{Store} (d : DB) (cls : string) (ids : list string)
  : Prop :=
  ∀ q, fo_where q = Some (WIdIn ids) → fetched_roots (store_find d cls q) = [].

(** ** Copies *)

(** The value is no reference to an entity and no array of them. *)
Definition no_reference (v : Value) : Prop :=
  match v with
  | VRef _ | VArr _ => False
  | _ => True
  end.

(** ** More on flushes *)

(** Nothing waits in the two write buffers of the type. *)
Definition nothing_pending {D} `{Store} (s : State D) (name : string) : Prop :=
  Nested.inner name (insertMap s) = [] ∧ Nested.inner name (upsertMap s) = [].

(** The two write buffers of the type hold the same in both states. *)
Definition same_pending {D} `{Store} (s s' : State D) (name : string) : Prop :=
  Nested.inner name (insertMap s') = Nested.inner name (insertMap s) ∧
  Nested.inner name (upsertMap s') = Nested.inner name (upsertMap s).

(** The call is a bulk insert or a bulk upsert for one of the types. *)
Definition writes_one_of (types : list string) (c : StoreCall) : Prop :=
  ∃ n es, n ∈ types ∧ (c = CInsert n es ∨ c = CUpsert n es).

(** ** Checks that can be run *)

(** Some cache map holds the object [l]. *)
Definition held_b {D} `{Store} (s : State D) (l : loc) : bool :=
  existsb (λ m, existsb (λ kv, bool_decide (kv.2 = Some l)) m.2) (cacheMap s).

(** ** The state of a session (second variant) *)

Section V2_session_vocabulary.
Context `{rt : Runtime}.
Implicit Types (s : State (list string)).

(** Every type some id is deferred for has its class registered: this
    is what [load] asserts before it asks the store. *)
Definition V2_classes_known s : Prop :=
  ∀ name, V2.deferList_of name s ≠ [] → is_Some (JsMap.get name (classes s)).

(** The cache holds an entity for every id that waits in a buffer. *)
Definition V2_pending_cached s : Prop :=
  ∀ name k, pending_insert s name k ∨ pending_upsert s name k →
            ∃ l, present s name k l.

Definition V2_session_inv s : Prop :=
  buffers_disjoint s ∧ V2_classes_known s ∧ V2_pending_cached s.

Definition V2_inv_step s s' : Prop := V2_session_inv s → V2_session_inv s'.
End V2_session_vocabulary.

(** The object [oc] has the id of [o], and what [o] has in every
    property that holds no reference. *)
Definition agrees_on_scalars (o oc : Obj) : Prop :=
  id oc = id o ∧
  ∀ p, no_reference (obj_get p o) → obj_get p oc = obj_get p o.

(** ** Relation paths *)

(** The relations object asks for the relation at the end of the path:
    every key of the path but the last leads to a nested object, and the
    last leads to a nested object or to [true]. The empty path stands for
    the entity itself. *)
Fixpoint requests (r : list (string * RelVal)) (path : list string) : bool :=
  match path with
  | [] => true
  | key :: rest =>
      match JsMap.get key r with
      | Some (RFlag b) => b && bool_decide (rest = [])
      | Some (RNested r') => requests r' rest
      | None => false
      end
  end.

(** A relations object as JavaScript has them: no key occurs twice, at
    any level. *)
Fixpoint rel_wf_val (v : RelVal) : Prop :=
  match v with
  | RFlag _ => True
  | RNested r =>
      NoDup r.*1 ∧
      (fix all (r : list (string * RelVal)) : Prop :=
         match r with
         | [] => True
         | (_, v') :: r' => rel_wf_val v' ∧ all r'
         end) r
  end.

Definition rel_wf (r : list (string * RelVal)) : Prop := rel_wf_val (RNested r).

(** The second loop of [mergeRelataions], from the object [acc]. *)
Definition merge_into (acc b : list (string * RelVal)) : list (string * RelVal) :=
  foldl (λ acc kv, JsMap.set kv.1 (merge_value (JsMap.get kv.1 acc) kv.2) acc)
        acc b.

(** The relations deferred for the type [cls] so far. *)
Definition V1_deferred_relations `{Store} (s : State V1.DeferData) (cls : string)
  : list (string * RelVal) :=
  V1.relations (default V1.new_DeferData (JsMap.get cls (deferred s))).

(** ** Answers of the store *)

(** The rows that answer a query are rows of the batch it returns. *)
Definition roots_in_range (f : Fetched) : Prop :=
  Forall (λ r, (r < length (fetched_objects f))%nat) (fetched_roots f).

Definition store_answers_in_range `{Store} : Prop :=
  ∀ d cls,
    (∀ q, roots_in_range (store_find d cls q)) ∧
    (∀ w, roots_in_range (store_findBy d cls w)) ∧
    (∀ q, roots_in_range (store_findOne d cls q)) ∧
    (∀ w, roots_in_range (store_findOneBy d cls w)).

(** The object exists and the cache does not hold it: it is the
    caller's alone. *)
Definition callers_own {D} `{Store} (s : State D) (l : loc) : Prop :=
  unheld s l ∧ is_Some (heap s !! l).

(** ** What an operation leaves alone *)

(** The two states have the same calls and database, the same buffer
    for every type, and the same entry, or none, under every type and id
    of the cache. *)
Definition same_store_and_cache {D} `{Store} (s s' : State D) : Prop :=
  calls s' = calls s ∧ db s' = db s ∧
  (∀ name, same_pending s s' name) ∧
  ∀ name k, Nested.lookup name k (cacheMap s') = Nested.lookup name k (cacheMap s).

(** ** Resolving deferred loads (second variant) *)

(** Since [s] no id was deferred, the cache has kept its entries, and
    an id that was deferred is still deferred or has an entry in the
    cache. *)
Definition V2_resolving `{Runtime} (s s' : State (list string)) : Prop :=
  entries_kept s s' ∧
  (∀ name j, j ∈ V2.deferList_of name s' → j ∈ V2.deferList_of name s) ∧
  (∀ name j, j ∈ V2.deferList_of name s →
             j ∈ V2.deferList_of name s' ∨
             is_Some (Nested.lookup name j (cacheMap s'))).

(** ** The batch handler *)

(** A step keeps what holds of the state. *)
Definition preserves {S} (I : S → Prop) : S → S → Prop := λ s s', I s → I s'.

(** The handle [defer] returns for an account. *)
Definition Account_handle (i : string) : DeferredValue :=
  {| dv_entityClass := "Account"; dv_id := i; dv_memo := None |}.

(** The bulk find for accounts. *)
Definition Account_query (rels : option (list (string * RelVal)))
    (ids : list string) : StoreCall :=
  CFind "Account" {| fo_where := Some (WIdIn ids); fo_relations := rels |}.

Section handler_vocabulary.
Context `{gen : Main.Generated}.

(** The logs of a batch that the handler takes for transfers, in the
    order it meets them. *)
Definition transfer_logs (blocks : list Main.BlockData) : list Main.Log :=
  filter (λ log, Main.topics log !! 0%nat = Some Main.Transfer_topic)
         (concat (Main.logs <$> blocks)).

(** The accounts of a log that decodes: its sender and its receiver in
    lower case, added to the ids met before. *)
Definition add_accounts (ids : list string) (log : Main.Log) : list string :=
  match Main.Transfer_decode log with
  | Ok (event_from, event_to, _) =>
      JsSet.add (Main.toLowerCase event_to)
                (JsSet.add (Main.toLowerCase event_from) ids)
  | Throw _ => ids
  end.

(** The account ids of the logs, each once, in the order of their first
    appearance. *)
Definition account_ids (logs : list Main.Log) : list string :=
  foldl add_accounts [] logs.

(** The two handles of the transfer are those [defer] returned for its
    sender and its receiver, and both are among the ids. *)
Definition deferred_in (ids : list string) (t : Main.TransferEvent) : Prop :=
  Main.from t = Account_handle (Main.fromId t) ∧
  Main.to t = Account_handle (Main.toId t) ∧
  Main.fromId t ∈ ids ∧ Main.toId t ∈ ids.
End handler_vocabulary.

(** The states of the handler before the first handle is resolved:
    no call was made since [c0], the buffers are empty, and [ids] are the
    ids deferred, all for accounts. *)
Definition V1_waiting `{Store} (c0 : list StoreCall) (ids : list string)
    (s : State V1.DeferData) : Prop :=
  calls s = c0 ∧ (∀ name, nothing_pending s name) ∧
  V1_deferred_ids s "Account" = ids ∧ V1_deferred_relations s "Account" = [].

Definition V2_waiting `{Runtime} (c0 : list StoreCall) (ids : list string)
    (s : State (list string)) : Prop :=
  calls s = c0 ∧ (∀ name, nothing_pending s name) ∧
  V2.deferList_of "Account" s = ids ∧
  (∀ name, name ≠ "Account" → V2.deferList_of name s = []) ∧
  (ids ≠ [] → JsMap.get "Account" (classes s) = Some "Account") ∧
  ∀ k, Nested.lookup "Account" k (cacheMap s) = None.

(** The states of the handler after that: the calls are [c], nothing is
    deferred, and the cache has an entry for each of the [ids]. *)
Definition V1_resolved `{Store} (c : list StoreCall) (ids : list string)
    (s : State V1.DeferData) : Prop :=
  calls s = c ∧ V1_deferred_ids s "Account" = [] ∧
  ∀ j, j ∈ ids → is_Some (Nested.lookup "Account" j (cacheMap s)).

Definition V2_resolved `{Runtime} (c : list StoreCall) (ids : list string)
    (s : State (list string)) : Prop :=
  calls s = c ∧ (∀ name, V2.deferList_of name s = []) ∧
  ∀ j, j ∈ ids → is_Some (Nested.lookup "Account" j (cacheMap s)).

(** ** Ids the cache knows *)

(** Every type and id the cache of [s] holds an entity for, the cache of
    [s'] holds an entity for. *)
Definition known_kept {D} `{Store} (s s' : State D) : Prop :=
  ∀ name k, (∃ l, present s name k l) → ∃ l', present s' name k l'.

(** The same for a step of the first variant, which keeps the cache
    well formed. *)
Definition known_step {D} `{Store} (s s' : State D) : Prop :=
  cache_wf s → cache_wf s' ∧ known_kept s s'.

(** ** Entities that carry the id they are held for *)

(** If the cache holds the object [l] at all, it holds it for the id
    the object has. This is so for an object the application built, which
    the cache does not hold, and for an object the application was handed
    by the store with cache as long as it does not give it another id. *)
Definition keyed_by_id {D} `{Store} (s : State D) (l : loc) (o : Obj) : Prop :=
  ∀ name k, present s name k l → k = id o.

(** Such objects keep their class and their id, and stay such. *)
Definition keeps_keyed {D} `{Store} (s s' : State D) : Prop :=
  ∀ l o, heap s !! l = Some o → keyed_by_id s l o →
    ∃ o', heap s' !! l = Some o' ∧ constructor_name o' = constructor_name o ∧
          id o' = id o ∧ keyed_by_id s' l o'.

(** ** Columns that [cache] copies by name *)



(** ** What a bulk find brings *)

(** The references a value holds lie in [P]. *)
Definition refs_in (P : loc → Prop) (v : Value) : Prop :=
  match v with
  | VRef l => P l
  | VArr ls => Forall P ls
  | _ => True
  end.

(** The answer of a query is closed: its rows are objects of the batch,
    and so is what the objects of the batch refer to. *)
Definition closed_answer (f : Fetched) : Prop :=
  roots_in_range f ∧
  ∀ o p, o ∈ fetched_objects f →
    refs_in (λ r, (r < length (fetched_objects f))%nat) (obj_get p o).

(** What the store answers when it is asked for the rows of [cls] with
    an id in [ids]: a closed batch; a batch with no object of the id [i];
    rows that set no relation. *)
Definition finds_closed `{Store} (d : DB) (cls : string) (ids : list string)
  : Prop :=
  ∀ q, fo_where q = Some (WIdIn ids) → closed_answer (store_find d cls q).

Definition finds_no `{Store} (i : string) (d : DB) (cls : string)
    (ids : list string) : Prop :=
  ∀ q o, fo_where q = Some (WIdIn ids) →
    o ∈ fetched_objects (store_find d cls q) → id o ≠ i.

Definition finds_plain_rows `{Runtime} (d : DB) (cls : string)
    (ids : list string) : Prop :=
  ∀ q, fo_where q = Some (WIdIn ids) →
    Forall (λ r, ∃ o, fetched_objects (store_find d cls q) !! r = Some o ∧
                      sets_no_relation o)
           (fetched_roots (store_find d cls q)).

Section batch_vocabulary.
Context {D : Type} `{Store}.
Implicit Types (s : State D).

(** The locations of a batch of [n] objects that a query has put into
    the heap from [base] on. *)
Definition in_batch (base n : nat) (l : loc) : Prop :=
  (base ≤ l < base + n)%nat.

(** The objects of the batch are there, they refer to objects of the
    batch only, and the cache holds none of them. *)
Definition batch_ok (base n : nat) s : Prop :=
  (∀ l, in_batch base n l →
        ∃ o, heap s !! l = Some o ∧
             ∀ p, refs_in (in_batch base n) (obj_get p o)) ∧
  (∀ name k l, present s name k l → ¬ in_batch base n l).

(** Caching entities of the batch (first variant): the objects of the
    batch stay as they are and stay out of the cache, and an entry of the
    cache changes only under the id of an object of the batch. *)
Definition caches_batch (base n : nat) s s' : Prop :=
  cache_wf s → batch_ok base n s →
  cache_wf s' ∧ batch_ok base n s' ∧
  (∀ l, in_batch base n l → heap s' !! l = heap s !! l) ∧
  ∀ name k,
    Nested.lookup name k (cacheMap s') = Nested.lookup name k (cacheMap s) ∨
    ∃ l o, in_batch base n l ∧ heap s !! l = Some o ∧ id o = k.

(** The objects from [base] on refer to objects from [base] on. *)
Definition new_refs (base : nat) s : Prop :=
  ∀ l o p, (base ≤ l)%nat → heap s !! l = Some o →
    refs_in (λ r, (base ≤ r)%nat) (obj_get p o).

(** Resolving deferred ids (second variant), with the objects from
    [base] on being those that queries have brought: the heap grows at
    its end only, and an entry of the cache changes only to the absent
    marker, or under the id of an object from [base] on. *)
Definition brings (base : nat) s s' : Prop :=
  (base ≤ length (heap s))%nat → new_refs base s →
  (∃ more, heap s' = heap s ++ more) ∧ new_refs base s' ∧
  ∀ name k,
    Nested.lookup name k (cacheMap s') = Nested.lookup name k (cacheMap s) ∨
    Nested.lookup name k (cacheMap s') = Some None ∨
    ∃ l o, (base ≤ l)%nat ∧ heap s' !! l = Some o ∧ id o = k.
End batch_vocabulary.

(** The entity has a class with metadata, and holds nothing in the
    relations of its class. *)
Definition loads_no_relation `{Runtime} (o : Obj) : Prop :=
  ∃ md, metadata_of entityMetadatas (constructor_name o) = Some md ∧
        ∀ rm, rm ∈ md_relations md →
              obj_get (rel_propertyName rm) o = VUndefined ∨
              obj_get (rel_propertyName rm) o = VNull.
(** * Properties *)

(** ** Maps *)

Module JsMapFacts.
Section facts.
Context {V : Type}.
Implicit Types (m : list (string * V)) (k : string) (v : V).

Lemma get_set_eq m k v : JsMap.get k (JsMap.set k v m) = Some v.
Proof.
  induction m as [|[k' v'] m IH]; simpl.
  - by rewrite decide_True.
  - destruct (decide (k = k')) as [->|Hne]; simpl.
    + by rewrite decide_True.
    + by rewrite decide_False.
Qed.

Lemma get_set_ne m k k' v :
  k ≠ k' → JsMap.get k' (JsMap.set k v m) = JsMap.get k' m.
Proof.
  intros Hne. induction m as [|[k0 v0] m IH]; simpl.
  - by rewrite decide_False.
  - destruct (decide (k = k0)) as [->|Hne0]; simpl.
    + by rewrite !decide_False.
    + by rewrite IH.
Qed.

Lemma get_set m k k' v :
  JsMap.get k' (JsMap.set k v m) =
  if decide (k = k') then Some v else JsMap.get k' m.
Proof.
  destruct (decide (k = k')) as [->|Hne].
  - apply get_set_eq.
  - by apply get_set_ne.
Qed.

Lemma has_set_eq m k v : JsMap.has k (JsMap.set k v m) = true.
Proof. unfold JsMap.has. by rewrite get_set_eq. Qed.

Lemma has_set_ne m k k' v :
  k ≠ k' → JsMap.has k' (JsMap.set k v m) = JsMap.has k' m.
Proof. intros Hne. unfold JsMap.has. by rewrite get_set_ne. Qed.

Lemma has_true m k : JsMap.has k m = true ↔ is_Some (JsMap.get k m).
Proof.
  unfold JsMap.has. destruct (JsMap.get k m); split; intros H;
    first [done | by eexists | by destruct H].
Qed.

Lemma has_false m k : JsMap.has k m = false ↔ JsMap.get k m = None.
Proof. unfold JsMap.has. by destruct (JsMap.get k m). Qed.

Lemma get_delete_eq m k : JsMap.get k (JsMap.delete k m) = None.
Proof.
  induction m as [|[k' v'] m IH]; simpl; [done|].
  destruct (decide (k = k')) as [->|Hne]; simpl; [done|].
  by rewrite decide_False.
Qed.

Lemma get_delete_ne m k k' :
  k ≠ k' → JsMap.get k' (JsMap.delete k m) = JsMap.get k' m.
Proof.
  intros Hne. induction m as [|[k0 v0] m IH]; simpl; [done|].
  destruct (decide (k = k0)) as [->|Hne0]; simpl.
  - by rewrite decide_False.
  - by rewrite IH.
Qed.

Lemma get_Some_elem m k v : JsMap.get k m = Some v → (k, v) ∈ m.
Proof.
  induction m as [|[k' v'] m IH]; simpl; [done|].
  destruct (decide (k = k')) as [->|Hne].
  - intros [= ->]. apply list_elem_of_here.
  - intros H. apply list_elem_of_further. auto.
Qed.

Lemma get_None_keys m k : JsMap.get k m = None ↔ k ∉ JsMap.keys m.
Proof.
  unfold JsMap.keys. induction m as [|[k' v'] m IH]; csimpl.
  - split; [intros _; apply not_elem_of_nil | done].
  - rewrite not_elem_of_cons. destruct (decide (k = k')) as [->|Hne].
    + split; [done | intros [? _]; done].
    + rewrite IH. tauto.
Qed.

Lemma keys_set m k v :
  JsMap.keys (JsMap.set k v m) =
  if JsMap.has k m then JsMap.keys m else JsMap.keys m ++ [k].
Proof.
  unfold JsMap.keys, JsMap.has. induction m as [|[k' v'] m IH]; csimpl; [done|].
  destruct (decide (k = k')) as [->|Hne]; csimpl; [done|].
  rewrite IH. by destruct (JsMap.get k m).
Qed.

Lemma keys_set_NoDup m k v :
  NoDup (JsMap.keys m) → NoDup (JsMap.keys (JsMap.set k v m)).
Proof.
  intros Hnd. rewrite keys_set. destruct (JsMap.has k m) eqn:Hk; [done|].
  apply NoDup_app. split_and!; [done| |apply NoDup_singleton].
  intros x Hx ->%list_elem_of_singleton.
  apply has_false, get_None_keys in Hk. done.
Qed.

(** With distinct keys, the bindings of a map are what [get] finds. *)
Lemma elem_get m k v :
  NoDup (JsMap.keys m) → (k, v) ∈ m → JsMap.get k m = Some v.
Proof.
  unfold JsMap.keys. induction m as [|[k' v'] m IH]; csimpl.
  - by intros _ ?%elem_of_nil.
  - intros [Hk' Hnd]%NoDup_cons [[= -> ->]|Hin]%elem_of_cons.
    + by rewrite decide_True.
    + destruct (decide (k = k')) as [->|Hne]; [|auto].
      exfalso. apply Hk'. apply list_elem_of_fmap. by exists (k', v).
Qed.
End facts.
End JsMapFacts.

Module NestedFacts.
Section facts.
Context {V : Type}.
Implicit Types (m : list (string * list (string * V))) (name k : string).

Lemma inner_ensure m name name' :
  Nested.inner name' (Nested.ensure name m) = Nested.inner name' m.
Proof.
  unfold Nested.inner, Nested.ensure.
  destruct (JsMap.get name m) eqn:Hg; [done|].
  rewrite JsMapFacts.get_set. case_decide as Heq; [|done].
  subst. by rewrite Hg.
Qed.

Lemma lookup_ensure m name name' k :
  Nested.lookup name' k (Nested.ensure name m) = Nested.lookup name' k m.
Proof. unfold Nested.lookup. by rewrite inner_ensure. Qed.

Lemma inner_update_eq m name f :
  Nested.inner name (Nested.update name f m) = f (Nested.inner name m).
Proof.
  unfold Nested.inner at 1, Nested.update.
  by rewrite JsMapFacts.get_set_eq.
Qed.

Lemma inner_update_ne m name name' f :
  name ≠ name' →
  Nested.inner name' (Nested.update name f m) = Nested.inner name' m.
Proof.
  intros Hne. unfold Nested.inner, Nested.update.
  by rewrite JsMapFacts.get_set_ne.
Qed.

Lemma lookup_update_eq m name f k :
  Nested.lookup name k (Nested.update name f m) =
  JsMap.get k (f (Nested.inner name m)).
Proof. unfold Nested.lookup. by rewrite inner_update_eq. Qed.

Lemma lookup_update_ne m name name' f k :
  name ≠ name' →
  Nested.lookup name' k (Nested.update name f m) = Nested.lookup name' k m.
Proof. intros Hne. unfold Nested.lookup. by rewrite inner_update_ne. Qed.

Lemma lookup_update_set m name name' k k' (v : V) :
  Nested.lookup name' k' (Nested.update name (JsMap.set k v) m) =
  if decide (name = name' ∧ k = k') then Some v else Nested.lookup name' k' m.
Proof.
  destruct (decide (name = name')) as [->|Hne].
  - rewrite lookup_update_eq, JsMapFacts.get_set.
    destruct (decide (k = k')) as [->|Hk].
    + by rewrite decide_True.
    + rewrite decide_False; [done | by intros [_ ?]].
  - rewrite lookup_update_ne by done.
    rewrite decide_False; [done | by intros [? _]].
Qed.
End facts.
End NestedFacts.

(** ** A frame rule for the state monad *)

Section frames.
Context {S : Type} (R : S → S → Prop) `{!PreOrder R}.

Lemma frames_ret {A} (a : A) : frames R (ret a).
Proof. intros s. simpl. reflexivity. Qed.

Lemma frames_throw {A} e : frames R (throw (A:=A) e).
Proof. intros s. simpl. reflexivity. Qed.

Lemma frames_gets {A} (f : S → A) : frames R (gets f).
Proof. intros s. simpl. reflexivity. Qed.

Lemma frames_modify (f : S → S) : (∀ s, R s (f s)) → frames R (modify f).
Proof. intros H s. apply H. Qed.

Lemma frames_bind {A B} (m : M A) (f : A → M B) :
  frames R m → (∀ a, frames R (f a)) → frames R (bind m f).
Proof.
  intros Hm Hf s. unfold bind. specialize (Hm s).
  destruct (m s) as [s' [a|e]]; simpl in *; [|done].
  etrans; [exact Hm | apply Hf].
Qed.

Lemma frames_assert b msg : frames R (assert b msg).
Proof. destruct b; [apply frames_ret | apply frames_throw]. Qed.

Lemma frames_when b m : frames R m → frames R (when b m).
Proof. destruct b; [done | intros _; apply frames_ret]. Qed.

Lemma frames_for_each {A} (l : list A) (f : A → M unit) :
  (∀ x, x ∈ l → frames R (f x)) → frames R (for_each l f).
Proof.
  induction l as [|x l IH]; simpl; intros Hf.
  - apply frames_ret.
  - apply frames_bind.
    + apply Hf, list_elem_of_here.
    + intros _. apply IH. intros y Hy. apply Hf. by apply list_elem_of_further.
Qed.

Lemma frames_map_each {A B} (l : list A) (f : A → M B) :
  (∀ x, x ∈ l → frames R (f x)) → frames R (map_each l f).
Proof.
  induction l as [|x l IH]; simpl; intros Hf.
  - apply frames_ret.
  - apply frames_bind.
    + apply Hf, list_elem_of_here.
    + intros y. apply frames_bind; [|intros; apply frames_ret].
      apply IH. intros z Hz. apply Hf. by apply list_elem_of_further.
Qed.
End frames.


#[export] Instance keeps_preorder {S A} (f : S → A) : PreOrder (keeps f).
Proof. split; [by intros s | intros s1 s2 s3 H1 H2; unfold keeps in *; congruence]. Qed.

Create HintDb frames discriminated.

(** Takes a goal [frames R m] apart along the structure of [m]; a
    function that is not a combinator of the monad is looked up among the
    hypotheses and the hints, and unfolded when it is not there. *)
Ltac frames_rule lem := apply lem; try solve [apply _].
Ltac frames_step :=
  lazymatch goal with
  | |- frames _ (ret _) => frames_rule @frames_ret
  | |- frames _ (throw _) => frames_rule @frames_throw
  | |- frames _ (gets _) => frames_rule @frames_gets
  | |- frames _ (assert _ _) => frames_rule @frames_assert
  | |- frames _ (when _ _) => frames_rule @frames_when
  | |- frames _ (bind _ _) => frames_rule @frames_bind; [|intros ?]
  | |- frames _ (for_each _ _) => frames_rule @frames_for_each; intros ? ?
  | |- frames _ (map_each _ _) => frames_rule @frames_map_each; intros ? ?
  | |- frames _ (modify _) => frames_rule @frames_modify; intros ?
  | |- frames _ (match ?x with _ => _ end) => destruct x
  | |- frames ?R ?m =>
      first [ assumption
            | solve [auto with frames]
            | let m' := eval red in m in change (frames R m') ]
  end.
Ltac frames_auto := repeat frames_step.

(** ** What [flush] leaves alone *)


#[export] Instance same_cache_preorder {D} `{Store} : PreOrder (same_cache (D:=D)).
Proof.
  split.
  - by intros s.
  - intros s1 s2 s3 (Hh1 & Hd1 & Hc1) (Hh2 & Hd2 & Hc2). split_and!.
    + congruence.
    + congruence.
    + intros name k. by rewrite Hc2, Hc1.
Qed.

Section flush_frame.
Context `{rt : Runtime}.

Lemma V1_flush_same_cache entityClass : frames same_cache (V1.flush entityClass).
Proof.
  unfold V1.flush, getTopologicalOrder.
  frames_rule @frames_bind; [frames_step|]. intros order.
  induction order as [|name order IH]; simpl; frames_auto; done.
Qed.

Lemma V2_flush_same_cache entityClass : frames same_cache (V2.flush entityClass).
Proof.
  unfold V2.flush, getTopologicalOrder.
  frames_rule @frames_bind; [frames_step|]. intros order.
  induction order as [|name order IH]; simpl; frames_auto; try done.
  split_and!; [done..|]. intros n k. simpl. apply NestedFacts.lookup_ensure.
Qed.
End flush_frame.

(** C10. A flush changes the write buffers, and through them the store,
    and nothing else: in both variants every type and id has the same
    cache entry, or none, after a flush as before it, the deferred-load
    registry is the same, and so are the objects the entries refer to;
    this does not depend on what the buffers hold or on the type the
    flush is to stop at. *)
Theorem C10_flush_frame `{rt : Runtime} :
  (∀ (entityClass : option string) (st : State V1.DeferData),
     let st' := (V1.flush entityClass st).1 in
     (∀ name k, Nested.lookup name k (cacheMap st') =
                Nested.lookup name k (cacheMap st)) ∧
     deferred st' = deferred st ∧ heap st' = heap st) ∧
  (∀ (entityClass : string) (st : State (list string)),
     let st' := (V2.flush entityClass st).1 in
     (∀ name k, Nested.lookup name k (cacheMap st') =
                Nested.lookup name k (cacheMap st)) ∧
     deferred st' = deferred st ∧ heap st' = heap st).
Proof.
  split; intros entityClass st st'.
  - destruct (V1_flush_same_cache entityClass st) as (Hh & Hd & Hc). done.
  - destruct (V2_flush_same_cache entityClass st) as (Hh & Hd & Hc). done.
Qed.

(** ** The calls of a flush *)

Section pending.
Context {D : Type} `{rt : Runtime}.
Implicit Types (st : State D).


(** Two states in which a flush finds the same things to write. *)
Lemma pending_calls_ext st st' name :
  heap st' = heap st →
  Nested.inner name (insertMap st') = Nested.inner name (insertMap st) →
  Nested.inner name (upsertMap st') = Nested.inner name (upsertMap st) →
  pending_calls st' name = pending_calls st name.
Proof.
  intros Hh Hi Hu. unfold pending_calls, snapshot. by rewrite Hh, Hi, Hu.
Qed.
End pending.

Section V1_flush.
Context `{rt : Runtime}.
Implicit Types (st : State V1.DeferData).

Lemma V1_flush_entry_spec name st :
  let st' := (V1.flush_entry name st).1 in
  (V1.flush_entry name st).2 = Ok tt ∧
  calls st' = calls st ++ pending_calls st name ∧
  heap st' = heap st ∧ deferred st' = deferred st ∧
  cacheMap st' = cacheMap st ∧ classes st' = classes st ∧
  insertMap st' = Nested.update name (λ _, []) (Nested.ensure name (insertMap st)) ∧
  upsertMap st' = Nested.update name (λ _, []) (Nested.ensure name (upsertMap st)).
Proof.
  unfold V1.flush_entry, pending_calls, getInsertList, getUpsertList,
    call_insert, call_upsert, bind, gets, modify, when, ret. simpl.
  rewrite !NestedFacts.inner_ensure.
  destruct (bool_decide (0 < JsMap.size (Nested.inner name (insertMap st))));
    simpl; rewrite ?NestedFacts.inner_ensure;
    destruct (bool_decide (0 < JsMap.size (Nested.inner name (upsertMap st))));
    simpl; rewrite ?app_nil_r, <- ?app_assoc; done.
Qed.
End V1_flush.

(** ** The dependency graph of the schema *)

Section graph.
Implicit Types (g : Graph.t) (u v n : string).

Lemma has_edge_addNode g u v n :
  Graph.has_edge u v g → Graph.has_edge u v (Graph.addNode n g).
Proof.
  unfold Graph.has_edge, Graph.addNode, Graph.adjacent.
  rewrite JsMapFacts.get_set. case_decide as Heq; [|done].
  subst. by destruct (JsMap.get u g).
Qed.

Lemma has_edge_addEdge g u v u' v' :
  Graph.has_edge u v g → Graph.has_edge u v (Graph.addEdge u' v' g).
Proof.
  intros H. unfold Graph.addEdge.
  pose proof (has_edge_addNode _ _ _ v' (has_edge_addNode _ _ _ u' H)) as H'.
  revert H'. generalize (Graph.addNode v' (Graph.addNode u' g)). intros g' H'.
  unfold Graph.has_edge, Graph.adjacent in *.
  rewrite JsMapFacts.get_set. case_decide as Heq; [|done].
  subst. simpl. apply elem_of_app. by left.
Qed.

Lemma has_edge_addEdge_new g u v : Graph.has_edge u v (Graph.addEdge u v g).
Proof.
  unfold Graph.addEdge, Graph.has_edge, Graph.adjacent at 1.
  rewrite JsMapFacts.get_set_eq. simpl. apply elem_of_app. right.
  apply list_elem_of_singleton. done.
Qed.

Lemma has_edge_add_foreignKeys g u v name fks :
  Graph.has_edge u v g ∨ (u = name ∧ v ∈ fks) →
  Graph.has_edge u v (foldl (λ g fk, Graph.addEdge name fk g) g fks).
Proof.
  revert g. induction fks as [|fk fks IH]; simpl; intros g.
  - intros [H|[_ H]]; [done | by apply elem_of_nil in H].
  - intros [H|[-> [->|H]%elem_of_cons]]; apply IH.
    + left. by apply has_edge_addEdge.
    + left. apply has_edge_addEdge_new.
    + by right.
Qed.

(** A foreign key of the schema is an edge of its graph, from the type
    that holds the key to the type the key refers to. *)
Lemma schema_graph_edge (mds : list EntityMetadata) md fk :
  md ∈ mds → fk ∈ foreignKeys md →
  Graph.has_edge (md_name md) fk (schema_graph mds).
Proof.
  unfold schema_graph. intros Hmd Hfk.
  assert (∀ g, Graph.has_edge (md_name md) fk g ∨ md ∈ mds →
               Graph.has_edge (md_name md) fk
                 (foldl (λ g md, foldl (λ g fk, Graph.addEdge (md_name md) fk g)
                                       (Graph.addNode (md_name md) g)
                                       (foreignKeys md)) g mds)) as H.
  { clear Hmd. induction mds as [|md' mds IH]; simpl; intros g.
    - intros [H|H]; [done | by apply elem_of_nil in H].
    - intros [H|[<-|H]%elem_of_cons]; apply IH.
      + left. apply has_edge_add_foreignKeys. left. by apply has_edge_addNode.
      + left. apply has_edge_add_foreignKeys. by right.
      + by right. }
  apply H. by right.
Qed.
End graph.

(** ** Lists of calls *)

Section lists.
Context {A B : Type}.

(** Where an element of a concatenation comes from. *)
Lemma concat_fmap_split (f : A → list B) (l : list A) pre c post :
  concat (f <$> l) = pre ++ c :: post →
  ∃ l1 x l2 p1 p2,
    l = l1 ++ x :: l2 ∧ f x = p1 ++ c :: p2 ∧ pre = concat (f <$> l1) ++ p1.
Proof.
  revert pre. induction l as [|x l IH]; csimpl; intros pre Heq.
  - by destruct pre.
  - apply app_eq_inv in Heq as [(k & Hfx & Hrest)|(k & Hpre & Hrest)].
    + destruct k as [|c' k].
      * rewrite app_nil_r in Hfx. simpl in Hrest.
        destruct (IH [] (eq_sym Hrest)) as (l1 & y & l2 & p1 & p2 & -> & Hy & Hp).
        exists (x :: l1), y, l2, p1, p2. csimpl. split_and!; [done..|].
        rewrite <- app_assoc, <- Hp. by rewrite app_nil_r.
      * simpl in Hrest. injection Hrest as -> Hpost.
        exists [], x, l, pre, k. by rewrite Hfx.
    + destruct (IH k Hrest) as (l1 & y & l2 & p1 & p2 & -> & Hy & Hp).
      exists (x :: l1), y, l2, p1, p2. csimpl. split_and!; [done..|].
      by rewrite Hpre, Hp, app_assoc.
Qed.

(** An element that occurs once splits a list in one way. *)
Lemma NoDup_split_unique (l a1 b1 a2 b2 : list A) x :
  NoDup l → l = a1 ++ x :: b1 → l = a2 ++ x :: b2 → a1 = a2.
Proof.
  intros Hnd ->. revert a2. induction a1 as [|y a1 IH]; intros a2 Heq.
  - destruct a2 as [|z a2]; [done|]. simpl in *. injection Heq as <- Heq.
    apply NoDup_cons in Hnd as [Hx _]. exfalso. apply Hx. rewrite Heq.
    apply elem_of_app. right. apply list_elem_of_here.
  - destruct a2 as [|z a2]; simpl in *.
    + injection Heq as -> Heq. apply NoDup_cons in Hnd as [Hx _].
      exfalso. apply Hx. apply elem_of_app. right. apply list_elem_of_here.
    + injection Heq as <- Heq. f_equal. apply NoDup_cons in Hnd as [_ Hnd].
      by apply IH.
Qed.
End lists.

Lemma flushed_prefix entityClass order : flushed entityClass order `prefix_of` order.
Proof.
  induction order as [|name order IH]; simpl; [done|].
  apply prefix_cons. case_bool_decide; [apply prefix_nil | done].
Qed.

Lemma flushed_None order : flushed None order = order.
Proof. induction order as [|name order IH]; simpl; [done|]. by rewrite IH. Qed.

Lemma precedes_reverse u v l : precedes u v l → precedes v u (reverse l).
Proof.
  intros (l1 & l2 & l3 & ->). exists (reverse l3), (reverse l2), (reverse l1).
  rewrite reverse_app, reverse_cons, reverse_app, reverse_cons.
  by rewrite <- !app_assoc.
Qed.

Section V1_flush_calls.
Context `{rt : Runtime}.
Implicit Types (st : State V1.DeferData).

Lemma V1_flush_entry_pending name name' st :
  name ≠ name' →
  pending_calls (V1.flush_entry name st).1 name' = pending_calls st name'.
Proof.
  intros Hne.
  destruct (V1_flush_entry_spec name st) as (_ & _ & Hh & _ & _ & _ & Hi & Hu).
  apply pending_calls_ext; [done|..].
  - by rewrite Hi, NestedFacts.inner_update_ne, NestedFacts.inner_ensure.
  - by rewrite Hu, NestedFacts.inner_update_ne, NestedFacts.inner_ensure.
Qed.

(** The calls of the loop of [flush] are the pending calls of the types
    it gets to, type after type. *)
Lemma V1_flush_loop_calls order entityClass st :
  NoDup order →
  (V1.flush_loop order entityClass st).2 = Ok tt ∧
  calls (V1.flush_loop order entityClass st).1 =
    calls st ++ concat (pending_calls st <$> flushed entityClass order).
Proof.
  revert st. induction order as [|name order IH]; intros st Hnd; simpl.
  - by rewrite app_nil_r.
  - apply NoDup_cons in Hnd as [Hname Hnd].
    pose proof (V1_flush_entry_spec name st) as (Hok & Hc & _).
    pose proof (λ n, V1_flush_entry_pending name n st) as Hp.
    unfold bind. destruct (V1.flush_entry name st) as [st1 o].
    simpl in Hok, Hc, Hp. subst o. case_bool_decide.
    + simpl. by rewrite Hc, app_nil_r.
    + destruct (IH st1 Hnd) as [-> ->]. split; [done|]. csimpl.
      rewrite Hc, <- app_assoc. do 3 f_equal.
      apply Forall_fmap_ext_1, Forall_forall. intros n Hn. apply Hp.
      intros ->. apply Hname. eapply elem_of_prefix; [exact Hn|].
      apply flushed_prefix.
Qed.

Lemma pending_calls_name st name c :
  c ∈ pending_calls st name →
  (∃ es, c = CInsert name es) ∨ (∃ es, c = CUpsert name es).
Proof.
  unfold pending_calls.
  intros [H|H]%elem_of_app; case_bool_decide;
    try (by apply elem_of_nil in H);
    apply list_elem_of_singleton in H; eauto.
Qed.

Lemma pending_calls_insert st name :
  Nested.inner name (insertMap st) ≠ [] →
  ∃ es rest, pending_calls st name = CInsert name es :: rest.
Proof.
  intros Hne. unfold pending_calls. rewrite bool_decide_true; [by eauto|].
  unfold JsMap.size. destruct (Nested.inner name (insertMap st)); [done|].
  simpl. lia.
Qed.
End V1_flush_calls.

(** C1. When a type [A] has a foreign key to a type [B], and a flush
    starts with pending inserts for both, the bulk insert of [B] is issued
    before the bulk insert of [A]: no bulk insert of [A] is issued without
    one of [B] before it, whichever type the flush is to stop at, and a
    flush of everything issues both. The order is the reverse of the
    topological order of the foreign-key graph, the sort of the graph
    package being taken to list every node once and a node before the
    nodes its edges lead to. *)
Theorem C1_flush_writes_referenced_types_first `{rt : Runtime}
    (A B : string) (md : EntityMetadata) (entityClass : option string)
    (st : State V1.DeferData) :
  is_topological_order (schema_graph entityMetadatas)
                       (topologicalSort (schema_graph entityMetadatas)) →
  md ∈ entityMetadatas → md_name md = A → B ∈ foreignKeys md →
  Nested.inner A (insertMap st) ≠ [] →
  Nested.inner B (insertMap st) ≠ [] →
  ∃ new,
    calls (V1.flush entityClass st).1 = calls st ++ new ∧
    (∀ pre post entsA,
       new = pre ++ CInsert A entsA :: post → ∃ entsB, CInsert B entsB ∈ pre) ∧
    (entityClass = None →
     ∃ pre mid post entsA entsB,
       new = pre ++ CInsert B entsB :: mid ++ CInsert A entsA :: post).
Proof.
  intros (Hnd & _ & Htopo) Hmd <- Hfk HA HB.
  pose proof (Htopo _ _ (schema_graph_edge _ _ _ Hmd Hfk)) as Hprec.
  apply precedes_reverse in Hprec as (o1 & o2 & o3 & Horder).
  rewrite <- reverse_Permutation in Hnd.
  unfold V1.flush, getTopologicalOrder, bind, ret.
  revert Horder Hnd.
  generalize (reverse (topologicalSort (schema_graph entityMetadatas))).
  intros order Horder Hnd.
  destruct (V1_flush_loop_calls order entityClass st Hnd) as [_ Hcalls].
  eexists. split; [exact Hcalls|]. split.
  - intros pre post entsA Hnew.
    apply concat_fmap_split in Hnew
      as (ns1 & n & ns2 & p1 & p2 & Hfl & Hn & ->).
    assert (n = md_name md) as ->.
    { assert (CInsert (md_name md) entsA ∈ pending_calls st n) as Hin.
      { rewrite Hn. apply elem_of_app. right. apply list_elem_of_here. }
      apply pending_calls_name in Hin as [[es [= -> _]]|[es [=]]]. done. }
    destruct (flushed_prefix entityClass order) as [k Hk].
    rewrite Hfl, <- app_assoc in Hk. simpl in Hk.
    assert (ns1 = o1 ++ B :: o2) as ->.
    { eapply (NoDup_split_unique order); [done|exact Hk|].
      rewrite Horder. by rewrite <- app_assoc. }
    destruct (pending_calls_insert st B HB) as (es & rest & HpB).
    exists es. apply elem_of_app. left.
    rewrite fmap_app, concat_app. apply elem_of_app. right. csimpl.
    rewrite HpB. apply list_elem_of_here.
  - intros ->. rewrite flushed_None, Horder.
    destruct (pending_calls_insert st B HB) as (esB & restB & HpB).
    destruct (pending_calls_insert st (md_name md) HA) as (esA & restA & HpA).
    exists (concat (pending_calls st <$> o1)),
           (restB ++ concat (pending_calls st <$> o2)),
           (restA ++ concat (pending_calls st <$> o3)), esA, esB.
    rewrite fmap_app, concat_app. csimpl. rewrite fmap_app, concat_app. csimpl.
    rewrite HpB, HpA. simpl. by rewrite <- !app_assoc.
Qed.

Lemma C1_witness :
  ∃ new,
    calls (V1.flush (rt:=Demo.runtime) None Demo.pending).1 =
      calls Demo.pending ++ new ∧
    (∀ pre post entsA,
       new = pre ++ CInsert "Transfer" entsA :: post →
       ∃ entsB, CInsert "Account" entsB ∈ pre) ∧
    (@None string = None →
     ∃ pre mid post entsA entsB,
       new = pre ++ CInsert "Account" entsB :: mid ++ CInsert "Transfer" entsA :: post).
Proof.
  apply (C1_flush_writes_referenced_types_first
           (rt:=Demo.runtime) "Transfer" "Account" Demo.Transfer None Demo.pending).
  - split_and!.
    + compute_done.
    + intros n Hn. vm_compute in Hn. vm_compute. done.
    + intros u v Hedge. unfold Graph.has_edge, Graph.adjacent in Hedge.
      vm_compute schema_graph in Hedge. simpl in Hedge.
      exists [], [], []. simpl.
      destruct (decide (u = "Transfer")) as [->|_]; simpl in Hedge.
      * by repeat apply elem_of_cons in Hedge as [->|Hedge];
          try apply elem_of_nil in Hedge.
      * destruct (decide (u = "Account")) as [->|_]; simpl in Hedge;
          by apply elem_of_nil in Hedge.
  - apply list_elem_of_here.
  - reflexivity.
  - apply list_elem_of_here.
  - vm_compute. discriminate.
  - vm_compute. discriminate.
Defined.

(** ** Caching entities (first variant) *)

Section cache_step_facts.
Context {D : Type} `{rt : Runtime}.
Implicit Types (s : State D).

Lemma cache_effect_refl s : cache_wf s → cache_effect s s.
Proof.
  intros Hwf. split; try done.
  - intros l o Hl. exists o. auto.
  - intros name k l Hp. by left.
  - intros name k. by left.
Qed.

Lemma cache_effect_trans s1 s2 s3 :
  cache_wf s1 → cache_effect s1 s2 → cache_effect s2 s3 → cache_effect s1 s3.
Proof.
  intros Hwf1 H12 H23. pose proof (ce_wf _ _ H12) as Hwf2.
  split.
  - apply H23.
  - pose proof (ce_grows _ _ H12). pose proof (ce_grows _ _ H23). lia.
  - intros l o Hl.
    destruct (ce_objects _ _ H12 l o Hl) as (o' & Hl' & Hc' & Hid').
    destruct (ce_objects _ _ H23 l o' Hl') as (o'' & Hl'' & Hc'' & Hid'').
    exists o''. split_and!; [done | congruence |].
    destruct Hid'' as [Hid''|[name Hp]].
    + rewrite Hid''. done.
    + destruct (ce_new _ _ H12 _ _ _ Hp) as [Hp1|[Hlen _]].
      * right. by exists name.
      * apply lookup_lt_Some in Hl. lia.
  - intros name k l Hp.
    destruct (ce_new _ _ H23 _ _ _ Hp) as [Hp2|[Hlen Hid]].
    + destruct (ce_new _ _ H12 _ _ _ Hp2) as [Hp1|[Hlen (o' & Hl' & Hid')]];
        [by left|]. right. split; [done|].
      destruct (ce_objects _ _ H23 l o' Hl') as (o'' & Hl'' & _ & Hid'').
      exists o''. split; [done|].
      destruct Hid'' as [->|[name' Hp']]; [done|].
      destruct Hwf2 as [_ Hinj]. symmetry. eapply Hinj; [exact Hp2|exact Hp'].
    + right. split; [|done]. pose proof (ce_grows _ _ H12). lia.
  - intros name k l Hp. by apply (ce_stable _ _ H23), (ce_stable _ _ H12).
  - intros name k.
    destruct (ce_entries _ _ H23 name k) as [Heq|Hp]; [|by right].
    rewrite Heq. destruct (ce_entries _ _ H12 name k) as [Heq'|[l Hp]]; [by left|].
    right. exists l. by apply (ce_stable _ _ H23).
  - by rewrite (ce_insertMap _ _ H23), (ce_insertMap _ _ H12).
  - by rewrite (ce_upsertMap _ _ H23), (ce_upsertMap _ _ H12).
  - by rewrite (ce_deferred _ _ H23), (ce_deferred _ _ H12).
  - by rewrite (ce_classes _ _ H23), (ce_classes _ _ H12).
  - by rewrite (ce_calls _ _ H23), (ce_calls _ _ H12).
  - by rewrite (ce_db _ _ H23), (ce_db _ _ H12).
Qed.

#[export] Instance cache_step_preorder : PreOrder (cache_step (D:=D)).
Proof.
  split.
  - intros s Hwf. by apply cache_effect_refl.
  - intros s1 s2 s3 H12 H23 Hwf. eapply cache_effect_trans; [done|by apply H12|].
    apply H23, H12, Hwf.
Qed.

(** A change of the heap that adds objects and keeps the class and the
    id of those that were there. *)
Lemma cache_step_heap s (f : list Obj → list Obj) :
  (length (heap s) ≤ length (f (heap s)))%nat →
  (∀ l o, heap s !! l = Some o →
     ∃ o', f (heap s) !! l = Some o' ∧ constructor_name o' = constructor_name o ∧
           (id o' = id o ∨ ∃ name, present s name (id o') l)) →
  cache_step s (with_heap f s).
Proof.
  intros Hlen Hobj [Hclosed Hinj]. split; try done.
  - split; [|done]. intros name k l Hp. simpl.
    destruct (Hclosed _ _ _ Hp) as [o Ho].
    destruct (Hobj _ _ Ho) as (o' & Ho' & _). by exists o'.
  - intros name k l Hp. by left.
  - intros name k. by left.
Qed.

Lemma cache_step_alloc o : frames cache_step (alloc (D:=D) o).
Proof.
  intros s. simpl. apply cache_step_heap.
  - rewrite length_app. lia.
  - intros l o' Hl. exists o'. split_and!; [|done|by left].
    by apply lookup_app_l_Some.
Qed.

Lemma cache_step_write_prop l p v : frames cache_step (write_prop (D:=D) l p v).
Proof.
  intros s. unfold write_prop, deref, bind, gets, modify. simpl.
  destruct (heap s !! l) as [o|] eqn:Hl; simpl; [|reflexivity].
  apply cache_step_heap.
  - by rewrite length_insert.
  - intros l' o' Hl'. destruct (decide (l = l')) as [<-|Hne].
    + exists (obj_with_prop p v o). rewrite list_lookup_insert_eq
        by (by eapply lookup_lt_Some).
      assert (o' = o) as -> by congruence. split_and!; [done..|by left].
    + exists o'. rewrite list_lookup_insert_ne by done. split_and!; [done..|by left].
Qed.

Lemma cache_step_read_prop l p : frames cache_step (read_prop (D:=D) l p).
Proof. unfold read_prop, deref. frames_auto. Qed.

Lemma cache_step_has_prop l p : frames cache_step (has_prop (D:=D) l p).
Proof. unfold has_prop, deref. frames_auto. Qed.

Lemma cache_step_id_of l : frames cache_step (id_of (D:=D) l).
Proof. unfold id_of, deref. frames_auto. Qed.

Lemma cache_step_constructor_of l : frames cache_step (constructor_of (D:=D) l).
Proof. unfold constructor_of, deref. frames_auto. Qed.

Lemma cache_step_getCacheMap name : frames cache_step (getCacheMap (D:=D) name).
Proof.
  intros s [Hclosed Hinj]. simpl.
  assert (∀ n k l, present (with_cacheMap (Nested.ensure name) s) n k l ↔
                   present s n k l) as Hp.
  { intros n k l. unfold present. simpl. by rewrite NestedFacts.lookup_ensure. }
  split; try done.
  - split.
    + intros n k l ?%Hp. simpl. eauto.
    + intros n k n' k' l ?%Hp ?%Hp. eauto.
  - intros l o Hl. exists o. auto.
  - intros n k l ?%Hp. by left.
  - intros n k l ?. by apply Hp.
  - intros n k. left. simpl. apply NestedFacts.lookup_ensure.
Qed.
End cache_step_facts.

#[export] Hint Resolve cache_step_alloc cache_step_write_prop cache_step_read_prop
  cache_step_has_prop cache_step_id_of cache_step_constructor_of
  cache_step_getCacheMap : frames.

(** *** Running the monad by hand *)

Section run.
Context {S : Type}.

Lemma bind_ok {A B} (m : M (S:=S) A) (f : A → M B) s s' a :
  m s = (s', Ok a) → bind m f s = f a s'.
Proof. intros Hm. unfold bind. by rewrite Hm. Qed.

Lemma bind_throw {A B} (m : M (S:=S) A) (f : A → M B) s s' e :
  m s = (s', Throw e) → bind m f s = (s', Throw e).
Proof. intros Hm. unfold bind. by rewrite Hm. Qed.

Lemma bind_assoc {A B C} (m : M (S:=S) A) (f : A → M B) (g : B → M C) s :
  bind (bind m f) g s = bind m (λ x, bind (f x) g) s.
Proof. unfold bind. by destruct (m s) as [s' [a|e]]. Qed.

Lemma bind_ret {A B} (a : A) (f : A → M (S:=S) B) s : bind (ret a) f s = f a s.
Proof. done. Qed.

Lemma bind_gets {A B} (g : S → A) (f : A → M (S:=S) B) s :
  bind (gets g) f s = f (g s) s.
Proof. done. Qed.

Lemma bind_assert_true {B} msg (f : unit → M (S:=S) B) s :
  bind (assert true msg) f s = f tt s.
Proof. done. Qed.

Lemma bind_assert_false {B} msg (f : unit → M (S:=S) B) s :
  bind (assert false msg) f s = (s, Throw (AssertionError msg)).
Proof. done. Qed.

Lemma bind_modify {B} (g : S → S) (f : unit → M (S:=S) B) s :
  bind (modify g) f s = f tt (g s).
Proof. done. Qed.
End run.

Section run_objects.
Context {D : Type} `{rt : Runtime}.
Implicit Types (s : State D).

Lemma deref_Some s l o : heap s !! l = Some o → deref l s = (s, Ok o).
Proof. intros Hl. unfold deref, bind, gets. by rewrite Hl. Qed.

Lemma deref_None s l : heap s !! l = None → deref l s = (s, Throw TypeError).
Proof. intros Hl. unfold deref, bind, gets. by rewrite Hl. Qed.

Lemma constructor_of_Some s l o :
  heap s !! l = Some o → constructor_of l s = (s, Ok (constructor_name o)).
Proof. intros Hl. unfold constructor_of. by rewrite (bind_ok _ _ _ _ _ (deref_Some _ _ _ Hl)). Qed.

Lemma constructor_of_None s l :
  heap s !! l = None → constructor_of l s = (s, Throw TypeError).
Proof. intros Hl. unfold constructor_of. by rewrite (bind_throw _ _ _ _ _ (deref_None _ _ Hl)). Qed.

Lemma id_of_Some s l o : heap s !! l = Some o → id_of l s = (s, Ok (id o)).
Proof. intros Hl. unfold id_of. by rewrite (bind_ok _ _ _ _ _ (deref_Some _ _ _ Hl)). Qed.

Lemma id_of_None s l : heap s !! l = None → id_of l s = (s, Throw TypeError).
Proof. intros Hl. unfold id_of. by rewrite (bind_throw _ _ _ _ _ (deref_None _ _ Hl)). Qed.

Lemma write_id_Some s l o i :
  heap s !! l = Some o →
  write_id l i s = (with_heap (λ h, <[l := obj_with_id i o]> h) s, Ok tt).
Proof. intros Hl. unfold write_id. by rewrite (bind_ok _ _ _ _ _ (deref_Some _ _ _ Hl)). Qed.
End run_objects.

Section V1_cache.
Context `{rt : Runtime}.
Implicit Types (s : State V1.DeferData).

Lemma V1_cache_relation_step rec v :
  (∀ es, frames cache_step (rec es)) →
  frames cache_step (V1.cache_relation rec v).
Proof. intros Hrec. destruct v as [| | | |[|l ls]]; simpl; frames_auto. Qed.

Lemma V1_cache_column_step rec entity cached column :
  (∀ es, frames cache_step (rec es)) →
  frames cache_step (V1.cache_column rec entity cached column).
Proof.
  intros Hrec. pose proof (V1_cache_relation_step rec) as Hrel.
  unfold V1.cache_column. frames_auto; by apply Hrel.
Qed.

(** What the cache holds for [(name, k)] after [(name0, k0)] was set. *)
Lemma present_set s name0 k0 c name k l :
  present (with_cacheMap (Nested.update name0 (JsMap.set k0 (Some c))) s) name k l ↔
  (name0 = name ∧ k0 = k ∧ c = l) ∨ (¬ (name0 = name ∧ k0 = k) ∧ present s name k l).
Proof.
  unfold present. simpl. rewrite NestedFacts.lookup_update_set.
  case_decide as Hd; split.
  - intros [= ->]. left. by destruct Hd.
  - intros [(_ & _ & ->)|[Hn _]]; done.
  - intros Hp. by right.
  - intros [(? & ? & _)|[_ Hp]]; [by destruct Hd | done].
Qed.
End V1_cache.

Section V1_cache_entity.
Context `{rt : Runtime}.
Implicit Types (s : State V1.DeferData).

(** The object [cache] writes into: the one the cache holds for the id
    of the entity, or a new one. *)
Lemma V1_pick_cached s mapName eid (new : Obj) :
  ∃ s1 cached,
    match Nested.lookup mapName eid (cacheMap s) with
    | Some (Some l) => ret l
    | _ => alloc new
    end s = (s1, Ok cached) ∧
    ((s1 = s ∧ present s mapName eid cached) ∨
     (s1 = with_heap (λ h, h ++ [new]) s ∧ cached = length (heap s) ∧
      ∀ l, ¬ present s mapName eid l)).
Proof.
  unfold present.
  destruct (Nested.lookup mapName eid (cacheMap s)) as [[l|]|] eqn:Hc.
  - exists s, l. split; [done|]. by left.
  - eexists _, _. split; [done|]. right. split_and!; [done..|]. by intros l.
  - eexists _, _. split; [done|]. right. split_and!; [done..|]. by intros l.
Qed.

(** Once its id is written, that object carries the id of the entity. *)
Lemma V1_cached_ready s s1 mapName eid new cached :
  cache_wf s →
  ((s1 = s ∧ present s mapName eid cached) ∨
   (s1 = with_heap (λ h, h ++ [new]) s ∧ cached = length (heap s) ∧
    ∀ l, ¬ present s mapName eid l)) →
  cache_effect s s1 ∧
  ∃ s2 oc,
    write_id cached eid s1 = (s2, Ok tt) ∧ cache_effect s s2 ∧
    heap s2 !! cached = Some oc ∧ id oc = eid ∧ cacheMap s2 = cacheMap s.
Proof.
  intros Hwf [[-> Hp]|(-> & -> & Hnone)].
  - split; [by apply cache_effect_refl|].
    destruct (proj1 Hwf mapName eid cached Hp) as [ol Hl].
    eexists _, (obj_with_id eid ol). split; [by apply write_id_Some|].
    split_and!; try done.
    + apply cache_step_heap; [by rewrite length_insert | | done].
      intros l' o' Hl'. destruct (decide (cached = l')) as [<-|Hne].
      * exists (obj_with_id eid ol).
        rewrite list_lookup_insert_eq by (by eapply lookup_lt_Some).
        assert (o' = ol) as -> by congruence.
        split_and!; [done..|]. right. by exists mapName.
      * exists o'. rewrite list_lookup_insert_ne by done. auto.
    + simpl. apply list_lookup_insert_eq. by eapply lookup_lt_Some.
  - split; [by apply (cache_step_alloc new s)|].
    assert (heap (with_heap (λ h, h ++ [new]) s) !! length (heap s) = Some new)
      as Hnew by (simpl; apply list_lookup_middle; done).
    eexists _, (obj_with_id eid new). split; [by apply write_id_Some|].
    split_and!; try done.
    + apply (cache_step_heap s
               (λ h, <[length (heap s) := obj_with_id eid new]> (h ++ [new])));
        [| | done].
      * rewrite length_insert, length_app. lia.
      * intros l' o' Hl'. exists o'. split_and!; [|done|by left].
        rewrite list_lookup_insert_ne by (apply lookup_lt_Some in Hl'; lia).
        by apply lookup_app_l_Some.
    + simpl. apply list_lookup_insert_eq. rewrite length_app. simpl. lia.
Qed.

(** Filing the object under the id of the entity. *)
Lemma V1_cache_file s s3 mapName eid cached oc :
  cache_wf s → cache_effect s s3 →
  (present s mapName eid cached ∨
   ((length (heap s) ≤ cached)%nat ∧ ∀ l, ¬ present s mapName eid l)) →
  heap s3 !! cached = Some oc → id oc = eid →
  cache_effect s
    (with_cacheMap (Nested.update mapName (JsMap.set eid (Some cached))) s3).
Proof.
  intros Hwf E3 Hcase Hc Hid.
  pose proof (ce_wf _ _ E3) as [Hclosed3 Hinj3].
  (* the cache held the object under no other id *)
  assert (∀ name k, present s3 name k cached → k = eid) as Hkey.
  { intros name k Hp. destruct Hcase as [Hfound|[Hfresh _]].
    - eapply Hinj3; [exact Hp|]. by apply (ce_stable _ _ E3).
    - destruct (ce_new _ _ E3 _ _ _ Hp) as [Hp0|(_ & o' & Ho' & <-)].
      + destruct (proj1 Hwf _ _ _ Hp0) as [? ?%lookup_lt_Some]. lia.
      + congruence. }
  split.
  - split.
    + intros name k l [(_ & _ & <-)|[_ Hp]]%present_set; simpl; eauto.
    + intros name k name' k' l [(_ & <- & <-)|[_ Hp]]%present_set
        [(_ & <- & Heq)|[_ Hp']]%present_set.
      * done.
      * symmetry. by eapply Hkey.
      * subst l. by eapply Hkey.
      * by eapply Hinj3.
  - apply E3.
  - apply E3.
  - intros name k l [(<- & <- & <-)|[_ Hp]]%present_set.
    + destruct Hcase as [Hfound|[Hfresh _]]; [by left|].
      right. split; [done|]. by exists oc.
    + by apply (ce_new _ _ E3).
  - intros name k l Hp. apply present_set.
    destruct (decide (mapName = name ∧ eid = k)) as [[<- <-]|Hne].
    + left. split_and!; [done..|].
      destruct Hcase as [Hfound|[_ Hnone]]; [|by destruct (Hnone l)].
      unfold present in *. congruence.
    + right. split; [done|]. by apply (ce_stable _ _ E3).
  - intros name k. simpl. rewrite NestedFacts.lookup_update_set.
    case_decide as Hd.
    + right. exists cached. apply present_set. left. by destruct Hd.
    + destruct (ce_entries _ _ E3 name k) as [Heq|[l Hp]]; [by left|].
      right. exists l. apply present_set. by right.
  - apply E3.
  - apply E3.
  - apply E3.
  - apply E3.
  - apply E3.
  - apply E3.
Qed.

(** One round of the loop of [cache]: whether it returns or throws, it
    is a caching step; and when it returns, it returns the object the
    cache now holds for the id of the entity, which carries that id. *)
Lemma V1_cache_entity_spec rec mapName entity s s' out :
  (∀ es, frames cache_step (rec es)) →
  cache_wf s →
  V1.cache_entity rec mapName entity s = (s', out) →
  cache_effect s s' ∧
  ∀ c, out = Ok c →
    ∃ o oc, heap s !! entity = Some o ∧ heap s' !! c = Some oc ∧
            id oc = id o ∧ present s' mapName (id o) c.
Proof.
  intros Hrec Hwf Hrun. unfold V1.cache_entity in Hrun.
  destruct (heap s !! entity) as [o|] eqn:He.
  2: { rewrite (bind_throw _ _ _ _ _ (constructor_of_None _ _ He)) in Hrun.
       injection Hrun as <- <-. split; [by apply cache_effect_refl | done]. }
  rewrite (bind_ok _ _ _ _ _ (constructor_of_Some _ _ _ He)) in Hrun.
  rewrite (bind_ok _ _ _ _ _ (id_of_Some _ _ _ He)) in Hrun.
  rewrite bind_gets in Hrun.
  set (new := {| constructor_name := constructor_name o; id := ""; props := [] |})
    in Hrun.
  destruct (V1_pick_cached s mapName (id o) new) as (s1 & cached & Hpick & Hcase).
  rewrite (bind_ok _ _ _ _ _ Hpick) in Hrun.
  destruct (V1_cached_ready s s1 mapName (id o) new cached Hwf Hcase)
    as (E1 & s2 & oc & Hwrite & E2 & Hc2 & Hid2 & Hmap2).
  destruct (metadata_of entityMetadatas (constructor_name o)) as [metadata|].
  2: { injection Hrun as <- <-. done. }
  rewrite (bind_ok _ _ _ _ _ Hwrite) in Hrun.
  assert (present s mapName (id o) cached ∨
          ((length (heap s) ≤ cached)%nat ∧ ∀ l, ¬ present s mapName (id o) l))
    as Hcase'.
  { destruct Hcase as [[_ ?]|(_ & -> & ?)]; [by left | by right]. }
  pose proof (frames_for_each cache_step (columns metadata)
                (V1.cache_column rec entity cached)
                (λ x _, V1_cache_column_step rec entity cached x Hrec) s2) as Hcols.
  destruct (for_each (columns metadata) (V1.cache_column rec entity cached) s2)
    as [s3 [[]|e]] eqn:Hfe; simpl in Hcols.
  2: { rewrite (bind_throw _ _ _ _ _ Hfe) in Hrun. injection Hrun as <- <-.
       split; [|done]. eapply cache_effect_trans; [done..|]. apply Hcols, E2. }
  rewrite (bind_ok _ _ _ _ _ Hfe) in Hrun.
  assert (cache_effect s s3) as E3.
  { eapply cache_effect_trans; [done..|]. apply Hcols, E2. }
  destruct (ce_objects _ _ (Hcols (ce_wf _ _ E2)) _ _ Hc2)
    as (oc3 & Hc3 & _ & Hid3).
  assert (id oc3 = id o) as Hid.
  { destruct Hid3 as [->|[name Hp]]; [done|].
    unfold present in Hp. rewrite Hmap2 in Hp.
    destruct Hcase' as [Hfound|[Hfresh _]].
    - eapply (proj2 Hwf); [exact Hp | exact Hfound].
    - destruct (proj1 Hwf _ _ _ Hp) as [? ?%lookup_lt_Some]. lia. }
  rewrite (bind_ok _ _ _ _ _ (id_of_Some _ _ _ Hc3)) in Hrun.
  rewrite bind_modify in Hrun. rewrite Hid in Hrun. injection Hrun as <- <-.
  split.
  - by eapply V1_cache_file.
  - intros c [= <-]. exists o, oc3. split_and!; [done..|].
    apply present_set. by left.
Qed.
End V1_cache_entity.

Section V1_cache_spec.
Context `{rt : Runtime}.
Implicit Types (s : State V1.DeferData).

Lemma V1_cache_entity_step rec mapName entity :
  (∀ es, frames cache_step (rec es)) →
  frames cache_step (V1.cache_entity rec mapName entity).
Proof.
  intros Hrec s Hwf.
  destruct (V1.cache_entity rec mapName entity s) as [s' out] eqn:Hrun.
  by destruct (V1_cache_entity_spec _ _ _ _ _ _ Hrec Hwf Hrun).
Qed.

(** Caching entities, to whatever depth and whether it returns or
    throws, is a caching step. *)
Lemma V1_cache_step depth es : frames cache_step (V1.cache depth es).
Proof.
  revert es. induction depth as [|depth IH]; intros es; simpl.
  - frames_auto.
  - pose proof (λ n e, V1_cache_entity_step (V1.cache depth) n e IH) as Hent.
    destruct es as [|e0 es]; frames_auto.
Qed.

(** [cache] on one entity returns the object the cache then holds for
    the entity, under the type and the id of the entity. *)
Lemma V1_cache_one_spec entity s s' out :
  cache_wf s →
  V1.cache_one entity s = (s', out) →
  cache_effect s s' ∧
  ∀ c, out = Ok c →
    ∃ o oc, heap s !! entity = Some o ∧ heap s' !! c = Some oc ∧
            id oc = id o ∧ present s' (constructor_name o) (id o) c.
Proof.
  intros Hwf Hrun. unfold V1.cache_one in Hrun.
  destruct stack_limit as [|depth]; simpl in Hrun.
  { injection Hrun as <- <-. split; [by apply cache_effect_refl | done]. }
  rewrite bind_assoc in Hrun.
  destruct (heap s !! entity) as [o|] eqn:He.
  2: { rewrite (bind_throw _ _ _ _ _ (constructor_of_None _ _ He)) in Hrun.
       injection Hrun as <- <-. split; [by apply cache_effect_refl | done]. }
  rewrite (bind_ok _ _ _ _ _ (constructor_of_Some _ _ _ He)) in Hrun.
  pose proof (cache_step_getCacheMap (constructor_name o) s Hwf) as E0.
  simpl in E0.
  set (s0 := with_cacheMap (Nested.ensure (constructor_name o)) s) in *.
  unfold getCacheMap in Hrun. rewrite bind_assoc, bind_modify in Hrun.
  fold s0 in Hrun. rewrite !bind_assoc in Hrun.
  destruct (V1.cache_entity (V1.cache depth) (constructor_name o) entity s0)
    as [s1 [c|e]] eqn:Hent.
  - destruct (V1_cache_entity_spec _ _ _ _ _ _ (V1_cache_step depth)
                (ce_wf _ _ E0) Hent) as (E1 & Hpost).
    rewrite (bind_ok _ _ _ _ _ Hent) in Hrun. simpl in Hrun.
    injection Hrun as <- <-. split.
    + by eapply cache_effect_trans.
    + intros c' [= <-]. destruct (Hpost c eq_refl) as (o' & oc & Ho' & ?).
      assert (o' = o) as -> by (simpl in Ho'; congruence). by exists o, oc.
  - destruct (V1_cache_entity_spec _ _ _ _ _ _ (V1_cache_step depth)
                (ce_wf _ _ E0) Hent) as (E1 & _).
    rewrite (bind_throw _ _ _ _ _ Hent) in Hrun. simpl in Hrun.
    injection Hrun as <- <-. split; [|done]. by eapply cache_effect_trans.
Qed.

Lemma V1_cache_one_step entity : frames cache_step (V1.cache_one entity).
Proof.
  intros s Hwf. destruct (V1.cache_one entity s) as [s' out] eqn:Hrun.
  by destruct (V1_cache_one_spec _ _ _ _ Hwf Hrun).
Qed.
End V1_cache_spec.

#[export] Hint Resolve V1_cache_step V1_cache_one_step : frames.

(** ** The state of a session (first variant) *)

Lemma frames_weaken {S A} (R R' : S → S → Prop) (m : M (S:=S) A) :
  (∀ s s', R s s' → R' s s') → frames R m → frames R' m.
Proof. intros HR Hm s. apply HR, Hm. Qed.

Section inv_step_facts.
Context {D : Type} `{rt : Runtime}.
Implicit Types (s : State D).

#[export] Instance inv_step_preorder : PreOrder (inv_step (D:=D)).
Proof.
  split; [intros s Hs; exact Hs | intros s1 s2 s3 H12 H23 ?; by apply H23, H12].
Qed.

(** A step that removes objects from the cache or ids from the buffers,
    or leaves them as they are, and removes no object from the heap. *)
Lemma inv_step_mono s s' :
  (∀ l, is_Some (heap s !! l) → is_Some (heap s' !! l)) →
  (∀ name k l, present s' name k l → present s name k l) →
  (∀ name k, pending_insert s' name k → pending_insert s name k) →
  (∀ name k, pending_upsert s' name k → pending_upsert s name k) →
  inv_step s s'.
Proof.
  intros Hheap Hpres Hins Hups [[Hclosed Hinj] Hdisj]. split; [split|].
  - intros name k l Hp. eauto.
  - intros name k name' k' l Hp Hp'. eauto.
  - intros name k [Hi Hu]. apply (Hdisj name k). auto.
Qed.

Lemma cache_step_inv_step s s' : cache_step s s' → inv_step s s'.
Proof.
  intros Hstep [Hwf Hdisj]. destruct (Hstep Hwf). split; [done|].
  intros name k. unfold pending_insert, pending_upsert.
  rewrite ce_insertMap0, ce_upsertMap0. apply Hdisj.
Qed.

Lemma is_Some_lookup_insert (h : list Obj) l l' o :
  is_Some (h !! l') → is_Some (<[l := o]> h !! l').
Proof. rewrite !lookup_lt_is_Some, length_insert. done. Qed.

Lemma is_Some_lookup_app (h h' : list Obj) l :
  is_Some (h !! l) → is_Some ((h ++ h') !! l).
Proof. rewrite !lookup_lt_is_Some, length_app. lia. Qed.

Lemma present_absent s name0 k0 name k l :
  present (with_cacheMap (Nested.update name0 (JsMap.set k0 None)) s) name k l →
  present s name k l.
Proof.
  unfold present. simpl. rewrite NestedFacts.lookup_update_set.
  by case_decide.
Qed.

Lemma pending_cleared (m : list (string * list (string * loc))) name0 name k :
  JsMap.has k (Nested.inner name (Nested.update name0 (λ _, []) m)) = true →
  JsMap.has k (Nested.inner name m) = true.
Proof.
  destruct (decide (name0 = name)) as [->|Hne].
  - by rewrite NestedFacts.inner_update_eq.
  - by rewrite NestedFacts.inner_update_ne.
Qed.
End inv_step_facts.

(** Closes a goal [inv_step s (f s)] for an [f] that only takes things
    away, registers an empty map, or touches what the invariant does not
    read. *)
Ltac inv_leaf :=
  apply inv_step_mono; simpl;
  unfold present, pending_insert, pending_upsert; simpl;
  intros;
  rewrite ?NestedFacts.lookup_ensure, ?NestedFacts.inner_ensure in *;
  try match goal with
      | H : Nested.lookup _ _ (Nested.update _ (JsMap.set _ None) _) = Some (Some _)
        |- _ => rewrite NestedFacts.lookup_update_set in H; case_decide; congruence
      end;
  eauto using is_Some_lookup_insert, is_Some_lookup_app, pending_cleared.

Section inv_step_objects.
Context {D : Type} `{rt : Runtime}.

Lemma inv_step_alloc o : frames inv_step (alloc (D:=D) o).
Proof. unfold alloc. frames_auto. inv_leaf. Qed.

Lemma inv_step_write_prop l p v : frames inv_step (write_prop (D:=D) l p v).
Proof. unfold write_prop, deref. frames_auto. inv_leaf. Qed.

Lemma inv_step_write_id l i : frames inv_step (write_id (D:=D) l i).
Proof. unfold write_id, deref. frames_auto. inv_leaf. Qed.

Lemma inv_step_materialize f : frames inv_step (materialize (D:=D) f).
Proof. unfold materialize. frames_auto. inv_leaf. Qed.

Lemma inv_step_copy_anything depth l :
  frames inv_step (copy_anything (D:=D) depth l).
Proof.
  revert l. induction depth as [|depth IH]; intros l; simpl.
  - frames_auto.
  - pose proof inv_step_alloc. unfold deref. frames_auto.
Qed.

Lemma inv_step_structuredClone l : frames inv_step (structuredClone (D:=D) l).
Proof. unfold structuredClone, deref. frames_auto. inv_leaf. Qed.

Lemma inv_step_getCacheMap name : frames inv_step (getCacheMap (D:=D) name).
Proof. unfold getCacheMap. frames_auto. inv_leaf. Qed.

Lemma inv_step_getInsertList name : frames inv_step (getInsertList (D:=D) name).
Proof. unfold getInsertList. frames_auto. inv_leaf. Qed.

Lemma inv_step_getUpsertList name : frames inv_step (getUpsertList (D:=D) name).
Proof. unfold getUpsertList. frames_auto. inv_leaf. Qed.

Lemma inv_step_call_insert name ls : frames inv_step (call_insert (D:=D) name ls).
Proof. unfold call_insert. frames_auto. inv_leaf. Qed.

Lemma inv_step_call_upsert name ls : frames inv_step (call_upsert (D:=D) name ls).
Proof. unfold call_upsert. frames_auto. inv_leaf. Qed.

Lemma inv_step_call_find cls o : frames inv_step (call_find (D:=D) cls o).
Proof. pose proof inv_step_materialize. unfold call_find. frames_auto. inv_leaf. Qed.

Lemma inv_step_call_findBy cls w : frames inv_step (call_findBy (D:=D) cls w).
Proof. pose proof inv_step_materialize. unfold call_findBy. frames_auto. inv_leaf. Qed.

Lemma inv_step_call_findOne cls o : frames inv_step (call_findOne (D:=D) cls o).
Proof. pose proof inv_step_materialize. unfold call_findOne. frames_auto. inv_leaf. Qed.

Lemma inv_step_call_findOneBy cls w : frames inv_step (call_findOneBy (D:=D) cls w).
Proof. pose proof inv_step_materialize. unfold call_findOneBy. frames_auto. inv_leaf. Qed.

Lemma inv_step_call_get cls a : frames inv_step (call_get (D:=D) cls a).
Proof. pose proof inv_step_materialize. unfold call_get. frames_auto. inv_leaf. Qed.

Lemma inv_step_call_count cls o : frames inv_step (call_count (D:=D) cls o).
Proof. unfold call_count. frames_auto. inv_leaf. Qed.

Lemma inv_step_call_countBy cls w : frames inv_step (call_countBy (D:=D) cls w).
Proof. unfold call_countBy. frames_auto. inv_leaf. Qed.
End inv_step_objects.

#[export] Hint Resolve inv_step_alloc inv_step_write_prop inv_step_write_id
  inv_step_materialize inv_step_copy_anything inv_step_structuredClone
  inv_step_getCacheMap
  inv_step_getInsertList inv_step_getUpsertList inv_step_call_insert
  inv_step_call_upsert inv_step_call_find inv_step_call_findBy
  inv_step_call_findOne inv_step_call_findOneBy inv_step_call_get
  inv_step_call_count inv_step_call_countBy : frames.

Section V1_inv_step.
Context `{rt : Runtime}.
Implicit Types (s : State V1.DeferData).

Lemma V1_inv_step_cache depth es : frames inv_step (V1.cache depth es).
Proof. eapply frames_weaken; [apply @cache_step_inv_step | apply V1_cache_step]. Qed.

Lemma V1_inv_step_cache_one e : frames inv_step (V1.cache_one e).
Proof. eapply frames_weaken; [apply @cache_step_inv_step | apply V1_cache_one_step]. Qed.

Lemma V1_inv_step_getDeferData name : frames inv_step (V1.getDeferData name).
Proof. unfold V1.getDeferData. frames_auto. inv_leaf. Qed.

Lemma V1_inv_step_flush_entry name : frames inv_step (V1.flush_entry name).
Proof. unfold V1.flush_entry. frames_auto; inv_leaf. Qed.

Lemma V1_inv_step_flush entityClass : frames inv_step (V1.flush entityClass).
Proof.
  pose proof V1_inv_step_flush_entry.
  unfold V1.flush, getTopologicalOrder.
  frames_rule @frames_bind; [frames_step|]. intros order.
  induction order as [|name order IH]; simpl; frames_auto.
Qed.

(** An insert leaves the id of the entity in the insert buffer only when
    it has checked that the id is not in the upsert buffer. *)
Lemma V1_inv_step_insert_entity entityName entity :
  frames inv_step (V1.insert_entity entityName entity).
Proof.
  intros s [Hwf Hdisj]. unfold V1.insert_entity.
  destruct (heap s !! entity) as [o|] eqn:He.
  2: { by rewrite (bind_throw _ _ _ _ _ (id_of_None _ _ He)). }
  rewrite (bind_ok _ _ _ _ _ (id_of_Some _ _ _ He)), bind_gets.
  destruct (JsMap.has (id o) (Nested.inner entityName (insertMap s))) eqn:Hi;
    simpl negb; [by rewrite bind_assert_false|].
  rewrite bind_assert_true, bind_gets.
  destruct (JsMap.has (id o) (Nested.inner entityName (upsertMap s))) eqn:Hu;
    simpl negb; [by rewrite bind_assert_false|].
  rewrite bind_assert_true, bind_gets.
  destruct (is_nullish (Nested.lookup entityName (id o) (cacheMap s)));
    [|by rewrite bind_assert_false].
  rewrite bind_assert_true.
  destruct (V1.cache_one entity s) as [s1 [cached|e]] eqn:Hc.
  - destruct (V1_cache_one_spec _ _ _ _ Hwf Hc) as (E & Hpost).
    destruct (Hpost cached eq_refl) as (o' & oc & Ho' & Hoc & Hid & _).
    assert (o' = o) as -> by congruence.
    rewrite (bind_ok _ _ _ _ _ Hc), (bind_ok _ _ _ _ _ (id_of_Some _ _ _ Hoc)).
    simpl. split; [apply E|]. rewrite Hid.
    intros name k [Hpi Hpu]. unfold pending_insert, pending_upsert in *.
    simpl in *. rewrite (ce_upsertMap _ _ E) in Hpu.
    rewrite (ce_insertMap _ _ E) in Hpi.
    destruct (decide (entityName = name)) as [<-|Hne].
    + rewrite NestedFacts.inner_update_eq in Hpi.
      destruct (decide (id o = k)) as [<-|Hk]; [congruence|].
      rewrite JsMapFacts.has_set_ne in Hpi by done. by apply (Hdisj entityName k).
    + rewrite NestedFacts.inner_update_ne in Hpi by done.
      by apply (Hdisj name k).
  - rewrite (bind_throw _ _ _ _ _ Hc). simpl.
    eapply (cache_step_inv_step s); [|done].
    pose proof (V1_cache_one_step entity s) as Hstep. by rewrite Hc in Hstep.
Qed.

(** An upsert leaves the id in the upsert buffer only when it has seen
    that the id is not in the insert buffer. *)
Lemma V1_inv_step_upsert_entity entityName entity :
  frames inv_step (V1.upsert_entity entityName entity).
Proof.
  intros s [Hwf Hdisj]. unfold V1.upsert_entity.
  pose proof (V1_cache_one_step entity s Hwf) as E.
  destruct (V1.cache_one entity s) as [s1 [cached|e]] eqn:Hc; simpl in E.
  2: { rewrite (bind_throw _ _ _ _ _ Hc). simpl. split; [apply E|].
       intros name k. unfold pending_insert, pending_upsert.
       rewrite (ce_insertMap _ _ E), (ce_upsertMap _ _ E). apply Hdisj. }
  rewrite (bind_ok _ _ _ _ _ Hc).
  assert (buffers_disjoint s1) as Hdisj1.
  { intros name k. unfold pending_insert, pending_upsert.
    rewrite (ce_insertMap _ _ E), (ce_upsertMap _ _ E). apply Hdisj. }
  destruct (heap s1 !! cached) as [oc|] eqn:Hoc.
  2: { rewrite (bind_throw _ _ _ _ _ (id_of_None _ _ Hoc)). simpl.
       split; [apply E|done]. }
  rewrite (bind_ok _ _ _ _ _ (id_of_Some _ _ _ Hoc)), bind_gets.
  destruct (JsMap.has (id oc) (Nested.inner entityName (insertMap s1))) eqn:Hi;
    simpl; (split; [apply E|]); [done|].
  intros name k [Hpi Hpu]. unfold pending_insert, pending_upsert in *.
  simpl in *.
  destruct (decide (entityName = name)) as [<-|Hne].
  - rewrite NestedFacts.inner_update_eq in Hpu.
    destruct (decide (id oc = k)) as [<-|Hk]; [congruence|].
    rewrite JsMapFacts.has_set_ne in Hpu by done. by apply (Hdisj1 entityName k).
  - rewrite NestedFacts.inner_update_ne in Hpu by done.
    by apply (Hdisj1 name k).
Qed.
End V1_inv_step.

#[export] Hint Resolve V1_inv_step_cache V1_inv_step_cache_one
  V1_inv_step_getDeferData V1_inv_step_flush V1_inv_step_insert_entity
  V1_inv_step_upsert_entity : frames.

Section V1_inv_step_ops.
Context `{rt : Runtime}.
Implicit Types (s : State V1.DeferData).

Lemma V1_inv_step_insert es : frames inv_step (V1.insert es).
Proof. unfold V1.insert. destruct es; frames_auto. Qed.

Lemma V1_inv_step_upsert es : frames inv_step (V1.upsert es).
Proof. unfold V1.upsert. destruct es; frames_auto. Qed.

Lemma V1_inv_step_find cls o : frames inv_step (V1.find cls o).
Proof. unfold V1.find. frames_auto. Qed.

Lemma V1_inv_step_findBy cls w : frames inv_step (V1.findBy cls w).
Proof. unfold V1.findBy. frames_auto. Qed.

Lemma V1_inv_step_findOne cls o : frames inv_step (V1.findOne cls o).
Proof. unfold V1.findOne. frames_auto. Qed.

Lemma V1_inv_step_findOneBy cls w : frames inv_step (V1.findOneBy cls w).
Proof. unfold V1.findOneBy. frames_auto. Qed.

Lemma V1_inv_step_load cls : frames inv_step (V1.load cls).
Proof.
  pose proof V1_inv_step_find. unfold V1.load. frames_auto; inv_leaf.
Qed.

Lemma V1_inv_step_get cls a : frames inv_step (V1.get cls a).
Proof.
  pose proof V1_inv_step_load.
  unfold V1.get, V1.copy, V1.cache_found. frames_auto.
Qed.

Lemma V1_inv_step_defer cls i r : frames inv_step (V1.defer cls i r).
Proof. unfold V1.defer. frames_auto; inv_leaf. Qed.

Lemma V1_inv_step_exec op s : inv_step s (V1.exec op s).
Proof.
  pose proof V1_inv_step_insert. pose proof V1_inv_step_upsert.
  pose proof V1_inv_step_find. pose proof V1_inv_step_findBy.
  pose proof V1_inv_step_findOne. pose proof V1_inv_step_findOneBy.
  pose proof V1_inv_step_get. pose proof V1_inv_step_defer.
  destruct op; simpl.
  - by apply inv_step_alloc.
  - by apply inv_step_write_prop.
  - by apply inv_step_write_id.
  - by apply V1_inv_step_insert.
  - by apply V1_inv_step_upsert.
  - by apply V1_inv_step_upsert.
  - intros Hs; exact Hs.
  - revert s. change (frames inv_step (V1.count entityClass options)).
    unfold V1.count. frames_auto.
  - revert s. change (frames inv_step (V1.countBy entityClass w)).
    unfold V1.countBy. frames_auto.
  - by apply V1_inv_step_find.
  - by apply V1_inv_step_findBy.
  - by apply V1_inv_step_findOne.
  - by apply V1_inv_step_findOneBy.
  - revert s. change (frames inv_step (V1.findOneOrFail entityClass options)).
    unfold V1.findOneOrFail, V1.assertNotNull. frames_auto.
  - revert s. change (frames inv_step (V1.findOneByOrFail entityClass w)).
    unfold V1.findOneByOrFail, V1.assertNotNull. frames_auto.
  - by apply V1_inv_step_get.
  - revert s. change (frames inv_step (V1.getOrFail entityClass optionsOrId)).
    unfold V1.getOrFail, V1.assertNotNull. frames_auto.
  - by apply V1_inv_step_defer.
  - unfold V1.DeferredValue_get. destruct (dv_memo h).
    + intros Hs; exact Hs.
    + pose proof (V1_inv_step_get (dv_entityClass h) (inl (dv_id h)) s) as Hg.
      destruct (V1.get (dv_entityClass h) (inl (dv_id h)) s). exact Hg.
  - by apply V1_inv_step_flush.
Qed.

Lemma session_inv_init (d : DB) : session_inv (init (D:=V1.DeferData) d).
Proof.
  split; [split|].
  - by intros name k l.
  - by intros name k name' k' l.
  - by intros name k [].
Qed.

(** The invariant holds all along a session. *)
Lemma V1_session_inv_run ops s : session_inv s → session_inv (V1.run ops s).
Proof.
  revert s. induction ops as [|op ops IH]; intros s Hs; simpl; [done|].
  by apply IH, V1_inv_step_exec.
Qed.
End V1_inv_step_ops.

(** C7. Whatever the application has done since the session began
    (entities built and changed, inserts, upserts, defers, reads and
    flushes, some of which may have thrown), no id waits in both the
    insert buffer and the upsert buffer of a type. In particular an
    upsert of an entity whose id waits in the insert buffer of its type
    leaves the upsert buffer as it was for that id: the pending insert
    wins. *)
Theorem C7_insert_and_upsert_buffers_disjoint `{rt : Runtime}
    (d : DB) (ops : list V1.Op) :
  let st := V1.run ops (init d) in
  buffers_disjoint st ∧
  ∀ e o, heap st !! e = Some o →
    pending_insert st (constructor_name o) (id o) →
    Nested.lookup (constructor_name o) (id o) (upsertMap (V1.upsert [e] st).1) =
    Nested.lookup (constructor_name o) (id o) (upsertMap st).
Proof.
  intros st.
  assert (session_inv st) as [Hwf Hdisj]
    by apply V1_session_inv_run, session_inv_init.
  split; [done|]. intros e o He Hpi. unfold V1.upsert.
  rewrite (bind_ok _ _ _ _ _ (constructor_of_Some _ _ _ He)).
  unfold getInsertList, getUpsertList. rewrite !bind_modify.
  set (s0 := with_upsertMap _ _).
  assert (cache_wf s0) as Hwf0 by done.
  assert (heap s0 !! e = Some o) as He0 by done.
  simpl for_each. unfold V1.upsert_entity. rewrite bind_assoc.
  destruct (V1.cache_one e s0) as [s1 [cached|err]] eqn:Hc;
    destruct (V1_cache_one_spec _ _ _ _ Hwf0 Hc) as (E & Hpost).
  2: { rewrite (bind_throw _ _ _ _ _ Hc). simpl.
       rewrite (ce_upsertMap _ _ E). simpl. apply NestedFacts.lookup_ensure. }
  destruct (Hpost cached eq_refl) as (o' & oc & Ho' & Hoc & Hid & _).
  assert (o' = o) as -> by congruence.
  rewrite (bind_ok _ _ _ _ _ Hc), bind_assoc.
  rewrite (bind_ok _ _ _ _ _ (id_of_Some _ _ _ Hoc)), bind_assoc, bind_gets.
  rewrite Hid, (ce_insertMap _ _ E). simpl insertMap.
  rewrite NestedFacts.inner_ensure. unfold pending_insert in Hpi.
  rewrite Hpi. simpl. rewrite (ce_upsertMap _ _ E). simpl.
  apply NestedFacts.lookup_ensure.
Qed.

(** ** Reads: what is flushed, and when *)

Section outside_facts.
Context {D : Type} `{rt : Runtime}.

Lemma outside_copy_anything depth l :
  frames (keeps outside) (copy_anything (D:=D) depth l).
Proof.
  revert l. induction depth as [|depth IH]; intros l; simpl; frames_auto; done.
Qed.

Lemma outside_structuredClone l : frames (keeps outside) (structuredClone (D:=D) l).
Proof. unfold structuredClone, deref. frames_auto; done. Qed.

Lemma outside_materialize f : frames (keeps outside) (materialize (D:=D) f).
Proof. unfold materialize. frames_auto; done. Qed.

Lemma call_find_spec cls q (s : State D) :
  ∃ s' res, call_find cls q s = (s', Ok res) ∧
    calls s' = calls s ++ [CFind cls q] ∧
    insertMap s' = insertMap s ∧ upsertMap s' = upsertMap s.
Proof. by eexists _, _. Qed.

Lemma call_findBy_spec cls w (s : State D) :
  ∃ s' res, call_findBy cls w s = (s', Ok res) ∧
    calls s' = calls s ++ [CFindBy cls w] ∧
    insertMap s' = insertMap s ∧ upsertMap s' = upsertMap s.
Proof. by eexists _, _. Qed.

Lemma call_findOne_spec cls q (s : State D) :
  ∃ s' res, call_findOne cls q s = (s', Ok res) ∧
    calls s' = calls s ++ [CFindOne cls q] ∧
    insertMap s' = insertMap s ∧ upsertMap s' = upsertMap s.
Proof. by eexists _, _. Qed.

Lemma call_findOneBy_spec cls w (s : State D) :
  ∃ s' res, call_findOneBy cls w s = (s', Ok res) ∧
    calls s' = calls s ++ [CFindOneBy cls w] ∧
    insertMap s' = insertMap s ∧ upsertMap s' = upsertMap s.
Proof. by eexists _, _. Qed.

Lemma call_get_spec cls a (s : State D) :
  ∃ s' res, call_get cls a s = (s', Ok res) ∧
    calls s' = calls s ++ [CGet cls a] ∧
    insertMap s' = insertMap s ∧ upsertMap s' = upsertMap s.
Proof. by eexists _, _. Qed.

Lemma call_count_spec cls q (s : State D) :
  ∃ s' n, call_count cls q s = (s', Ok n) ∧
    calls s' = calls s ++ [CCount cls q] ∧
    insertMap s' = insertMap s ∧ upsertMap s' = upsertMap s.
Proof. by eexists _, _. Qed.

Lemma call_countBy_spec cls w (s : State D) :
  ∃ s' n, call_countBy cls w s = (s', Ok n) ∧
    calls s' = calls s ++ [CCountBy cls w] ∧
    insertMap s' = insertMap s ∧ upsertMap s' = upsertMap s.
Proof. by eexists _, _. Qed.

Lemma keeps_outside (s s' : State D) :
  keeps outside s s' →
  calls s' = calls s ∧ db s' = db s ∧
  insertMap s' = insertMap s ∧ upsertMap s' = upsertMap s.
Proof. unfold keeps, outside. by intros [= -> -> -> ->]. Qed.
End outside_facts.

#[export] Hint Resolve outside_copy_anything outside_structuredClone
  outside_materialize : frames.

Section V1_reads.
Context `{rt : Runtime}.
Implicit Types (s : State V1.DeferData).

Lemma V1_outside_cache depth es : frames (keeps outside) (V1.cache depth es).
Proof.
  revert es. induction depth as [|depth IH]; intros es; simpl.
  - frames_auto.
  - destruct es; frames_auto; done.
Qed.

Lemma V1_outside_cache_one e : frames (keeps outside) (V1.cache_one e).
Proof. pose proof V1_outside_cache. unfold V1.cache_one. frames_auto. Qed.

Lemma V1_flush_loop_ok order entityClass s :
  (V1.flush_loop order entityClass s).2 = Ok tt.
Proof.
  revert s. induction order as [|name order IH]; intros s; simpl; [done|].
  pose proof (V1_flush_entry_spec name s) as (Hok & _).
  unfold bind. destruct (V1.flush_entry name s) as [s1 o]. simpl in Hok. subst o.
  case_bool_decide; [done | apply IH].
Qed.

(** A flush returns. *)
Lemma V1_flush_ok entityClass s : (V1.flush entityClass s).2 = Ok tt.
Proof. apply V1_flush_loop_ok. Qed.

Lemma V1_flush_entry_input name s1 s2 :
  flush_input s1 = flush_input s2 →
  flush_input (V1.flush_entry name s1).1 = flush_input (V1.flush_entry name s2).1.
Proof.
  destruct s1, s2. unfold flush_input. simpl. intros [= -> -> -> -> ->].
  unfold V1.flush_entry, getInsertList, getUpsertList, call_insert, call_upsert,
    bind, gets, modify, when, ret, snapshot. simpl.
  rewrite !NestedFacts.inner_ensure.
  repeat (case_bool_decide; simpl; rewrite ?NestedFacts.inner_ensure); done.
Qed.

(** What a flush does depends only on the objects, the buffers and the
    store. *)
Lemma V1_flush_input entityClass s1 s2 :
  flush_input s1 = flush_input s2 →
  flush_input (V1.flush entityClass s1).1 = flush_input (V1.flush entityClass s2).1.
Proof.
  unfold V1.flush, getTopologicalOrder. rewrite !bind_ret.
  generalize (reverse (topologicalSort (schema_graph entityMetadatas))).
  intros order. revert s1 s2.
  induction order as [|name order IH]; intros s1 s2 Heq; simpl; [done|].
  pose proof (V1_flush_entry_input name s1 s2 Heq) as Hent.
  pose proof (V1_flush_entry_spec name s1) as (Hok1 & _).
  pose proof (V1_flush_entry_spec name s2) as (Hok2 & _).
  unfold bind.
  destruct (V1.flush_entry name s1) as [t1 o1].
  destruct (V1.flush_entry name s2) as [t2 o2].
  simpl in *. subst o1 o2. case_bool_decide; [done | by apply IH].
Qed.

(** After a flush up to a type that the order lists, nothing waits in
    the buffers of that type. *)
Lemma V1_flush_loop_empties order cls entityClass s :
  cls ∈ flushed entityClass order →
  Nested.inner cls (insertMap (V1.flush_loop order entityClass s).1) = [] ∧
  Nested.inner cls (upsertMap (V1.flush_loop order entityClass s).1) = [].
Proof.
  revert s. induction order as [|name order IH]; intros s; simpl.
  - by intros ?%elem_of_nil.
  - pose proof (V1_flush_entry_spec name s) as (Hok & _ & _ & _ & _ & _ & Hi & Hu).
    unfold bind. destruct (V1.flush_entry name s) as [s1 o].
    simpl in Hok, Hi, Hu. subst o.
    intros Hin. case_bool_decide as Hstop.
    + apply elem_of_cons in Hin as [->|?%elem_of_nil]; [|done].
      simpl. by rewrite Hi, Hu, !NestedFacts.inner_update_eq.
    + destruct (decide (cls ∈ flushed entityClass order)) as [Hin'|Hnin].
      * by apply IH.
      * apply elem_of_cons in Hin as [->|?]; [|done].
        clear IH Hstop.
        assert (∀ s', Nested.inner name (insertMap s') = [] →
                      Nested.inner name (upsertMap s') = [] →
                      Nested.inner name (insertMap (V1.flush_loop order entityClass s').1) = [] ∧
                      Nested.inner name (upsertMap (V1.flush_loop order entityClass s').1) = [])
          as Hkeep.
        { clear. induction order as [|n order IH]; intros s' Hi Hu; simpl; [done|].
          pose proof (V1_flush_entry_spec n s') as (Hok & _ & _ & _ & _ & _ & Hi' & Hu').
          unfold bind. destruct (V1.flush_entry n s') as [s1 o].
          simpl in Hok, Hi', Hu'. subst o.
          assert (Nested.inner name (insertMap s1) = [] ∧
                  Nested.inner name (upsertMap s1) = []) as [Hi1 Hu1].
          { rewrite Hi', Hu'. destruct (decide (n = name)) as [->|Hne].
            - by rewrite !NestedFacts.inner_update_eq.
            - by rewrite !NestedFacts.inner_update_ne, !NestedFacts.inner_ensure. }
          case_bool_decide; [done | by apply IH]. }
        apply Hkeep; [rewrite Hi | rewrite Hu];
          by rewrite NestedFacts.inner_update_eq.
Qed.
End V1_reads.

#[export] Hint Resolve V1_outside_cache V1_outside_cache_one : frames.

Section V1_read_ops.
Context `{rt : Runtime}.
Implicit Types (s : State V1.DeferData).

(** Runs the flush a read starts with. *)
Ltac flush_first s cls :=
  let Hok := fresh "Hok" in
  pose proof (V1_flush_ok (Some cls) s) as Hok;
  destruct (V1.flush (Some cls) s) as [?s_f ?o] eqn:?Hflush;
  simpl in Hok; subst;
  erewrite bind_ok by eassumption.

(** Runs a last step that leaves the calls and the buffers alone. *)
Ltac outside_last lem :=
  let Hk := fresh "Hk" in
  match goal with
  | |- context [bind ?m ?k ?s] =>
      pose proof (lem s) as Hk; apply keeps_outside in Hk;
      destruct (m s) as [? [?|?]] eqn:?Hlast;
      [erewrite bind_ok by eassumption | erewrite bind_throw by eassumption];
      simpl in *; destruct Hk as (? & ? & ? & ?)
  end.

Lemma V1_getDeferData_run name s :
  ∃ d, V1.getDeferData name s =
       (with_deferred (λ m, match JsMap.get name m with
                            | Some _ => m
                            | None => JsMap.set name V1.new_DeferData m
                            end) s, Ok d) ∧
       d = default V1.new_DeferData (JsMap.get name (deferred s)).
Proof.
  eexists. split; [done|]. simpl.
  destruct (JsMap.get name (deferred s)) eqn:Hg; simpl.
  - by rewrite Hg.
  - by rewrite JsMapFacts.get_set_eq.
Qed.

Lemma V1_find_flushes cls o s :
  flushes_then_asks (V1.flush (Some cls) s).1 (V1.find cls o s).1
    (CFind cls (V1.with_deferred_relations (default empty_options o)
                  (default V1.new_DeferData (JsMap.get cls (deferred s))))).
Proof.
  unfold V1.find, flushes_then_asks.
  pose proof (V1_flush_same_cache (Some cls) s) as (_ & Hdef & _).
  flush_first s cls. simpl in *.
  destruct (V1_getDeferData_run cls s_f) as (d & Hd & ->).
  rewrite (bind_ok _ _ _ _ _ Hd), Hdef.
  edestruct (call_find_spec (D:=V1.DeferData) cls) as (s2 & res & Hcf & Hc & Hi & Hu).
  rewrite (bind_ok _ _ _ _ _ Hcf).
  outside_last (V1_outside_cache stack_limit res); by rewrite ?Hc, ?Hi, ?Hu in *.
Qed.

Lemma V1_findBy_flushes cls w s :
  flushes_then_asks (V1.flush (Some cls) s).1 (V1.findBy cls w s).1 (CFindBy cls w).
Proof.
  unfold V1.findBy, flushes_then_asks. flush_first s cls. simpl.
  edestruct (call_findBy_spec (D:=V1.DeferData) cls) as (s2 & res & Hcf & Hc & Hi & Hu).
  rewrite (bind_ok _ _ _ _ _ Hcf).
  outside_last (V1_outside_cache stack_limit res); by rewrite ?Hc, ?Hi, ?Hu in *.
Qed.

Lemma V1_findOne_flushes cls o s :
  flushes_then_asks (V1.flush (Some cls) s).1 (V1.findOne cls o s).1
    (CFindOne cls (V1.with_deferred_relations o
                     (default V1.new_DeferData (JsMap.get cls (deferred s))))).
Proof.
  unfold V1.findOne, flushes_then_asks.
  pose proof (V1_flush_same_cache (Some cls) s) as (_ & Hdef & _).
  flush_first s cls. simpl in *.
  destruct (V1_getDeferData_run cls s_f) as (d & Hd & ->).
  rewrite (bind_ok _ _ _ _ _ Hd), Hdef.
  edestruct (call_findOne_spec (D:=V1.DeferData) cls) as (s2 & res & Hcf & Hc & Hi & Hu).
  rewrite (bind_ok _ _ _ _ _ Hcf).
  destruct res as [r|]; [|done].
  outside_last (V1_outside_cache_one r); by rewrite ?Hc, ?Hi, ?Hu in *.
Qed.

Lemma V1_findOneBy_flushes cls w s :
  flushes_then_asks (V1.flush (Some cls) s).1 (V1.findOneBy cls w s).1
                    (CFindOneBy cls w).
Proof.
  unfold V1.findOneBy, flushes_then_asks. flush_first s cls. simpl.
  edestruct (call_findOneBy_spec (D:=V1.DeferData) cls) as (s2 & res & Hcf & Hc & Hi & Hu).
  rewrite (bind_ok _ _ _ _ _ Hcf).
  destruct res as [r|]; [|done].
  outside_last (V1_outside_cache_one r); by rewrite ?Hc, ?Hi, ?Hu in *.
Qed.

Lemma V1_count_flushes cls o s :
  flushes_then_asks (V1.flush (Some cls) s).1 (V1.count cls o s).1
                    (CCount cls (default empty_options o)).
Proof. unfold V1.count, flushes_then_asks. flush_first s cls. done. Qed.

Lemma V1_countBy_flushes cls w s :
  flushes_then_asks (V1.flush (Some cls) s).1 (V1.countBy cls w s).1
                    (CCountBy cls w).
Proof. unfold V1.countBy, flushes_then_asks. flush_first s cls. done. Qed.

Lemma V1_cache_found_outside v : frames (keeps outside) (V1.cache_found v).
Proof. unfold V1.cache_found. frames_auto. Qed.

Lemma V1_get_options_flushes cls o s :
  flushes_then_asks (V1.flush (Some cls) s).1 (V1.get cls (inr o) s).1
                    (CGet cls (inr o)).
Proof.
  unfold V1.get, flushes_then_asks. flush_first s cls. simpl.
  edestruct (call_get_spec (D:=V1.DeferData) cls) as (s2 & res & Hcf & Hc & Hi & Hu).
  rewrite (bind_ok _ _ _ _ _ Hcf).
  pose proof (V1_cache_found_outside res s2) as Hk. apply keeps_outside in Hk.
  destruct Hk as (? & ? & ? & ?). by rewrite <- Hc, <- Hi, <- Hu.
Qed.
End V1_read_ops.

Section V1_get.
Context `{rt : Runtime}.
Implicit Types (s : State V1.DeferData).

(** The ids deferred for a type. *)
Lemma V1_load_nothing cls s :
  V1.ids (default V1.new_DeferData (JsMap.get cls (deferred s))) = [] →
  ∃ s0, V1.load cls s = (s0, Ok tt) ∧
        heap s0 = heap s ∧ outside s0 = outside s ∧ cacheMap s0 = cacheMap s.
Proof.
  intros Hids. unfold V1.load.
  destruct (V1_getDeferData_run cls s) as (d & Hd & ->).
  rewrite (bind_ok _ _ _ _ _ Hd), Hids. by eexists.
Qed.

(** With nothing deferred for the type and an entry for the id, [get]
    answers from the cache: no flush, no call, the buffers as they were. *)
Lemma V1_get_hit cls i x s :
  V1.ids (default V1.new_DeferData (JsMap.get cls (deferred s))) = [] →
  Nested.lookup cls i (cacheMap s) = Some x →
  outside (V1.get cls (inl i) s).1 = outside s.
Proof.
  intros Hids Hx. unfold V1.get.
  destruct (V1_load_nothing cls s Hids) as (s0 & Hload & Hh & Ho & Hc).
  rewrite (bind_ok _ _ _ _ _ Hload). unfold getCacheMap.
  rewrite bind_modify, bind_gets. simpl.
  rewrite NestedFacts.lookup_ensure, Hc, Hx.
  destruct x as [l|]; [|done].
  pose proof (outside_copy_anything (D:=V1.DeferData) stack_limit l
                (with_cacheMap (Nested.ensure cls) s0)) as Hk.
  unfold V1.copy, bind.
  destruct (copy_anything stack_limit l (with_cacheMap (Nested.ensure cls) s0))
    as [s1 [c|e]]; simpl in *; by rewrite Hk.
Qed.

(** With nothing deferred for the type and no entry for the id, [get]
    flushes and then asks the store for the id. *)
Lemma V1_get_miss cls i s :
  V1.ids (default V1.new_DeferData (JsMap.get cls (deferred s))) = [] →
  Nested.lookup cls i (cacheMap s) = None →
  flushes_then_asks (V1.flush (Some cls) s).1 (V1.get cls (inl i) s).1
                    (CGet cls (inl i)).
Proof.
  intros Hids Hx. unfold V1.get.
  destruct (V1_load_nothing cls s Hids) as (s0 & Hload & Hh & Ho & Hc).
  rewrite (bind_ok _ _ _ _ _ Hload). unfold getCacheMap.
  rewrite bind_modify, bind_gets. simpl.
  rewrite NestedFacts.lookup_ensure, Hc, Hx.
  set (s1 := with_cacheMap (Nested.ensure cls) s0).
  assert (flush_input s1 = flush_input s) as Hin.
  { unfold flush_input, outside in *. simpl. congruence. }
  apply (V1_flush_input (Some cls)) in Hin.
  pose proof (V1_flush_ok (Some cls) s1) as Hok.
  destruct (V1.flush (Some cls) s1) as [s_f o] eqn:Hflush. simpl in Hok. subst o.
  rewrite (bind_ok _ _ _ _ _ Hflush).
  edestruct (call_get_spec (D:=V1.DeferData) cls) as (s2 & res & Hcf & Hc2 & Hi & Hu).
  rewrite (bind_ok _ _ _ _ _ Hcf).
  pose proof (V1_cache_found_outside res s2) as Hk. apply keeps_outside in Hk.
  destruct Hk as (Hk1 & _ & Hk3 & Hk4). unfold flushes_then_asks.
  rewrite Hk1, Hk3, Hk4, Hc2, Hi, Hu.
  unfold flush_input in Hin. simpl in Hin. by injection Hin as _ -> _ -> ->.
Qed.
End V1_get.

(** ** Reads in the second variant *)

Section V2_flush.
Context `{rt : Runtime}.
Implicit Types (s : State (list string)).

Lemma V2_flush_entry_spec name s :
  let s' := (V2.flush_entry name s).1 in
  (V2.flush_entry name s).2 = Ok tt ∧
  calls s' = calls s ++ pending_calls s name ∧
  heap s' = heap s ∧ deferred s' = deferred s ∧
  cacheMap s' = Nested.ensure name (cacheMap s) ∧ classes s' = classes s ∧
  insertMap s' = Nested.update name (λ _, []) (Nested.ensure name (insertMap s)) ∧
  upsertMap s' = Nested.update name (λ _, []) (Nested.ensure name (upsertMap s)).
Proof.
  unfold V2.flush_entry, pending_calls, getCacheMap, getInsertList,
    getUpsertList, call_insert, call_upsert, bind, gets, modify, when, ret.
  simpl. rewrite !NestedFacts.inner_ensure.
  destruct (bool_decide (0 < JsMap.size (Nested.inner name (insertMap s))));
    simpl; rewrite ?NestedFacts.inner_ensure;
    destruct (bool_decide (0 < JsMap.size (Nested.inner name (upsertMap s))));
    simpl; rewrite ?app_nil_r, <- ?app_assoc; done.
Qed.

Lemma V2_flush_loop_ok order entityClass s :
  (V2.flush_loop order entityClass s).2 = Ok tt.
Proof.
  revert s. induction order as [|name order IH]; intros s; simpl; [done|].
  pose proof (V2_flush_entry_spec name s) as (Hok & _).
  unfold bind. destruct (V2.flush_entry name s) as [s1 o]. simpl in Hok. subst o.
  case_bool_decide; [done | apply IH].
Qed.

Lemma V2_flush_ok entityClass s : (V2.flush entityClass s).2 = Ok tt.
Proof. apply V2_flush_loop_ok. Qed.

Lemma V2_flush_entry_input name s1 s2 :
  flush_input s1 = flush_input s2 →
  flush_input (V2.flush_entry name s1).1 = flush_input (V2.flush_entry name s2).1.
Proof.
  destruct s1, s2. unfold flush_input. simpl. intros [= -> -> -> -> ->].
  unfold V2.flush_entry, getCacheMap, getInsertList, getUpsertList, call_insert,
    call_upsert, bind, gets, modify, when, ret, snapshot. simpl.
  rewrite !NestedFacts.inner_ensure.
  repeat (case_bool_decide; simpl; rewrite ?NestedFacts.inner_ensure); done.
Qed.

Lemma V2_flush_input entityClass s1 s2 :
  flush_input s1 = flush_input s2 →
  flush_input (V2.flush entityClass s1).1 = flush_input (V2.flush entityClass s2).1.
Proof.
  unfold V2.flush, getTopologicalOrder. rewrite !bind_ret.
  generalize (reverse (topologicalSort (schema_graph entityMetadatas))).
  intros order. revert s1 s2.
  induction order as [|name order IH]; intros s1 s2 Heq; simpl; [done|].
  pose proof (V2_flush_entry_input name s1 s2 Heq) as Hent.
  pose proof (V2_flush_entry_spec name s1) as (Hok1 & _).
  pose proof (V2_flush_entry_spec name s2) as (Hok2 & _).
  unfold bind.
  destruct (V2.flush_entry name s1) as [t1 o1].
  destruct (V2.flush_entry name s2) as [t2 o2].
  simpl in *. subst o1 o2. case_bool_decide; [done | by apply IH].
Qed.

Lemma V2_flush_loop_keeps_empty order name entityClass s :
  Nested.inner name (insertMap s) = [] →
  Nested.inner name (upsertMap s) = [] →
  Nested.inner name (insertMap (V2.flush_loop order entityClass s).1) = [] ∧
  Nested.inner name (upsertMap (V2.flush_loop order entityClass s).1) = [].
Proof.
  revert s. induction order as [|n order IH]; intros s Hi Hu; simpl; [done|].
  pose proof (V2_flush_entry_spec n s) as (Hok & _ & _ & _ & _ & _ & Hi' & Hu').
  unfold bind. destruct (V2.flush_entry n s) as [s1 o].
  simpl in Hok, Hi', Hu'. subst o.
  assert (Nested.inner name (insertMap s1) = [] ∧
          Nested.inner name (upsertMap s1) = []) as [Hi1 Hu1].
  { rewrite Hi', Hu'. destruct (decide (n = name)) as [->|Hne].
    - by rewrite !NestedFacts.inner_update_eq.
    - by rewrite !NestedFacts.inner_update_ne, !NestedFacts.inner_ensure. }
  case_bool_decide; [done | by apply IH].
Qed.

(** After a flush up to a type that the order lists, nothing waits in
    the buffers of that type. *)
Lemma V2_flush_loop_empties order cls entityClass s :
  cls ∈ flushed (Some entityClass) order →
  Nested.inner cls (insertMap (V2.flush_loop order entityClass s).1) = [] ∧
  Nested.inner cls (upsertMap (V2.flush_loop order entityClass s).1) = [].
Proof.
  revert s. induction order as [|name order IH]; intros s; simpl.
  - by intros ?%elem_of_nil.
  - pose proof (V2_flush_entry_spec name s) as (Hok & _ & _ & _ & _ & _ & Hi & Hu).
    unfold bind. destruct (V2.flush_entry name s) as [s1 o].
    simpl in Hok, Hi, Hu. subst o.
    assert (Nested.inner name (insertMap s1) = [] ∧
            Nested.inner name (upsertMap s1) = []) as [Hi1 Hu1].
    { by rewrite Hi, Hu, !NestedFacts.inner_update_eq. }
    intros Hin. destruct (decide (entityClass = name)) as [->|Hne].
    + rewrite bool_decide_true in Hin by done. rewrite bool_decide_true by done.
      apply elem_of_cons in Hin as [->|?%elem_of_nil]; done.
    + rewrite bool_decide_false in Hin by congruence.
      rewrite bool_decide_false by done.
      apply elem_of_cons in Hin as [->|Hin]; [|by apply IH].
      by apply V2_flush_loop_keeps_empty.
Qed.

Lemma V2_outside_cache depth es : frames (keeps outside) (V2.cache depth es).
Proof.
  revert es. induction depth as [|depth IH]; intros es; simpl.
  - frames_auto.
  - destruct es; frames_auto; done.
Qed.

Lemma V2_outside_cache_found v : frames (keeps outside) (V2.cache_found v).
Proof.
  pose proof V2_outside_cache. unfold V2.cache_found, V2.cache_one. frames_auto.
Qed.
End V2_flush.

Section V2_read_ops.
Context `{rt : Runtime}.
Implicit Types (s : State (list string)).

Ltac flush_first s cls :=
  let Hok := fresh "Hok" in
  pose proof (V2_flush_ok cls s) as Hok;
  destruct (V2.flush cls s) as [?s_f ?o] eqn:?Hflush;
  simpl in Hok; subst;
  erewrite bind_ok by eassumption.

Ltac outside_last lem :=
  let Hk := fresh "Hk" in
  match goal with
  | |- context [?m ?s] =>
      pose proof (lem s) as Hk; apply keeps_outside in Hk;
      destruct Hk as (? & ? & ? & ?)
  end.

Lemma V2_find_flushes cls o s :
  flushes_then_asks (V2.flush cls s).1 (V2.find cls o s).1
                    (CFind cls (default empty_options o)).
Proof.
  unfold V2.find, flushes_then_asks. flush_first s cls. simpl.
  edestruct (call_find_spec (D:=list string) cls) as (s2 & res & Hcf & Hc & Hi & Hu).
  rewrite (bind_ok _ _ _ _ _ Hcf).
  pose proof (V2_outside_cache stack_limit res s2) as Hk.
  apply keeps_outside in Hk as (? & ? & ? & ?). by rewrite <- Hc, <- Hi, <- Hu.
Qed.

Lemma V2_findBy_flushes cls w s :
  flushes_then_asks (V2.flush cls s).1 (V2.findBy cls w s).1 (CFindBy cls w).
Proof.
  unfold V2.findBy, flushes_then_asks. flush_first s cls. simpl.
  edestruct (call_findBy_spec (D:=list string) cls) as (s2 & res & Hcf & Hc & Hi & Hu).
  rewrite (bind_ok _ _ _ _ _ Hcf).
  pose proof (V2_outside_cache stack_limit res s2) as Hk.
  apply keeps_outside in Hk as (? & ? & ? & ?). by rewrite <- Hc, <- Hi, <- Hu.
Qed.

Lemma V2_findOne_flushes cls o s :
  flushes_then_asks (V2.flush cls s).1 (V2.findOne cls o s).1 (CFindOne cls o).
Proof.
  unfold V2.findOne, flushes_then_asks. flush_first s cls. simpl.
  edestruct (call_findOne_spec (D:=list string) cls) as (s2 & res & Hcf & Hc & Hi & Hu).
  rewrite (bind_ok _ _ _ _ _ Hcf).
  pose proof (V2_outside_cache_found res s2) as Hk.
  apply keeps_outside in Hk as (? & ? & ? & ?). by rewrite <- Hc, <- Hi, <- Hu.
Qed.

Lemma V2_findOneBy_flushes cls w s :
  flushes_then_asks (V2.flush cls s).1 (V2.findOneBy cls w s).1 (CFindOneBy cls w).
Proof.
  unfold V2.findOneBy, flushes_then_asks. flush_first s cls. simpl.
  edestruct (call_findOneBy_spec (D:=list string) cls) as (s2 & res & Hcf & Hc & Hi & Hu).
  rewrite (bind_ok _ _ _ _ _ Hcf).
  pose proof (V2_outside_cache_found res s2) as Hk.
  apply keeps_outside in Hk as (? & ? & ? & ?). by rewrite <- Hc, <- Hi, <- Hu.
Qed.

Lemma V2_count_flushes cls o s :
  flushes_then_asks (V2.flush cls s).1 (V2.count cls o s).1
                    (CCount cls (default empty_options o)).
Proof. unfold V2.count, flushes_then_asks. flush_first s cls. done. Qed.

Lemma V2_countBy_flushes cls w s :
  flushes_then_asks (V2.flush cls s).1 (V2.countBy cls w s).1 (CCountBy cls w).
Proof. unfold V2.countBy, flushes_then_asks. flush_first s cls. done. Qed.

Lemma V2_get_options_flushes cls o s :
  flushes_then_asks (V2.flush cls s).1 (V2.get cls (inr o) s).1 (CGet cls (inr o)).
Proof.
  unfold V2.get, flushes_then_asks. flush_first s cls. simpl.
  edestruct (call_get_spec (D:=list string) cls) as (s2 & res & Hcf & Hc & Hi & Hu).
  rewrite (bind_ok _ _ _ _ _ Hcf).
  pose proof (V2_outside_cache_found res s2) as Hk.
  apply keeps_outside in Hk as (? & ? & ? & ?). by rewrite <- Hc, <- Hi, <- Hu.
Qed.

(** With no id deferred for any type, [load] does nothing. *)
Lemma V2_load_nothing s :
  (∀ name, V2.deferList_of name s = []) → V2.load s = (s, Ok tt).
Proof.
  intros Hnone. unfold V2.load. rewrite bind_gets.
  induction (JsMap.keys (deferred s)) as [|name names IH]; simpl; [done|].
  unfold V2.load_entry at 1. rewrite bind_assoc, bind_gets, Hnone. simpl.
  by rewrite bind_ret.
Qed.

Lemma V2_get_hit cls i x s :
  (∀ name, V2.deferList_of name s = []) →
  Nested.lookup cls i (cacheMap s) = Some x →
  outside (V2.get cls (inl i) s).1 = outside s.
Proof.
  intros Hnone Hx. unfold V2.get.
  rewrite (bind_ok _ _ _ _ _ (V2_load_nothing s Hnone)). unfold getCacheMap.
  rewrite bind_modify, bind_gets. simpl.
  rewrite NestedFacts.lookup_ensure, Hx.
  destruct x as [l|]; [|done].
  pose proof (outside_structuredClone (D:=list string) l
                (with_cacheMap (Nested.ensure cls) s)) as Hk.
  unfold bind.
  destruct (structuredClone l (with_cacheMap (Nested.ensure cls) s))
    as [s1 [c|e]]; simpl in *; by rewrite Hk.
Qed.

Lemma V2_get_miss cls i s :
  (∀ name, V2.deferList_of name s = []) →
  Nested.lookup cls i (cacheMap s) = None →
  flushes_then_asks (V2.flush cls s).1 (V2.get cls (inl i) s).1 (CGet cls (inl i)).
Proof.
  intros Hnone Hx. unfold V2.get.
  rewrite (bind_ok _ _ _ _ _ (V2_load_nothing s Hnone)). unfold getCacheMap.
  rewrite bind_modify, bind_gets. simpl.
  rewrite NestedFacts.lookup_ensure, Hx.
  set (s1 := with_cacheMap (Nested.ensure cls) s).
  assert (flush_input s1 = flush_input s) as Hin by done.
  apply (V2_flush_input cls) in Hin.
  pose proof (V2_flush_ok cls s1) as Hok.
  destruct (V2.flush cls s1) as [s_f o] eqn:Hflush. simpl in Hok. subst o.
  rewrite (bind_ok _ _ _ _ _ Hflush).
  edestruct (call_get_spec (D:=list string) cls) as (s2 & res & Hcf & Hc2 & Hi & Hu).
  rewrite (bind_ok _ _ _ _ _ Hcf).
  pose proof (V2_outside_cache_found res s2) as Hk. apply keeps_outside in Hk.
  destruct Hk as (Hk1 & _ & Hk3 & Hk4). unfold flushes_then_asks.
  rewrite Hk1, Hk3, Hk4, Hc2, Hi, Hu.
  unfold flush_input in Hin. simpl in Hin. by injection Hin as _ -> _ -> ->.
Qed.
End V2_read_ops.

(** ** Deferred loads *)

Section kept_facts.
Context {D : Type} `{rt : Runtime}.

#[export] Instance writes_only_preorder : PreOrder (writes_only (D:=D)).
Proof.
  split.
  - intros s. exists []. by rewrite app_nil_r.
  - intros s1 s2 s3 (c1 & H1 & F1) (c2 & H2 & F2). exists (c1 ++ c2).
    split; [by rewrite H2, H1, app_assoc | by apply Forall_app].
Qed.

#[export] Instance entries_kept_preorder : PreOrder (entries_kept (D:=D)).
Proof.
  split; [by intros s name k | intros s1 s2 s3 H1 H2 name k ?; by apply H2, H1].
Qed.

Lemma but_heap_copy_anything depth l :
  frames (keeps but_heap) (copy_anything (D:=D) depth l).
Proof.
  revert l. induction depth as [|depth IH]; intros l; simpl; frames_auto; done.
Qed.

Lemma but_heap_structuredClone l :
  frames (keeps but_heap) (structuredClone (D:=D) l).
Proof. unfold structuredClone, deref. frames_auto; done. Qed.

Lemma entries_kept_set (s : State D) name k v :
  entries_kept s (with_cacheMap (Nested.update name (JsMap.set k v)) s).
Proof.
  intros n j Hs. simpl. rewrite NestedFacts.lookup_update_set.
  by case_decide.
Qed.

Lemma entries_kept_ensure (s : State D) name :
  entries_kept s (with_cacheMap (Nested.ensure name) s).
Proof. intros n j Hs. simpl. by rewrite NestedFacts.lookup_ensure. Qed.
End kept_facts.

Section V1_deferred.
Context `{rt : Runtime}.
Implicit Types (s : State V1.DeferData).

Lemma V1_entries_kept_cache depth es : frames entries_kept (V1.cache depth es).
Proof.
  revert es. induction depth as [|depth IH]; intros es; simpl.
  - frames_auto.
  - destruct es; frames_auto;
      first [apply entries_kept_set | apply entries_kept_ensure | by intros ? ? ?].
Qed.

Lemma V1_writes_only_flush entityClass : frames writes_only (V1.flush entityClass).
Proof.
  unfold V1.flush, getTopologicalOrder.
  frames_rule @frames_bind; [frames_step|]. intros order.
  induction order as [|name order IH]; simpl; frames_auto;
    try (exists []; by rewrite app_nil_r).
  - eexists [_]. split; [done|]. by repeat constructor.
  - eexists [_]. split; [done|]. by repeat constructor.
Qed.

(** [defer] puts the id in the deferred set of the type, after those
    that are there. *)
Lemma V1_defer_ids cls i r s :
  V1_deferred_ids (V1.defer cls i r s).1 cls = JsSet.add i (V1_deferred_ids s cls).
Proof.
  unfold V1_deferred_ids, V1.defer.
  rewrite bind_modify.
  destruct (V1_getDeferData_run cls (with_classes (JsMap.set cls cls) s))
    as (d & Hd & ->).
  rewrite (bind_ok _ _ _ _ _ Hd). rewrite bind_modify. simpl.
  rewrite JsMapFacts.get_set_eq. simpl.
  destruct (JsMap.get cls (deferred s)) eqn:Hg; simpl; [by rewrite Hg|].
  by rewrite JsMapFacts.get_set_eq.
Qed.

Lemma JsSet_add_all (ids done_ids : list string) :
  NoDup (done_ids ++ ids) →
  foldl (λ acc i, JsSet.add i acc) done_ids ids = done_ids ++ ids.
Proof.
  revert done_ids. induction ids as [|i ids IH]; intros done_ids Hnd; simpl.
  - by rewrite app_nil_r.
  - assert (JsSet.add i done_ids = done_ids ++ [i]) as ->.
    { unfold JsSet.add, JsSet.has. rewrite bool_decide_false; [done|].
      apply NoDup_app in Hnd as (_ & Hdisj & _). intros Hin.
      apply (Hdisj i Hin), list_elem_of_here. }
    rewrite IH; rewrite <- app_assoc; done.
Qed.

(** Ids deferred one after the other, all different and none deferred
    before, make up the deferred set of the type, in that order. *)
Lemma V1_defer_all_ids cls requests s :
  V1_deferred_ids s cls = [] → NoDup requests.*1 →
  V1_deferred_ids (V1_defer_all cls requests s) cls = requests.*1.
Proof.
  intros Hnone Hnd. unfold V1_defer_all.
  assert (∀ s, V1_deferred_ids (foldl (λ s r, (V1.defer cls r.1 r.2 s).1) s requests) cls =
               foldl (λ acc i, JsSet.add i acc) (V1_deferred_ids s cls) requests.*1) as H.
  { clear. induction requests as [|r requests IH]; intros s; [done|].
    rewrite fmap_cons. cbn [foldl]. by rewrite IH, V1_defer_ids. }
  rewrite H, Hnone. by apply (JsSet_add_all _ []).
Qed.
End V1_deferred.

Section V1_resolve.
Context `{rt : Runtime}.
Implicit Types (s : State V1.DeferData).

(** The loop of [load] that marks the deferred ids the cache does not
    know as absent: afterwards each of them has an entry. *)
Lemma V1_premark_spec cls ids s :
  ∃ s',
    for_each ids (λ id,
      bind (gets (λ st : State V1.DeferData,
                    JsMap.has id (Nested.inner cls (cacheMap st))))
           (λ known : bool,
              if known then ret tt
              else modify (with_cacheMap
                             (Nested.update cls (JsMap.set id None))))) s
    = (s', Ok tt) ∧
    heap s' = heap s ∧ outside s' = outside s ∧ deferred s' = deferred s ∧
    entries_kept s s' ∧
    ∀ j, j ∈ ids → is_Some (Nested.lookup cls j (cacheMap s')).
Proof.
  revert s. induction ids as [|i ids IH]; intros s.
  - exists s. split_and!; try done. by intros j ?%elem_of_nil.
  - cbn [for_each]. rewrite bind_assoc, bind_gets.
    destruct (JsMap.has i (Nested.inner cls (cacheMap s))) eqn:Hhas.
    + rewrite bind_ret. destruct (IH s) as (s' & Hrun & Hh & Ho & Hd & Hk & Hin).
      exists s'. split_and!; try done.
      intros j [->|Hj]%elem_of_cons; [|by apply Hin].
      apply Hk. unfold Nested.lookup. by apply JsMapFacts.has_true.
    + rewrite bind_modify.
      set (s1 := with_cacheMap (Nested.update cls (JsMap.set i None)) s).
      destruct (IH s1) as (s' & Hrun & Hh & Ho & Hd & Hk & Hin).
      exists s'. split_and!; try done.
      * etrans; [apply (entries_kept_set s) | exact Hk].
      * intros j [->|Hj]%elem_of_cons; [|by apply Hin].
        apply Hk. unfold s1. simpl. rewrite NestedFacts.lookup_update_set.
        by rewrite decide_True.
Qed.

Lemma V1_entries_kept_flush entityClass : frames entries_kept (V1.flush entityClass).
Proof.
  intros s. destruct (V1_flush_same_cache entityClass s) as (_ & _ & Hc).
  intros name k. by rewrite Hc.
Qed.

Lemma V1_entries_kept_find cls o : frames entries_kept (V1.find cls o).
Proof.
  pose proof V1_entries_kept_flush. pose proof V1_entries_kept_cache.
  unfold V1.find, V1.getDeferData, call_find, materialize.
  frames_auto; by intros ? ? ?.
Qed.
End V1_resolve.

Section V1_resolve_get.
Context `{rt : Runtime}.
Implicit Types (s : State V1.DeferData).

Lemma keeps_but_heap {D} (s s' : State D) :
  keeps but_heap s s' →
  calls s' = calls s ∧ insertMap s' = insertMap s ∧ upsertMap s' = upsertMap s ∧
  deferred s' = deferred s ∧ cacheMap s' = cacheMap s.
Proof. unfold keeps, but_heap. by intros [= -> _ -> -> -> -> _]. Qed.

(** [get] with a string id when ids are deferred for the type: a flush,
    then one bulk query for all the deferred ids, and nothing else; when
    it returns, the deferred set of the type is gone. *)
Lemma V1_get_resolves cls i s s' out :
  i ∈ V1_deferred_ids s cls →
  V1.get cls (inl i) s = (s', out) →
  ∃ q,
    fo_where q = Some (WIdIn (V1_deferred_ids s cls)) ∧
    flushes_then_asks (V1.flush (Some cls) s).1 s' (CFind cls q) ∧
    ∀ r, out = Ok r → JsMap.get cls (deferred s') = None.
Proof.
  intros Hi Hrun. unfold V1.get, V1.load in Hrun.
  destruct (V1_getDeferData_run cls s) as (d & Hd & Hdeq).
  assert (V1.ids d = V1_deferred_ids s cls) as Hids by (by rewrite Hdeq).
  rewrite bind_assoc, (bind_ok _ _ _ _ _ Hd) in Hrun. clear Hd.
  set (s0 := with_deferred _ s) in Hrun.
  rewrite bool_decide_false in Hrun.
  2: { rewrite Hids. intros Hlen. apply nil_length_inv in Hlen.
       rewrite Hlen in Hi. by apply elem_of_nil in Hi. }
  unfold getCacheMap at 1 in Hrun. rewrite !bind_assoc, bind_modify in Hrun.
  set (s1 := with_cacheMap (Nested.ensure cls) s0) in Hrun.
  destruct (V1_premark_spec cls (V1.ids d) s1)
    as (s2 & Hpre & Hh2 & Ho2 & Hd2 & _ & Hin2).
  rewrite !bind_assoc, (bind_ok _ _ _ _ _ Hpre) in Hrun. clear Hpre.
  set (o := Some {| fo_where := Some (WIdIn (V1.ids d));
                    fo_relations := Some (V1.relations d) |}) in Hrun.
  pose proof (V1_find_flushes cls o s2) as (Hc3 & Hi3 & Hu3).
  pose proof (V1_entries_kept_find cls o s2) as Hk3.
  assert (flush_input s2 = flush_input s) as Hin.
  { unfold flush_input, outside in *. rewrite Hh2. simpl.
    injection Ho2 as -> -> -> ->. done. }
  apply (V1_flush_input (Some cls)) in Hin. unfold flush_input in Hin.
  injection Hin as _ Hfc _ Hfi Hfu.
  rewrite Hfc in Hc3. rewrite Hfi in Hi3. rewrite Hfu in Hu3.
  exists (V1.with_deferred_relations (default empty_options o)
            (default V1.new_DeferData (JsMap.get cls (deferred s2)))).
  split; [simpl; by rewrite Hids|].
  unfold flushes_then_asks. rewrite !bind_assoc in Hrun.
  destruct (V1.find cls o s2) as [s3 [res|e]] eqn:Hfind; simpl in Hc3, Hi3, Hu3, Hk3.
  2: { rewrite (bind_throw _ _ _ _ _ Hfind) in Hrun. by injection Hrun as <- <-. }
  rewrite (bind_ok _ _ _ _ _ Hfind), bind_modify in Hrun.
  unfold getCacheMap in Hrun. rewrite bind_modify, bind_gets in Hrun.
  simpl in Hrun. rewrite NestedFacts.lookup_ensure in Hrun.
  destruct (Hk3 cls i) as [x Hx].
  { apply Hin2. by rewrite Hids. }
  rewrite Hx in Hrun. destruct x as [l|].
  2: { injection Hrun as <- <-. simpl. split; [done|]. intros r _.
       apply JsMapFacts.get_delete_eq. }
  pose proof (but_heap_copy_anything (D:=V1.DeferData) stack_limit l
    (with_cacheMap (Nested.ensure cls)
       (with_deferred (JsMap.delete cls) s3))) as Hcopy.
  apply keeps_but_heap in Hcopy as (Hcc & Hci & Hcu & Hcd & _).
  unfold V1.copy, bind in Hrun.
  destruct (copy_anything stack_limit l _) as [s5 [c|e]]; simpl in *;
    injection Hrun as <- <-;
    rewrite Hcc, Hci, Hcu, Hcd; (split; [done|]); intros r _;
    apply JsMapFacts.get_delete_eq.
Qed.
End V1_resolve_get.

(** The handle [defer] returns is bound to the type and the id, and
    nothing has been asked through it yet. *)
Lemma V1_defer_returns `{rt : Runtime} cls i r (s : State V1.DeferData) :
  (V1.defer cls i r s).2 =
  Ok {| dv_entityClass := cls; dv_id := i; dv_memo := None |}.
Proof. done. Qed.

(** C4. Ids of one type [T], all different, are registered with [defer]
    when none was deferred for [T], and none is resolved yet. Resolving
    the handle of any of them then flushes (calls for writes only) and
    issues one query of the store and no other: a bulk find on [T] whose
    id filter is the list of all the deferred ids. When the resolution
    returns, no id is deferred for [T] any more. *)
Theorem C4_deferred_ids_resolved_by_one_query `{rt : Runtime}
    (T : string) (requests : list (string * option (list (string * RelVal))))
    (i : string) (st0 : State V1.DeferData) :
  V1_deferred_ids st0 T = [] → NoDup requests.*1 → i ∈ requests.*1 →
  let st := V1_defer_all T requests st0 in
  let h := {| dv_entityClass := T; dv_id := i; dv_memo := None |} in
  ∃ writes q,
    calls (V1.DeferredValue_get h st).1.1 = calls st ++ writes ++ [CFind T q] ∧
    Forall (λ c, is_query c = false) writes ∧
    fo_where q = Some (WIdIn requests.*1) ∧
    ∀ r, (V1.DeferredValue_get h st).2 = Ok r →
         V1_deferred_ids (V1.DeferredValue_get h st).1.1 T = [].
Proof.
  intros Hnone Hnd Hi st h.
  pose proof (V1_defer_all_ids T requests st0 Hnone Hnd) as Hids. fold st in Hids.
  unfold V1.DeferredValue_get, h. cbn [dv_memo dv_entityClass dv_id].
  destruct (V1.get T (inl i) st) as [st' out] eqn:Hrun. cbn [fst snd].
  destruct (V1_get_resolves T i st st' out) as (q & Hq & (Hc & _ & _) & Hdone);
    [by rewrite Hids | done |].
  destruct (V1_writes_only_flush (Some T) st) as (writes & Hw & Hnq).
  exists writes, q. split_and!.
  - by rewrite Hc, Hw, app_assoc.
  - done.
  - by rewrite Hq, Hids.
  - intros r Hr. unfold V1_deferred_ids. by rewrite (Hdone r Hr).
Qed.

Lemma C4_witness :
  let st := V1_defer_all (H:=Demo.runtime) "Account"
              [("0x1", None); ("0x2", None)] Demo.start in
  let h := {| dv_entityClass := "Account"; dv_id := "0x2"; dv_memo := None |} in
  ∃ writes q,
    calls (V1.DeferredValue_get h st).1.1 = calls st ++ writes ++ [CFind "Account" q] ∧
    Forall (λ c, is_query c = false) writes ∧
    fo_where q = Some (WIdIn ["0x1"; "0x2"]) ∧
    ∀ r, (V1.DeferredValue_get h st).2 = Ok r →
         V1_deferred_ids (V1.DeferredValue_get h st).1.1 "Account" = [].
Proof.
  apply (C4_deferred_ids_resolved_by_one_query (rt:=Demo.runtime) "Account"
           [("0x1", None); ("0x2", None)] "0x2" Demo.start).
  - reflexivity.
  - compute_done.
  - compute_done.
Defined.

Lemma flushed_stop cls order : cls ∈ order → cls ∈ flushed (Some cls) order.
Proof.
  induction order as [|name order IH]; simpl; [done|].
  intros [->|Hin]%elem_of_cons; [apply list_elem_of_here|].
  case_bool_decide as Heq.
  - injection Heq as ->. apply list_elem_of_here.
  - apply list_elem_of_further. by apply IH.
Qed.

(** C2, as it holds. [find], [findBy], [findOne], [findOneBy], [count],
    [countBy] and [get] with find options first flush the pending writes
    of the types up to the type they read, then ask the store once, and
    leave the buffers as the flush left them; the flush leaves nothing
    pending for a type the order lists. [get] with a string id does the
    same when the id has no cache entry and nothing is deferred, and, in
    the first variant, flushes and issues the bulk find when the id is
    among the ids deferred for the type. When the id has a cache entry,
    an entity or the absent marker, and nothing is deferred, [get] makes
    no call on the store and leaves the buffers as they are: it does not
    flush. *)
Theorem C2_reads_flush_unless_served_from_cache `{rt : Runtime} :
  (∀ (cls : string) (s : State V1.DeferData),
     let f := (V1.flush (Some cls) s).1 in
     (∀ o, ∃ q, flushes_then_asks f (V1.find cls o s).1 (CFind cls q)) ∧
     (∀ w, flushes_then_asks f (V1.findBy cls w s).1 (CFindBy cls w)) ∧
     (∀ o, ∃ q, flushes_then_asks f (V1.findOne cls o s).1 (CFindOne cls q)) ∧
     (∀ w, flushes_then_asks f (V1.findOneBy cls w s).1 (CFindOneBy cls w)) ∧
     (∀ o, ∃ q, flushes_then_asks f (V1.count cls o s).1 (CCount cls q)) ∧
     (∀ w, flushes_then_asks f (V1.countBy cls w s).1 (CCountBy cls w)) ∧
     (∀ o, flushes_then_asks f (V1.get cls (inr o) s).1 (CGet cls (inr o))) ∧
     (∀ i, i ∈ V1_deferred_ids s cls →
           ∃ q, flushes_then_asks f (V1.get cls (inl i) s).1 (CFind cls q)) ∧
     (∀ i, V1_deferred_ids s cls = [] →
           Nested.lookup cls i (cacheMap s) = None →
           flushes_then_asks f (V1.get cls (inl i) s).1 (CGet cls (inl i))) ∧
     (∀ i x, V1_deferred_ids s cls = [] →
             Nested.lookup cls i (cacheMap s) = Some x →
             outside (V1.get cls (inl i) s).1 = outside s) ∧
     (cls ∈ topologicalSort (schema_graph entityMetadatas) →
      Nested.inner cls (insertMap f) = [] ∧ Nested.inner cls (upsertMap f) = [])) ∧
  (∀ (cls : string) (s : State (list string)),
     let f := (V2.flush cls s).1 in
     (∀ o, ∃ q, flushes_then_asks f (V2.find cls o s).1 (CFind cls q)) ∧
     (∀ w, flushes_then_asks f (V2.findBy cls w s).1 (CFindBy cls w)) ∧
     (∀ o, flushes_then_asks f (V2.findOne cls o s).1 (CFindOne cls o)) ∧
     (∀ w, flushes_then_asks f (V2.findOneBy cls w s).1 (CFindOneBy cls w)) ∧
     (∀ o, ∃ q, flushes_then_asks f (V2.count cls o s).1 (CCount cls q)) ∧
     (∀ w, flushes_then_asks f (V2.countBy cls w s).1 (CCountBy cls w)) ∧
     (∀ o, flushes_then_asks f (V2.get cls (inr o) s).1 (CGet cls (inr o))) ∧
     (∀ i, (∀ name, V2.deferList_of name s = []) →
           Nested.lookup cls i (cacheMap s) = None →
           flushes_then_asks f (V2.get cls (inl i) s).1 (CGet cls (inl i))) ∧
     (∀ i x, (∀ name, V2.deferList_of name s = []) →
             Nested.lookup cls i (cacheMap s) = Some x →
             outside (V2.get cls (inl i) s).1 = outside s) ∧
     (cls ∈ topologicalSort (schema_graph entityMetadatas) →
      Nested.inner cls (insertMap f) = [] ∧ Nested.inner cls (upsertMap f) = [])).
Proof.
  split; intros cls s f; split_and!.
  - intros o. eexists. apply V1_find_flushes.
  - intros w. apply V1_findBy_flushes.
  - intros o. eexists. apply V1_findOne_flushes.
  - intros w. apply V1_findOneBy_flushes.
  - intros o. eexists. apply V1_count_flushes.
  - intros w. apply V1_countBy_flushes.
  - intros w. apply V1_get_options_flushes.
  - intros i Hi. destruct (V1.get cls (inl i) s) as [s' out] eqn:Hrun.
    destruct (V1_get_resolves cls i s s' out Hi Hrun) as (q & _ & Hq & _).
    by exists q.
  - intros i. apply V1_get_miss.
  - intros i x. apply V1_get_hit.
  - intros Hin. apply V1_flush_loop_empties, flushed_stop.
    by apply elem_of_reverse.
  - intros o. eexists. apply V2_find_flushes.
  - intros w. apply V2_findBy_flushes.
  - intros o. apply V2_findOne_flushes.
  - intros w. apply V2_findOneBy_flushes.
  - intros o. eexists. apply V2_count_flushes.
  - intros w. apply V2_countBy_flushes.
  - intros w. apply V2_get_options_flushes.
  - intros i. apply V2_get_miss.
  - intros i x. apply V2_get_hit.
  - intros Hin. apply V2_flush_loop_empties, flushed_stop.
    by apply elem_of_reverse.
Qed.

(** C2 fails as stated. An account is inserted and waits in the insert
    buffer; [get] with its id returns a copy of it from the cache and
    makes no call on the store, and the account still waits in the
    buffer: nothing was flushed. This is so in both variants. *)
Lemma C2_get_from_cache_does_not_flush :
  (let r := V1.get (rt:=Demo.runtime) "Account" (inl "0xabc") Demo.pending in
   (∃ c, r.2 = Ok (Some c)) ∧ calls r.1 = [] ∧
   pending_insert r.1 "Account" "0xabc") ∧
  (let r := V2.get (rt:=Demo.runtime) "Account" (inl "0xabc") Demo.pending2 in
   (∃ c, r.2 = Ok (Some c)) ∧ calls r.1 = [] ∧
   pending_insert r.1 "Account" "0xabc").
Proof. split; (split; [by eexists | split; reflexivity]). Qed.

(** ** What the operations can throw *)

Section raises.
Context {S : Type} (P : Error → Prop).

Lemma raises_ret {A} (a : A) : raises P (ret (S:=S) a).
Proof. intros s s' e [= _ ?]. Qed.

Lemma raises_throw {A} e : P e → raises P (throw (S:=S) (A:=A) e).
Proof. intros He s s' e' [= _ <-]. done. Qed.

Lemma raises_gets {A} (f : S → A) : raises P (gets f).
Proof. intros s s' e [= _ ?]. Qed.

Lemma raises_modify (f : S → S) : raises P (modify f).
Proof. intros s s' e [= _ ?]. Qed.

Lemma raises_bind {A B} (m : M (S:=S) A) (f : A → M B) :
  raises P m → (∀ a, raises P (f a)) → raises P (bind m f).
Proof.
  intros Hm Hf s s' e. unfold bind.
  destruct (m s) as [s1 [a|e1]] eqn:Hrun.
  - apply Hf.
  - intros [= _ <-]. by eapply Hm.
Qed.

Lemma raises_assert b msg : P (AssertionError msg) → raises P (assert (S:=S) b msg).
Proof. intros Hp. destruct b; [apply raises_ret | by apply raises_throw]. Qed.

Lemma raises_when b m : raises P m → raises P (when (S:=S) b m).
Proof. destruct b; [done | intros _; apply raises_ret]. Qed.

Lemma raises_for_each {A} (l : list A) (f : A → M (S:=S) unit) :
  (∀ x, raises P (f x)) → raises P (for_each l f).
Proof.
  intros Hf. induction l as [|x l IH]; simpl.
  - apply raises_ret.
  - apply raises_bind; [apply Hf | by intros _].
Qed.

Lemma raises_map_each {A B} (l : list A) (f : A → M (S:=S) B) :
  (∀ x, raises P (f x)) → raises P (map_each l f).
Proof.
  intros Hf. induction l as [|x l IH]; simpl.
  - apply raises_ret.
  - apply raises_bind; [apply Hf|]. intros y.
    apply raises_bind; [done | intros; apply raises_ret].
Qed.
End raises.

Create HintDb raises discriminated.

(** Takes a goal [raises P m] apart along the structure of [m], leaving
    [P e] to prove for every [throw e] it meets. *)
Ltac raises_step :=
  lazymatch goal with
  | |- raises _ (ret _) => apply raises_ret
  | |- raises _ (throw _) => apply raises_throw
  | |- raises _ (gets _) => apply raises_gets
  | |- raises _ (modify _) => apply raises_modify
  | |- raises _ (assert _ _) => apply raises_assert
  | |- raises _ (when _ _) => apply raises_when
  | |- raises _ (bind _ _) => apply raises_bind; [|intros ?]
  | |- raises _ (for_each _ _) => apply raises_for_each; intros ?
  | |- raises _ (map_each _ _) => apply raises_map_each; intros ?
  | |- raises _ (match ?x with _ => _ end) => destruct x
  | |- raises ?P ?m =>
      first [ assumption
            | solve [auto with raises]
            | let m' := eval red in m in change (raises P m') ]
  end.
Ltac raises_auto := repeat raises_step.

Section V1_raises.
Context `{rt : Runtime}.

(** The assertions of [cache] carry a message. *)
Lemma V1_cache_raises depth es : raises not_bare_assertion (V1.cache depth es).
Proof.
  revert es. induction depth as [|depth IH]; intros es; simpl.
  - raises_auto. done.
  - destruct es as [|e0 es]; raises_auto; done.
Qed.

Lemma V1_cache_one_raises e : raises not_bare_assertion (V1.cache_one e).
Proof. pose proof V1_cache_raises. unfold V1.cache_one. raises_auto. done. Qed.
End V1_raises.

#[export] Hint Resolve V1_cache_raises V1_cache_one_raises : raises.

(** ** Inserting *)

Section known_facts.
Context {D : Type} `{rt : Runtime}.
Implicit Types (s : State D).

Lemma duplicate_registered s name0 name k :
  duplicate (registered name0 s) name k ↔ duplicate s name k.
Proof.
  unfold duplicate, registered, pending_insert, pending_upsert, present. simpl.
  by rewrite !NestedFacts.inner_ensure, NestedFacts.lookup_ensure.
Qed.

(** The three checks pass exactly for an id that is not known. *)
Lemma duplicate_checks s name k :
  ¬ duplicate s name k ↔
  JsMap.has k (Nested.inner name (insertMap s)) = false ∧
  JsMap.has k (Nested.inner name (upsertMap s)) = false ∧
  is_nullish (Nested.lookup name k (cacheMap s)) = true.
Proof.
  unfold duplicate, pending_insert, pending_upsert, present.
  destruct (JsMap.has k (Nested.inner name (insertMap s)));
    destruct (JsMap.has k (Nested.inner name (upsertMap s)));
    destruct (Nested.lookup name k (cacheMap s)) as [[l|]|]; simpl;
    split; try (intros (? & ? & ?); done); try (intros Hn; exfalso; apply Hn; eauto; fail);
    try (intros _; split_and!; done);
    try (intros _ [?|[?|[? ?]]]; done).
Qed.

Lemma duplicate_dec s name k : duplicate s name k ∨ ¬ duplicate s name k.
Proof.
  destruct (JsMap.has k (Nested.inner name (insertMap s))) eqn:Hi;
    [left; by left|].
  destruct (JsMap.has k (Nested.inner name (upsertMap s))) eqn:Hu;
    [left; right; by left|].
  destruct (is_nullish (Nested.lookup name k (cacheMap s))) eqn:Hc.
  - right. by apply duplicate_checks.
  - left. right. right. unfold present.
    destruct (Nested.lookup name k (cacheMap s)) as [[l|]|]; try done. by exists l.
Qed.
End known_facts.

(** A loop over an array of one element is its body. *)
Lemma for_each_one {S A} (f : A → M (S:=S) unit) x st :
  for_each [x] f st = f x st.
Proof. simpl. unfold bind. by destruct (f x st) as [st' [[]|err]]. Qed.

Section V1_insert.
Context `{rt : Runtime}.
Implicit Types (s : State V1.DeferData).

(** [insert] on an array is its loop, run with the name of the class of
    the first element. *)
Lemma V1_insert_cons e es s o :
  heap s !! e = Some o →
  V1.insert (e :: es) s =
  for_each (e :: es) (V1.insert_entity (constructor_name o))
           (registered (constructor_name o) s).
Proof.
  intros He. unfold V1.insert.
  by rewrite (bind_ok _ _ _ _ _ (constructor_of_Some _ _ _ He)).
Qed.

Lemma V1_insert_entity_duplicate name e s o :
  heap s !! e = Some o → duplicate s name (id o) →
  V1.insert_entity name e s = (s, Throw (AssertionError None)).
Proof.
  intros He Hdup. unfold V1.insert_entity.
  rewrite (bind_ok _ _ _ _ _ (id_of_Some _ _ _ He)), bind_gets.
  destruct (JsMap.has (id o) (Nested.inner name (insertMap s))) eqn:Hi; [done|].
  rewrite bind_assert_true, bind_gets.
  destruct (JsMap.has (id o) (Nested.inner name (upsertMap s))) eqn:Hu; [done|].
  rewrite bind_assert_true, bind_gets.
  destruct (is_nullish (Nested.lookup name (id o) (cacheMap s))) eqn:Hc; [|done].
  exfalso. revert Hdup. by apply duplicate_checks.
Qed.

(** Past the checks, [insert] caches the entity and files what the
    cache holds for it. *)
Lemma V1_insert_entity_fresh name e s o :
  heap s !! e = Some o → ¬ duplicate s name (id o) →
  V1.insert_entity name e s =
  bind (V1.cache_one e) (λ cached,
    bind (id_of cached) (λ cid,
      modify (with_insertMap (Nested.update name (JsMap.set cid cached))))) s.
Proof.
  intros He (Hi & Hu & Hc)%duplicate_checks. unfold V1.insert_entity.
  rewrite (bind_ok _ _ _ _ _ (id_of_Some _ _ _ He)), bind_gets, Hi.
  rewrite bind_assert_true, bind_gets, Hu.
  by rewrite bind_assert_true, bind_gets, Hc, bind_assert_true.
Qed.

Lemma V1_insert_entity_raises name e s s' err o :
  heap s !! e = Some o → ¬ duplicate s name (id o) →
  V1.insert_entity name e s = (s', Throw err) → not_bare_assertion err.
Proof.
  intros He Hfresh. rewrite (V1_insert_entity_fresh _ _ _ _ He Hfresh).
  assert (raises not_bare_assertion
    (bind (V1.cache_one e) (λ cached,
       bind (id_of cached) (λ cid,
         modify (with_insertMap (Nested.update name (JsMap.set cid cached)))))))
    as Hraises by (raises_auto; done).
  apply Hraises.
Qed.

(** [insert] of one entity fails one of its three checks exactly when
    the id is known. *)
Lemma V1_insert_duplicate_iff e s o :
  heap s !! e = Some o →
  (V1.insert [e] s).2 = Throw (AssertionError None) ↔
  duplicate s (constructor_name o) (id o).
Proof.
  intros He. rewrite (V1_insert_cons _ _ _ _ He), for_each_one.
  set (name := constructor_name o). set (s0 := registered name s).
  assert (heap s0 !! e = Some o) as He0 by done.
  split.
  - intros Hthrow. destruct (duplicate_dec s name (id o)) as [|Hfresh]; [done|].
    exfalso.
    assert (¬ duplicate s0 name (id o)) as Hfresh0
      by (unfold s0; by rewrite duplicate_registered).
    clear Hfresh. rename Hfresh0 into Hfresh.
    destruct (V1.insert_entity name e s0) as [s' [[]|err]] eqn:Hrun; [done|].
    simpl in Hthrow. injection Hthrow as ->.
    by apply (V1_insert_entity_raises _ _ _ _ _ _ He0 Hfresh Hrun).
  - intros Hdup%(duplicate_registered _ name). fold s0 in Hdup.
    by rewrite (V1_insert_entity_duplicate _ _ _ _ He0 Hdup).
Qed.

(** A successful [insert] leaves the id in the insert buffer of the
    type. *)
Lemma V1_insert_pending e s s' o :
  cache_wf s → heap s !! e = Some o →
  V1.insert [e] s = (s', Ok tt) →
  pending_insert s' (constructor_name o) (id o).
Proof.
  intros Hwf He. rewrite (V1_insert_cons _ _ _ _ He), for_each_one.
  set (name := constructor_name o). set (s0 := registered name s).
  assert (heap s0 !! e = Some o) as He0 by done.
  assert (cache_wf s0) as Hwf0.
  { destruct Hwf as [Hclosed Hinj]. unfold cache_wf, present, s0, registered. simpl.
    setoid_rewrite NestedFacts.lookup_ensure. split; [apply Hclosed | apply Hinj]. }
  intros Hrun.
  destruct (duplicate_dec s0 name (id o)) as [Hdup|Hfresh].
  { by rewrite (V1_insert_entity_duplicate _ _ _ _ He0 Hdup) in Hrun. }
  rewrite (V1_insert_entity_fresh _ _ _ _ He0 Hfresh) in Hrun.
  destruct (V1.cache_one e s0) as [s1 [c|err]] eqn:Hcache.
  2: { by rewrite (bind_throw _ _ _ _ _ Hcache) in Hrun. }
  rewrite (bind_ok _ _ _ _ _ Hcache) in Hrun.
  destruct (V1_cache_one_spec _ _ _ _ Hwf0 Hcache) as (_ & Hpost).
  destruct (Hpost c eq_refl) as (o' & oc & Ho' & Hc & Hid & _).
  assert (o' = o) as -> by congruence.
  rewrite (bind_ok _ _ _ _ _ (id_of_Some _ _ _ Hc)), Hid in Hrun.
  injection Hrun as <-. unfold pending_insert. simpl.
  rewrite NestedFacts.inner_update_eq. apply JsMapFacts.has_set_eq.
Qed.
End V1_insert.

Section run_props.
Context {D : Type} `{rt : Runtime}.
Implicit Types (s : State D).

Lemma read_prop_Some s l o p :
  heap s !! l = Some o → read_prop l p s = (s, Ok (obj_get p o)).
Proof. intros Hl. unfold read_prop. by rewrite (bind_ok _ _ _ _ _ (deref_Some _ _ _ Hl)). Qed.

Lemma has_prop_Some s l o p :
  heap s !! l = Some o → has_prop l p s = (s, Ok (obj_has p o)).
Proof. intros Hl. unfold has_prop. by rewrite (bind_ok _ _ _ _ _ (deref_Some _ _ _ Hl)). Qed.

Lemma write_prop_Some s l o p v :
  heap s !! l = Some o →
  write_prop l p v s = (with_heap (λ h, <[l := obj_with_prop p v o]> h) s, Ok tt).
Proof. intros Hl. unfold write_prop. by rewrite (bind_ok _ _ _ _ _ (deref_Some _ _ _ Hl)). Qed.
End run_props.

Section V1_insert_plain.
Context `{rt : Runtime}.
Implicit Types (s : State V1.DeferData).

Lemma obj_get_with_prop p q v (o : Obj) :
  obj_get q (obj_with_prop p v o) = if decide (p = q) then v else obj_get q o.
Proof.
  unfold obj_get, obj_with_prop. simpl. rewrite JsMapFacts.get_set.
  by case_decide.
Qed.

(** Copying a column that is no relation, or a relation the entity
    does not set, writes one property of the cached object at most, with
    what the entity has for it. *)
Lemma V1_cache_plain_column rec e cached column s o oc :
  e ≠ cached → heap s !! e = Some o → heap s !! cached = Some oc →
  (∀ rm, relationMetadata column = Some rm →
         obj_has (rel_propertyName rm) o = false) →
  ∃ s' oc',
    V1.cache_column rec e cached column s = (s', Ok tt) ∧
    heap s' !! e = Some o ∧ heap s' !! cached = Some oc' ∧ id oc' = id oc ∧
    but_heap s' = but_heap s ∧
    (∀ p, obj_get p oc = obj_get p o → obj_get p oc' = obj_get p o) ∧
    (relationMetadata column = None →
     obj_get (propertyName column) oc' = obj_get (propertyName column) o).
Proof.
  intros Hne He Hc Hplain.
  assert (∀ p, ∃ s' oc',
    bind (read_prop e p) (λ v, write_prop cached p v) s = (s', Ok tt) ∧
    heap s' !! e = Some o ∧ heap s' !! cached = Some oc' ∧ id oc' = id oc ∧
    but_heap s' = but_heap s ∧
    (∀ q, obj_get q oc = obj_get q o → obj_get q oc' = obj_get q o) ∧
    obj_get p oc' = obj_get p o) as Hcopy.
  { intros p. rewrite (bind_ok _ _ _ _ _ (read_prop_Some _ _ _ p He)).
    rewrite (write_prop_Some _ _ _ _ _ Hc). eexists _, _. split; [done|].
    simpl. rewrite list_lookup_insert_ne by done.
    rewrite list_lookup_insert_eq by (by eapply lookup_lt_Some).
    split_and!; [done..| |].
    - intros q Hq. rewrite obj_get_with_prop. by case_decide; subst.
    - rewrite obj_get_with_prop. by rewrite decide_True. }
  unfold V1.cache_column. destruct (relationMetadata column) as [rm|].
  2: { destruct (Hcopy (propertyName column)) as (s' & oc' & ? & ? & ? & ? & ? & ? & ?).
       by exists s', oc'. }
  rewrite (bind_ok _ _ _ _ _ (has_prop_Some _ _ _ _ He)).
  rewrite (Hplain rm eq_refl), bind_ret.
  case_bool_decide.
  - destruct (Hcopy (propertyName column)) as (s' & oc' & ? & ? & ? & ? & ? & ? & ?).
    by exists s', oc'.
  - by exists s, oc.
Qed.

Lemma V1_cache_plain_columns rec e cached cols s o oc :
  e ≠ cached → heap s !! e = Some o → heap s !! cached = Some oc →
  (∀ c rm, c ∈ cols → relationMetadata c = Some rm →
           obj_has (rel_propertyName rm) o = false) →
  ∃ s' oc',
    for_each cols (V1.cache_column rec e cached) s = (s', Ok tt) ∧
    heap s' !! e = Some o ∧ heap s' !! cached = Some oc' ∧ id oc' = id oc ∧
    but_heap s' = but_heap s ∧
    (∀ p, obj_get p oc = obj_get p o → obj_get p oc' = obj_get p o) ∧
    (∀ c, c ∈ cols → relationMetadata c = None →
          obj_get (propertyName c) oc' = obj_get (propertyName c) o).
Proof.
  intros Hne. revert s oc.
  induction cols as [|column cols IH]; intros s oc He Hc Hplain; simpl.
  - exists s, oc. split_and!; try done. by intros c ?%elem_of_nil.
  - destruct (V1_cache_plain_column rec e cached column s o oc Hne He Hc)
      as (s1 & oc1 & Hrun & He1 & Hc1 & Hid1 & Hrest1 & Hkeep1 & Hcol1).
    { intros rm. apply Hplain, list_elem_of_here. }
    rewrite (bind_ok _ _ _ _ _ Hrun).
    destruct (IH s1 oc1 He1 Hc1)
      as (s2 & oc2 & Hrun2 & He2 & Hc2 & Hid2 & Hrest2 & Hkeep2 & Hcols2).
    { intros c rm Hin. apply Hplain. by apply list_elem_of_further. }
    exists s2, oc2. split_and!; [done..|congruence|congruence| |].
    + intros p Hp. by apply Hkeep2, Hkeep1.
    + intros c [->|Hin]%elem_of_cons Hnone; [|by apply Hcols2].
      by apply Hkeep2, Hcol1.
Qed.

(** Caching an entity the cache holds nothing for, and that sets no
    relation, returns. *)
Lemma V1_cache_one_plain e s o :
  heap s !! e = Some o → sets_no_relation o → stack_limit ≠ 0 →
  (∀ l, ¬ present s (constructor_name o) (id o) l) →
  ∃ s' c oc,
    V1.cache_one e s = (s', Ok c) ∧ heap s' !! c = Some oc ∧ id oc = id o ∧
    outside s' = outside s.
Proof.
  intros He (md & Hmd & Hplain) Hstack Hnone. unfold V1.cache_one.
  destruct stack_limit as [|depth]; [done|]. simpl.
  rewrite ?bind_assoc, (bind_ok _ _ _ _ _ (constructor_of_Some _ _ _ He)).
  unfold getCacheMap. rewrite ?bind_assoc, bind_modify.
  set (s0 := with_cacheMap (Nested.ensure (constructor_name o)) s).
  assert (heap s0 !! e = Some o) as He0 by done.
  unfold V1.cache_entity.
  rewrite ?bind_assoc, (bind_ok _ _ _ _ _ (constructor_of_Some _ _ _ He0)).
  rewrite ?bind_assoc, (bind_ok _ _ _ _ _ (id_of_Some _ _ _ He0)).
  rewrite ?bind_assoc, bind_gets.
  set (new := {| constructor_name := constructor_name o; id := ""; props := [] |}).
  destruct (V1_pick_cached s0 (constructor_name o) (id o) new)
    as (s1 & cached & Hpick & [[_ Hp]|(-> & -> & _)]).
  { exfalso. apply (Hnone cached). unfold present, s0 in *. simpl in Hp.
    by rewrite NestedFacts.lookup_ensure in Hp. }
  rewrite ?bind_assoc, (bind_ok _ _ _ _ _ Hpick), Hmd.
  set (s1 := with_heap (λ h, h ++ [new]) s0).
  assert (heap s1 !! length (heap s0) = Some new) as Hnew
    by (simpl; by apply list_lookup_middle).
  rewrite ?bind_assoc, (bind_ok _ _ _ _ _ (write_id_Some _ _ _ (id o) Hnew)).
  set (s2 := with_heap _ s1).
  assert (e ≠ length (heap s0)) as Hne.
  { apply lookup_lt_Some in He0. lia. }
  assert (heap s2 !! e = Some o) as He2.
  { simpl. rewrite list_lookup_insert_ne by done. by apply lookup_app_l_Some. }
  assert (heap s2 !! length (heap s0) = Some (obj_with_id (id o) new)) as Hc2.
  { simpl. apply list_lookup_insert_eq. rewrite length_app. simpl. lia. }
  destruct (V1_cache_plain_columns (V1.cache depth) e (length (heap s0))
              (columns md) s2 o _ Hne He2 Hc2 Hplain)
    as (s3 & oc3 & Hrun & He3 & Hc3 & Hid3 & Hrest3 & _).
  rewrite ?bind_assoc, (bind_ok _ _ _ _ _ Hrun).
  rewrite ?bind_assoc, (bind_ok _ _ _ _ _ (id_of_Some _ _ _ Hc3)).
  rewrite ?bind_assoc, bind_modify. simpl.
  eexists _, _, oc3. split; [done|]. simpl. split_and!; [done..|].
  unfold but_heap in Hrest3. unfold outside. simpl.
  by injection Hrest3 as -> -> -> -> _ _ _.
Qed.

(** [insert] of an entity with a new id that sets no relation
    succeeds. *)
Lemma V1_insert_plain e s o :
  heap s !! e = Some o → sets_no_relation o → stack_limit ≠ 0 →
  ¬ duplicate s (constructor_name o) (id o) →
  (V1.insert [e] s).2 = Ok tt.
Proof.
  intros He Hplain Hstack Hfresh.
  rewrite (V1_insert_cons _ _ _ _ He), for_each_one.
  set (name := constructor_name o). set (s0 := registered name s).
  assert (heap s0 !! e = Some o) as He0 by done.
  assert (¬ duplicate s0 name (id o)) as Hfresh0
    by (unfold s0; by rewrite duplicate_registered).
  rewrite (V1_insert_entity_fresh _ _ _ _ He0 Hfresh0).
  destruct (V1_cache_one_plain e s0 o He0 Hplain Hstack)
    as (s1 & c & oc & Hrun & Hc & _).
  { intros l Hp. apply Hfresh0. right. right. by exists l. }
  rewrite (bind_ok _ _ _ _ _ Hrun), (bind_ok _ _ _ _ _ (id_of_Some _ _ _ Hc)).
  done.
Qed.
End V1_insert_plain.

Section V2_insert.
Context `{rt : Runtime}.
Implicit Types (s : State (list string)).

Lemma V2_insert_cons e es s o :
  heap s !! e = Some o →
  V2.insert (e :: es) s =
  for_each (e :: es) (V2.insert_entity (constructor_name o))
           (V2_registered (constructor_name o) s).
Proof.
  intros He. unfold V2.insert.
  by rewrite (bind_ok _ _ _ _ _ (constructor_of_Some _ _ _ He)).
Qed.

Lemma V2_insert_entity_duplicate name e s o :
  heap s !! e = Some o → duplicate s name (id o) →
  V2.insert_entity name e s =
  (V2_undeferred name (id o) s, Throw (AssertionError None)).
Proof.
  intros He Hdup. unfold V2.insert_entity.
  rewrite (bind_ok _ _ _ _ _ (id_of_Some _ _ _ He)).
  unfold V2.update_deferList. rewrite bind_modify, bind_gets.
  change (insertMap (with_deferred _ s)) with (insertMap s).
  destruct (JsMap.has (id o) (Nested.inner name (insertMap s))) eqn:Hi; [done|].
  rewrite bind_assert_true, bind_gets.
  change (upsertMap (with_deferred _ s)) with (upsertMap s).
  destruct (JsMap.has (id o) (Nested.inner name (upsertMap s))) eqn:Hu; [done|].
  rewrite bind_assert_true, bind_gets.
  change (cacheMap (with_deferred _ s)) with (cacheMap s).
  destruct (is_nullish (Nested.lookup name (id o) (cacheMap s))) eqn:Hc; [|done].
  exfalso. revert Hdup. by apply duplicate_checks.
Qed.

(** Past the checks, [insert] files the entity itself in the insert
    buffer and in the cache map. *)
Lemma V2_insert_entity_fresh name e s o :
  heap s !! e = Some o → ¬ duplicate s name (id o) →
  V2.insert_entity name e s =
  (with_cacheMap (Nested.update name (JsMap.set (id o) (Some e)))
     (with_insertMap (Nested.update name (JsMap.set (id o) e))
        (V2_undeferred name (id o) s)), Ok tt).
Proof.
  intros He (Hi & Hu & Hc)%duplicate_checks. unfold V2.insert_entity.
  rewrite (bind_ok _ _ _ _ _ (id_of_Some _ _ _ He)).
  unfold V2.update_deferList. rewrite bind_modify, bind_gets.
  change (insertMap (with_deferred _ s)) with (insertMap s). rewrite Hi.
  rewrite bind_assert_true, bind_gets.
  change (upsertMap (with_deferred _ s)) with (upsertMap s). rewrite Hu.
  rewrite bind_assert_true, bind_gets.
  change (cacheMap (with_deferred _ s)) with (cacheMap s). rewrite Hc.
  by rewrite bind_assert_true.
Qed.

Lemma V2_duplicate_registered s name0 name k :
  duplicate (V2_registered name0 s) name k ↔ duplicate s name k.
Proof. unfold V2_registered. by rewrite duplicate_registered. Qed.

Lemma V2_insert_duplicate_iff e s o :
  heap s !! e = Some o →
  (V2.insert [e] s).2 = Throw (AssertionError None) ↔
  duplicate s (constructor_name o) (id o).
Proof.
  intros He. rewrite (V2_insert_cons _ _ _ _ He), for_each_one.
  set (name := constructor_name o).
  assert (heap (V2_registered name s) !! e = Some o) as He0 by done.
  destruct (duplicate_dec s name (id o)) as [Hdup|Hfresh].
  - rewrite (V2_insert_entity_duplicate _ _ _ _ He0)
      by (by apply V2_duplicate_registered). done.
  - rewrite (V2_insert_entity_fresh _ _ _ _ He0)
      by (by rewrite V2_duplicate_registered). done.
Qed.

Lemma V2_insert_ok_iff e s o :
  heap s !! e = Some o →
  (V2.insert [e] s).2 = Ok tt ↔ ¬ duplicate s (constructor_name o) (id o).
Proof.
  intros He. rewrite (V2_insert_cons _ _ _ _ He), for_each_one.
  set (name := constructor_name o).
  assert (heap (V2_registered name s) !! e = Some o) as He0 by done.
  destruct (duplicate_dec s name (id o)) as [Hdup|Hfresh].
  - rewrite (V2_insert_entity_duplicate _ _ _ _ He0)
      by (by apply V2_duplicate_registered). done.
  - rewrite (V2_insert_entity_fresh _ _ _ _ He0)
      by (by rewrite V2_duplicate_registered). done.
Qed.

Lemma V2_insert_pending e s o :
  heap s !! e = Some o →
  (V2.insert [e] s).2 = Ok tt →
  pending_insert (V2.insert [e] s).1 (constructor_name o) (id o) ∧
  present (V2.insert [e] s).1 (constructor_name o) (id o) e.
Proof.
  intros He Hok. pose proof (proj1 (V2_insert_ok_iff _ _ _ He) Hok) as Hfresh.
  rewrite (V2_insert_cons _ _ _ _ He), for_each_one.
  assert (heap (V2_registered (constructor_name o) s) !! e = Some o) as He0 by done.
  rewrite (V2_insert_entity_fresh _ _ _ _ He0)
    by (by rewrite V2_duplicate_registered).
  unfold pending_insert, present. simpl. split.
  - rewrite NestedFacts.inner_update_eq. apply JsMapFacts.has_set_eq.
  - rewrite NestedFacts.lookup_update_set. by rewrite decide_True.
Qed.
End V2_insert.


(** ** An id the cache holds an entity for stays known *)

Section known_facts.
Context {D : Type} `{rt : Runtime}.
Implicit Types (s : State D).

#[export] Instance known_kept_preorder : PreOrder (known_kept (D:=D)).
Proof.
  split; [by intros s name k | intros s1 s2 s3 H1 H2 name k ?; by apply H2, H1].
Qed.

#[export] Instance known_step_preorder : PreOrder (known_step (D:=D)).
Proof.
  split.
  - intros s Hwf. split; [done|]. by intros name k.
  - intros s1 s2 s3 H1 H2 Hwf. destruct (H1 Hwf) as [Hwf2 Hk1].
    destruct (H2 Hwf2) as [Hwf3 Hk2]. split; [done|].
    intros name k ?. by apply Hk2, Hk1.
Qed.

(** A step that keeps the objects there are and what the cache holds. *)
Lemma known_step_same s s' :
  (∀ l, is_Some (heap s !! l) → is_Some (heap s' !! l)) →
  (∀ name k l, present s' name k l ↔ present s name k l) →
  known_step s s'.
Proof.
  intros Hheap Hp [Hclosed Hinj]. split; [split|].
  - intros name k l ?%Hp. eauto.
  - intros name k name' k' l ?%Hp ?%Hp. eauto.
  - intros name k [l Hl]. exists l. by apply Hp.
Qed.

Lemma cache_step_known_step s s' : cache_step s s' → known_step s s'.
Proof.
  intros Hstep Hwf. destruct (Hstep Hwf). split; [done|].
  intros name k [l Hl]. exists l. auto.
Qed.

Lemma known_step_known_kept s s' : cache_wf s → known_step s s' → known_kept s s'.
Proof. intros Hwf Hstep. by destruct (Hstep Hwf). Qed.
End known_facts.

(** Closes a goal [known_step s (f s)] for an [f] that leaves the cache
    as it is, or registers an empty cache map, and takes no object out of
    the heap. *)
Ltac known_leaf :=
  apply known_step_same; simpl;
  [ intros; eauto using is_Some_lookup_insert, is_Some_lookup_app
  | intros; unfold present; simpl;
    rewrite ?NestedFacts.lookup_ensure; done ].

(** The same for [known_kept s (f s)], where [f] may also file an
    entity in the cache. *)
Ltac kept_leaf :=
  let name := fresh "name" in
  let k := fresh "k" in
  let l := fresh "l" in
  let Hl := fresh "Hl" in
  intros name k [l Hl]; unfold present in *; simpl in *;
  rewrite ?NestedFacts.lookup_ensure, ?NestedFacts.lookup_update_set in *;
  try case_decide; eauto.

Section known_loops.
Context {D : Type} `{rt : Runtime}.
Implicit Types (s : State D).

(** [load] marks an id as absent only when the cache has no entry for
    it. *)
Lemma known_step_mark name i :
  frames (known_step (D:=D))
    (known <- gets (λ st, JsMap.has i (Nested.inner name (cacheMap st))) ;;
     if known : bool then ret tt
     else modify (with_cacheMap (Nested.update name (JsMap.set i None)))).
Proof.
  intros s. rewrite bind_gets.
  destruct (JsMap.has i (Nested.inner name (cacheMap s))) eqn:Hhas; simpl.
  { reflexivity. }
  apply JsMapFacts.has_false in Hhas.
  apply known_step_same; [done|]. intros name' k l. unfold present. simpl.
  rewrite NestedFacts.lookup_update_set. case_decide as Hk; [|done].
  destruct Hk as [-> ->]. unfold Nested.lookup. rewrite Hhas. split; congruence.
Qed.

Lemma known_kept_mark name i :
  frames (known_kept (D:=D))
    (known <- gets (λ st, JsMap.has i (Nested.inner name (cacheMap st))) ;;
     if known : bool then ret tt
     else modify (with_cacheMap (Nested.update name (JsMap.set i None)))).
Proof.
  intros s. rewrite bind_gets.
  destruct (JsMap.has i (Nested.inner name (cacheMap s))) eqn:Hhas; simpl.
  { reflexivity. }
  apply JsMapFacts.has_false in Hhas.
  intros name' k [l Hl]. exists l. unfold present in *. simpl.
  rewrite NestedFacts.lookup_update_set. case_decide as Hk; [|done].
  destruct Hk as [-> ->]. unfold Nested.lookup in Hl. congruence.
Qed.

Lemma known_step_copy_anything depth l :
  frames known_step (copy_anything (D:=D) depth l).
Proof.
  revert l. induction depth as [|depth IH]; intros l; simpl.
  - frames_auto.
  - unfold deref, alloc. frames_auto. known_leaf.
Qed.
End known_loops.

Section V1_known.
Context `{rt : Runtime}.
Implicit Types (s : State V1.DeferData).

Lemma V1_known_step_cache depth es : frames known_step (V1.cache depth es).
Proof. eapply frames_weaken; [apply @cache_step_known_step | apply V1_cache_step]. Qed.

Lemma V1_known_step_flush entityClass : frames known_step (V1.flush entityClass).
Proof.
  unfold V1.flush, getTopologicalOrder.
  frames_rule @frames_bind; [frames_step|]. intros order.
  induction order as [|name order IH]; simpl; [frames_auto|].
  frames_rule @frames_bind.
  - unfold V1.flush_entry, getInsertList, getUpsertList, call_insert, call_upsert.
    frames_auto; known_leaf.
  - intros _. case_bool_decide; [frames_auto | apply IH].
Qed.

Lemma V1_known_step_insert es : frames known_step (V1.insert es).
Proof.
  pose proof V1_known_step_cache.
  unfold V1.insert, V1.insert_entity, V1.cache_one, getInsertList,
    getUpsertList, getCacheMap, id_of, constructor_of, deref.
  destruct es; frames_auto; known_leaf.
Qed.

Lemma V1_known_step_upsert es : frames known_step (V1.upsert es).
Proof.
  pose proof V1_known_step_cache.
  unfold V1.upsert, V1.upsert_entity, V1.cache_one, getInsertList,
    getUpsertList, id_of, constructor_of, deref.
  destruct es; frames_auto; known_leaf.
Qed.

Lemma V1_known_step_find cls o : frames known_step (V1.find cls o).
Proof.
  pose proof V1_known_step_cache. pose proof V1_known_step_flush.
  unfold V1.find, V1.getDeferData, call_find, materialize.
  frames_auto; known_leaf.
Qed.

Lemma V1_known_step_load cls : frames known_step (V1.load cls).
Proof.
  unfold V1.load.
  frames_rule @frames_bind.
  { unfold V1.getDeferData. frames_auto. known_leaf. }
  intros _deferData. case_bool_decide; [frames_step|].
  frames_rule @frames_bind.
  { unfold getCacheMap. frames_auto. known_leaf. }
  intros _. frames_rule @frames_bind.
  { frames_rule @frames_for_each. intros i _. apply known_step_mark. }
  intros _. frames_rule @frames_bind; [apply V1_known_step_find|].
  intros _. frames_auto. known_leaf.
Qed.

Lemma V1_known_step_get cls a : frames known_step (V1.get cls a).
Proof.
  pose proof V1_known_step_cache. pose proof V1_known_step_flush.
  pose proof V1_known_step_load.
  pose proof (known_step_copy_anything (D:=V1.DeferData)).
  unfold V1.get, V1.copy, V1.cache_found, V1.cache_one, getCacheMap, call_get,
    materialize.
  frames_auto; known_leaf.
Qed.

Lemma V1_known_step_defer cls i r : frames known_step (V1.defer cls i r).
Proof. unfold V1.defer, V1.getDeferData. frames_auto; known_leaf. Qed.

Lemma V1_known_step_exec op s : known_step s (V1.exec op s).
Proof.
  pose proof V1_known_step_cache. pose proof V1_known_step_flush.
  pose proof V1_known_step_find. pose proof V1_known_step_get.
  destruct op; simpl.
  - revert s. change (frames known_step (alloc (D:=V1.DeferData) o)).
    unfold alloc. frames_auto. known_leaf.
  - revert s. change (frames known_step (write_prop (D:=V1.DeferData) l p v)).
    unfold write_prop, deref. frames_auto. known_leaf.
  - revert s. change (frames known_step (write_id (D:=V1.DeferData) l i)).
    unfold write_id, deref. frames_auto. known_leaf.
  - by apply V1_known_step_insert.
  - by apply V1_known_step_upsert.
  - by apply V1_known_step_upsert.
  - reflexivity.
  - revert s. change (frames known_step (V1.count entityClass options)).
    unfold V1.count, call_count. frames_auto; known_leaf.
  - revert s. change (frames known_step (V1.countBy entityClass w)).
    unfold V1.countBy, call_countBy. frames_auto; known_leaf.
  - by apply V1_known_step_find.
  - revert s. change (frames known_step (V1.findBy entityClass w)).
    unfold V1.findBy, call_findBy, materialize. frames_auto; known_leaf.
  - revert s. change (frames known_step (V1.findOne entityClass options)).
    unfold V1.findOne, V1.getDeferData, V1.cache_one, call_findOne, materialize.
    frames_auto; known_leaf.
  - revert s. change (frames known_step (V1.findOneBy entityClass w)).
    unfold V1.findOneBy, V1.cache_one, call_findOneBy, materialize.
    frames_auto; known_leaf.
  - revert s. change (frames known_step (V1.findOneOrFail entityClass options)).
    unfold V1.findOneOrFail, V1.assertNotNull, V1.findOne, V1.getDeferData,
      V1.cache_one, call_findOne, materialize.
    frames_auto; known_leaf.
  - revert s. change (frames known_step (V1.findOneByOrFail entityClass w)).
    unfold V1.findOneByOrFail, V1.assertNotNull, V1.findOneBy, V1.cache_one,
      call_findOneBy, materialize.
    frames_auto; known_leaf.
  - by apply V1_known_step_get.
  - revert s. change (frames known_step (V1.getOrFail entityClass optionsOrId)).
    unfold V1.getOrFail, V1.assertNotNull. frames_auto.
  - by apply V1_known_step_defer.
  - unfold V1.DeferredValue_get. destruct (dv_memo h); [reflexivity|].
    pose proof (V1_known_step_get (dv_entityClass h) (inl (dv_id h)) s) as Hg.
    destruct (V1.get (dv_entityClass h) (inl (dv_id h)) s). exact Hg.
  - by apply V1_known_step_flush.
Qed.

(** All along a session of the first variant the cache stays well
    formed and keeps the entities it holds. *)
Lemma V1_known_step_run ops s : known_step s (V1.run ops s).
Proof.
  revert s. induction ops as [|op ops IH]; intros s; simpl; [reflexivity|].
  etrans; [apply V1_known_step_exec | apply IH].
Qed.

(** An [insert] that returned left an entity in the cache for the type
    and the id of the entity. *)
Lemma V1_insert_known e s s' o :
  cache_wf s → heap s !! e = Some o →
  V1.insert [e] s = (s', Ok tt) →
  cache_wf s' ∧ ∃ c, present s' (constructor_name o) (id o) c.
Proof.
  intros Hwf He Hrun.
  pose proof (V1_known_step_insert [e] s Hwf) as [Hwf' _].
  rewrite Hrun in Hwf'. split; [done|].
  rewrite (V1_insert_cons _ _ _ _ He), for_each_one in Hrun.
  set (name := constructor_name o) in *. set (s0 := registered name s) in *.
  assert (heap s0 !! e = Some o) as He0 by done.
  assert (cache_wf s0) as Hwf0.
  { destruct Hwf as [Hclosed Hinj]. unfold cache_wf, present, s0, registered. simpl.
    setoid_rewrite NestedFacts.lookup_ensure. split; [apply Hclosed | apply Hinj]. }
  destruct (duplicate_dec s0 name (id o)) as [Hdup|Hfresh].
  { by rewrite (V1_insert_entity_duplicate _ _ _ _ He0 Hdup) in Hrun. }
  rewrite (V1_insert_entity_fresh _ _ _ _ He0 Hfresh) in Hrun.
  destruct (V1.cache_one e s0) as [s1 [c|err]] eqn:Hcache.
  2: { by rewrite (bind_throw _ _ _ _ _ Hcache) in Hrun. }
  rewrite (bind_ok _ _ _ _ _ Hcache) in Hrun.
  destruct (V1_cache_one_spec _ _ _ _ Hwf0 Hcache) as (_ & Hpost).
  destruct (Hpost c eq_refl) as (o' & oc & Ho' & Hc & Hid & Hp).
  assert (o' = o) as -> by congruence.
  rewrite (bind_ok _ _ _ _ _ (id_of_Some _ _ _ Hc)) in Hrun.
  injection Hrun as <-. by exists c.
Qed.
End V1_known.

Section V2_known.
Context `{rt : Runtime}.
Implicit Types (s : State (list string)).

Lemma V2_known_kept_cache depth es : frames known_kept (V2.cache depth es).
Proof.
  revert es. induction depth as [|depth IH]; intros es; simpl.
  - frames_auto.
  - unfold V2.cache_entity, V2.cache_relation, V2.update_deferList,
      V2.getDeferList, getCacheMap.
    destruct es; frames_auto; kept_leaf.
Qed.

Lemma V2_known_kept_flush entityClass : frames known_kept (V2.flush entityClass).
Proof.
  unfold V2.flush, getTopologicalOrder.
  frames_rule @frames_bind; [frames_step|]. intros order.
  induction order as [|name order IH]; simpl; [frames_auto|].
  frames_rule @frames_bind.
  - unfold V2.flush_entry, getInsertList, getUpsertList, call_insert, call_upsert.
    frames_auto; kept_leaf.
  - intros _. case_bool_decide; [frames_auto | apply IH].
Qed.

Lemma V2_known_kept_find cls o : frames known_kept (V2.find cls o).
Proof.
  pose proof V2_known_kept_cache. pose proof V2_known_kept_flush.
  unfold V2.find, call_find, materialize. frames_auto; kept_leaf.
Qed.

Lemma V2_known_kept_load : frames known_kept V2.load.
Proof.
  unfold V2.load. frames_rule @frames_bind; [frames_step|]. intros names.
  frames_rule @frames_for_each. intros name _. unfold V2.load_entry.
  frames_rule @frames_bind; [frames_step|]. intros _deferList.
  case_bool_decide; [frames_step|].
  frames_rule @frames_bind; [frames_step|]. intros [entityClass|]; [|frames_step].
  frames_rule @frames_bind; [apply V2_known_kept_find|]. intros _.
  frames_rule @frames_bind.
  { unfold getCacheMap. frames_auto. kept_leaf. }
  intros _. frames_rule @frames_bind; [frames_step|]. intros remaining.
  frames_rule @frames_bind.
  { frames_rule @frames_for_each. intros i _. apply known_kept_mark. }
  intros _. unfold V2.update_deferList. frames_auto. kept_leaf.
Qed.

Lemma V2_known_kept_insert es : frames known_kept (V2.insert es).
Proof.
  unfold V2.insert, V2.insert_entity, V2.getDeferList, V2.update_deferList,
    getInsertList, getUpsertList, getCacheMap.
  destruct es; frames_auto; kept_leaf.
Qed.

Lemma V2_known_kept_upsert es : frames known_kept (V2.upsert es).
Proof.
  unfold V2.upsert, V2.upsert_entity, V2.getDeferList, V2.update_deferList,
    getInsertList, getUpsertList, getCacheMap.
  destruct es; frames_auto; kept_leaf.
Qed.

Lemma V2_known_kept_get cls a : frames known_kept (V2.get cls a).
Proof.
  pose proof V2_known_kept_cache. pose proof V2_known_kept_flush.
  pose proof V2_known_kept_load.
  unfold V2.get, V2.cache_found, V2.cache_one, structuredClone, getCacheMap,
    call_get, materialize, deref.
  frames_auto; kept_leaf.
Qed.

Lemma V2_known_kept_defer cls i : frames known_kept (V2.defer cls i).
Proof.
  unfold V2.defer, V2.getDeferList, V2.update_deferList, getCacheMap.
  frames_auto; kept_leaf.
Qed.

Lemma V2_known_kept_exec op s : known_kept s (V2.exec op s).
Proof.
  pose proof V2_known_kept_cache. pose proof V2_known_kept_flush.
  pose proof V2_known_kept_find. pose proof V2_known_kept_get.
  destruct op; simpl.
  - revert s. change (frames known_kept (alloc (D:=list string) o)).
    unfold alloc. frames_auto. kept_leaf.
  - revert s. change (frames known_kept (write_prop (D:=list string) l p v)).
    unfold write_prop, deref. frames_auto. kept_leaf.
  - revert s. change (frames known_kept (write_id (D:=list string) l i)).
    unfold write_id, deref. frames_auto. kept_leaf.
  - by apply V2_known_kept_insert.
  - by apply V2_known_kept_upsert.
  - by apply V2_known_kept_upsert.
  - reflexivity.
  - revert s. change (frames known_kept (V2.count entityClass options)).
    unfold V2.count, call_count. frames_auto; kept_leaf.
  - revert s. change (frames known_kept (V2.countBy entityClass w)).
    unfold V2.countBy, call_countBy. frames_auto; kept_leaf.
  - by apply V2_known_kept_find.
  - revert s. change (frames known_kept (V2.findBy entityClass w)).
    unfold V2.findBy, call_findBy, materialize. frames_auto; kept_leaf.
  - revert s. change (frames known_kept (V2.findOne entityClass options)).
    unfold V2.findOne, V2.cache_found, V2.cache_one, call_findOne, materialize.
    frames_auto; kept_leaf.
  - revert s. change (frames known_kept (V2.findOneBy entityClass w)).
    unfold V2.findOneBy, V2.cache_found, V2.cache_one, call_findOneBy, materialize.
    frames_auto; kept_leaf.
  - revert s. change (frames known_kept (V2.findOneOrFail entityClass options)).
    unfold V2.findOneOrFail, V2.assertNotNull, V2.findOne, V2.cache_found,
      V2.cache_one, call_findOne, materialize.
    frames_auto; kept_leaf.
  - revert s. change (frames known_kept (V2.findOneByOrFail entityClass w)).
    unfold V2.findOneByOrFail, V2.assertNotNull, V2.findOneBy, V2.cache_found,
      V2.cache_one, call_findOneBy, materialize.
    frames_auto; kept_leaf.
  - by apply V2_known_kept_get.
  - revert s. change (frames known_kept (V2.getOrFail entityClass optionsOrId)).
    unfold V2.getOrFail, V2.assertNotNull. frames_auto.
  - by apply V2_known_kept_defer.
  - unfold V2.DeferredValue_get. destruct (dv_memo h); [reflexivity|].
    pose proof (V2_known_kept_get (dv_entityClass h) (inl (dv_id h)) s) as Hg.
    destruct (V2.get (dv_entityClass h) (inl (dv_id h)) s). exact Hg.
  - by apply V2_known_kept_flush.
Qed.

(** All along a session of the second variant the cache keeps an
    entity for every id it holds one for. *)
Lemma V2_known_kept_run ops s : known_kept s (V2.run ops s).
Proof.
  revert s. induction ops as [|op ops IH]; intros s; simpl; [reflexivity|].
  etrans; [apply V2_known_kept_exec | apply IH].
Qed.
End V2_known.

(** C3, as it holds. In both variants [insert] of an entity fails one of
    its three checks, an assertion without a message, exactly when the id
    of the entity waits in the insert buffer or in the upsert buffer of
    its type or the cache holds an entity for it; an id whose cache entry
    is the absent marker passes the checks. In the second variant nothing
    else can fail, so [insert] returns exactly when the id is not known.
    In the first variant [insert] goes on to cache the entity, which can
    fail on its own (no metadata for the class, a one-to-many relation, a
    cyclic entity graph); it returns for an entity that sets no relation.
    In both variants, once an [insert] has returned, an [insert] of an
    entity of that type with that id fails its checks, whatever the
    entity holds and whatever the session did in between: the second
    [insert] may come before any flush or after one, for the cache keeps
    the entity it holds for the id. *)
Theorem C3_insert_rejects_known_ids `{rt : Runtime} :
  (∀ (s : State V1.DeferData) e o, heap s !! e = Some o →
     let cls := constructor_name o in
     ((V1.insert [e] s).2 = Throw (AssertionError None) ↔ duplicate s cls (id o)) ∧
     (¬ duplicate s cls (id o) → sets_no_relation o → stack_limit ≠ 0 →
      (V1.insert [e] s).2 = Ok tt) ∧
     (Nested.lookup cls (id o) (cacheMap s) = Some None →
      ¬ pending_insert s cls (id o) → ¬ pending_upsert s cls (id o) →
      (V1.insert [e] s).2 ≠ Throw (AssertionError None) ∧
      (sets_no_relation o → stack_limit ≠ 0 → (V1.insert [e] s).2 = Ok tt)) ∧
     (cache_wf s → (V1.insert [e] s).2 = Ok tt →
      ∀ ops e' o', heap (V1.run ops (V1.insert [e] s).1) !! e' = Some o' →
        constructor_name o' = cls → id o' = id o →
        (V1.insert [e'] (V1.run ops (V1.insert [e] s).1)).2 =
          Throw (AssertionError None))) ∧
  (∀ (s : State (list string)) e o, heap s !! e = Some o →
     let cls := constructor_name o in
     ((V2.insert [e] s).2 = Throw (AssertionError None) ↔ duplicate s cls (id o)) ∧
     ((V2.insert [e] s).2 = Ok tt ↔ ¬ duplicate s cls (id o)) ∧
     (Nested.lookup cls (id o) (cacheMap s) = Some None →
      ¬ pending_insert s cls (id o) → ¬ pending_upsert s cls (id o) →
      (V2.insert [e] s).2 = Ok tt) ∧
     ((V2.insert [e] s).2 = Ok tt →
      ∀ ops e' o', heap (V2.run ops (V2.insert [e] s).1) !! e' = Some o' →
        constructor_name o' = cls → id o' = id o →
        (V2.insert [e'] (V2.run ops (V2.insert [e] s).1)).2 =
          Throw (AssertionError None))).
Proof.
  assert (∀ D (s : State D) cls k,
            Nested.lookup cls k (cacheMap s) = Some None →
            ¬ pending_insert s cls k → ¬ pending_upsert s cls k →
            ¬ duplicate s cls k) as Habsent.
  { intros D s cls k Hc Hi Hu [?|[?|[l Hp]]]; [done..|].
    unfold present in Hp. congruence. }
  split; intros s e o He cls; split_and!.
  - by apply V1_insert_duplicate_iff.
  - intros Hfresh Hplain Hstack. by apply (V1_insert_plain e s o).
  - intros Hc Hi Hu. pose proof (Habsent _ s cls (id o) Hc Hi Hu) as Hfresh. split.
    + by rewrite (V1_insert_duplicate_iff _ _ _ He).
    + intros Hplain Hstack. by apply (V1_insert_plain e s o).
  - intros Hwf Hok ops e' o' He' Hcls Hid.
    destruct (V1.insert [e] s) as [s1 out] eqn:Hrun. simpl in *. subst out.
    destruct (V1_insert_known e s s1 o Hwf He Hrun) as [Hwf1 Hknown].
    destruct (V1_known_step_run ops s1 Hwf1) as [_ Hkept].
    apply (V1_insert_duplicate_iff _ _ _ He'). rewrite Hcls, Hid.
    right. right. by apply Hkept.
  - by apply V2_insert_duplicate_iff.
  - by apply V2_insert_ok_iff.
  - intros Hc Hi Hu. apply (V2_insert_ok_iff _ _ _ He). by apply Habsent.
  - intros Hok ops e' o' He' Hcls Hid.
    apply (V2_insert_duplicate_iff _ _ _ He'). rewrite Hcls, Hid.
    right. right. apply (V2_known_kept_run ops). exists e.
    by apply V2_insert_pending.
Qed.

(** C3 fails as stated. In the first variant a block is inserted whose
    class the connection has no metadata for: its id is in neither buffer
    and the cache has no entry for it, and [insert] fails an assertion
    all the same, the one of [cache]. *)
Lemma C3_insert_fails_for_an_unknown_id :
  let s : State V1.DeferData :=
    with_heap (λ _, [{| constructor_name := "Block"; id := "b1"; props := [] |}])
              (init (rt:=Demo.runtime) []) in
  ¬ duplicate s "Block" "b1" ∧
  (V1.insert (rt:=Demo.runtime) [0] s).2 =
    Throw (AssertionError (Some "Missing metadata for Block")).
Proof.
  split; [|reflexivity].
  intros [H|[H|[l H]]]; discriminate H.
Qed.

(** ** Arrays of entities *)

Section V2_arrays.
Context `{rt : Runtime}.
Implicit Types (s : State (list string)).

(** What is known once an entity was inserted. *)
Lemma V2_duplicate_inserted s name k0 e k :
  duplicate (with_cacheMap (Nested.update name (JsMap.set k0 (Some e)))
               (with_insertMap (Nested.update name (JsMap.set k0 e))
                  (V2_undeferred name k0 s))) name k ↔
  k = k0 ∨ duplicate s name k.
Proof.
  unfold duplicate, pending_insert, pending_upsert, present. simpl.
  rewrite NestedFacts.inner_update_eq, NestedFacts.lookup_update_set.
  destruct (decide (k = k0)) as [->|Hne].
  - rewrite JsMapFacts.has_set_eq. tauto.
  - rewrite JsMapFacts.has_set_ne by done. rewrite decide_False by (intros [_ ?]; congruence).
    tauto.
Qed.

(** The loop of [insert] returns exactly when the ids of the array
    differ from one another and none is known under [name]; it then
    leaves every entity in the insert buffer and in the cache map of
    [name], under its own id, and touches nothing else. *)
Lemma V2_insert_loop name es s :
  Forall (λ e, is_Some (heap s !! e)) es →
  let r := for_each es (V2.insert_entity name) s in
  heap r.1 = heap s ∧
  (r.2 = Ok tt ↔
   NoDup (ids_of s es) ∧ ∀ k, k ∈ ids_of s es → ¬ duplicate s name k) ∧
  (r.2 = Ok tt →
   (∀ e o, e ∈ es → heap s !! e = Some o →
      JsMap.get (id o) (Nested.inner name (insertMap r.1)) = Some e ∧
      present r.1 name (id o) e) ∧
   (∀ k, k ∉ ids_of s es →
      JsMap.get k (Nested.inner name (insertMap r.1)) =
        JsMap.get k (Nested.inner name (insertMap s)) ∧
      Nested.lookup name k (cacheMap r.1) = Nested.lookup name k (cacheMap s)) ∧
   (∀ name', name' ≠ name →
      Nested.inner name' (insertMap r.1) = Nested.inner name' (insertMap s) ∧
      Nested.inner name' (cacheMap r.1) = Nested.inner name' (cacheMap s)) ∧
   upsertMap r.1 = upsertMap s).
Proof.
  revert s. induction es as [|e es IH]; intros s Hall r.
  { subst r. simpl. split_and!; try done.
    - split; [|done]. intros _. split; [constructor | by intros k ?%elem_of_nil].
    - intros _. split_and!; try done. by intros e o ?%elem_of_nil. }
  apply Forall_cons in Hall as [[o He] Hall].
  assert (ids_of s (e :: es) = id o :: ids_of s es) as Hids.
  { unfold ids_of. simpl. by rewrite He. }
  rewrite Hids. subst r. simpl.
  destruct (duplicate_dec s name (id o)) as [Hdup|Hfresh].
  { rewrite (bind_throw _ _ _ _ _ (V2_insert_entity_duplicate _ _ _ _ He Hdup)).
    simpl. split_and!; [done| |done].
    split; [done|]. intros [_ Hnone]. exfalso.
    apply (Hnone (id o)); [apply list_elem_of_here | done]. }
  rewrite (bind_ok _ _ _ _ _ (V2_insert_entity_fresh _ _ _ _ He Hfresh)).
  set (s2 := with_cacheMap _ _).
  specialize (IH s2 Hall). simpl in IH.
  destruct IH as (Hheap & Hiff & Hpost).
  change (ids_of s2 es) with (ids_of s es) in *.
  change (heap s2) with (heap s) in *.
  split_and!; [done| |].
  - rewrite Hiff, NoDup_cons. unfold s2.
    setoid_rewrite V2_duplicate_inserted. split.
    + intros (Hnd & Hnone). split_and!; [|done|].
      * intros Hin. apply (Hnone (id o) Hin). by left.
      * intros k [->|Hin]%elem_of_cons; [done|].
        intros Hdup. apply (Hnone k Hin). by right.
    + intros ((Hnotin & Hnd) & Hnone). split; [done|].
      intros k Hin [->|Hdup]; [done|].
      apply (Hnone k); [by apply list_elem_of_further | done].
  - intros Hok. pose proof (proj1 Hiff Hok) as [Hnd Hnone].
    destruct (Hpost Hok) as (Hin & Hout & Hother & Hup).
    assert (id o ∉ ids_of s es) as Hnotin.
    { intros Hi. apply (Hnone (id o) Hi). apply V2_duplicate_inserted. by left. }
    split_and!.
    + intros e' o' [->|He'in]%elem_of_cons He'; [|by apply Hin].
      assert (o' = o) as -> by congruence.
      destruct (Hout (id o) Hnotin) as [-> Hc]. unfold present. rewrite Hc.
      unfold s2. simpl.
      rewrite NestedFacts.inner_update_eq, JsMapFacts.get_set_eq.
      rewrite NestedFacts.lookup_update_set. by rewrite decide_True.
    + intros k [Hne Hk]%not_elem_of_cons.
      destruct (Hout k Hk) as [-> ->]. unfold s2. simpl.
      rewrite NestedFacts.inner_update_eq, JsMapFacts.get_set_ne by done.
      rewrite NestedFacts.lookup_update_set. rewrite decide_False by (intros [_ ?]; congruence).
      done.
    + intros name' Hne. destruct (Hother name' Hne) as [-> ->]. unfold s2. simpl.
      by rewrite !NestedFacts.inner_update_ne.
    + by rewrite Hup.
Qed.
End V2_arrays.

Section V2_upsert.
Context `{rt : Runtime}.
Implicit Types (s : State (list string)).

Lemma V2_upsert_cons e es s o :
  heap s !! e = Some o →
  V2.upsert (e :: es) s =
  for_each (e :: es) (V2.upsert_entity (constructor_name o))
           (V2_registered (constructor_name o) s).
Proof.
  intros He. unfold V2.upsert.
  by rewrite (bind_ok _ _ _ _ _ (constructor_of_Some _ _ _ He)).
Qed.

(** [upsert] leaves an id that waits in the insert buffer to the
    pending insert. *)
Lemma V2_upsert_entity_inserted name e s o :
  heap s !! e = Some o → pending_insert s name (id o) →
  V2.upsert_entity name e s =
  (with_cacheMap (Nested.update name (JsMap.set (id o) (Some e)))
     (V2_undeferred name (id o) s), Ok tt).
Proof.
  intros He Hi. unfold V2.upsert_entity.
  rewrite (bind_ok _ _ _ _ _ (id_of_Some _ _ _ He)).
  unfold V2.update_deferList. rewrite bind_modify, bind_gets.
  change (insertMap (with_deferred _ s)) with (insertMap s).
  unfold pending_insert in Hi. by rewrite Hi.
Qed.

(** Otherwise it files the entity itself in the upsert buffer, in
    place of what was there for the id. *)
Lemma V2_upsert_entity_filed name e s o :
  heap s !! e = Some o → ¬ pending_insert s name (id o) →
  V2.upsert_entity name e s =
  (with_cacheMap (Nested.update name (JsMap.set (id o) (Some e)))
     (with_upsertMap (Nested.update name (JsMap.set (id o) e))
        (V2_undeferred name (id o) s)), Ok tt).
Proof.
  intros He Hi. unfold V2.upsert_entity.
  rewrite (bind_ok _ _ _ _ _ (id_of_Some _ _ _ He)).
  unfold V2.update_deferList. rewrite bind_modify, bind_gets.
  change (insertMap (with_deferred _ s)) with (insertMap s).
  unfold pending_insert in Hi. by apply not_true_is_false in Hi as ->.
Qed.

(** One round of the loop of [upsert]. *)
Lemma V2_upsert_entity_spec name e s o :
  heap s !! e = Some o →
  let r := V2.upsert_entity name e s in
  r.2 = Ok tt ∧ heap r.1 = heap s ∧ insertMap r.1 = insertMap s ∧
  present r.1 name (id o) e ∧
  (pending_insert s name (id o) ∨
   JsMap.get (id o) (Nested.inner name (upsertMap r.1)) = Some e) ∧
  (∀ k, (∃ l, present s name k l) → ∃ l, present r.1 name k l) ∧
  (∀ k, pending_upsert s name k → pending_upsert r.1 name k) ∧
  (∀ name', name' ≠ name →
     Nested.inner name' (upsertMap r.1) = Nested.inner name' (upsertMap s) ∧
     Nested.inner name' (cacheMap r.1) = Nested.inner name' (cacheMap s)).
Proof.
  intros He r.
  assert (∀ t : State (list string),
            cacheMap t = cacheMap s →
            let t' := with_cacheMap (Nested.update name (JsMap.set (id o) (Some e))) t in
            present t' name (id o) e ∧
            (∀ k, (∃ l, present s name k l) → ∃ l, present t' name k l) ∧
            (∀ name', name' ≠ name →
               Nested.inner name' (cacheMap t') = Nested.inner name' (cacheMap s)))
    as Hcache.
  { intros t Ht t'. unfold present, t'. simpl. rewrite Ht. split_and!.
    - rewrite NestedFacts.lookup_update_set. by rewrite decide_True.
    - intros k [l Hl]. rewrite NestedFacts.lookup_update_set.
      case_decide; [by exists e | by exists l].
    - intros name' Hne. by rewrite NestedFacts.inner_update_ne. }
  subst r.
  destruct (JsMap.has (id o) (Nested.inner name (insertMap s))) eqn:Hi.
  - rewrite (V2_upsert_entity_inserted _ _ _ _ He Hi). simpl.
    destruct (Hcache (V2_undeferred name (id o) s) eq_refl) as (Hp & Hkeep & Hother).
    split_and!; try done; [by left|]. intros name' Hne. split; [done|by apply Hother].
  - assert (¬ pending_insert s name (id o)) as Hni
      by (unfold pending_insert; congruence).
    rewrite (V2_upsert_entity_filed _ _ _ _ He Hni). simpl.
    destruct (Hcache (with_upsertMap (Nested.update name (JsMap.set (id o) e))
                        (V2_undeferred name (id o) s)) eq_refl)
      as (Hp & Hkeep & Hother).
    split_and!; try done.
    + right. by rewrite NestedFacts.inner_update_eq, JsMapFacts.get_set_eq.
    + intros k. unfold pending_upsert. simpl.
      rewrite NestedFacts.inner_update_eq.
      destruct (decide (id o = k)) as [<-|Hne].
      * by rewrite JsMapFacts.has_set_eq.
      * by rewrite JsMapFacts.has_set_ne.
    + intros name' Hne. split; [|by apply Hother].
      by rewrite NestedFacts.inner_update_ne.
Qed.

(** The loop of [upsert] returns, and leaves every entity of the array
    in the cache map of [name] and, unless its id waits in the insert
    buffer of [name], in the upsert buffer of [name]. *)
Lemma V2_upsert_loop name es s :
  Forall (λ e, is_Some (heap s !! e)) es →
  let r := for_each es (V2.upsert_entity name) s in
  r.2 = Ok tt ∧ heap r.1 = heap s ∧ insertMap r.1 = insertMap s ∧
  (∀ e o, e ∈ es → heap s !! e = Some o →
     (∃ l, present r.1 name (id o) l) ∧
     (pending_insert s name (id o) ∨ pending_upsert r.1 name (id o))) ∧
  (∀ k, (∃ l, present s name k l) → ∃ l, present r.1 name k l) ∧
  (∀ k, pending_upsert s name k → pending_upsert r.1 name k) ∧
  (∀ name', name' ≠ name →
     Nested.inner name' (upsertMap r.1) = Nested.inner name' (upsertMap s) ∧
     Nested.inner name' (cacheMap r.1) = Nested.inner name' (cacheMap s)).
Proof.
  revert s. induction es as [|e es IH]; intros s Hall r.
  { subst r. simpl. split_and!; try done. by intros e o ?%elem_of_nil. }
  apply Forall_cons in Hall as [[o He] Hall]. subst r. simpl.
  destruct (V2_upsert_entity_spec name e s o He)
    as (Hok & Hheap & Hins & Hp & Hfiled & Hkeep & Hup & Hother).
  destruct (V2.upsert_entity name e s) as [s1 out] eqn:Hrun. simpl in *. subst out.
  rewrite (bind_ok _ _ _ _ _ Hrun).
  assert (Forall (λ e, is_Some (heap s1 !! e)) es) as Hall1 by (by rewrite Hheap).
  destruct (IH s1 Hall1)
    as (Hok' & Hheap' & Hins' & Hin' & Hkeep' & Hup' & Hother').
  split_and!; try done.
  - congruence.
  - congruence.
  - intros e' o' [->|He'in]%elem_of_cons He'.
    + assert (o' = o) as -> by congruence. split; [apply Hkeep'; by exists e|].
      destruct Hfiled as [?|Hget]; [by left|]. right. apply Hup'.
      unfold pending_upsert. apply JsMapFacts.has_true. by rewrite Hget.
    + rewrite <- Hheap in He'. destruct (Hin' e' o' He'in He') as [Hp' Hb].
      split; [done|]. destruct Hb as [Hi|?]; [|by right]. left.
      unfold pending_insert in *. by rewrite <- Hins.
  - intros k Hk. by apply Hkeep', Hkeep.
  - intros k Hk. by apply Hup', Hup.
  - intros name' Hne. destruct (Hother name' Hne) as [<- <-]. by apply Hother'.
Qed.
End V2_upsert.

Section write_step_facts.
Context {D : Type} `{rt : Runtime}.
Implicit Types (s : State D).

Lemma write_effect_refl s : cache_wf s → write_effect s s.
Proof. intros Hwf. split; try done. intros l o Hl Hun. by exists o. Qed.

#[export] Instance write_step_preorder : PreOrder (write_step (D:=D)).
Proof.
  split.
  - intros s Hwf. by apply write_effect_refl.
  - intros s1 s2 s3 H12 H23 Hwf1.
    destruct (H12 Hwf1) as [Hwf2 Hobj2 Hp2 Hi2 Hu2].
    destruct (H23 Hwf2) as [Hwf3 Hobj3 Hp3 Hi3 Hu3].
    split; [done| |by auto..].
    intros l o Hl Hun.
    destruct (Hobj2 l o Hl Hun) as (o2 & Hl2 & Hc2 & Hid2 & Hun2).
    destruct (Hobj3 l o2 Hl2 Hun2) as (o3 & Hl3 & Hc3 & Hid3 & Hun3).
    exists o3. split_and!; [done|congruence|congruence|done].
Qed.

(** Caching is such a step. *)
Lemma cache_step_write_step s s' : cache_step s s' → write_step s s'.
Proof.
  intros Hstep Hwf. destruct (Hstep Hwf). split; [done| |done|..].
  - intros l o Hl Hun.
    destruct (ce_objects0 l o Hl) as (o' & Hl' & Hc' & [Hid'|[name Hp]]).
    2: { by destruct (Hun name (id o')). }
    exists o'. split_and!; [done..|].
    intros name k Hp. destruct (ce_new0 name k l Hp) as [Hp0|[Hlen _]].
    + by destruct (Hun name k).
    + apply lookup_lt_Some in Hl. lia.
  - intros name k. unfold pending_insert. by rewrite ce_insertMap0.
  - intros name k. unfold pending_upsert. by rewrite ce_upsertMap0.
Qed.

(** A change of the buffers that takes no id out of them. *)
Lemma write_step_buffers s s' :
  heap s' = heap s →
  (∀ name k, Nested.lookup name k (cacheMap s') = Nested.lookup name k (cacheMap s)) →
  (∀ name k, pending_insert s name k → pending_insert s' name k) →
  (∀ name k, pending_upsert s name k → pending_upsert s' name k) →
  write_step s s'.
Proof.
  intros Hh Hc Hi Hu [Hclosed Hinj].
  assert (∀ name k l, present s' name k l ↔ present s name k l) as Hp.
  { intros name k l. unfold present. by rewrite Hc. }
  split; [|..|done|done].
  - split.
    + intros name k l ?%Hp. rewrite Hh. eauto.
    + intros name k name' k' l ?%Hp ?%Hp. eauto.
  - intros l o Hl Hun. exists o. rewrite Hh. split_and!; [done..|].
    intros name k ?%Hp. by destruct (Hun name k).
  - intros name k l ?. by apply Hp.
Qed.

Lemma pending_set (m : list (string * list (string * loc))) name0 k0 c name k :
  JsMap.has k (Nested.inner name m) = true →
  JsMap.has k (Nested.inner name (Nested.update name0 (JsMap.set k0 c) m)) = true.
Proof.
  intros Hk. destruct (decide (name0 = name)) as [->|Hne].
  - rewrite NestedFacts.inner_update_eq. destruct (decide (k0 = k)) as [->|Hnek].
    + apply JsMapFacts.has_set_eq.
    + by rewrite JsMapFacts.has_set_ne.
  - by rewrite NestedFacts.inner_update_ne.
Qed.

Lemma write_step_insertMap_set s name k c :
  write_step s (with_insertMap (Nested.update name (JsMap.set k c)) s).
Proof.
  apply write_step_buffers; try done.
  intros name' k'. unfold pending_insert. simpl. apply pending_set.
Qed.

Lemma write_step_upsertMap_set s name k c :
  write_step s (with_upsertMap (Nested.update name (JsMap.set k c)) s).
Proof.
  apply write_step_buffers; try done.
  intros name' k'. unfold pending_upsert. simpl. apply pending_set.
Qed.

Lemma write_step_registered s name : write_step s (registered name s).
Proof.
  apply write_step_buffers; try done.
  - intros name' k. simpl. apply NestedFacts.lookup_ensure.
  - intros name' k. unfold pending_insert. simpl.
    by rewrite NestedFacts.inner_ensure.
  - intros name' k. unfold pending_upsert. simpl.
    by rewrite NestedFacts.inner_ensure.
Qed.
End write_step_facts.

Section V1_arrays.
Context `{rt : Runtime}.
Implicit Types (s : State V1.DeferData).

(** One round of the loop of [insert] that returns: the checks passed,
    the entity was cached under its own class, and what the cache holds
    for it was filed in the insert buffer of [name]. *)
Lemma V1_insert_entity_spec name e s s' o :
  cache_wf s → heap s !! e = Some o →
  V1.insert_entity name e s = (s', Ok tt) →
  ∃ s1 c oc,
    V1.cache_one e s = (s1, Ok c) ∧ cache_effect s s1 ∧
    heap s1 !! c = Some oc ∧ id oc = id o ∧
    present s1 (constructor_name o) (id o) c ∧
    ¬ duplicate s name (id o) ∧
    s' = with_insertMap (Nested.update name (JsMap.set (id o) c)) s1.
Proof.
  intros Hwf He Hrun.
  destruct (duplicate_dec s name (id o)) as [Hdup|Hfresh].
  { by rewrite (V1_insert_entity_duplicate _ _ _ _ He Hdup) in Hrun. }
  rewrite (V1_insert_entity_fresh _ _ _ _ He Hfresh) in Hrun.
  destruct (V1.cache_one e s) as [s1 [c|err]] eqn:Hcache.
  2: { by rewrite (bind_throw _ _ _ _ _ Hcache) in Hrun. }
  rewrite (bind_ok _ _ _ _ _ Hcache) in Hrun.
  destruct (V1_cache_one_spec _ _ _ _ Hwf Hcache) as (E & Hpost).
  destruct (Hpost c eq_refl) as (o' & oc & Ho' & Hc & Hid & Hp).
  assert (o' = o) as -> by congruence.
  rewrite (bind_ok _ _ _ _ _ (id_of_Some _ _ _ Hc)), Hid in Hrun.
  injection Hrun as <-. by exists s1, c, oc.
Qed.

(** One round of the loop of [upsert] that returns: the entity was
    cached under its own class, and what the cache holds for it was filed
    in the upsert buffer of [name] unless its id waits in the insert
    buffer of [name]. *)
Lemma V1_upsert_entity_spec name e s s' o :
  cache_wf s → heap s !! e = Some o →
  V1.upsert_entity name e s = (s', Ok tt) →
  ∃ s1 c oc,
    V1.cache_one e s = (s1, Ok c) ∧ cache_effect s s1 ∧
    heap s1 !! c = Some oc ∧ id oc = id o ∧
    present s1 (constructor_name o) (id o) c ∧
    ((pending_insert s name (id o) ∧ s' = s1) ∨
     (¬ pending_insert s name (id o) ∧
      s' = with_upsertMap (Nested.update name (JsMap.set (id o) c)) s1)).
Proof.
  intros Hwf He Hrun. unfold V1.upsert_entity in Hrun.
  destruct (V1.cache_one e s) as [s1 [c|err]] eqn:Hcache.
  2: { by rewrite (bind_throw _ _ _ _ _ Hcache) in Hrun. }
  rewrite (bind_ok _ _ _ _ _ Hcache) in Hrun.
  destruct (V1_cache_one_spec _ _ _ _ Hwf Hcache) as (E & Hpost).
  destruct (Hpost c eq_refl) as (o' & oc & Ho' & Hc & Hid & Hp).
  assert (o' = o) as -> by congruence.
  rewrite (bind_ok _ _ _ _ _ (id_of_Some _ _ _ Hc)), Hid, bind_gets in Hrun.
  rewrite (ce_insertMap _ _ E) in Hrun.
  exists s1, c, oc. split_and!; [done..|].
  unfold pending_insert.
  destruct (JsMap.has (id o) (Nested.inner name (insertMap s))).
  - left. by injection Hrun as <-.
  - right. by injection Hrun as <-.
Qed.

Lemma V1_insert_entity_write_step name e s s' :
  V1.insert_entity name e s = (s', Ok tt) → write_step s s'.
Proof.
  intros Hrun Hwf. destruct (heap s !! e) as [o|] eqn:He.
  2: { unfold V1.insert_entity in Hrun.
       by rewrite (bind_throw _ _ _ _ _ (id_of_None _ _ He)) in Hrun. }
  destruct (V1_insert_entity_spec _ _ _ _ _ Hwf He Hrun)
    as (s1 & c & oc & _ & E & _ & _ & _ & _ & ->).
  revert Hwf. change (write_step s (with_insertMap
    (Nested.update name (JsMap.set (id o) c)) s1)).
  etrans; [apply cache_step_write_step; by intros _|].
  apply write_step_insertMap_set.
Qed.

Lemma V1_upsert_entity_write_step name e s s' :
  V1.upsert_entity name e s = (s', Ok tt) → write_step s s'.
Proof.
  intros Hrun Hwf. destruct (heap s !! e) as [o|] eqn:He.
  2: { unfold V1.upsert_entity, V1.cache_one in Hrun.
       destruct stack_limit; simpl in Hrun; [done|].
       rewrite !bind_assoc in Hrun.
       by rewrite (bind_throw _ _ _ _ _ (constructor_of_None _ _ He)) in Hrun. }
  destruct (V1_upsert_entity_spec _ _ _ _ _ Hwf He Hrun)
    as (s1 & c & oc & _ & E & _ & _ & _ & [[_ ->]|[_ ->]]).
  - apply (cache_step_write_step s s1); [by intros _ | done].
  - revert Hwf. change (write_step s (with_upsertMap
      (Nested.update name (JsMap.set (id o) c)) s1)).
    etrans; [apply cache_step_write_step; by intros _|].
    apply write_step_upsertMap_set.
Qed.

(** The loop of [insert], when it returns, leaves every entity of the
    array that is an object of the application in the insert buffer of
    [name], under its own id, and in the cache map of its own class. *)
Lemma V1_insert_loop name es s s' :
  cache_wf s → for_each es (V1.insert_entity name) s = (s', Ok tt) →
  write_effect s s' ∧ upsertMap s' = upsertMap s ∧
  (∀ name', name' ≠ name →
     Nested.inner name' (insertMap s') = Nested.inner name' (insertMap s)) ∧
  ∀ e o, e ∈ es → heap s !! e = Some o → unheld s e →
    pending_insert s' name (id o) ∧
    ∃ c, present s' (constructor_name o) (id o) c.
Proof.
  revert s. induction es as [|e1 es IH]; intros s Hwf Hrun; simpl in Hrun.
  { injection Hrun as <-. split; [by apply write_effect_refl|].
    split_and!; [done..|]. by intros e o ?%elem_of_nil. }
  destruct (V1.insert_entity name e1 s) as [s1 [[]|err]] eqn:Hround.
  2: { by rewrite (bind_throw _ _ _ _ _ Hround) in Hrun. }
  rewrite (bind_ok _ _ _ _ _ Hround) in Hrun.
  pose proof (V1_insert_entity_write_step _ _ _ _ Hround Hwf) as W1.
  destruct (IH s1 (we_wf _ _ W1) Hrun) as (W2 & Hup2 & Hother2 & Hin).
  assert (write_effect s s') as W.
  { revert Hwf. change (write_step s s'). etrans; [by intros _ | by intros _]. }
  assert (upsertMap s1 = upsertMap s ∧
          ∀ name', name' ≠ name →
            Nested.inner name' (insertMap s1) = Nested.inner name' (insertMap s))
    as [Hup1 Hother1].
  { destruct (heap s !! e1) as [o1|] eqn:He1.
    - destruct (V1_insert_entity_spec _ _ _ _ _ Hwf He1 Hround)
        as (s0 & c & oc & _ & E & _ & _ & _ & _ & ->). simpl. split; [apply E|].
      intros name' Hne. rewrite NestedFacts.inner_update_ne by done.
      by rewrite (ce_insertMap _ _ E).
    - unfold V1.insert_entity in Hround.
      by rewrite (bind_throw _ _ _ _ _ (id_of_None _ _ He1)) in Hround. }
  split; [done|]. split; [congruence|]. split.
  { intros name' Hne. rewrite Hother2 by done. by apply Hother1. }
  intros e o [->|He_in]%elem_of_cons He Hun.
  - destruct (V1_insert_entity_spec _ _ _ _ _ Hwf He Hround)
      as (s0 & c & oc & _ & _ & _ & _ & Hp & _ & ->).
    split.
    + apply (we_insert _ _ W2). unfold pending_insert. simpl.
      rewrite NestedFacts.inner_update_eq. apply JsMapFacts.has_set_eq.
    + exists c. by apply (we_present _ _ W2).
  - destruct (we_objects _ _ W1 e o He Hun) as (o' & He' & Hc' & Hid' & Hun').
    destruct (Hin e o' He_in He' Hun') as (Hpi & c & Hp).
    rewrite Hid' in Hpi. split; [done|]. exists c. by rewrite <- Hc', <- Hid'.
Qed.

(** The same for [upsert]; an entity whose id waits in the insert buffer
    of [name] is left to the pending insert. *)
Lemma V1_upsert_loop name es s s' :
  cache_wf s → for_each es (V1.upsert_entity name) s = (s', Ok tt) →
  write_effect s s' ∧ insertMap s' = insertMap s ∧
  (∀ name', name' ≠ name →
     Nested.inner name' (upsertMap s') = Nested.inner name' (upsertMap s)) ∧
  ∀ e o, e ∈ es → heap s !! e = Some o → unheld s e →
    (pending_insert s name (id o) ∨ pending_upsert s' name (id o)) ∧
    ∃ c, present s' (constructor_name o) (id o) c.
Proof.
  revert s. induction es as [|e1 es IH]; intros s Hwf Hrun; simpl in Hrun.
  { injection Hrun as <-. split; [by apply write_effect_refl|].
    split_and!; [done..|]. by intros e o ?%elem_of_nil. }
  destruct (V1.upsert_entity name e1 s) as [s1 [[]|err]] eqn:Hround.
  2: { by rewrite (bind_throw _ _ _ _ _ Hround) in Hrun. }
  rewrite (bind_ok _ _ _ _ _ Hround) in Hrun.
  pose proof (V1_upsert_entity_write_step _ _ _ _ Hround Hwf) as W1.
  destruct (IH s1 (we_wf _ _ W1) Hrun) as (W2 & Hins2 & Hother2 & Hin).
  assert (write_effect s s') as W.
  { revert Hwf. change (write_step s s'). etrans; [by intros _ | by intros _]. }
  assert (insertMap s1 = insertMap s ∧
          ∀ name', name' ≠ name →
            Nested.inner name' (upsertMap s1) = Nested.inner name' (upsertMap s))
    as [Hins1 Hother1].
  { destruct (heap s !! e1) as [o1|] eqn:He1.
    - destruct (V1_upsert_entity_spec _ _ _ _ _ Hwf He1 Hround)
        as (s0 & c & oc & _ & E & _ & _ & _ & [[_ ->]|[_ ->]]); simpl;
        (split; [apply E|]); intros name' Hne;
        rewrite ?NestedFacts.inner_update_ne by done;
        by rewrite (ce_upsertMap _ _ E).
    - unfold V1.upsert_entity, V1.cache_one in Hround.
      destruct stack_limit; simpl in Hround; [done|].
      rewrite !bind_assoc in Hround.
      by rewrite (bind_throw _ _ _ _ _ (constructor_of_None _ _ He1)) in Hround. }
  split; [done|]. split; [congruence|]. split.
  { intros name' Hne. rewrite Hother2 by done. by apply Hother1. }
  intros e o [->|He_in]%elem_of_cons He Hun.
  - destruct (V1_upsert_entity_spec _ _ _ _ _ Hwf He Hround)
      as (s0 & c & oc & _ & _ & _ & _ & Hp & [[Hpi ->]|[_ ->]]).
    + split; [by left|]. exists c. by apply (we_present _ _ W2).
    + split.
      * right. apply (we_upsert _ _ W2). unfold pending_upsert. simpl.
        rewrite NestedFacts.inner_update_eq. apply JsMapFacts.has_set_eq.
      * exists c. by apply (we_present _ _ W2).
  - destruct (we_objects _ _ W1 e o He Hun) as (o' & He' & Hc' & Hid' & Hun').
    destruct (Hin e o' He_in He' Hun') as (Hb & c & Hp).
    rewrite Hid' in Hb. split.
    + destruct Hb as [Hpi|?]; [|by right]. left.
      unfold pending_insert in *. by rewrite <- Hins1.
    + exists c. by rewrite <- Hc', <- Hid'.
Qed.

Lemma V1_upsert_cons e es s o :
  heap s !! e = Some o →
  V1.upsert (e :: es) s =
  for_each (e :: es) (V1.upsert_entity (constructor_name o))
           (with_upsertMap (Nested.ensure (constructor_name o))
              (with_insertMap (Nested.ensure (constructor_name o)) s)).
Proof.
  intros He. unfold V1.upsert.
  by rewrite (bind_ok _ _ _ _ _ (constructor_of_Some _ _ _ He)).
Qed.

(** Registering the buffers and the cache map of a type changes nothing
    the cache or the buffers hold. *)
Lemma V1_registered_same name s :
  (cache_wf s → cache_wf (registered name s)) ∧
  (∀ l, unheld s l → unheld (registered name s) l) ∧
  (∀ n k l, present (registered name s) n k l ↔ present s n k l) ∧
  (∀ n, Nested.inner n (insertMap (registered name s)) = Nested.inner n (insertMap s)) ∧
  (∀ n, Nested.inner n (upsertMap (registered name s)) = Nested.inner n (upsertMap s)).
Proof.
  assert (∀ n k l, present (registered name s) n k l ↔ present s n k l) as Hp.
  { intros n k l. unfold present, registered. simpl.
    by rewrite NestedFacts.lookup_ensure. }
  split_and!; [| |done|..].
  - intros [Hclosed Hinj]. split.
    + intros n k l ?%Hp. simpl. eauto.
    + intros n k n' k' l ?%Hp ?%Hp. eauto.
  - intros l Hun n k ?%Hp. by destruct (Hun n k).
  - intros n. simpl. apply NestedFacts.inner_ensure.
  - intros n. simpl. apply NestedFacts.inner_ensure.
Qed.

(** [insert] of an array, when it returns, leaves every entity of the
    array in the insert buffer of the type of the first element, under
    its own id, and in the cache map of its own type. *)
Lemma V1_insert_array e0 es s s' o0 :
  cache_wf s → heap s !! e0 = Some o0 →
  V1.insert (e0 :: es) s = (s', Ok tt) →
  upsertMap s' = Nested.ensure (constructor_name o0) (upsertMap s) ∧
  (∀ name', name' ≠ constructor_name o0 →
     Nested.inner name' (insertMap s') = Nested.inner name' (insertMap s)) ∧
  ∀ e o, e ∈ e0 :: es → heap s !! e = Some o → unheld s e →
    pending_insert s' (constructor_name o0) (id o) ∧
    ∃ c, present s' (constructor_name o) (id o) c.
Proof.
  intros Hwf He0 Hrun. rewrite (V1_insert_cons _ _ _ _ He0) in Hrun.
  destruct (V1_registered_same (constructor_name o0) s)
    as (Hwf' & Hun' & _ & Hins & _).
  destruct (V1_insert_loop _ _ _ _ (Hwf' Hwf) Hrun) as (_ & Hup & Hother & Hin).
  split_and!.
  - by rewrite Hup.
  - intros name' Hne. by rewrite Hother, Hins.
  - intros e o He_in He Hun. apply (Hin e o); [done..|]. by apply Hun'.
Qed.

Lemma V1_upsert_array e0 es s s' o0 :
  cache_wf s → heap s !! e0 = Some o0 →
  V1.upsert (e0 :: es) s = (s', Ok tt) →
  insertMap s' = Nested.ensure (constructor_name o0) (insertMap s) ∧
  (∀ name', name' ≠ constructor_name o0 →
     Nested.inner name' (upsertMap s') = Nested.inner name' (upsertMap s)) ∧
  ∀ e o, e ∈ e0 :: es → heap s !! e = Some o → unheld s e →
    (pending_insert s (constructor_name o0) (id o) ∨
     pending_upsert s' (constructor_name o0) (id o)) ∧
    ∃ c, present s' (constructor_name o) (id o) c.
Proof.
  intros Hwf He0 Hrun. rewrite (V1_upsert_cons _ _ _ _ He0) in Hrun.
  set (name0 := constructor_name o0) in *.
  set (s0 := with_upsertMap _ _) in Hrun.
  assert (cache_wf s0) as Hwf0 by done.
  destruct (V1_upsert_loop _ _ _ _ Hwf0 Hrun) as (_ & Hins & Hother & Hin).
  split_and!.
  - by rewrite Hins.
  - intros name' Hne. rewrite Hother by done. simpl.
    apply NestedFacts.inner_ensure.
  - intros e o He_in He Hun. destruct (Hin e o He_in He Hun) as [Hb Hp].
    split; [|done]. destruct Hb as [Hpi|?]; [|by right]. left.
    unfold pending_insert in *. simpl in Hpi.
    by rewrite NestedFacts.inner_ensure in Hpi.
Qed.

(** A round of the loop of [insert] fails one of its checks exactly
    when the id is known under the name the loop runs with. *)
Lemma V1_insert_entity_iff name e s o :
  heap s !! e = Some o →
  (V1.insert_entity name e s).2 = Throw (AssertionError None) ↔
  duplicate s name (id o).
Proof.
  intros He. split.
  - intros Hthrow. destruct (duplicate_dec s name (id o)) as [|Hfresh]; [done|].
    exfalso. destruct (V1.insert_entity name e s) as [s' [[]|err]] eqn:Hrun; [done|].
    simpl in Hthrow. injection Hthrow as ->.
    by apply (V1_insert_entity_raises _ _ _ _ _ _ He Hfresh Hrun).
  - intros Hdup. by rewrite (V1_insert_entity_duplicate _ _ _ _ He Hdup).
Qed.
End V1_arrays.

Section V2_array_ops.
Context `{rt : Runtime}.
Implicit Types (s : State (list string)).

Lemma V2_insert_array e0 es s o0 :
  heap s !! e0 = Some o0 → Forall (λ e, is_Some (heap s !! e)) es →
  let name0 := constructor_name o0 in
  let r := V2.insert (e0 :: es) s in
  (r.2 = Ok tt ↔
   NoDup (ids_of s (e0 :: es)) ∧
   ∀ k, k ∈ ids_of s (e0 :: es) → ¬ duplicate s name0 k) ∧
  (r.2 = Ok tt →
   (∀ e o, e ∈ e0 :: es → heap s !! e = Some o →
      JsMap.get (id o) (Nested.inner name0 (insertMap r.1)) = Some e ∧
      present r.1 name0 (id o) e) ∧
   (∀ name', name' ≠ name0 →
      Nested.inner name' (insertMap r.1) = Nested.inner name' (insertMap s) ∧
      Nested.inner name' (cacheMap r.1) = Nested.inner name' (cacheMap s)) ∧
   (∀ name', Nested.inner name' (upsertMap r.1) = Nested.inner name' (upsertMap s))).
Proof.
  intros He0 Hall name0 r. subst r. rewrite (V2_insert_cons _ _ _ _ He0).
  fold name0. set (s0 := V2_registered name0 s).
  assert (Forall (λ e, is_Some (heap s0 !! e)) (e0 :: es)) as Hall0.
  { apply Forall_cons. split; [by exists o0 | done]. }
  destruct (V2_insert_loop name0 (e0 :: es) s0 Hall0) as (_ & Hiff & Hpost).
  change (ids_of s0 (e0 :: es)) with (ids_of s (e0 :: es)) in *.
  split.
  - rewrite Hiff. unfold s0. by setoid_rewrite V2_duplicate_registered.
  - intros Hok. destruct (Hpost Hok) as (Hin & _ & Hother & Hup). split_and!.
    + intros e o He_in He. by apply Hin.
    + intros name' Hne. destruct (Hother name' Hne) as [-> ->]. unfold s0. simpl.
      by rewrite !NestedFacts.inner_ensure.
    + intros name'. rewrite Hup. unfold s0. simpl.
      apply NestedFacts.inner_ensure.
Qed.

Lemma V2_upsert_array e0 es s o0 :
  heap s !! e0 = Some o0 → Forall (λ e, is_Some (heap s !! e)) es →
  let name0 := constructor_name o0 in
  let r := V2.upsert (e0 :: es) s in
  r.2 = Ok tt ∧
  (∀ e o, e ∈ e0 :: es → heap s !! e = Some o →
     (∃ l, present r.1 name0 (id o) l) ∧
     (pending_insert s name0 (id o) ∨ pending_upsert r.1 name0 (id o))) ∧
  (∀ name', name' ≠ name0 →
     Nested.inner name' (upsertMap r.1) = Nested.inner name' (upsertMap s) ∧
     Nested.inner name' (cacheMap r.1) = Nested.inner name' (cacheMap s)) ∧
  (∀ name', Nested.inner name' (insertMap r.1) = Nested.inner name' (insertMap s)).
Proof.
  intros He0 Hall name0 r. subst r. rewrite (V2_upsert_cons _ _ _ _ He0).
  fold name0. set (s0 := V2_registered name0 s).
  assert (Forall (λ e, is_Some (heap s0 !! e)) (e0 :: es)) as Hall0.
  { apply Forall_cons. split; [by exists o0 | done]. }
  destruct (V2_upsert_loop name0 (e0 :: es) s0 Hall0)
    as (Hok & _ & Hins & Hin & _ & _ & Hother).
  split_and!; [done| | |].
  - intros e o He_in He. destruct (Hin e o He_in He) as [Hp Hb]. split; [done|].
    destruct Hb as [Hpi|?]; [|by right]. left.
    unfold pending_insert, s0 in *. simpl in Hpi.
    by rewrite NestedFacts.inner_ensure in Hpi.
  - intros name' Hne. destruct (Hother name' Hne) as [-> ->]. unfold s0. simpl.
    by rewrite !NestedFacts.inner_ensure.
  - intros name'. rewrite Hins. unfold s0. simpl. apply NestedFacts.inner_ensure.
Qed.
End V2_array_ops.

Section V1_keyed_arrays.
Context `{rt : Runtime}.
Implicit Types (s : State V1.DeferData).

#[export] Instance keeps_keyed_preorder : PreOrder (keeps_keyed (D:=V1.DeferData)).
Proof.
  split.
  - intros s l o Hl Hk. by exists o.
  - intros s1 s2 s3 H12 H23 l o Hl Hk.
    destruct (H12 l o Hl Hk) as (o2 & Hl2 & Hc2 & Hid2 & Hk2).
    destruct (H23 l o2 Hl2 Hk2) as (o3 & Hl3 & Hc3 & Hid3 & Hk3).
    exists o3. split_and!; [done|congruence|congruence|done].
Qed.

(** Caching leaves an object that carries the id it is held for with
    that id: the only id [cache] gives an object it holds is the id it
    holds it for. *)
Lemma cache_effect_keeps_keyed s s' : cache_effect s s' → keeps_keyed s s'.
Proof.
  intros E l o Hl Hk.
  destruct (ce_objects _ _ E l o Hl) as (o' & Hl' & Hc' & Hid').
  assert (id o' = id o) as Hid.
  { destruct Hid' as [?|[name Hp]]; [done|]. by apply (Hk name). }
  exists o'. split_and!; [done..|].
  intros name k Hp. rewrite Hid.
  destruct (ce_new _ _ E name k l Hp) as [Hp0|[Hlen _]]; [by apply (Hk name)|].
  apply lookup_lt_Some in Hl. lia.
Qed.

Lemma keeps_keyed_buffers s s' :
  heap s' = heap s →
  (∀ name k, Nested.lookup name k (cacheMap s') = Nested.lookup name k (cacheMap s)) →
  keeps_keyed s s'.
Proof.
  intros Hh Hc l o Hl Hk. exists o. rewrite Hh. split_and!; [done..|].
  intros name k Hp. apply (Hk name). unfold present in *. by rewrite <- Hc.
Qed.

(** The loop of [insert], when it returns, leaves every entity of the
    array that carries the id it is held for in the insert buffer of
    [name], under its own id, and in the cache map of its own class. *)
Lemma V1_insert_loop_keyed name es s s' :
  cache_wf s → for_each es (V1.insert_entity name) s = (s', Ok tt) →
  ∀ e o, e ∈ es → heap s !! e = Some o → keyed_by_id s e o →
    pending_insert s' name (id o) ∧
    ∃ c, present s' (constructor_name o) (id o) c.
Proof.
  revert s. induction es as [|e1 es IH]; intros s Hwf Hrun; simpl in Hrun.
  { by intros e o ?%elem_of_nil. }
  destruct (V1.insert_entity name e1 s) as [s1 [[]|err]] eqn:Hround.
  2: { by rewrite (bind_throw _ _ _ _ _ Hround) in Hrun. }
  rewrite (bind_ok _ _ _ _ _ Hround) in Hrun.
  pose proof (V1_insert_entity_write_step _ _ _ _ Hround Hwf) as W1.
  destruct (V1_insert_loop name es s1 s' (we_wf _ _ W1) Hrun) as (W2 & _).
  assert (keeps_keyed s s1) as K1.
  { destruct (heap s !! e1) as [o1|] eqn:He1.
    - destruct (V1_insert_entity_spec _ _ _ _ _ Hwf He1 Hround)
        as (s0 & c & oc & _ & E & _ & _ & _ & _ & ->).
      etrans; [by apply cache_effect_keeps_keyed|].
      by apply keeps_keyed_buffers.
    - unfold V1.insert_entity in Hround.
      by rewrite (bind_throw _ _ _ _ _ (id_of_None _ _ He1)) in Hround. }
  intros e o [->|He_in]%elem_of_cons He Hk.
  - destruct (V1_insert_entity_spec _ _ _ _ _ Hwf He Hround)
      as (s0 & c & oc & _ & _ & _ & _ & Hp & _ & ->).
    split.
    + apply (we_insert _ _ W2). unfold pending_insert. simpl.
      rewrite NestedFacts.inner_update_eq. apply JsMapFacts.has_set_eq.
    + exists c. by apply (we_present _ _ W2).
  - destruct (K1 e o He Hk) as (o' & He' & Hc' & Hid' & Hk').
    destruct (IH s1 (we_wf _ _ W1) Hrun e o' He_in He' Hk') as (Hpi & c & Hp).
    rewrite Hid' in Hpi. split; [done|]. exists c. by rewrite <- Hc', <- Hid'.
Qed.

(** The same for [upsert]; an entity whose id waits in the insert buffer
    of [name] is left to the pending insert. *)
Lemma V1_upsert_loop_keyed name es s s' :
  cache_wf s → for_each es (V1.upsert_entity name) s = (s', Ok tt) →
  ∀ e o, e ∈ es → heap s !! e = Some o → keyed_by_id s e o →
    (pending_insert s name (id o) ∨ pending_upsert s' name (id o)) ∧
    ∃ c, present s' (constructor_name o) (id o) c.
Proof.
  revert s. induction es as [|e1 es IH]; intros s Hwf Hrun; simpl in Hrun.
  { by intros e o ?%elem_of_nil. }
  destruct (V1.upsert_entity name e1 s) as [s1 [[]|err]] eqn:Hround.
  2: { by rewrite (bind_throw _ _ _ _ _ Hround) in Hrun. }
  rewrite (bind_ok _ _ _ _ _ Hround) in Hrun.
  pose proof (V1_upsert_entity_write_step _ _ _ _ Hround Hwf) as W1.
  destruct (V1_upsert_loop name es s1 s' (we_wf _ _ W1) Hrun) as (W2 & _).
  assert (keeps_keyed s s1 ∧ insertMap s1 = insertMap s) as [K1 Hins1].
  { destruct (heap s !! e1) as [o1|] eqn:He1.
    - destruct (V1_upsert_entity_spec _ _ _ _ _ Hwf He1 Hround)
        as (s0 & c & oc & _ & E & _ & _ & _ & [[_ ->]|[_ ->]]).
      + split; [by apply cache_effect_keeps_keyed | apply E].
      + split; [|apply E].
        etrans; [by apply cache_effect_keeps_keyed|].
        by apply keeps_keyed_buffers.
    - unfold V1.upsert_entity, V1.cache_one in Hround.
      destruct stack_limit; simpl in Hround; [done|].
      rewrite !bind_assoc in Hround.
      by rewrite (bind_throw _ _ _ _ _ (constructor_of_None _ _ He1)) in Hround. }
  intros e o [->|He_in]%elem_of_cons He Hk.
  - destruct (V1_upsert_entity_spec _ _ _ _ _ Hwf He Hround)
      as (s0 & c & oc & _ & _ & _ & _ & Hp & [[Hpi ->]|[_ ->]]).
    + split; [by left|]. exists c. by apply (we_present _ _ W2).
    + split.
      * right. apply (we_upsert _ _ W2). unfold pending_upsert. simpl.
        rewrite NestedFacts.inner_update_eq. apply JsMapFacts.has_set_eq.
      * exists c. by apply (we_present _ _ W2).
  - destruct (K1 e o He Hk) as (o' & He' & Hc' & Hid' & Hk').
    destruct (IH s1 (we_wf _ _ W1) Hrun e o' He_in He' Hk') as (Hb & c & Hp).
    rewrite Hid' in Hb. split.
    + destruct Hb as [Hpi|?]; [|by right]. left.
      unfold pending_insert in *. by rewrite <- Hins1.
    + exists c. by rewrite <- Hc', <- Hid'.
Qed.

Lemma keyed_by_id_registered name s e o :
  keyed_by_id s e o → keyed_by_id (registered name s) e o.
Proof.
  intros Hk n k Hp. apply (Hk n). unfold present, registered in *. simpl in *.
  by rewrite NestedFacts.lookup_ensure in Hp.
Qed.

(** [insert] and [upsert] of an array, for every entity of the array
    that carries the id it is held for. *)
Lemma V1_insert_array_keyed e0 es s s' o0 :
  cache_wf s → heap s !! e0 = Some o0 →
  V1.insert (e0 :: es) s = (s', Ok tt) →
  ∀ e o, e ∈ e0 :: es → heap s !! e = Some o → keyed_by_id s e o →
    pending_insert s' (constructor_name o0) (id o) ∧
    ∃ c, present s' (constructor_name o) (id o) c.
Proof.
  intros Hwf He0 Hrun. rewrite (V1_insert_cons _ _ _ _ He0) in Hrun.
  destruct (V1_registered_same (constructor_name o0) s) as (Hwf' & _).
  intros e o He_in He Hk.
  apply (V1_insert_loop_keyed _ _ _ _ (Hwf' Hwf) Hrun e o); [done..|].
  by apply keyed_by_id_registered.
Qed.

Lemma V1_upsert_array_keyed e0 es s s' o0 :
  cache_wf s → heap s !! e0 = Some o0 →
  V1.upsert (e0 :: es) s = (s', Ok tt) →
  ∀ e o, e ∈ e0 :: es → heap s !! e = Some o → keyed_by_id s e o →
    (pending_insert s (constructor_name o0) (id o) ∨
     pending_upsert s' (constructor_name o0) (id o)) ∧
    ∃ c, present s' (constructor_name o) (id o) c.
Proof.
  intros Hwf He0 Hrun. rewrite (V1_upsert_cons _ _ _ _ He0) in Hrun.
  set (name0 := constructor_name o0) in *.
  set (s0 := with_upsertMap _ _) in Hrun.
  assert (cache_wf s0) as Hwf0 by done.
  intros e o He_in He Hk.
  destruct (V1_upsert_loop_keyed _ _ _ _ Hwf0 Hrun e o He_in He) as [Hb Hp];
    [done|].
  split; [|done]. destruct Hb as [Hpi|?]; [|by right]. left.
  unfold pending_insert in *. simpl in Hpi.
  by rewrite NestedFacts.inner_ensure in Hpi.
Qed.

(** An object the cache does not hold carries the id it is held
    for. *)
Lemma unheld_keyed s e o : unheld s e → keyed_by_id s e o.
Proof. intros Hun name k Hp. by destruct (Hun name k). Qed.
End V1_keyed_arrays.

(** C9, as it holds. In both variants [insert] and [upsert] of an array
    take the insert buffer and the upsert buffer from the class of the
    first element, and [insert] checks every id against these two
    buffers and the cache map of that class: every entity of the array,
    whatever its own class, is filed under the class of the first element
    and its own id, and the buffers of the other classes stay as they
    were; [upsert] files an entity in the upsert buffer unless its id
    waits in the insert buffer already. In the second variant this is so
    of every entity of the array, [upsert] returns, and [insert] returns
    exactly when the ids of the array are distinct and none of them is
    known under the class of the first element. In the first variant it
    is shown of a call that returns, on a well-formed cache, and of every
    entity of the array that the cache does not hold under another id
    than its own: the entities the application built, and those it was
    handed whose id it did not change. The cache entry is another matter.
    The second variant writes it into the cache map of the class of the
    first element, too. The first variant calls [cache] on each entity by
    itself, so the entry of an entity goes into the cache map of the
    class of that entity. *)
Theorem C9_first_element_names_the_buffers `{rt : Runtime} :
  (∀ (s s' : State V1.DeferData) e0 es o0,
     cache_wf s → heap s !! e0 = Some o0 →
     let name0 := constructor_name o0 in
     (V1.insert (e0 :: es) s = (s', Ok tt) →
      (∀ name', name' ≠ name0 →
         Nested.inner name' (insertMap s') = Nested.inner name' (insertMap s)) ∧
      ∀ e o, e ∈ e0 :: es → heap s !! e = Some o → keyed_by_id s e o →
        pending_insert s' name0 (id o) ∧
        ∃ c, present s' (constructor_name o) (id o) c) ∧
     (V1.upsert (e0 :: es) s = (s', Ok tt) →
      (∀ name', name' ≠ name0 →
         Nested.inner name' (upsertMap s') = Nested.inner name' (upsertMap s)) ∧
      ∀ e o, e ∈ e0 :: es → heap s !! e = Some o → keyed_by_id s e o →
        (pending_insert s name0 (id o) ∨ pending_upsert s' name0 (id o)) ∧
        ∃ c, present s' (constructor_name o) (id o) c)) ∧
  (∀ (s : State V1.DeferData) name e o,
     heap s !! e = Some o →
     (V1.insert_entity name e s).2 = Throw (AssertionError None) ↔
     duplicate s name (id o)) ∧
  (∀ (s : State (list string)) e0 es o0,
     heap s !! e0 = Some o0 → Forall (λ e, is_Some (heap s !! e)) es →
     let name0 := constructor_name o0 in
     let ri := V2.insert (e0 :: es) s in
     let ru := V2.upsert (e0 :: es) s in
     (ri.2 = Ok tt ↔
      NoDup (ids_of s (e0 :: es)) ∧
      ∀ k, k ∈ ids_of s (e0 :: es) → ¬ duplicate s name0 k) ∧
     (ri.2 = Ok tt →
      (∀ e o, e ∈ e0 :: es → heap s !! e = Some o →
         JsMap.get (id o) (Nested.inner name0 (insertMap ri.1)) = Some e ∧
         present ri.1 name0 (id o) e) ∧
      (∀ name', name' ≠ name0 →
         Nested.inner name' (insertMap ri.1) = Nested.inner name' (insertMap s) ∧
         Nested.inner name' (cacheMap ri.1) = Nested.inner name' (cacheMap s))) ∧
     ru.2 = Ok tt ∧
     (∀ e o, e ∈ e0 :: es → heap s !! e = Some o →
        (∃ l, present ru.1 name0 (id o) l) ∧
        (pending_insert s name0 (id o) ∨ pending_upsert ru.1 name0 (id o))) ∧
     (∀ name', name' ≠ name0 →
        Nested.inner name' (upsertMap ru.1) = Nested.inner name' (upsertMap s) ∧
        Nested.inner name' (cacheMap ru.1) = Nested.inner name' (cacheMap s))).
Proof.
  split_and!.
  - intros s s' e0 es o0 Hwf He0 name0. split.
    + intros Hrun.
      destruct (V1_insert_array _ _ _ _ _ Hwf He0 Hrun) as (_ & Hother & _).
      split; [done|]. by apply (V1_insert_array_keyed e0 es s s' o0).
    + intros Hrun.
      destruct (V1_upsert_array _ _ _ _ _ Hwf He0 Hrun) as (_ & Hother & _).
      split; [done|]. by apply (V1_upsert_array_keyed e0 es s s' o0).
  - intros s name e o He. by apply V1_insert_entity_iff.
  - intros s e0 es o0 He0 Hall name0 ri ru.
    destruct (V2_insert_array e0 es s o0 He0 Hall) as (Hiff & Hpost).
    destruct (V2_upsert_array e0 es s o0 He0 Hall) as (Hok & Hin & Hother & _).
    split_and!; try done.
    intros Hri. destruct (Hpost Hri) as (? & ? & _). done.
Qed.

(** C9 fails as stated. In the first variant an account and a transfer
    are inserted as one array: the transfer waits in the insert buffer of
    the accounts, and the cache holds it in the cache map of the
    transfers; the cache map of the accounts, the class of the first
    element, has no entry for it. *)
Lemma C9_cache_map_of_the_entity :
  let r := V1.insert (rt:=Demo.runtime) [0; 2] Demo.start in
  r.2 = Ok tt ∧
  pending_insert r.1 "Account" "t1" ∧
  Nested.lookup "Account" "t1" (cacheMap r.1) = None ∧
  ∃ c, present r.1 "Transfer" "t1" c.
Proof. split_and!; [reflexivity..|]. by eexists. Qed.

(** ** Upserting *)


Section pending_upsert_calls.
Context {D : Type} `{rt : Runtime}.
Implicit Types (st : State D).

Lemma pending_calls_named st name c :
  c ∈ pending_calls st name →
  (∃ es, c = CInsert name es) ∨ (∃ es, c = CUpsert name es).
Proof.
  unfold pending_calls.
  intros [H|H]%elem_of_app; case_bool_decide;
    try (by apply elem_of_nil in H);
    apply list_elem_of_singleton in H; eauto.
Qed.


End pending_upsert_calls.

Section flush_upsert.
Context `{rt : Runtime}.


Lemma V2_flush_entry_pending name name' (st : State (list string)) :
  name ≠ name' →
  pending_calls (V2.flush_entry name st).1 name' = pending_calls st name'.
Proof.
  intros Hne.
  destruct (V2_flush_entry_spec name st) as (_ & _ & Hh & _ & _ & _ & Hi & Hu).
  apply pending_calls_ext; [done|..].
  - by rewrite Hi, NestedFacts.inner_update_ne, NestedFacts.inner_ensure.
  - by rewrite Hu, NestedFacts.inner_update_ne, NestedFacts.inner_ensure.
Qed.

Lemma V2_flush_loop_calls order entityClass (st : State (list string)) :
  NoDup order →
  calls (V2.flush_loop order entityClass st).1 =
    calls st ++ concat (pending_calls st <$> flushed (Some entityClass) order).
Proof.
  revert st. induction order as [|name order IH]; intros st Hnd; simpl.
  - by rewrite app_nil_r.
  - apply NoDup_cons in Hnd as [Hname Hnd].
    pose proof (V2_flush_entry_spec name st) as (Hok & Hc & _).
    pose proof (λ n, V2_flush_entry_pending name n st) as Hp.
    unfold bind. destruct (V2.flush_entry name st) as [st1 o].
    simpl in Hok, Hc, Hp. subst o.
    destruct (decide (entityClass = name)) as [->|Hne].
    + rewrite !bool_decide_true by done. simpl. by rewrite Hc, app_nil_r.
    + rewrite !bool_decide_false by congruence.
      rewrite (IH st1 Hnd). csimpl.
      rewrite Hc, <- app_assoc. do 3 f_equal.
      apply Forall_fmap_ext_1, Forall_forall. intros n Hn. apply Hp.
      intros ->. apply Hname. eapply elem_of_prefix; [exact Hn|].
      apply flushed_prefix.
Qed.


End flush_upsert.

Section V2_upsert_one.
Context `{rt : Runtime}.
Implicit Types (s : State (list string)).

End V2_upsert_one.

Section V1_upsert_one.
Context `{rt : Runtime}.
Implicit Types (s : State V1.DeferData).

End V1_upsert_one.

Section V1_upsert_plain.
Context `{rt : Runtime}.
Implicit Types (s : State V1.DeferData).

(** Caching an entity of the application that sets no relation returns,
    and the object the cache then holds for it has, in every column that
    is no relation, what the entity has. *)
Lemma V1_cache_one_copies e s o :
  cache_wf s → heap s !! e = Some o → unheld s e →
  sets_no_relation o → stack_limit ≠ 0 →
  ∃ s' c oc md,
    V1.cache_one e s = (s', Ok c) ∧ heap s' !! c = Some oc ∧ id oc = id o ∧
    outside s' = outside s ∧
    metadata_of entityMetadatas (constructor_name o) = Some md ∧
    ∀ col, col ∈ columns md → relationMetadata col = None →
           obj_get (propertyName col) oc = obj_get (propertyName col) o.
Proof.
  intros Hwf He Hun (md & Hmd & Hplain) Hstack. unfold V1.cache_one.
  destruct stack_limit as [|depth]; [done|]. simpl.
  rewrite ?bind_assoc, (bind_ok _ _ _ _ _ (constructor_of_Some _ _ _ He)).
  unfold getCacheMap. rewrite ?bind_assoc, bind_modify.
  set (s0 := with_cacheMap (Nested.ensure (constructor_name o)) s).
  assert (heap s0 !! e = Some o) as He0 by done.
  unfold V1.cache_entity.
  rewrite ?bind_assoc, (bind_ok _ _ _ _ _ (constructor_of_Some _ _ _ He0)).
  rewrite ?bind_assoc, (bind_ok _ _ _ _ _ (id_of_Some _ _ _ He0)).
  rewrite ?bind_assoc, bind_gets.
  set (new := {| constructor_name := constructor_name o; id := ""; props := [] |}).
  destruct (V1_pick_cached s0 (constructor_name o) (id o) new)
    as (s1 & cached & Hpick & Hcase).
  rewrite ?bind_assoc, (bind_ok _ _ _ _ _ Hpick), Hmd.
  assert (∃ x, heap s1 !! cached = Some x ∧ e ≠ cached ∧ heap s1 !! e = Some o ∧
               outside s1 = outside s) as (x & Hx & Hne & He1 & Hout1).
  { destruct Hcase as [[-> Hp]|(-> & -> & _)].
    - assert (present s (constructor_name o) (id o) cached) as Hp'.
      { unfold present, s0 in *. simpl in Hp.
        by rewrite NestedFacts.lookup_ensure in Hp. }
      destruct (proj1 Hwf _ _ _ Hp') as [x Hx]. exists x. split_and!; try done.
      intros ->. by destruct (Hun (constructor_name o) (id o)).
    - exists new. split_and!; try done.
      + simpl. by apply list_lookup_middle.
      + apply lookup_lt_Some in He0. simpl in *. lia.
      + simpl. by apply lookup_app_l_Some. }
  rewrite ?bind_assoc, (bind_ok _ _ _ _ _ (write_id_Some _ _ _ (id o) Hx)).
  set (s2 := with_heap _ s1).
  assert (heap s2 !! e = Some o) as He2.
  { simpl. by rewrite list_lookup_insert_ne. }
  assert (heap s2 !! cached = Some (obj_with_id (id o) x)) as Hc2.
  { simpl. apply list_lookup_insert_eq. by eapply lookup_lt_Some. }
  destruct (V1_cache_plain_columns (V1.cache depth) e cached
              (columns md) s2 o _ Hne He2 Hc2 Hplain)
    as (s3 & oc3 & Hrun & He3 & Hc3 & Hid3 & Hrest3 & _ & Hcols).
  rewrite ?bind_assoc, (bind_ok _ _ _ _ _ Hrun).
  rewrite ?bind_assoc, (bind_ok _ _ _ _ _ (id_of_Some _ _ _ Hc3)).
  rewrite ?bind_assoc, bind_modify. simpl.
  eexists _, _, oc3, md. split; [done|]. simpl. split_and!; [done..| |done|done].
  unfold but_heap in Hrest3. unfold outside in *. simpl in *.
  injection Hrest3 as -> -> -> -> _ _ _. done.
Qed.

End V1_upsert_plain.

Section V1_upsert_flat.
Context `{rt : Runtime}.
Implicit Types (s : State V1.DeferData).






End V1_upsert_flat.



(** ** Deferred ids the store does not have *)

Section premark.
Context {D : Type} `{rt : Runtime}.
Implicit Types (s : State D).

(** The loop of [load] that marks the deferred ids the cache does not
    know as absent: an entry changes only from none to the absent marker,
    and afterwards each of the ids has an entry. *)
Lemma premark_spec cls ids s :
  ∃ s',
    for_each ids (λ id,
      bind (gets (λ st : State D, JsMap.has id (Nested.inner cls (cacheMap st))))
           (λ known : bool,
              if known then ret tt
              else modify (with_cacheMap
                             (Nested.update cls (JsMap.set id None))))) s
    = (s', Ok tt) ∧
    heap s' = heap s ∧ outside s' = outside s ∧ deferred s' = deferred s ∧
    classes s' = classes s ∧
    (∀ name k,
       Nested.lookup name k (cacheMap s') = Nested.lookup name k (cacheMap s) ∨
       (Nested.lookup name k (cacheMap s) = None ∧
        Nested.lookup name k (cacheMap s') = Some None)) ∧
    ∀ j, j ∈ ids → is_Some (Nested.lookup cls j (cacheMap s')).
Proof.
  revert s. induction ids as [|i ids IH]; intros s.
  - exists s. split_and!; try done; [by left | by intros j ?%elem_of_nil].
  - cbn [for_each]. rewrite bind_assoc, bind_gets.
    destruct (JsMap.has i (Nested.inner cls (cacheMap s))) eqn:Hhas.
    + rewrite bind_ret.
      destruct (IH s) as (s' & Hrun & Hh & Ho & Hd & Hcl & Hk & Hin).
      exists s'. split_and!; try done.
      intros j [->|Hj]%elem_of_cons; [|by apply Hin].
      apply JsMapFacts.has_true in Hhas as [x Hx].
      destruct (Hk cls i) as [->|[Hnone _]]; [by exists x|].
      unfold Nested.lookup in Hnone. congruence.
    + rewrite bind_modify.
      set (s1 := with_cacheMap (Nested.update cls (JsMap.set i None)) s).
      destruct (IH s1) as (s' & Hrun & Hh & Ho & Hd & Hcl & Hk & Hin).
      assert (∀ name k,
                Nested.lookup name k (cacheMap s1) =
                if decide (cls = name ∧ i = k) then Some None
                else Nested.lookup name k (cacheMap s)) as Hs1.
      { intros name k. apply NestedFacts.lookup_update_set. }
      exists s'. split_and!; try done.
      * intros name k. specialize (Hk name k). rewrite Hs1 in Hk.
        case_decide as Hd'; [|done]. destruct Hd' as [<- <-].
        apply JsMapFacts.has_false in Hhas. right. split; [done|].
        by destruct Hk as [->|[? _]].
      * intros j [->|Hj]%elem_of_cons; [|by apply Hin].
        destruct (Hk cls i) as [->|[_ ->]]; [|done].
        rewrite Hs1. by rewrite decide_True.
Qed.

Lemma call_find_run cls q s :
  call_find cls q s =
  (with_heap (λ h, h ++ (shift_obj (length (heap s)) <$>
                           fetched_objects (store_find (db s) cls q)))
     (with_store (db s) (CFind cls q) s),
   Ok ((λ r, length (heap s) + r) <$> fetched_roots (store_find (db s) cls q))).
Proof. done. Qed.
End premark.

Section V1_absent.
Context `{rt : Runtime}.
Implicit Types (s : State V1.DeferData).

(** A find the store answers with no row caches nothing. *)
Lemma V1_find_nothing cls o s :
  stack_limit ≠ 0 →
  (∀ q, fo_where q = fo_where (default empty_options o) →
        fetched_roots (store_find (db (V1.flush (Some cls) s).1) cls q) = []) →
  ∃ s',
    V1.find cls o s = (s', Ok []) ∧
    (∀ name k, Nested.lookup name k (cacheMap s') = Nested.lookup name k (cacheMap s)) ∧
    (∀ name, name ≠ cls → JsMap.get name (deferred s') = JsMap.get name (deferred s)) ∧
    V1_deferred_ids s' cls = V1_deferred_ids s cls.
Proof.
  intros Hstack Hnone. unfold V1.find.
  pose proof (V1_flush_ok (Some cls) s) as Hok.
  destruct (V1_flush_same_cache (Some cls) s) as (Hh & Hd & Hc).
  destruct (V1.flush (Some cls) s) as [s_f out] eqn:Hflush. simpl in *. subst out.
  rewrite (bind_ok _ _ _ _ _ Hflush).
  destruct (V1_getDeferData_run cls s_f) as (d & Hrun & Hdeq).
  rewrite (bind_ok _ _ _ _ _ Hrun). set (s1 := with_deferred _ s_f).
  rewrite (bind_ok _ _ _ _ _ (call_find_run _ _ _)).
  rewrite Hnone by done. simpl fmap.
  destruct stack_limit as [|depth]; [done|]. simpl.
  eexists. split; [done|]. simpl. split_and!.
  - done.
  - intros name Hne. rewrite <- Hd.
    destruct (JsMap.get cls (deferred s_f)); [done|].
    by rewrite JsMapFacts.get_set_ne.
  - unfold V1_deferred_ids. simpl. rewrite <- Hd.
    destruct (JsMap.get cls (deferred s_f)) eqn:Hg; [by rewrite Hg|].
    by rewrite JsMapFacts.get_set_eq.
Qed.

(** Resolving a deferred id, when the cache holds nothing for it and
    the store has none of the deferred ids: the resolution returns
    nothing, the cache has the absent marker for the id, and no id is
    deferred for the type any more. *)
Lemma V1_get_absent cls i s :
  i ∈ V1_deferred_ids s cls → (∀ l, ¬ present s cls i l) → stack_limit ≠ 0 →
  finds_nothing (db (V1.flush (Some cls) s).1) cls (V1_deferred_ids s cls) →
  ∃ s',
    V1.get cls (inl i) s = (s', Ok None) ∧
    Nested.lookup cls i (cacheMap s') = Some None ∧
    V1_deferred_ids s' cls = [].
Proof.
  intros Hi Hnp Hstack Hnone. unfold V1.get, V1.load.
  destruct (V1_getDeferData_run cls s) as (d & Hd & Hdeq).
  assert (V1.ids d = V1_deferred_ids s cls) as Hids by (by rewrite Hdeq).
  rewrite bind_assoc, (bind_ok _ _ _ _ _ Hd). clear Hd.
  set (s0 := with_deferred _ s).
  rewrite bool_decide_false.
  2: { rewrite Hids. intros Hlen. apply nil_length_inv in Hlen.
       rewrite Hlen in Hi. by apply elem_of_nil in Hi. }
  unfold getCacheMap at 1. rewrite !bind_assoc, bind_modify.
  set (s1 := with_cacheMap (Nested.ensure cls) s0).
  destruct (premark_spec cls (V1.ids d) s1)
    as (s2 & Hpre & Hh2 & Ho2 & Hd2 & _ & Hk2 & Hin2).
  rewrite !bind_assoc, (bind_ok _ _ _ _ _ Hpre). clear Hpre.
  assert (Nested.lookup cls i (cacheMap s2) = Some None) as Hmark.
  { destruct (Hin2 i) as [x Hx]; [by rewrite Hids|].
    destruct (Hk2 cls i) as [Heq|[_ ?]]; [|done].
    rewrite Hx in Heq. simpl in Heq. rewrite NestedFacts.lookup_ensure in Heq.
    destruct x as [l|]; [|done]. by destruct (Hnp l). }
  assert (flush_input s2 = flush_input s) as Hin.
  { unfold flush_input, outside in *. rewrite Hh2. simpl.
    injection Ho2 as -> -> -> ->. done. }
  apply (V1_flush_input (Some cls)) in Hin. unfold flush_input in Hin.
  injection Hin as _ _ Hdb _ _.
  set (o := Some {| fo_where := Some (WIdIn (V1.ids d));
                    fo_relations := Some (V1.relations d) |}).
  destruct (V1_find_nothing cls o s2 Hstack) as (s3 & Hfind & Hc3 & _ & _).
  { intros q Hq. rewrite Hdb. apply Hnone. rewrite Hq. simpl. by rewrite Hids. }
  rewrite !bind_assoc, (bind_ok _ _ _ _ _ Hfind), bind_modify.
  unfold getCacheMap. rewrite bind_modify, bind_gets. simpl.
  rewrite NestedFacts.lookup_ensure, Hc3, Hmark.
  eexists. split; [done|]. simpl. split.
  - by rewrite NestedFacts.lookup_ensure, Hc3.
  - unfold V1_deferred_ids. simpl. by rewrite JsMapFacts.get_delete_eq.
Qed.
End V1_absent.

Section V2_absent.
Context `{rt : Runtime}.
Implicit Types (s : State (list string)).

Lemma V2_flush_classes entityClass : frames (keeps classes) (V2.flush entityClass).
Proof.
  unfold V2.flush, getTopologicalOrder.
  frames_rule @frames_bind; [frames_step|]. intros order.
  induction order as [|name order IH]; simpl; frames_auto; done.
Qed.

(** A find the store answers with no row caches nothing. *)
Lemma V2_find_nothing cls o s :
  stack_limit ≠ 0 →
  fetched_roots (store_find (db (V2.flush cls s).1) cls (default empty_options o)) = [] →
  ∃ s',
    V2.find cls o s = (s', Ok []) ∧
    (∀ name k, Nested.lookup name k (cacheMap s') = Nested.lookup name k (cacheMap s)) ∧
    deferred s' = deferred s ∧ classes s' = classes s ∧
    calls s' = calls (V2.flush cls s).1 ++ [CFind cls (default empty_options o)].
Proof.
  intros Hstack Hnone. unfold V2.find.
  pose proof (V2_flush_ok cls s) as Hok.
  destruct (V2_flush_same_cache cls s) as (Hh & Hd & Hc).
  pose proof (V2_flush_classes cls s) as Hcl.
  destruct (V2.flush cls s) as [s_f out] eqn:Hflush. simpl in *. subst out.
  rewrite (bind_ok _ _ _ _ _ Hflush).
  rewrite (bind_ok _ _ _ _ _ (call_find_run _ _ _)).
  rewrite Hnone. simpl fmap.
  destruct stack_limit as [|depth]; [done|]. simpl.
  eexists. split; [done|]. simpl. done.
Qed.

Lemma V2_load_entry_skip name s :
  V2.deferList_of name s = [] → V2.load_entry name s = (s, Ok tt).
Proof. intros Hnone. unfold V2.load_entry. by rewrite bind_gets, Hnone. Qed.

Lemma V2_load_loop_nothing names s :
  (∀ name, V2.deferList_of name s = []) →
  for_each names V2.load_entry s = (s, Ok tt).
Proof.
  intros Hnone. induction names as [|name names IH]; simpl; [done|].
  by rewrite (bind_ok _ _ _ _ _ (V2_load_entry_skip _ _ (Hnone name))).
Qed.

(** When only [cls] has deferred ids, the loop of [load] is its round
    for [cls]. *)
Lemma V2_load_loop_one names cls s s' :
  cls ∈ names → (∀ name, name ≠ cls → V2.deferList_of name s = []) →
  V2.load_entry cls s = (s', Ok tt) →
  (∀ name, V2.deferList_of name s' = []) →
  for_each names V2.load_entry s = (s', Ok tt).
Proof.
  intros Hin Hothers Hrun Hdone.
  induction names as [|name names IH]; simpl; [by apply elem_of_nil in Hin|].
  destruct (decide (name = cls)) as [->|Hne].
  - rewrite (bind_ok _ _ _ _ _ Hrun). by apply V2_load_loop_nothing.
  - rewrite (bind_ok _ _ _ _ _ (V2_load_entry_skip _ _ (Hothers name Hne))).
    apply IH. by apply elem_of_cons in Hin as [?|?].
Qed.

(** The round of [load] for a type with deferred ids, none of which the
    store has: every deferred id the cache had no entry for gets the
    absent marker, and no id is deferred for the type any more. *)
Lemma V2_load_entry_absent cls s :
  V2.deferList_of cls s ≠ [] → JsMap.get cls (classes s) = Some cls →
  stack_limit ≠ 0 →
  finds_nothing (db (V2.flush cls s).1) cls (V2.deferList_of cls s) →
  ∃ s' q,
    V2.load_entry cls s = (s', Ok tt) ∧
    V2.deferList_of cls s' = [] ∧
    (∀ name, name ≠ cls → V2.deferList_of name s' = V2.deferList_of name s) ∧
    (∀ name k,
       Nested.lookup name k (cacheMap s') = Nested.lookup name k (cacheMap s) ∨
       (Nested.lookup name k (cacheMap s) = None ∧
        Nested.lookup name k (cacheMap s') = Some None)) ∧
    (∀ j, j ∈ V2.deferList_of cls s → is_Some (Nested.lookup cls j (cacheMap s'))) ∧
    fo_where q = Some (WIdIn (V2.deferList_of cls s)) ∧
    calls s' = calls (V2.flush cls s).1 ++ [CFind cls q].
Proof.
  intros Hsome Hcls Hstack Hnone. unfold V2.load_entry.
  rewrite bind_gets, bool_decide_false.
  2: { intros Hlen. by apply nil_length_inv in Hlen. }
  rewrite bind_gets, Hcls.
  set (o := Some {| fo_where := Some (WIdIn (V2.deferList_of cls s));
                    fo_relations := None |}).
  destruct (V2_find_nothing cls o s Hstack) as (s1 & Hfind & Hc1 & Hd1 & Hcl1 & Hcalls1).
  { by apply Hnone. }
  rewrite (bind_ok _ _ _ _ _ Hfind). unfold getCacheMap. rewrite bind_modify, bind_gets.
  set (s2 := with_cacheMap (Nested.ensure cls) s1).
  assert (V2.deferList_of cls s2 = V2.deferList_of cls s) as Hsame.
  { unfold V2.deferList_of, s2. simpl. by rewrite Hd1. }
  rewrite Hsame.
  destruct (premark_spec cls (V2.deferList_of cls s) s2)
    as (s3 & Hpre & Hh3 & Ho3 & Hd3 & _ & Hk3 & Hin3).
  rewrite (bind_ok _ _ _ _ _ Hpre). unfold V2.update_deferList.
  eexists _, (default empty_options o). split; [done|]. simpl. split_and!.
  - unfold V2.deferList_of. simpl. by rewrite JsMapFacts.get_set_eq.
  - intros name Hne. unfold V2.deferList_of. simpl.
    rewrite JsMapFacts.get_set_ne by done. by rewrite Hd3, <- Hd1.
  - intros name k. specialize (Hk3 name k). unfold s2 in Hk3. simpl in Hk3.
    rewrite NestedFacts.lookup_ensure, Hc1 in Hk3. done.
  - done.
  - done.
  - apply keeps_outside in Ho3 as (-> & _). done.
Qed.

(** Resolving a deferred id, when ids are deferred for its type only,
    the cache holds nothing for it, and the store has none of the
    deferred ids. *)
Lemma V2_get_absent cls i s :
  i ∈ V2.deferList_of cls s →
  (∀ name, name ≠ cls → V2.deferList_of name s = []) →
  JsMap.get cls (classes s) = Some cls →
  (∀ l, ¬ present s cls i l) → stack_limit ≠ 0 →
  finds_nothing (db (V2.flush cls s).1) cls (V2.deferList_of cls s) →
  ∃ s',
    V2.get cls (inl i) s = (s', Ok None) ∧
    Nested.lookup cls i (cacheMap s') = Some None ∧
    ∀ name, V2.deferList_of name s' = [].
Proof.
  intros Hi Hothers Hcls Hnp Hstack Hnone.
  assert (V2.deferList_of cls s ≠ []) as Hsome.
  { intros Heq. rewrite Heq in Hi. by apply elem_of_nil in Hi. }
  destruct (V2_load_entry_absent cls s Hsome Hcls Hstack Hnone)
    as (s1 & q & Hrun & Hdone & Hsame & Hk & Hin & _ & _).
  assert (∀ name, V2.deferList_of name s1 = []) as Hall.
  { intros name. destruct (decide (name = cls)) as [->|Hne]; [done|].
    rewrite Hsame by done. by apply Hothers. }
  assert (V2.load s = (s1, Ok tt)) as Hload.
  { unfold V2.load. rewrite bind_gets.
    apply (V2_load_loop_one _ cls); try done.
    apply dec_stable. intros Hnotin%JsMapFacts.get_None_keys.
    apply Hsome. unfold V2.deferList_of. by rewrite Hnotin. }
  assert (Nested.lookup cls i (cacheMap s1) = Some None) as Hmark.
  { destruct (Hin i Hi) as [x Hx].
    destruct (Hk cls i) as [Heq|[_ ?]]; [|done].
    rewrite Hx in Heq. destruct x as [l|]; [|done]. by destruct (Hnp l). }
  unfold V2.get. rewrite (bind_ok _ _ _ _ _ Hload).
  unfold getCacheMap. rewrite bind_modify, bind_gets. simpl.
  rewrite NestedFacts.lookup_ensure, Hmark.
  eexists. split; [done|]. simpl. split; [|done].
  by rewrite NestedFacts.lookup_ensure.
Qed.

(** [defer] of an id the cache has an entry for registers nothing. *)
Lemma V2_defer_known cls i s :
  is_Some (Nested.lookup cls i (cacheMap s)) →
  let s' := (V2.defer cls i s).1 in
  (∀ name, V2.deferList_of name s' = V2.deferList_of name s) ∧
  (∀ name k, Nested.lookup name k (cacheMap s') = Nested.lookup name k (cacheMap s)) ∧
  outside s' = outside s.
Proof.
  intros Hknown s'. subst s'. unfold V2.defer, V2.getDeferList, getCacheMap.
  rewrite !bind_modify, bind_gets. simpl.
  assert (JsMap.has i (Nested.inner cls (Nested.ensure cls (cacheMap s))) = true)
    as ->.
  { rewrite NestedFacts.inner_ensure. by apply JsMapFacts.has_true. }
  simpl. split_and!; [| |done].
  - intros name. unfold V2.deferList_of. simpl.
    destruct (JsMap.get cls (deferred s)) eqn:Hg; [done|].
    rewrite JsMapFacts.get_set. case_decide; [|done]. subst. by rewrite Hg.
  - intros name k. apply NestedFacts.lookup_ensure.
Qed.

(** [get] of an id the cache has the absent marker for, when nothing
    is deferred: nothing is returned, and the store is not called. *)
Lemma V2_get_marked cls i s :
  (∀ name, V2.deferList_of name s = []) →
  Nested.lookup cls i (cacheMap s) = Some None →
  (V2.get cls (inl i) s).2 = Ok None ∧
  outside (V2.get cls (inl i) s).1 = outside s ∧
  ∀ name k, Nested.lookup name k (cacheMap (V2.get cls (inl i) s).1) =
            Nested.lookup name k (cacheMap s).
Proof.
  intros Hnone Hx. unfold V2.get.
  rewrite (bind_ok _ _ _ _ _ (V2_load_nothing s Hnone)). unfold getCacheMap.
  rewrite bind_modify, bind_gets. simpl.
  rewrite NestedFacts.lookup_ensure, Hx. simpl. split_and!; [done..|].
  intros name k. apply NestedFacts.lookup_ensure.
Qed.

Lemma V2_defer_returns cls i s :
  (V2.defer cls i s).2 =
  Ok {| dv_entityClass := cls; dv_id := i; dv_memo := None |}.
Proof.
  unfold V2.defer, V2.getDeferList, getCacheMap.
  rewrite !bind_modify, bind_gets.
  by destruct (JsMap.has i _).
Qed.
End V2_absent.

Lemma JsSet_add_elem k (ids : list string) : k ∈ JsSet.add k ids.
Proof.
  unfold JsSet.add, JsSet.has. case_bool_decide; [done|].
  apply elem_of_app. right. apply list_elem_of_here.
Qed.

(** ** Copying on read *)

Section copies.
Context {D : Type} `{rt : Runtime}.
Implicit Types (s : State D).

(** [copy] returns an instance of a class as it is, and changes
    nothing. *)
Lemma copy_anything_instance depth l s o :
  heap s !! l = Some o → constructor_name o ≠ "Object" →
  copy_anything (S depth) l s = (s, Ok l).
Proof.
  intros Hl Hcls. simpl. rewrite (bind_ok _ _ _ _ _ (deref_Some _ _ _ Hl)).
  by rewrite bool_decide_false.
Qed.

(** [structuredClone] of an object that exists returns, and its result
    is the clone of the object, which comes after all the objects that
    were there. *)
Lemma structuredClone_run l s o :
  heap s !! l = Some o →
  structuredClone l s =
  (with_heap (λ h, h ++ (clone_obj (length (heap s)) <$> h)) s,
   Ok (length (heap s) + l)).
Proof.
  intros Hl. unfold structuredClone.
  rewrite (bind_ok _ _ _ _ _ (deref_Some _ _ _ Hl)).
  by rewrite bind_gets, bind_modify.
Qed.

Lemma structuredClone_clone l s o :
  heap s !! l = Some o →
  heap (structuredClone l s).1 !! (length (heap s) + l) =
  Some (clone_obj (length (heap s)) o).
Proof.
  intros Hl. rewrite (structuredClone_run _ _ _ Hl). simpl.
  rewrite lookup_app_r by lia.
  replace (length (heap s) + l - length (heap s)) with l by lia.
  by rewrite list_lookup_fmap, Hl.
Qed.

(** The clone is a plain object with the id of the object cloned and
    what that object has in every property that holds no reference. *)
Lemma clone_obj_get base o p :
  obj_get p (clone_obj base o) = shift_value base (obj_get p o).
Proof.
  unfold obj_get, clone_obj. simpl.
  induction (props o) as [|[k v] ps IH]; simpl; [done|].
  case_decide; [done|]. apply IH.
Qed.

Lemma clone_obj_agrees base o : agrees_on_scalars o (clone_obj base o).
Proof.
  split; [done|]. intros p Hp. rewrite clone_obj_get.
  by destruct (obj_get p o).
Qed.

(** Writing a property of an object changes no other object. *)
Lemma write_prop_elsewhere c p v s l :
  l ≠ c → heap (write_prop c p v s).1 !! l = heap s !! l.
Proof.
  intros Hne. unfold write_prop, deref, bind, gets, modify.
  destruct (heap s !! c) as [o|]; simpl; [|done].
  by rewrite list_lookup_insert_ne.
Qed.
End copies.

Section V1_get_copies.
Context `{rt : Runtime}.
Implicit Types (s : State V1.DeferData).

(** [get] served from the cache returns the object the cache holds,
    when it is an instance of a class: [copy] makes no copy of it. The
    heap, the cache and everything else stay as they were. *)
Lemma V1_get_hit_returns_held cls i l s o :
  V1_deferred_ids s cls = [] → present s cls i l →
  heap s !! l = Some o → constructor_name o ≠ "Object" → stack_limit ≠ 0 →
  ∃ s', V1.get cls (inl i) s = (s', Ok (Some l)) ∧
        heap s' = heap s ∧ outside s' = outside s ∧
        ∀ name k, Nested.lookup name k (cacheMap s') = Nested.lookup name k (cacheMap s).
Proof.
  intros Hnone Hp Hl Hcls Hstack. unfold V1.get.
  destruct (V1_load_nothing cls s Hnone) as (s0 & Hload & Hh0 & Ho0 & Hc0).
  rewrite (bind_ok _ _ _ _ _ Hload). unfold getCacheMap.
  rewrite bind_modify, bind_gets. simpl.
  rewrite NestedFacts.lookup_ensure, Hc0, Hp.
  set (s1 := with_cacheMap (Nested.ensure cls) s0).
  assert (heap s1 !! l = Some o) as Hl1 by (unfold s1; simpl; by rewrite Hh0).
  unfold V1.copy. destruct stack_limit as [|depth]; [done|].
  rewrite (bind_ok _ _ _ _ _ (copy_anything_instance depth l s1 o Hl1 Hcls)).
  exists s1. split; [done|]. split_and!; [done..|].
  intros name k. unfold s1. simpl. by rewrite NestedFacts.lookup_ensure, Hc0.
Qed.

(** [get] that goes to the store returns the object the cache then
    holds for the entity it found: the cache's own object, not a copy. *)
Lemma V1_get_miss_returns_held cls i s s' c :
  session_inv s → V1_deferred_ids s cls = [] →
  Nested.lookup cls i (cacheMap s) = None →
  V1.get cls (inl i) s = (s', Ok (Some c)) →
  ∃ name k, present s' name k c.
Proof.
  intros Hinv Hnone Hmiss Hrun. unfold V1.get in Hrun.
  destruct (V1_load_nothing cls s Hnone) as (s0 & Hload & Hh0 & Ho0 & Hc0).
  pose proof (V1_inv_step_load cls s Hinv) as Hinv0. rewrite Hload in Hinv0.
  rewrite (bind_ok _ _ _ _ _ Hload) in Hrun. unfold getCacheMap in Hrun.
  rewrite bind_modify, bind_gets in Hrun. simpl in Hrun.
  rewrite NestedFacts.lookup_ensure, Hc0, Hmiss in Hrun.
  set (s1 := with_cacheMap (Nested.ensure cls) s0) in Hrun.
  pose proof (inv_step_getCacheMap (D:=V1.DeferData) cls s0 Hinv0) as Hinv1.
  simpl in Hinv1. fold s1 in Hinv1.
  pose proof (V1_inv_step_flush (Some cls) s1 Hinv1) as Hinv2.
  pose proof (V1_flush_ok (Some cls) s1) as Hok.
  destruct (V1.flush (Some cls) s1) as [s2 out] eqn:Hflush. simpl in *. subst out.
  rewrite (bind_ok _ _ _ _ _ Hflush) in Hrun.
  pose proof (inv_step_call_get (D:=V1.DeferData) cls (inl i) s2 Hinv2) as Hinv3.
  destruct (call_get cls (inl i) s2) as [s3 [v|e]] eqn:Hget.
  2: { by rewrite (bind_throw _ _ _ _ _ Hget) in Hrun. }
  rewrite (bind_ok _ _ _ _ _ Hget) in Hrun. simpl in Hinv3.
  destruct v as [v|]; simpl in Hrun; [|done].
  destruct (V1.cache_one v s3) as [s4 [c4|e]] eqn:Hcache.
  2: { by rewrite (bind_throw _ _ _ _ _ Hcache) in Hrun. }
  rewrite (bind_ok _ _ _ _ _ Hcache) in Hrun. injection Hrun as <- <-.
  destruct (V1_cache_one_spec _ _ _ _ (proj1 Hinv3) Hcache) as (_ & Hpost).
  destruct (Hpost c4 eq_refl) as (o & oc & _ & _ & _ & Hp). eauto.
Qed.
End V1_get_copies.

Section V2_get_copies.
Context `{rt : Runtime}.
Implicit Types (s : State (list string)).

(** [get] served from the cache returns the clone of the cached
    entity, an object that was not there, and leaves the objects that
    were there, the cache and everything else as they were. *)
Lemma V2_get_hit_copy cls i l s o :
  (∀ name, V2.deferList_of name s = []) → present s cls i l →
  heap s !! l = Some o →
  ∃ s',
    V2.get cls (inl i) s = (s', Ok (Some (length (heap s) + l))) ∧
    heap s' = heap s ++ (clone_obj (length (heap s)) <$> heap s) ∧
    heap s' !! (length (heap s) + l) = Some (clone_obj (length (heap s)) o) ∧
    (∀ name k, Nested.lookup name k (cacheMap s') = Nested.lookup name k (cacheMap s)) ∧
    outside s' = outside s.
Proof.
  intros Hnone Hp Hl. unfold V2.get.
  rewrite (bind_ok _ _ _ _ _ (V2_load_nothing s Hnone)).
  unfold getCacheMap. rewrite bind_modify, bind_gets. simpl.
  rewrite NestedFacts.lookup_ensure, Hp.
  set (s1 := with_cacheMap (Nested.ensure cls) s).
  assert (heap s1 !! l = Some o) as Hl1 by done.
  pose proof (structuredClone_clone l s1 o Hl1) as Hclone.
  rewrite (structuredClone_run l s1 o Hl1) in Hclone.
  rewrite (bind_ok _ _ _ _ _ (structuredClone_run l s1 o Hl1)).
  eexists. split; [done|]. split_and!; [done|exact Hclone| |done].
  intros name k. simpl. by rewrite NestedFacts.lookup_ensure.
Qed.
End V2_get_copies.

(** C8 fails on a miss, and in the first variant on a hit as well. A
    session starts over a store that has the transfer [t1] with the
    amount 5, and [get] is called for it. In both variants the object
    [get] returns is the object the cache holds for [t1]; the application
    sets its amount to 6, and the next [get], served from the cache
    without any call on the store, returns a transfer with the amount 6.
    The application sets the amount of that second result to 7. In the
    first variant the second result is the cached object again, because
    [copy] returns an instance of a class as it is, and the third [get]
    returns the amount 7. In the second variant the second result is a
    clone, and the third [get] still returns the amount 6. *)
Theorem C8_get_on_a_miss_returns_the_cache_object :
  (let r1 := V1.get (rt:=Demo.runtime) "Transfer" (inl "t1") Demo.cold in
   ∃ c o, r1.2 = Ok (Some c) ∧ present r1.1 "Transfer" "t1" c ∧
          heap r1.1 !! c = Some o ∧ obj_get "amount" o = VPrim "5" ∧
   let r2 := V1.get (rt:=Demo.runtime) "Transfer" (inl "t1")
               (write_prop c "amount" (VPrim "6") r1.1).1 in
   ∃ o2, r2.2 = Ok (Some c) ∧ heap r2.1 !! c = Some o2 ∧
         obj_get "amount" o2 = VPrim "6" ∧ calls r2.1 = calls r1.1 ∧
   let r3 := V1.get (rt:=Demo.runtime) "Transfer" (inl "t1")
               (write_prop c "amount" (VPrim "7") r2.1).1 in
   ∃ c3 o3, r3.2 = Ok (Some c3) ∧ heap r3.1 !! c3 = Some o3 ∧
            obj_get "amount" o3 = VPrim "7" ∧ calls r3.1 = calls r1.1) ∧
  (let r1 := V2.get (rt:=Demo.runtime) "Transfer" (inl "t1") Demo.cold in
   ∃ c o, r1.2 = Ok (Some c) ∧ present r1.1 "Transfer" "t1" c ∧
          heap r1.1 !! c = Some o ∧ obj_get "amount" o = VPrim "5" ∧
   let r2 := V2.get (rt:=Demo.runtime) "Transfer" (inl "t1")
               (write_prop c "amount" (VPrim "6") r1.1).1 in
   ∃ c2 o2, r2.2 = Ok (Some c2) ∧ c2 ≠ c ∧ heap r2.1 !! c2 = Some o2 ∧
            obj_get "amount" o2 = VPrim "6" ∧ calls r2.1 = calls r1.1 ∧
   let r3 := V2.get (rt:=Demo.runtime) "Transfer" (inl "t1")
               (write_prop c2 "amount" (VPrim "7") r2.1).1 in
   ∃ c3 o3, r3.2 = Ok (Some c3) ∧ heap r3.1 !! c3 = Some o3 ∧
            obj_get "amount" o3 = VPrim "6" ∧ calls r3.1 = calls r1.1).
Proof.
  pose (cached amount :=
          {| constructor_name := "Transfer"; id := "t1";
             props := [("blockNumber", VUndefined); ("amount", VPrim amount)] |}).
  pose (clone amount :=
          {| constructor_name := "Object"; id := "t1";
             props := [("amount", VPrim amount)] |}).
  pose (loaded amount :=
          {| constructor_name := "Transfer"; id := "t1";
             props := [("amount", VPrim amount)] |}).
  cbv zeta. split.
  - exists 1, (cached "5"). split_and!; [vm_compute; reflexivity..|].
    exists (cached "6"). split_and!; [vm_compute; reflexivity..|].
    exists 1, (cached "7"). split_and!; vm_compute; reflexivity.
  - exists 0, (loaded "5"). split_and!; [vm_compute; reflexivity..|].
    exists 1, (clone "6"). split_and!; [vm_compute; reflexivity|done|vm_compute; reflexivity..|].
    exists 2, (clone "6"). split_and!; vm_compute; reflexivity.
Qed.

(** ** More on flushes *)

Section flushed_facts.
Lemma flushed_stop_at (T : string) l1 l2 :
  T ∉ l1 → flushed (Some T) (l1 ++ T :: l2) = l1 ++ [T].
Proof.
  induction l1 as [|n l1 IH]; simpl; intros Hnotin.
  - by rewrite bool_decide_true.
  - apply not_elem_of_cons in Hnotin as [Hne Hnotin].
    rewrite bool_decide_false by congruence. by rewrite IH.
Qed.

Lemma flushed_V2 (ec name : string) :
  bool_decide (ec = name) = bool_decide (Some ec = Some name).
Proof. apply bool_decide_ext. split; [by intros -> | by intros [= ->]]. Qed.
End flushed_facts.

Section pending_facts.
Context {D : Type} `{rt : Runtime}.
Implicit Types (s : State D).

Lemma pending_calls_nothing s name : nothing_pending s name → pending_calls s name = [].
Proof. intros [Hi Hu]. unfold pending_calls. by rewrite Hi, Hu. Qed.

Lemma pending_calls_writes s name c :
  c ∈ pending_calls s name → writes_one_of [name] c.
Proof.
  intros [[es ->]|[es ->]]%pending_calls_named; exists name, es;
    (split; [apply list_elem_of_here|]); [by left | by right].
Qed.

(** What a round of the loop of [flush] does to the buffers. *)
Lemma cleared_pending (s s' : State D) name :
  insertMap s' = Nested.update name (λ _, []) (Nested.ensure name (insertMap s)) →
  upsertMap s' = Nested.update name (λ _, []) (Nested.ensure name (upsertMap s)) →
  nothing_pending s' name ∧ ∀ n, n ≠ name → same_pending s s' n.
Proof.
  intros Hi Hu. unfold nothing_pending, same_pending. rewrite Hi, Hu. split.
  - by rewrite !NestedFacts.inner_update_eq.
  - intros n Hne. by rewrite !NestedFacts.inner_update_ne, !NestedFacts.inner_ensure.
Qed.
End pending_facts.

(** The facts about the loop of [flush] that hold for both variants are
    proved once, from what a round does. *)
Tactic Notation "flush_round" constr(entry) constr(spec) constr(name) constr(s) :=
  let Hok := fresh "Hok" in
  let Hcalls := fresh "Hcalls" in
  let Hi := fresh "Hi" in
  let Hu := fresh "Hu" in
  let Hnow := fresh "Hnow" in
  let Hrest := fresh "Hrest" in
  pose proof (spec name s) as (Hok & Hcalls & _ & _ & _ & _ & Hi & Hu);
  pose proof (cleared_pending s _ name Hi Hu) as [Hnow Hrest];
  clear Hi Hu;
  unfold bind;
  destruct (entry name s) as [?s1 ?o];
  simpl in Hok, Hcalls, Hnow, Hrest; subst.

Section V1_flush_more.
Context `{rt : Runtime}.
Implicit Types (s : State V1.DeferData).

(** A flush that finds nothing in the buffers of the types it gets to
    calls the store for nothing and leaves all buffers as they are. *)
Lemma V1_flush_loop_quiet order entityClass s :
  (∀ name, name ∈ flushed entityClass order → nothing_pending s name) →
  calls (V1.flush_loop order entityClass s).1 = calls s ∧
  ∀ name, same_pending s (V1.flush_loop order entityClass s).1 name.
Proof.
  revert s. induction order as [|name order IH]; intros s Hnone; simpl; [done|].
  pose proof (Hnone name (list_elem_of_here _ _)) as Hname.
  flush_round (V1.flush_entry) V1_flush_entry_spec name s.
  rewrite (pending_calls_nothing _ _ Hname), app_nil_r in Hcalls.
  assert (∀ n, same_pending s s1 n) as Hsame.
  { intros n. destruct (decide (n = name)) as [->|Hne]; [|by apply Hrest].
    destruct Hname as [Hi Hu], Hnow as [Hi' Hu']. unfold same_pending. split; congruence. }
  simpl in Hnone. revert Hnone. case_bool_decide as Hstop; simpl; intros Hnone; [done|].
  destruct (IH s1) as [Hc Hp].
  { intros n Hn. destruct (Hsame n) as [Hi Hu].
    destruct (Hnone n) as [Hi0 Hu0]; [by apply list_elem_of_further|].
    unfold nothing_pending. split; congruence. }
  split; [congruence|]. intros n. destruct (Hp n) as [Hi Hu], (Hsame n) as [Hi' Hu'].
  unfold same_pending. split; congruence.
Qed.

(** The calls of a flush are writes for types it gets to, and the
    buffers of the other types stay as they are. *)
Lemma V1_flush_loop_reach order entityClass s :
  ∃ new,
    calls (V1.flush_loop order entityClass s).1 = calls s ++ new ∧
    Forall (writes_one_of (flushed entityClass order)) new ∧
    ∀ name, name ∉ flushed entityClass order →
            same_pending s (V1.flush_loop order entityClass s).1 name.
Proof.
  revert s. induction order as [|name order IH]; intros s; simpl.
  { exists []. by rewrite app_nil_r. }
  flush_round (V1.flush_entry) V1_flush_entry_spec name s.
  assert (Forall (writes_one_of [name]) (pending_calls s name)) as Hnew.
  { apply Forall_forall. intros c. apply pending_calls_writes. }
  case_bool_decide as Hstop; simpl.
  - exists (pending_calls s name). split_and!; [done..|].
    intros n Hn. apply Hrest. intros ->. apply Hn, list_elem_of_here.
  - destruct (IH s1) as (new & Hc & Hw & Hp).
    exists (pending_calls s name ++ new). split_and!.
    + by rewrite Hc, Hcalls, app_assoc.
    + apply Forall_app. split; (eapply Forall_impl; [eassumption|]);
        intros c (n & es & Hn & Hc'); exists n, es; (split; [|done]).
      * apply list_elem_of_singleton in Hn as ->. apply list_elem_of_here.
      * by apply list_elem_of_further.
    + intros n [Hne Hn]%not_elem_of_cons.
      destruct (Hp n Hn) as [Hi Hu], (Hrest n Hne) as [Hi' Hu'].
      unfold same_pending. split; congruence.
Qed.
End V1_flush_more.

Section V2_flush_more.
Context `{rt : Runtime}.
Implicit Types (s : State (list string)).

Lemma V2_flush_loop_quiet order entityClass s :
  (∀ name, name ∈ flushed (Some entityClass) order → nothing_pending s name) →
  calls (V2.flush_loop order entityClass s).1 = calls s ∧
  ∀ name, same_pending s (V2.flush_loop order entityClass s).1 name.
Proof.
  revert s. induction order as [|name order IH]; intros s Hnone; simpl; [done|].
  pose proof (Hnone name (list_elem_of_here _ _)) as Hname.
  flush_round (V2.flush_entry) V2_flush_entry_spec name s.
  rewrite (pending_calls_nothing _ _ Hname), app_nil_r in Hcalls.
  assert (∀ n, same_pending s s1 n) as Hsame.
  { intros n. destruct (decide (n = name)) as [->|Hne]; [|by apply Hrest].
    destruct Hname as [Hi Hu], Hnow as [Hi' Hu']. unfold same_pending. split; congruence. }
  simpl in Hnone. revert Hnone. rewrite flushed_V2.
  case_bool_decide as Hstop; simpl; intros Hnone; [done|].
  destruct (IH s1) as [Hc Hp].
  { intros n Hn. destruct (Hsame n) as [Hi Hu].
    destruct (Hnone n) as [Hi0 Hu0]; [by apply list_elem_of_further|].
    unfold nothing_pending. split; congruence. }
  split; [congruence|]. intros n. destruct (Hp n) as [Hi Hu], (Hsame n) as [Hi' Hu'].
  unfold same_pending. split; congruence.
Qed.

Lemma V2_flush_loop_reach order entityClass s :
  ∃ new,
    calls (V2.flush_loop order entityClass s).1 = calls s ++ new ∧
    Forall (writes_one_of (flushed (Some entityClass) order)) new ∧
    ∀ name, name ∉ flushed (Some entityClass) order →
            same_pending s (V2.flush_loop order entityClass s).1 name.
Proof.
  revert s. induction order as [|name order IH]; intros s; simpl.
  { exists []. by rewrite app_nil_r. }
  flush_round (V2.flush_entry) V2_flush_entry_spec name s.
  assert (Forall (writes_one_of [name]) (pending_calls s name)) as Hnew.
  { apply Forall_forall. intros c. apply pending_calls_writes. }
  rewrite flushed_V2. case_bool_decide as Hstop; simpl.
  - exists (pending_calls s name). split_and!; [done..|].
    intros n Hn. apply Hrest. intros ->. apply Hn, list_elem_of_here.
  - destruct (IH s1) as (new & Hc & Hw & Hp).
    exists (pending_calls s name ++ new). split_and!.
    + by rewrite Hc, Hcalls, app_assoc.
    + apply Forall_app. split; (eapply Forall_impl; [eassumption|]);
        intros c (n & es & Hn & Hc'); exists n, es; (split; [|done]).
      * apply list_elem_of_singleton in Hn as ->. apply list_elem_of_here.
      * by apply list_elem_of_further.
    + intros n [Hne Hn]%not_elem_of_cons.
      destruct (Hp n Hn) as [Hi Hu], (Hrest n Hne) as [Hi' Hu'].
      unfold same_pending. split; congruence.
Qed.
End V2_flush_more.

Section graph_nodes.
Lemma nodes_addNode g n m : m ∈ Graph.nodes g ∨ m = n → m ∈ Graph.nodes (Graph.addNode n g).
Proof.
  unfold Graph.nodes, Graph.addNode. rewrite JsMapFacts.keys_set.
  destruct (JsMap.has n g) eqn:Hhas.
  - intros [?| ->]; [done|].
    apply JsMapFacts.has_true in Hhas as [v Hv].
    destruct (decide (n ∈ JsMap.keys g)) as [|Hn]; [done|].
    apply JsMapFacts.get_None_keys in Hn. congruence.
  - intros [?| ->]; apply elem_of_app; [by left | right; apply list_elem_of_here].
Qed.

Lemma nodes_addEdge g u v m :
  m ∈ Graph.nodes g ∨ m = u ∨ m = v → m ∈ Graph.nodes (Graph.addEdge u v g).
Proof.
  unfold Graph.addEdge. intros Hm.
  assert (m ∈ Graph.nodes (Graph.addNode v (Graph.addNode u g))) as Hin;
    [|unfold Graph.nodes in *; rewrite JsMapFacts.keys_set;
      destruct (JsMap.has _ _); [done | apply elem_of_app; by left]].
  apply nodes_addNode. destruct Hm as [Hm|[->| ->]]; [|left|by right].
  - left. apply nodes_addNode. by left.
  - apply nodes_addNode. by right.
Qed.

Lemma nodes_add_foreignKeys g name fks m :
  m ∈ Graph.nodes g ∨ m ∈ fks →
  m ∈ Graph.nodes (foldl (λ g fk, Graph.addEdge name fk g) g fks).
Proof.
  revert g. induction fks as [|fk fks IH]; simpl; intros g.
  - by intros [?|?%elem_of_nil].
  - intros [Hm|[->|Hm]%elem_of_cons]; apply IH; [left|left|by right];
      apply nodes_addEdge; auto.
Qed.

(** Every entity type of the schema, and every type a foreign key
    references, is a node of the graph that [getTopologicalOrder] sorts. *)
Lemma schema_graph_node (mds : list EntityMetadata) md n :
  md ∈ mds → n = md_name md ∨ n ∈ foreignKeys md →
  n ∈ Graph.nodes (schema_graph mds).
Proof.
  unfold schema_graph. intros Hmd Hn.
  assert (∀ g, n ∈ Graph.nodes g ∨ md ∈ mds →
               n ∈ Graph.nodes
                 (foldl (λ g md, foldl (λ g fk, Graph.addEdge (md_name md) fk g)
                                       (Graph.addNode (md_name md) g)
                                       (foreignKeys md)) g mds)) as H.
  { clear Hmd. induction mds as [|md' mds IH]; simpl; intros g.
    - by intros [?|?%elem_of_nil].
    - intros [Hg|[<-|Hmd]%elem_of_cons]; apply IH; [left|left|by right];
        apply nodes_add_foreignKeys.
      + left. apply nodes_addNode. by left.
      + destruct Hn as [->|Hn]; [left; apply nodes_addNode; by right | by right]. }
  apply H. by right.
Qed.
End graph_nodes.

Section flushed_more.
Lemma flushed_absent (T : string) order : T ∉ order → flushed (Some T) order = order.
Proof.
  induction order as [|n order IH]; simpl; [done|].
  intros [Hne Hnotin]%not_elem_of_cons.
  rewrite bool_decide_false by congruence. by rewrite IH.
Qed.

Lemma V1_flush_loop_absent `{rt : Runtime} (T : string) order :
  T ∉ order → V1.flush_loop order (Some T) = V1.flush_loop order None.
Proof.
  induction order as [|n order IH]; simpl; [done|].
  intros [Hne Hnotin]%not_elem_of_cons.
  rewrite bool_decide_false by congruence. by rewrite IH.
Qed.
End flushed_more.

(** X1. The store calls of a flush are, for each type the flush gets to
    and in the order of the types, one bulk insert of everything that
    waits in the insert buffer of the type, if anything does, and then one
    bulk upsert of everything in its upsert buffer, if anything does:
    whatever the number of [insert] and [upsert] calls since the last
    flush, a type costs at most two calls. The sort of the graph package
    is taken to list no type twice. *)
Theorem X1_flush_sends_each_buffer_in_one_call `{rt : Runtime}
    (entityClass : option string) (s : State V1.DeferData)
    (entityClass2 : string) (s2 : State (list string)) :
  NoDup (topologicalSort (schema_graph entityMetadatas)) →
  let order := reverse (topologicalSort (schema_graph entityMetadatas)) in
  calls (V1.flush entityClass s).1 =
    calls s ++ concat (pending_calls s <$> flushed entityClass order) ∧
  calls (V2.flush entityClass2 s2).1 =
    calls s2 ++ concat (pending_calls s2 <$> flushed (Some entityClass2) order).
Proof.
  intros Hnd order. rewrite <- reverse_Permutation in Hnd. split.
  - unfold V1.flush, getTopologicalOrder. rewrite bind_ret.
    by apply V1_flush_loop_calls.
  - unfold V2.flush, getTopologicalOrder. rewrite bind_ret.
    by apply V2_flush_loop_calls.
Qed.

Lemma X1_witness :
  let order := reverse (topologicalSort (Runtime:=Demo.runtime)
                          (schema_graph (entityMetadatas (Runtime:=Demo.runtime)))) in
  calls (V1.flush (rt:=Demo.runtime) None Demo.pending).1 =
    calls Demo.pending ++ concat (pending_calls (rt:=Demo.runtime) Demo.pending <$> flushed None order) ∧
  calls (V2.flush (rt:=Demo.runtime) "Account" Demo.pending2).1 =
    calls Demo.pending2 ++
      concat (pending_calls (rt:=Demo.runtime) Demo.pending2 <$> flushed (Some "Account") order).
Proof.
  apply (X1_flush_sends_each_buffer_in_one_call
           (rt:=Demo.runtime) None Demo.pending "Account" Demo.pending2).
  compute_done.
Defined.

(** X2. A flush that follows a flush finds nothing to write: in both
    variants a second flush for the same type, and any flush after a flush
    of everything, makes no call on the store and leaves every buffer as
    the first flush left it. *)
Theorem X2_a_second_flush_is_quiet `{rt : Runtime} :
  (∀ (entityClass : option string) (s : State V1.DeferData),
     let s1 := (V1.flush entityClass s).1 in
     let s2 := (V1.flush entityClass s1).1 in
     calls s2 = calls s1 ∧ ∀ name, same_pending s1 s2 name) ∧
  (∀ (entityClass : option string) (s : State V1.DeferData),
     let s1 := (V1.flush None s).1 in
     let s2 := (V1.flush entityClass s1).1 in
     calls s2 = calls s1 ∧ ∀ name, same_pending s1 s2 name) ∧
  (∀ (entityClass : string) (s : State (list string)),
     let s1 := (V2.flush entityClass s).1 in
     let s2 := (V2.flush entityClass s1).1 in
     calls s2 = calls s1 ∧ ∀ name, same_pending s1 s2 name).
Proof.
  split_and!.
  - intros entityClass s s1 s2. subst s1 s2.
    unfold V1.flush, getTopologicalOrder. rewrite !bind_ret.
    apply V1_flush_loop_quiet. intros name Hname.
    by apply V1_flush_loop_empties.
  - intros entityClass s s1 s2. subst s1 s2.
    unfold V1.flush, getTopologicalOrder. rewrite !bind_ret.
    apply V1_flush_loop_quiet. intros name Hname.
    apply V1_flush_loop_empties.
    rewrite flushed_None. eapply elem_of_prefix; [exact Hname|].
    apply flushed_prefix.
  - intros entityClass s s1 s2. subst s1 s2.
    unfold V2.flush, getTopologicalOrder. rewrite !bind_ret.
    apply V2_flush_loop_quiet. intros name Hname.
    by apply V2_flush_loop_empties.
Qed.

(** X3. A flush for a type stops at that type: when the order of the
    types is [before ++ T :: after] and [T] is not in [before], the calls
    of [flush(T)] are bulk writes of [T] and of the types before it, these
    types have nothing pending afterwards, and whatever waits for a type
    that comes later still waits, unwritten. *)
Theorem X3_flush_stops_at_the_type `{rt : Runtime}
    (T : string) (before after : list string) (s : State V1.DeferData) :
  reverse (topologicalSort (schema_graph entityMetadatas)) = before ++ T :: after →
  T ∉ before →
  let s' := (V1.flush (Some T) s).1 in
  (∃ new, calls s' = calls s ++ new ∧
          Forall (writes_one_of (before ++ [T])) new) ∧
  (∀ name, name ∈ before ++ [T] → nothing_pending s' name) ∧
  (∀ name, name ∉ before ++ [T] → same_pending s s' name).
Proof.
  intros Horder HT s'. subst s'.
  unfold V1.flush, getTopologicalOrder. rewrite bind_ret, Horder.
  destruct (V1_flush_loop_reach (before ++ T :: after) (Some T) s)
    as (new & Hcalls & Hnew & Hrest).
  rewrite (flushed_stop_at T before after HT) in Hnew, Hrest.
  split_and!; [by exists new| |done].
  intros name Hname. apply V1_flush_loop_empties.
  by rewrite (flushed_stop_at T before after HT).
Qed.

Lemma X3_witness :
  let s' := (V1.flush (rt:=Demo.runtime) (Some "Account") Demo.pending).1 in
  (∃ new, calls s' = calls Demo.pending ++ new ∧
          Forall (writes_one_of ([] ++ ["Account"])) new) ∧
  (∀ name, name ∈ [] ++ ["Account"] → nothing_pending s' name) ∧
  (∀ name, name ∉ [] ++ ["Account"] → same_pending Demo.pending s' name).
Proof.
  apply (X3_flush_stops_at_the_type
           (rt:=Demo.runtime) "Account" [] ["Transfer"] Demo.pending).
  - vm_compute. reflexivity.
  - apply not_elem_of_nil.
Defined.

(** X4. A flush of everything leaves nothing pending for any type of the
    schema, nor for any type a foreign key of the schema references, the
    sort of the graph package being taken to list every node of the
    graph. *)
Theorem X4_a_full_flush_empties_every_buffer `{rt : Runtime}
    (md : EntityMetadata) (name : string) (s : State V1.DeferData) :
  (∀ n, n ∈ Graph.nodes (schema_graph entityMetadatas) →
        n ∈ topologicalSort (schema_graph entityMetadatas)) →
  md ∈ entityMetadatas →
  name = md_name md ∨ name ∈ foreignKeys md →
  nothing_pending (V1.flush None s).1 name.
Proof.
  intros Hall Hmd Hname.
  unfold V1.flush, getTopologicalOrder. rewrite bind_ret.
  apply V1_flush_loop_empties. rewrite flushed_None.
  apply elem_of_reverse, Hall. by apply (schema_graph_node _ md).
Qed.

Lemma X4_witness :
  nothing_pending (V1.flush (rt:=Demo.runtime) None Demo.pending).1 "Transfer".
Proof.
  apply (X4_a_full_flush_empties_every_buffer
           (rt:=Demo.runtime) Demo.Transfer "Transfer" Demo.pending).
  - intros n Hn. vm_compute in Hn. vm_compute. done.
  - apply list_elem_of_here.
  - by left.
Defined.

(** X5. A flush for a type that the order of the types does not list
    never meets the type at which it is to stop, and so writes out
    everything, as a flush without a type does. *)
Theorem X5_flush_for_an_unlisted_type_is_a_full_flush `{rt : Runtime}
    (T : string) (s : State V1.DeferData) :
  T ∉ topologicalSort (schema_graph entityMetadatas) →
  V1.flush (Some T) s = V1.flush None s.
Proof.
  intros HT. unfold V1.flush, getTopologicalOrder. rewrite !bind_ret.
  rewrite V1_flush_loop_absent; [done|]. by rewrite elem_of_reverse.
Qed.

Lemma X5_witness :
  V1.flush (rt:=Demo.runtime) (Some "Block") Demo.pending =
  V1.flush (rt:=Demo.runtime) None Demo.pending.
Proof.
  apply (X5_flush_for_an_unlisted_type_is_a_full_flush (rt:=Demo.runtime)).
  vm_compute. intros H. repeat (apply elem_of_cons in H as [H|H]; [discriminate|]).
  by apply elem_of_nil in H.
Defined.

(** ** An upsert of an id that waits for its insert *)

Section held.
Context {D : Type} `{rt : Runtime}.
Implicit Types (s : State D).

Lemma unheld_held_b s l : held_b s l = false → unheld s l.
Proof.
  intros Hb name k Hp. unfold present, Nested.lookup, Nested.inner in Hp.
  destruct (JsMap.get name (cacheMap s)) as [m|] eqn:Hm; [|done]. simpl in Hp.
  apply JsMapFacts.get_Some_elem in Hm, Hp.
  assert (held_b s l = true) as Ht; [|congruence].
  apply existsb_exists. exists (name, m). split; [by apply list_elem_of_In|].
  apply existsb_exists. exists (k, Some l). split; [by apply list_elem_of_In|].
  by apply bool_decide_eq_true.
Qed.
End held.

Section V2_insert_then_upsert.
Context `{rt : Runtime}.
Implicit Types (s : State (list string)).

Lemma V2_upsert_pending_insert e s o :
  heap s !! e = Some o →
  pending_insert s (constructor_name o) (id o) →
  let cls := constructor_name o in
  let r := V2.upsert [e] s in
  r.2 = Ok tt ∧ heap r.1 = heap s ∧ calls r.1 = calls s ∧
  (∀ n, Nested.inner n (insertMap r.1) = Nested.inner n (insertMap s)) ∧
  (∀ n, Nested.inner n (upsertMap r.1) = Nested.inner n (upsertMap s)) ∧
  present r.1 cls (id o) e.
Proof.
  intros He Hpi cls r. subst cls r.
  rewrite (V2_upsert_cons _ _ _ _ He), for_each_one.
  set (name := constructor_name o) in *. set (s0 := V2_registered name s).
  assert (heap s0 !! e = Some o) as He0 by done.
  rewrite (V2_upsert_entity_inserted _ _ _ _ He0).
  2: { unfold pending_insert, s0 in *. simpl. by rewrite NestedFacts.inner_ensure. }
  simpl. split_and!; [done..| | |].
  - intros n. apply NestedFacts.inner_ensure.
  - intros n. apply NestedFacts.inner_ensure.
  - unfold present. simpl. rewrite NestedFacts.lookup_update_set.
    by rewrite decide_True.
Qed.
End V2_insert_then_upsert.

Section V1_insert_then_upsert.
Context `{rt : Runtime}.
Implicit Types (s : State V1.DeferData).

(** What [insert] of one entity leaves when it returns. *)
Lemma V1_insert_one e s s' o :
  cache_wf s → heap s !! e = Some o →
  V1.insert [e] s = (s', Ok tt) →
  let cls := constructor_name o in
  cache_wf s' ∧ ¬ duplicate s cls (id o) ∧
  calls s' = calls s ∧
  (∀ n, Nested.inner n (upsertMap s') = Nested.inner n (upsertMap s)) ∧
  ∃ c oc, JsMap.get (id o) (Nested.inner cls (insertMap s')) = Some c ∧
          present s' cls (id o) c ∧ heap s' !! c = Some oc ∧ id oc = id o ∧
          (length (heap s) ≤ c)%nat.
Proof.
  intros Hwf He Hrun cls. subst cls.
  rewrite (V1_insert_cons _ _ _ _ He), for_each_one in Hrun.
  set (name := constructor_name o) in *. set (s0 := registered name s) in Hrun.
  assert (heap s0 !! e = Some o) as He0 by done.
  assert (cache_wf s0) as Hwf0 by (apply (write_step_registered s name Hwf)).
  destruct (V1_insert_entity_spec _ _ _ _ _ Hwf0 He0 Hrun)
    as (s1 & c & oc & _ & E & Hc & Hid & Hp & Hfresh & ->).
  split_and!.
  - destruct (ce_wf _ _ E) as [Hclosed Hinj]. split; [exact Hclosed | exact Hinj].
  - unfold s0 in Hfresh. by rewrite duplicate_registered in Hfresh.
  - simpl. by rewrite (ce_calls _ _ E).
  - intros n. simpl. rewrite (ce_upsertMap _ _ E). simpl.
    apply NestedFacts.inner_ensure.
  - exists c, oc. simpl. split_and!; [|done..|].
    + rewrite NestedFacts.inner_update_eq. apply JsMapFacts.get_set_eq.
    + destruct (ce_new _ _ E _ _ _ Hp) as [Hold|[Hlen _]]; [|done].
      exfalso. apply Hfresh. right. right. by exists c.
Qed.

(** [upsert] of an entity whose id waits in the insert buffer writes the
    columns of the entity into the object that waits there, and files
    nothing. *)
Lemma V1_upsert_pending_insert e s o c :
  cache_wf s → heap s !! e = Some o → unheld s e →
  sets_no_relation o → stack_limit ≠ 0 →
  let cls := constructor_name o in
  pending_insert s cls (id o) → present s cls (id o) c →
  ∃ s' oc md,
    V1.upsert [e] s = (s', Ok tt) ∧ calls s' = calls s ∧
    (∀ n, Nested.inner n (insertMap s') = Nested.inner n (insertMap s)) ∧
    (∀ n, Nested.inner n (upsertMap s') = Nested.inner n (upsertMap s)) ∧
    present s' cls (id o) c ∧ heap s' !! c = Some oc ∧
    metadata_of entityMetadatas cls = Some md ∧
    ∀ col, col ∈ columns md → relationMetadata col = None →
           obj_get (propertyName col) oc = obj_get (propertyName col) o.
Proof.
  intros Hwf He Hun Hplain Hstack cls Hpi Hp. subst cls.
  rewrite (V1_upsert_cons _ _ _ _ He), for_each_one.
  set (name := constructor_name o) in *.
  set (s0 := with_upsertMap _ _).
  assert (heap s0 !! e = Some o) as He0 by done.
  assert (cache_wf s0) as Hwf0 by done.
  assert (unheld s0 e) as Hun0 by done.
  assert (present s0 name (id o) c) as Hp0 by done.
  destruct (V1_cache_one_copies e s0 o Hwf0 He0 Hun0 Hplain Hstack)
    as (s1 & c1 & oc & md & Hrun & Hc & Hid & Hout & Hmd & Hcols).
  destruct (V1_cache_one_spec _ _ _ _ Hwf0 Hrun) as (E & Hpost).
  destruct (Hpost c1 eq_refl) as (o' & oc' & Ho' & _ & _ & Hp1).
  assert (o' = o) as -> by congruence.
  assert (c1 = c) as ->.
  { apply (ce_stable _ _ E) in Hp0. unfold present, name in *. congruence. }
  unfold V1.upsert_entity.
  rewrite (bind_ok _ _ _ _ _ Hrun), (bind_ok _ _ _ _ _ (id_of_Some _ _ _ Hc)).
  rewrite bind_gets, Hid.
  apply keeps_outside in Hout as (Hcalls & _ & Hins & Hups). rewrite Hins.
  assert (JsMap.has (id o) (Nested.inner name (insertMap s0)) = true) as ->.
  { unfold pending_insert, s0 in *. simpl. by rewrite NestedFacts.inner_ensure. }
  exists s1, oc, md. split; [done|]. split_and!; [done| | |done..].
  - intros n. rewrite Hins. simpl. apply NestedFacts.inner_ensure.
  - intros n. rewrite Hups. simpl. apply NestedFacts.inner_ensure.
Qed.
End V1_insert_then_upsert.

(** X6. In the second variant an [upsert] of an entity whose id waits in
    the insert buffer changes what the cache holds and not what is
    written: after [insert(e1)] and [upsert(e2)] of the same type and id,
    with no flush in between, the insert buffer still holds [e1], the
    upsert buffer holds nothing for the id, and the cache holds [e2]. The
    next flush inserts [e1], and what [e2] holds reaches the store only
    if it is upserted again after that flush. *)
Theorem X6_V2_upsert_of_a_pending_insert_is_not_written `{rt : Runtime}
    (s : State (list string)) (e1 e2 : loc) (o1 o2 : Obj) :
  heap s !! e1 = Some o1 → heap s !! e2 = Some o2 →
  constructor_name o2 = constructor_name o1 → id o2 = id o1 →
  ¬ duplicate s (constructor_name o1) (id o1) →
  let cls := constructor_name o1 in
  let s1 := (V2.insert [e1] s).1 in
  let r := V2.upsert [e2] s1 in
  (V2.insert [e1] s).2 = Ok tt ∧ r.2 = Ok tt ∧
  heap r.1 = heap s ∧ calls r.1 = calls s ∧
  JsMap.get (id o1) (Nested.inner cls (insertMap r.1)) = Some e1 ∧
  ¬ pending_upsert r.1 cls (id o1) ∧
  present r.1 cls (id o1) e2.
Proof.
  intros He1 He2 Hcls Hid Hfresh cls s1 r. subst cls s1 r.
  pose proof (proj2 (V2_insert_ok_iff _ _ _ He1) Hfresh) as Hok.
  destruct (V2_insert_pending _ _ _ He1 Hok) as [Hpi _].
  assert (heap (V2.insert [e1] s).1 = heap s ∧ calls (V2.insert [e1] s).1 = calls s ∧
          JsMap.get (id o1) (Nested.inner (constructor_name o1)
                               (insertMap (V2.insert [e1] s).1)) = Some e1 ∧
          (∀ n, Nested.inner n (upsertMap (V2.insert [e1] s).1) =
                Nested.inner n (upsertMap s)))
    as (Hheap & Hcalls & Hget & Hup).
  { rewrite (V2_insert_cons _ _ _ _ He1), for_each_one.
    assert (heap (V2_registered (constructor_name o1) s) !! e1 = Some o1) as He0
      by done.
    rewrite (V2_insert_entity_fresh _ _ _ _ He0)
      by (by rewrite V2_duplicate_registered).
    simpl. split_and!; [done..| |].
    - rewrite NestedFacts.inner_update_eq. apply JsMapFacts.get_set_eq.
    - intros n. apply NestedFacts.inner_ensure. }
  destruct (V2.insert [e1] s) as [s1 out]. cbn [fst snd] in *.
  assert (heap s1 !! e2 = Some o2) as He2' by (by rewrite Hheap).
  rewrite <- Hcls, <- Hid in *.
  destruct (V2_upsert_pending_insert e2 s1 o2 He2' Hpi)
    as (Hok2 & Hheap2 & Hcalls2 & Hins2 & Hup2 & Hp2).
  split_and!; [done|done|congruence|congruence| | |done].
  - by rewrite Hins2.
  - unfold pending_upsert. rewrite Hup2, Hup.
    intros Hpu. apply Hfresh. right. by left.
Qed.

Lemma X6_witness :
  let s : State (list string) :=
    with_heap (λ _, Demo.revisions) (init (rt:=Demo.runtime) []) in
  let s1 := (V2.insert (rt:=Demo.runtime) [1] s).1 in
  let r := V2.upsert (rt:=Demo.runtime) [2] s1 in
  (V2.insert (rt:=Demo.runtime) [1] s).2 = Ok tt ∧ r.2 = Ok tt ∧
  heap r.1 = heap s ∧ calls r.1 = calls s ∧
  JsMap.get "t1" (Nested.inner "Transfer" (insertMap r.1)) = Some 1 ∧
  ¬ pending_upsert r.1 "Transfer" "t1" ∧
  present r.1 "Transfer" "t1" 2.
Proof.
  apply (X6_V2_upsert_of_a_pending_insert_is_not_written
           (rt:=Demo.runtime)
           (with_heap (λ _, Demo.revisions) (init (rt:=Demo.runtime) []))
           1 2
           {| constructor_name := "Transfer"; id := "t1";
              props := [("from", VRef 0); ("amount", VPrim "5")] |}
           {| constructor_name := "Transfer"; id := "t1";
              props := [("amount", VPrim "7")] |}).
  - reflexivity.
  - reflexivity.
  - reflexivity.
  - reflexivity.
  - intros [H|[H|[l H]]]; vm_compute in H; discriminate.
Defined.

(** X7. In the first variant an [upsert] of an entity whose id waits in
    the insert buffer is folded into the pending insert: after
    [insert(e1)] and, with no flush in between, [upsert(e2)] of an entity
    of the application of the same type and id that sets no relation, the
    insert buffer holds the same object as before, the upsert buffer holds
    nothing for the id, no call was made on the store, and the object that
    waits for the insert has, in every column that is no relation, what
    [e2] has. *)
Theorem X7_V1_upsert_is_folded_into_a_pending_insert `{rt : Runtime}
    (s0 s : State V1.DeferData) (e1 e2 : loc) (o1 o2 : Obj) :
  cache_wf s0 → stack_limit ≠ 0 →
  heap s0 !! e1 = Some o1 → V1.insert [e1] s0 = (s, Ok tt) →
  heap s !! e2 = Some o2 → unheld s e2 → sets_no_relation o2 →
  constructor_name o2 = constructor_name o1 → id o2 = id o1 →
  let cls := constructor_name o1 in
  ∃ s' c oc md,
    V1.upsert [e2] s = (s', Ok tt) ∧ calls s' = calls s0 ∧
    JsMap.get (id o1) (Nested.inner cls (insertMap s)) = Some c ∧
    (∀ n, Nested.inner n (insertMap s') = Nested.inner n (insertMap s)) ∧
    ¬ pending_upsert s' cls (id o1) ∧
    present s' cls (id o1) c ∧ heap s' !! c = Some oc ∧
    metadata_of entityMetadatas cls = Some md ∧
    ∀ col, col ∈ columns md → relationMetadata col = None →
           obj_get (propertyName col) oc = obj_get (propertyName col) o2.
Proof.
  intros Hwf0 Hstack He1 Hins He2 Hun Hplain Hcls Hid cls. subst cls.
  destruct (V1_insert_one _ _ _ _ Hwf0 He1 Hins)
    as (Hwf & Hfresh & Hcalls & Hup & c & oc1 & Hget & Hp & _).
  rewrite <- Hcls, <- Hid in *.
  destruct (V1_upsert_pending_insert e2 s o2 c Hwf He2 Hun Hplain Hstack)
    as (s' & oc & md & Hrun & Hcalls' & Hins' & Hup' & Hp' & Hc & Hmd & Hcols);
    [|done|].
  { unfold pending_insert. apply JsMapFacts.has_true. by rewrite Hget. }
  exists s', c, oc, md. split_and!; [done|congruence|done|done| |done..].
  unfold pending_upsert. rewrite Hup', Hup.
  intros Hpu. apply Hfresh. right. by left.
Qed.

Lemma X7_witness :
  let s0 : State V1.DeferData :=
    with_heap (λ _, Demo.revisions) (init (rt:=Demo.runtime) []) in
  let s := (V1.insert (rt:=Demo.runtime) [1] s0).1 in
  ∃ s' c oc md,
    V1.upsert (rt:=Demo.runtime) [2] s = (s', Ok tt) ∧ calls s' = calls s0 ∧
    JsMap.get "t1" (Nested.inner "Transfer" (insertMap s)) = Some c ∧
    (∀ n, Nested.inner n (insertMap s') = Nested.inner n (insertMap s)) ∧
    ¬ pending_upsert s' "Transfer" "t1" ∧
    present s' "Transfer" "t1" c ∧ heap s' !! c = Some oc ∧
    metadata_of (entityMetadatas (Runtime:=Demo.runtime)) "Transfer" = Some md ∧
    ∀ col, col ∈ columns md → relationMetadata col = None →
           obj_get (propertyName col) oc =
           obj_get (propertyName col)
             {| constructor_name := "Transfer"; id := "t1";
                props := [("amount", VPrim "7")] |}.
Proof.
  apply (X7_V1_upsert_is_folded_into_a_pending_insert
           (rt:=Demo.runtime)
           (with_heap (λ _, Demo.revisions) (init (rt:=Demo.runtime) []))
           (V1.insert (rt:=Demo.runtime) [1]
              (with_heap (λ _, Demo.revisions) (init (rt:=Demo.runtime) []))).1
           1 2
           {| constructor_name := "Transfer"; id := "t1";
              props := [("from", VRef 0); ("amount", VPrim "5")] |}
           {| constructor_name := "Transfer"; id := "t1";
              props := [("amount", VPrim "7")] |}).
  - split; intros name k; intros; by destruct name.
  - discriminate.
  - reflexivity.
  - vm_compute. reflexivity.
  - vm_compute. reflexivity.
  - apply unheld_held_b. vm_compute. reflexivity.
  - exists Demo.Transfer. split; [vm_compute; reflexivity|].
    intros c rm Hc Hrm. simpl in Hc.
    repeat (apply elem_of_cons in Hc as [->|Hc]; [simpl in Hrm; try discriminate;
      injection Hrm as <-; reflexivity|]).
    by apply elem_of_nil in Hc.
  - reflexivity.
  - reflexivity.
Defined.

(** ** The state of a session (second variant) *)

Section V2_inv_step_facts.
Context `{rt : Runtime}.
Implicit Types (s : State (list string)).

#[export] Instance V2_inv_step_preorder : PreOrder V2_inv_step.
Proof.
  split; [intros s Hs; exact Hs | intros s1 s2 s3 H12 H23 ?; by apply H23, H12].
Qed.

(** A step that takes ids out of the buffers or out of the deferred
    sets, or leaves them as they are, and takes no entity out of the cache
    and no class out of the registry. *)
Lemma V2_inv_step_mono s s' :
  (∀ name k, pending_insert s' name k → pending_insert s name k) →
  (∀ name k, pending_upsert s' name k → pending_upsert s name k) →
  (∀ name k l, present s name k l → ∃ l', present s' name k l') →
  (∀ name, V2.deferList_of name s' ≠ [] → V2.deferList_of name s ≠ []) →
  (∀ name, is_Some (JsMap.get name (classes s)) →
           is_Some (JsMap.get name (classes s'))) →
  V2_inv_step s s'.
Proof.
  intros Hins Hups Hpres Hdef Hcls (Hdisj & Hknown & Hcached). split_and!.
  - intros name k [Hi Hu]. apply (Hdisj name k). auto.
  - intros name Hne. auto.
  - intros name k Hp.
    destruct (Hcached name k) as [l Hl]; [destruct Hp; auto|]. eauto.
Qed.

Lemma JsSet_delete_nil k (l : list string) : l = [] → JsSet.delete k l = [].
Proof. by intros ->. Qed.

Lemma deferList_of_update s name name' (f : list string → list string) :
  V2.deferList_of name'
    (with_deferred (λ m, JsMap.set name (f (default [] (JsMap.get name m))) m) s) =
  if decide (name' = name) then f (V2.deferList_of name s)
  else V2.deferList_of name' s.
Proof.
  unfold V2.deferList_of. simpl. rewrite JsMapFacts.get_set.
  destruct (decide (name = name')) as [->|Hne].
  - by rewrite decide_True.
  - by rewrite decide_False.
Qed.

Lemma present_set_Some s name0 k0 e name k l :
  present s name k l →
  ∃ l', present (with_cacheMap (Nested.update name0 (JsMap.set k0 (Some e))) s)
                name k l'.
Proof.
  unfold present. simpl. rewrite NestedFacts.lookup_update_set.
  case_decide; eauto.
Qed.
End V2_inv_step_facts.

(** Closes a goal [V2_inv_step s (f s)] for an [f] that only takes
    things away, registers an empty map or set, adds to the cache, or
    touches what the invariant does not read. *)
Ltac V2_inv_leaf :=
  apply V2_inv_step_mono; simpl;
  unfold present, pending_insert, pending_upsert; simpl;
  intros;
  rewrite ?NestedFacts.lookup_ensure, ?NestedFacts.inner_ensure in *;
  try match goal with
      | |- ∃ _, Nested.lookup _ _ (Nested.update _ (JsMap.set _ (Some _)) _) = _ =>
          rewrite NestedFacts.lookup_update_set; case_decide; eauto
      end;
  eauto using pending_cleared.

Section V2_inv_step_leaves.
Context `{rt : Runtime}.
Implicit Types (s : State (list string)).

Lemma V2_inv_step_alloc o : frames V2_inv_step (alloc (D:=list string) o).
Proof. unfold alloc. frames_auto. V2_inv_leaf. Qed.

Lemma V2_inv_step_write_prop l p v :
  frames V2_inv_step (write_prop (D:=list string) l p v).
Proof. unfold write_prop. frames_auto. V2_inv_leaf. Qed.

Lemma V2_inv_step_write_id l i : frames V2_inv_step (write_id (D:=list string) l i).
Proof. unfold write_id. frames_auto. V2_inv_leaf. Qed.

Lemma V2_inv_step_materialize f : frames V2_inv_step (materialize (D:=list string) f).
Proof. unfold materialize. frames_auto. V2_inv_leaf. Qed.

Lemma V2_inv_step_structuredClone l :
  frames V2_inv_step (structuredClone (D:=list string) l).
Proof. unfold structuredClone, deref. frames_auto. V2_inv_leaf. Qed.

Lemma V2_inv_step_getCacheMap name :
  frames V2_inv_step (getCacheMap (D:=list string) name).
Proof. unfold getCacheMap. frames_auto. V2_inv_leaf. Qed.

Lemma V2_inv_step_getInsertList name :
  frames V2_inv_step (getInsertList (D:=list string) name).
Proof. unfold getInsertList. frames_auto. V2_inv_leaf. Qed.

Lemma V2_inv_step_getUpsertList name :
  frames V2_inv_step (getUpsertList (D:=list string) name).
Proof. unfold getUpsertList. frames_auto. V2_inv_leaf. Qed.

Lemma V2_inv_step_getDeferList name : frames V2_inv_step (V2.getDeferList name).
Proof.
  unfold V2.getDeferList. frames_auto. apply V2_inv_step_mono; try done.
  { intros name' k l Hp. by exists l. }
  intros name' Hne. unfold V2.deferList_of in *. simpl in Hne.
  destruct (JsMap.get name (deferred s)) eqn:Hget; [done|].
  rewrite JsMapFacts.get_set in Hne. case_decide; [done | done].
Qed.

Lemma V2_inv_step_undefer name k :
  frames V2_inv_step (V2.update_deferList name (JsSet.delete k)).
Proof.
  unfold V2.update_deferList. frames_auto. apply V2_inv_step_mono; try done.
  - intros name' k' l Hp. by exists l.
  - intros name' Hne. rewrite deferList_of_update in Hne. case_decide; [subst|done].
    intros Hnil. apply Hne. by rewrite Hnil.
Qed.

Lemma V2_inv_step_clear name :
  frames V2_inv_step (V2.update_deferList name (λ _, [])).
Proof.
  unfold V2.update_deferList. frames_auto. apply V2_inv_step_mono; try done.
  - intros name' k' l Hp. by exists l.
  - intros name' Hne.
    rewrite (deferList_of_update s name name' (λ _, [])) in Hne. by case_decide.
Qed.

Lemma V2_inv_step_call_insert name ls :
  frames V2_inv_step (call_insert (D:=list string) name ls).
Proof. unfold call_insert. frames_auto. V2_inv_leaf. Qed.

Lemma V2_inv_step_call_upsert name ls :
  frames V2_inv_step (call_upsert (D:=list string) name ls).
Proof. unfold call_upsert. frames_auto. V2_inv_leaf. Qed.
Lemma V2_inv_step_call_find cls o :
  frames V2_inv_step (call_find (D:=list string) cls o).
Proof.
  pose proof V2_inv_step_materialize. unfold call_find. frames_auto. V2_inv_leaf.
Qed.

Lemma V2_inv_step_call_findBy cls w :
  frames V2_inv_step (call_findBy (D:=list string) cls w).
Proof.
  pose proof V2_inv_step_materialize. unfold call_findBy. frames_auto. V2_inv_leaf.
Qed.

Lemma V2_inv_step_call_findOne cls o :
  frames V2_inv_step (call_findOne (D:=list string) cls o).
Proof.
  pose proof V2_inv_step_materialize. unfold call_findOne. frames_auto. V2_inv_leaf.
Qed.

Lemma V2_inv_step_call_findOneBy cls w :
  frames V2_inv_step (call_findOneBy (D:=list string) cls w).
Proof.
  pose proof V2_inv_step_materialize. unfold call_findOneBy. frames_auto.
  V2_inv_leaf.
Qed.

Lemma V2_inv_step_call_get cls a :
  frames V2_inv_step (call_get (D:=list string) cls a).
Proof.
  pose proof V2_inv_step_materialize. unfold call_get. frames_auto. V2_inv_leaf.
Qed.

Lemma V2_inv_step_call_count cls o :
  frames V2_inv_step (call_count (D:=list string) cls o).
Proof. unfold call_count. frames_auto. V2_inv_leaf. Qed.

Lemma V2_inv_step_call_countBy cls w :
  frames V2_inv_step (call_countBy (D:=list string) cls w).
Proof. unfold call_countBy. frames_auto. V2_inv_leaf. Qed.

(** Caching an entity adds it to the cache and takes its id out of the
    deferred set. *)
Lemma V2_inv_step_cache depth es : frames V2_inv_step (V2.cache depth es).
Proof.
  pose proof V2_inv_step_getDeferList. pose proof V2_inv_step_getCacheMap.
  pose proof V2_inv_step_undefer.
  revert es. induction depth as [|depth IH]; intros es; simpl; [frames_auto|].
  destruct es as [|e0 es]; [frames_auto|].
  frames_auto; V2_inv_leaf.
Qed.

Lemma V2_inv_step_cache_one e : frames V2_inv_step (V2.cache_one e).
Proof. pose proof V2_inv_step_cache. unfold V2.cache_one. frames_auto. Qed.

Lemma V2_inv_step_flush_entry name : frames V2_inv_step (V2.flush_entry name).
Proof.
  pose proof V2_inv_step_call_insert. pose proof V2_inv_step_call_upsert.
  pose proof V2_inv_step_getCacheMap. pose proof V2_inv_step_getInsertList.
  pose proof V2_inv_step_getUpsertList.
  unfold V2.flush_entry. frames_auto; V2_inv_leaf.
Qed.

Lemma V2_inv_step_flush entityClass : frames V2_inv_step (V2.flush entityClass).
Proof.
  pose proof V2_inv_step_flush_entry.
  unfold V2.flush, getTopologicalOrder.
  frames_rule @frames_bind; [frames_step|]. intros order.
  induction order as [|name order IH]; simpl; frames_auto.
Qed.

(** An insert leaves the id of the entity in the insert buffer only when
    it has checked that the id is not in the upsert buffer, and it leaves
    the entity in the cache. *)
Lemma V2_inv_step_insert_entity entityName entity :
  frames V2_inv_step (V2.insert_entity entityName entity).
Proof.
  intros s. destruct (heap s !! entity) as [o|] eqn:He.
  2: { unfold V2.insert_entity.
       by rewrite (bind_throw _ _ _ _ _ (id_of_None _ _ He)). }
  pose proof (V2_inv_step_undefer entityName (id o) s) as Hstep.
  destruct (duplicate_dec s entityName (id o)) as [Hdup|Hfresh].
  { by rewrite (V2_insert_entity_duplicate _ _ _ _ He Hdup). }
  rewrite (V2_insert_entity_fresh _ _ _ _ He Hfresh). simpl.
  etrans; [exact Hstep|]. simpl. fold (V2_undeferred entityName (id o) s).
  set (s1 := V2_undeferred entityName (id o) s).
  apply duplicate_checks in Hfresh as (Hi & Hu & Hc).
  intros (Hdisj & Hknown & Hcached). split_and!.
  - intros name k [Hpi Hpu]. unfold pending_insert, pending_upsert in *.
    simpl in *.
    destruct (decide (entityName = name)) as [<-|Hne].
    + rewrite NestedFacts.inner_update_eq in Hpi.
      destruct (decide (id o = k)) as [<-|Hk]; [congruence|].
      rewrite JsMapFacts.has_set_ne in Hpi by done. by apply (Hdisj entityName k).
    + rewrite NestedFacts.inner_update_ne in Hpi by done.
      by apply (Hdisj name k).
  - done.
  - intros name k Hp. unfold present, pending_insert, pending_upsert in *.
    simpl in *. rewrite NestedFacts.lookup_update_set.
    case_decide as Hk; [by eexists|].
    apply (Hcached name k). destruct Hp as [Hp|Hp]; [left|by right].
    destruct (decide (entityName = name)) as [<-|Hne].
    + rewrite NestedFacts.inner_update_eq in Hp.
      destruct (decide (id o = k)) as [<-|Hk']; [by destruct Hk|].
      by rewrite JsMapFacts.has_set_ne in Hp.
    + by rewrite NestedFacts.inner_update_ne in Hp.
Qed.

(** An upsert leaves the id in the upsert buffer only when it has seen
    that the id is not in the insert buffer, and it leaves the entity in
    the cache. *)
Lemma V2_inv_step_upsert_entity entityName entity :
  frames V2_inv_step (V2.upsert_entity entityName entity).
Proof.
  intros s. destruct (heap s !! entity) as [o|] eqn:He.
  2: { unfold V2.upsert_entity.
       by rewrite (bind_throw _ _ _ _ _ (id_of_None _ _ He)). }
  pose proof (V2_inv_step_undefer entityName (id o) s) as Hstep.
  destruct (JsMap.has (id o) (Nested.inner entityName (insertMap s))) eqn:Hi.
  - rewrite (V2_upsert_entity_inserted _ _ _ _ He Hi). simpl.
    etrans; [exact Hstep|]. simpl. V2_inv_leaf.
  - rewrite (V2_upsert_entity_filed _ _ _ _ He)
      by (unfold pending_insert; congruence).
    simpl. etrans; [exact Hstep|]. simpl.
    intros (Hdisj & Hknown & Hcached). split_and!.
    + intros name k [Hpi Hpu]. unfold pending_insert, pending_upsert in *.
      simpl in *.
      destruct (decide (entityName = name)) as [<-|Hne].
      * rewrite NestedFacts.inner_update_eq in Hpu.
        destruct (decide (id o = k)) as [<-|Hk]; [congruence|].
        rewrite JsMapFacts.has_set_ne in Hpu by done.
        by apply (Hdisj entityName k).
      * rewrite NestedFacts.inner_update_ne in Hpu by done.
        by apply (Hdisj name k).
    + done.
    + intros name k Hp. unfold present, pending_insert, pending_upsert in *.
      simpl in *. rewrite NestedFacts.lookup_update_set.
      case_decide as Hk; [by eexists|].
      apply (Hcached name k). destruct Hp as [Hp|Hp]; [by left|right].
      destruct (decide (entityName = name)) as [<-|Hne].
      * rewrite NestedFacts.inner_update_eq in Hp.
        destruct (decide (id o = k)) as [<-|Hk']; [by destruct Hk|].
        by rewrite JsMapFacts.has_set_ne in Hp.
      * by rewrite NestedFacts.inner_update_ne in Hp.
Qed.

(** [defer] registers the class before it adds to the deferred set. *)
Lemma V2_inv_step_defer cls i : frames V2_inv_step (V2.defer cls i).
Proof.
  intros s. unfold V2.defer, V2.getDeferList, getCacheMap, V2.update_deferList.
  rewrite !bind_modify, bind_gets.
  set (s1 := with_cacheMap _ _).
  assert (V2_inv_step s s1) as H1.
  { intros (Hdisj & Hknown & Hcached). split_and!.
    - done.
    - intros name Hne. unfold s1. simpl.
      destruct (decide (name = cls)) as [->|Hn].
      + rewrite JsMapFacts.get_set_eq. by eexists.
      + rewrite JsMapFacts.get_set_ne by done. apply Hknown.
        unfold V2.deferList_of, s1 in *. simpl in Hne.
        destruct (JsMap.get cls (deferred s)); [done|].
        by rewrite JsMapFacts.get_set_ne in Hne.
    - intros name k Hp. destruct (Hcached name k Hp) as [l Hl]. exists l.
      unfold present, s1 in *. simpl. by rewrite NestedFacts.lookup_ensure. }
  destruct (JsMap.has i (Nested.inner cls (cacheMap s1))); simpl; [done|].
  etrans; [exact H1|].
  intros (Hdisj & Hknown & Hcached). split_and!; [done| |done].
  intros name Hne. simpl.
  destruct (decide (name = cls)) as [->|Hn].
  - unfold s1. simpl. rewrite JsMapFacts.get_set_eq. by eexists.
  - apply Hknown. rewrite deferList_of_update in Hne. by rewrite decide_False in Hne.
Qed.
End V2_inv_step_leaves.

#[export] Hint Resolve V2_inv_step_alloc V2_inv_step_write_prop
  V2_inv_step_write_id V2_inv_step_materialize V2_inv_step_structuredClone
  V2_inv_step_getCacheMap V2_inv_step_getInsertList V2_inv_step_getUpsertList
  V2_inv_step_getDeferList V2_inv_step_undefer V2_inv_step_clear
  V2_inv_step_call_insert V2_inv_step_call_upsert V2_inv_step_call_find
  V2_inv_step_call_findBy V2_inv_step_call_findOne V2_inv_step_call_findOneBy
  V2_inv_step_call_get V2_inv_step_call_count V2_inv_step_call_countBy
  V2_inv_step_cache V2_inv_step_cache_one V2_inv_step_flush
  V2_inv_step_insert_entity V2_inv_step_upsert_entity V2_inv_step_defer : frames.

Section V2_inv_step_ops.
Context `{rt : Runtime}.
Implicit Types (s : State (list string)).

Lemma V2_inv_step_insert es : frames V2_inv_step (V2.insert es).
Proof. unfold V2.insert. destruct es; frames_auto. Qed.

Lemma V2_inv_step_upsert es : frames V2_inv_step (V2.upsert es).
Proof. unfold V2.upsert. destruct es; frames_auto. Qed.

Lemma V2_inv_step_find cls o : frames V2_inv_step (V2.find cls o).
Proof. unfold V2.find. frames_auto. Qed.

Lemma V2_inv_step_findBy cls w : frames V2_inv_step (V2.findBy cls w).
Proof. unfold V2.findBy. frames_auto. Qed.

Lemma V2_inv_step_findOne cls o : frames V2_inv_step (V2.findOne cls o).
Proof. unfold V2.findOne, V2.cache_found. frames_auto. Qed.

Lemma V2_inv_step_findOneBy cls w : frames V2_inv_step (V2.findOneBy cls w).
Proof. unfold V2.findOneBy, V2.cache_found. frames_auto. Qed.

(** [load] marks an id as absent only when the cache has no entry for
    it. *)
Lemma V2_inv_step_mark name i :
  frames V2_inv_step
    (known <- gets (λ st, JsMap.has i (Nested.inner name (cacheMap st))) ;;
     if known : bool then ret tt
     else modify (with_cacheMap (Nested.update name (JsMap.set i None)))).
Proof.
  intros s. rewrite bind_gets.
  destruct (JsMap.has i (Nested.inner name (cacheMap s))) eqn:Hhas; simpl; [done|].
  apply V2_inv_step_mono; try done.
  intros name' k l Hp. exists l. unfold present in *. simpl.
  rewrite NestedFacts.lookup_update_set. case_decide as Hk; [|done].
  destruct Hk as [-> ->]. apply JsMapFacts.has_false in Hhas.
  unfold Nested.lookup in Hp. congruence.
Qed.

Lemma V2_inv_step_load_entry name : frames V2_inv_step (V2.load_entry name).
Proof.
  unfold V2.load_entry.
  frames_rule @frames_bind; [frames_step|]. intros _deferList.
  case_bool_decide; [frames_step|].
  frames_rule @frames_bind; [frames_step|]. intros [entityClass|]; [|frames_step].
  frames_rule @frames_bind; [apply V2_inv_step_find|]. intros _.
  frames_rule @frames_bind; [apply V2_inv_step_getCacheMap|]. intros _.
  frames_rule @frames_bind; [frames_step|]. intros remaining.
  frames_rule @frames_bind; [|intros _; apply V2_inv_step_clear].
  frames_rule @frames_for_each. intros i _. apply V2_inv_step_mark.
Qed.

Lemma V2_inv_step_load : frames V2_inv_step V2.load.
Proof. pose proof V2_inv_step_load_entry. unfold V2.load. frames_auto. Qed.

Lemma V2_inv_step_get cls a : frames V2_inv_step (V2.get cls a).
Proof.
  pose proof V2_inv_step_load.
  unfold V2.get, V2.cache_found. frames_auto.
Qed.

Lemma V2_inv_step_exec op s : V2_inv_step s (V2.exec op s).
Proof.
  pose proof V2_inv_step_insert. pose proof V2_inv_step_upsert.
  pose proof V2_inv_step_find. pose proof V2_inv_step_findBy.
  pose proof V2_inv_step_findOne. pose proof V2_inv_step_findOneBy.
  pose proof V2_inv_step_get.
  destruct op; simpl.
  - by apply V2_inv_step_alloc.
  - by apply V2_inv_step_write_prop.
  - by apply V2_inv_step_write_id.
  - by apply V2_inv_step_insert.
  - by apply V2_inv_step_upsert.
  - by apply V2_inv_step_upsert.
  - intros Hs; exact Hs.
  - revert s. change (frames V2_inv_step (V2.count entityClass options)).
    unfold V2.count. frames_auto.
  - revert s. change (frames V2_inv_step (V2.countBy entityClass w)).
    unfold V2.countBy. frames_auto.
  - by apply V2_inv_step_find.
  - by apply V2_inv_step_findBy.
  - by apply V2_inv_step_findOne.
  - by apply V2_inv_step_findOneBy.
  - revert s. change (frames V2_inv_step (V2.findOneOrFail entityClass options)).
    unfold V2.findOneOrFail, V2.assertNotNull. frames_auto.
  - revert s. change (frames V2_inv_step (V2.findOneByOrFail entityClass w)).
    unfold V2.findOneByOrFail, V2.assertNotNull. frames_auto.
  - by apply V2_inv_step_get.
  - revert s. change (frames V2_inv_step (V2.getOrFail entityClass optionsOrId)).
    unfold V2.getOrFail, V2.assertNotNull. frames_auto.
  - by apply V2_inv_step_defer.
  - unfold V2.DeferredValue_get. destruct (dv_memo h).
    + intros Hs; exact Hs.
    + pose proof (V2_inv_step_get (dv_entityClass h) (inl (dv_id h)) s) as Hg.
      destruct (V2.get (dv_entityClass h) (inl (dv_id h)) s). exact Hg.
  - by apply V2_inv_step_flush.
Qed.

Lemma V2_session_inv_init (d : DB) : V2_session_inv (init (D:=list string) d).
Proof.
  split_and!.
  - by intros name k [].
  - by intros name.
  - by intros name k [|].
Qed.

(** The invariant holds all along a session. *)
Lemma V2_session_inv_run ops s : V2_session_inv s → V2_session_inv (V2.run ops s).
Proof.
  revert s. induction ops as [|op ops IH]; intros s Hs; simpl; [done|].
  by apply IH, V2_inv_step_exec.
Qed.

End V2_inv_step_ops.

Section V2_load_outcome.
Context `{rt : Runtime}.
Implicit Types (s : State (list string)).

Lemma V2_mark_loop_ok name (remaining : list string) s :
  (for_each remaining (λ id,
     known <- gets (λ st, JsMap.has id (Nested.inner name (cacheMap st))) ;;
     if known : bool then ret tt
     else modify (with_cacheMap (Nested.update name (JsMap.set id None)))) s).2 =
  Ok tt.
Proof.
  revert s. induction remaining as [|i remaining IH]; intros s; simpl; [done|].
  rewrite bind_assoc, bind_gets.
  destruct (JsMap.has i (Nested.inner name (cacheMap s))).
  - rewrite bind_ret. apply IH.
  - rewrite bind_modify. apply IH.
Qed.

(** With the class of the type registered, a round of [load] returns
    unless its bulk find throws, and then it throws what the find
    threw. *)
Lemma V2_load_entry_outcome name s :
  V2_classes_known s →
  (V2.load_entry name s).2 = Ok tt ∨
  ∃ cls e,
    JsMap.get name (classes s) = Some cls ∧
    (V2.find cls (Some {| fo_where := Some (WIdIn (V2.deferList_of name s));
                          fo_relations := None |}) s).2 = Throw e ∧
    (V2.load_entry name s).2 = Throw e.
Proof.
  intros Hknown. unfold V2.load_entry. rewrite bind_gets.
  case_bool_decide as Hlen; [by left|].
  destruct (Hknown name) as [cls Hcls].
  { intros Hnil. by rewrite Hnil in Hlen. }
  rewrite bind_gets, Hcls.
  destruct (V2.find cls (Some {| fo_where := Some (WIdIn (V2.deferList_of name s));
                                 fo_relations := None |}) s)
    as [s1 [ls|e]] eqn:Hfind.
  2: { right. exists cls, e. split; [done|]. split; [by rewrite Hfind|].
       by rewrite (bind_throw _ _ _ _ _ Hfind). }
  left. rewrite (bind_ok _ _ _ _ _ Hfind). unfold getCacheMap, V2.update_deferList.
  rewrite bind_modify, bind_gets.
  pose proof (V2_mark_loop_ok name
                (V2.deferList_of name (with_cacheMap (Nested.ensure name) s1))
                (with_cacheMap (Nested.ensure name) s1)) as Hloop.
  unfold bind at 1.
  destruct (for_each _ _ _) as [s2 [[]|e]]; [done|discriminate].
Qed.
End V2_load_outcome.

(** X8. In the second variant, too, no id waits in both the insert
    buffer and the upsert buffer of a type, whatever the application has
    done since the session began (entities built and changed, inserts,
    upserts, defers, reads and flushes, some of which may have thrown). *)
Theorem X8_V2_buffers_stay_disjoint `{rt : Runtime} (d : DB) (ops : list V2.Op) :
  buffers_disjoint (V2.run ops (init d)).
Proof. apply V2_session_inv_run, V2_session_inv_init. Qed.

(** X9. In the second variant the cache holds an entity for every id
    that waits in a write buffer, at any time of a session. So when
    nothing is deferred a [get] of such an id is answered from the cache:
    it makes no call on the store, leaves the buffers as they are, and
    does not answer that there is no such entity. *)
Theorem X9_V2_pending_ids_are_read_from_the_cache `{rt : Runtime}
    (d : DB) (ops : list V2.Op) (name k : string) :
  let st := V2.run ops (init d) in
  pending_insert st name k ∨ pending_upsert st name k →
  (∃ l, present st name k l) ∧
  ((∀ n, V2.deferList_of n st = []) →
   outside (V2.get name (inl k) st).1 = outside st ∧
   (V2.get name (inl k) st).2 ≠ Ok None).
Proof.
  intros st Hp.
  assert (V2_session_inv st) as (_ & _ & Hcached)
    by apply V2_session_inv_run, V2_session_inv_init.
  destruct (Hcached name k Hp) as [l Hl]. split; [by exists l|].
  intros Hnone. split; [by apply (V2_get_hit name k (Some l))|].
  unfold V2.get. rewrite (bind_ok _ _ _ _ _ (V2_load_nothing st Hnone)).
  unfold getCacheMap. rewrite bind_modify, bind_gets. simpl.
  unfold present in Hl. rewrite NestedFacts.lookup_ensure, Hl.
  unfold bind. by destruct (structuredClone l _) as [s1 [c|e]].
Qed.

Lemma X9_witness :
  let st := V2.run (rt:=Demo.runtime)
              [V2.New (Demo.account "0xabc"); V2.Insert [0]]
              (init (rt:=Demo.runtime) []) in
  (∃ l, present st "Account" "0xabc" l) ∧
  ((∀ n, V2.deferList_of n st = []) →
   outside (V2.get (rt:=Demo.runtime) "Account" (inl "0xabc") st).1 = outside st ∧
   (V2.get (rt:=Demo.runtime) "Account" (inl "0xabc") st).2 ≠ Ok None).
Proof.
  apply (X9_V2_pending_ids_are_read_from_the_cache
           (rt:=Demo.runtime) ([] : list Obj)
           [V2.New (Demo.account "0xabc"); V2.Insert [0]] "Account" "0xabc").
  left. vm_compute. reflexivity.
Defined.

(** X10. In the second variant [load] asserts that the class of a type
    with deferred ids is registered. The assertion holds at any time of a
    session: a round of [load] returns unless the bulk find it issues
    throws, and then it throws what the find threw. *)
Theorem X10_V2_load_fails_only_in_its_find `{rt : Runtime}
    (d : DB) (ops : list V2.Op) (name : string) :
  let st := V2.run ops (init d) in
  (V2.deferList_of name st ≠ [] → is_Some (JsMap.get name (classes st))) ∧
  ((V2.load_entry name st).2 = Ok tt ∨
   ∃ cls e,
     JsMap.get name (classes st) = Some cls ∧
     (V2.find cls (Some {| fo_where := Some (WIdIn (V2.deferList_of name st));
                           fo_relations := None |}) st).2 = Throw e ∧
     (V2.load_entry name st).2 = Throw e).
Proof.
  intros st.
  assert (V2_session_inv st) as (_ & Hknown & _)
    by apply V2_session_inv_run, V2_session_inv_init.
  split; [apply Hknown | by apply V2_load_entry_outcome].
Qed.

(** ** What a read from the cache returns *)

(** X11. What [get] returns when it is served from the cache, nothing
    being deferred. In the first variant it is the object the cache holds
    itself, whenever that object is an instance of a class: [copy] of
    copy-anything copies plain objects only, so the heap, the cache and
    everything else stay as they were, and a write to the result is a
    write to the cache. In the second variant it is a new object, the
    [structuredClone] of the cached entity: a plain object, the class
    being lost, with the id of the cached entity and its value in every
    property that holds no reference; the objects that were there and the
    cache stay as they were, and [get] does return. *)
Theorem X11_get_from_the_cache_returns_what_the_cache_holds `{rt : Runtime} :
  (∀ (s : State V1.DeferData) cls i l o,
     V1_deferred_ids s cls = [] → present s cls i l → heap s !! l = Some o →
     constructor_name o ≠ "Object" → stack_limit ≠ 0 →
     ∃ s', V1.get cls (inl i) s = (s', Ok (Some l)) ∧
           heap s' = heap s ∧ outside s' = outside s ∧
           present s' cls i l) ∧
  (∀ (s : State (list string)) cls i l o,
     (∀ name, V2.deferList_of name s = []) → present s cls i l →
     heap s !! l = Some o →
     ∃ s' c oc,
       V2.get cls (inl i) s = (s', Ok (Some c)) ∧
       (length (heap s) ≤ c)%nat ∧ heap s' !! c = Some oc ∧
       constructor_name oc = "Object" ∧ agrees_on_scalars o oc ∧
       (∀ l0, is_Some (heap s !! l0) → heap s' !! l0 = heap s !! l0) ∧
       outside s' = outside s ∧ present s' cls i l).
Proof.
  split.
  - intros s cls i l o Hnone Hp Hl Hcls Hstack.
    destruct (V1_get_hit_returns_held cls i l s o Hnone Hp Hl Hcls Hstack)
      as (s' & Hrun & Hh & Hout & Hlook).
    exists s'. split_and!; [done..|]. unfold present. by rewrite Hlook.
  - intros s cls i l o Hnone Hp Hl.
    destruct (V2_get_hit_copy cls i l s o Hnone Hp Hl)
      as (s' & Hrun & Hh & Hc & Hlook & Hout).
    exists s', (length (heap s) + l), (clone_obj (length (heap s)) o).
    split_and!; [done|lia|done|done|apply clone_obj_agrees| |done|].
    + intros l0 Hl0. rewrite Hh. apply lookup_app_l.
      by apply lookup_lt_is_Some.
    + unfold present. by rewrite Hlook.
Qed.

(** ** Merging relations *)

Section JsMap_more.
Context {V : Type}.
Implicit Types (m : list (string * V)).

Lemma set_new m k v : JsMap.get k m = None → JsMap.set k v m = m ++ [(k, v)].
Proof.
  induction m as [|[k' v'] m IH]; simpl; [done|].
  case_decide; [done|]. intros Hget. by rewrite IH.
Qed.

(** The first loop of [mergeRelataions] rebuilds the object it reads. *)
Lemma copy_keys acc a :
  NoDup (acc ++ a).*1 →
  foldl (λ acc (kv : string * V), JsMap.set kv.1 kv.2 acc) acc a = acc ++ a.
Proof.
  revert acc. induction a as [|[k v] a IH]; intros acc Hnd; simpl.
  - by rewrite app_nil_r.
  - rewrite set_new.
    + rewrite IH; [by rewrite <- app_assoc|]. by rewrite <- app_assoc.
    + apply JsMapFacts.get_None_keys. unfold JsMap.keys.
      rewrite fmap_app in Hnd. apply NoDup_app in Hnd as (_ & Hdisj & _).
      intros Hin. apply (Hdisj k Hin). simpl. apply list_elem_of_here.
Qed.
Lemma Forall_set (Q : string * V → Prop) m k v :
  Forall Q m → Q (k, v) → Forall Q (JsMap.set k v m).
Proof.
  intros Hm Hv. induction Hm as [|[k' v'] m Hkv Hm IH]; simpl.
  - by constructor.
  - case_decide; constructor; done.
Qed.
End JsMap_more.

Section relations.
Implicit Types (r a b acc : list (string * RelVal)) (v : RelVal).

Lemma rel_wf_unfold r :
  rel_wf r ↔ NoDup r.*1 ∧ Forall (λ kv, rel_wf_val kv.2) r.
Proof.
  unfold rel_wf. simpl. apply and_iff_compat_l.
  induction r as [|[k v] r IH]; simpl.
  - split; [constructor | done].
  - rewrite Forall_cons, IH. done.
Qed.

Lemma rel_wf_get r k v : rel_wf r → JsMap.get k r = Some v → rel_wf_val v.
Proof.
  intros [_ Hall]%rel_wf_unfold Hget.
  apply JsMapFacts.get_Some_elem in Hget.
  by apply (proj1 (Forall_forall _ _) Hall (k, v)).
Qed.

Lemma merge_value_nested ra rb :
  merge_value (Some (RNested ra)) (RNested rb) = RNested (merge_into ra rb).
Proof.
  simpl. f_equal. unfold merge_into. revert ra.
  induction rb as [|[k bv] rb IH]; intros ra; simpl; [done|]. apply IH.
Qed.

Lemma mergeRelataions_merge_into a b :
  NoDup a.*1 → mergeRelataions a b = merge_into a b.
Proof.
  intros Hnd. unfold mergeRelataions, merge_into.
  by rewrite (copy_keys [] a Hnd).
Qed.

(** What the merged object has under a key: what the first object has
    when the second has no such key, and else the two values merged. *)
Lemma get_merge_into acc b k :
  NoDup b.*1 →
  JsMap.get k (merge_into acc b) =
  match JsMap.get k b with
  | None => JsMap.get k acc
  | Some bv => Some (merge_value (JsMap.get k acc) bv)
  end.
Proof.
  unfold merge_into. revert acc.
  induction b as [|[k1 v1] b IH]; intros acc Hnd; [done|].
  apply NoDup_cons in Hnd as [Hk1 Hnd]. cbn [foldl fst snd JsMap.get].
  rewrite (IH _ Hnd). destruct (decide (k = k1)) as [->|Hne].
  - assert (JsMap.get k1 b = None) as -> by (by apply JsMapFacts.get_None_keys).
    by rewrite JsMapFacts.get_set_eq.
  - by rewrite JsMapFacts.get_set_ne.
Qed.

(** The merged object asks for a relation exactly when one of the two
    objects does. *)
Lemma requests_merge_into path :
  ∀ a b, rel_wf a → rel_wf b →
    requests (merge_into a b) path = requests a path || requests b path.
Proof.
  induction path as [|k rest IH]; intros a b Ha Hb; [done|].
  pose proof (proj1 (rel_wf_unfold b) Hb) as [Hnd _].
  cbn [requests]. rewrite (get_merge_into a b k Hnd).
  destruct (JsMap.get k b) as [bv|] eqn:Hgb.
  2: { by rewrite orb_false_r. }
  pose proof (rel_wf_get _ _ _ Hb Hgb) as Hbv.
  destruct (JsMap.get k a) as [av|] eqn:Hga.
  - pose proof (rel_wf_get _ _ _ Ha Hga) as Hav.
    destruct av as [ba|ra], bv as [bb|rb].
    + destruct ba, bb; simpl; by rewrite ?orb_false_r, ?orb_diag.
    + cbn [merge_value]. destruct ba; simpl; [|done].
      case_bool_decide as Hrest; [by subst|done].
    + cbn [merge_value]. destruct bb; simpl; [|by rewrite orb_false_r].
      case_bool_decide as Hrest; [subst; by rewrite orb_true_r|].
      by rewrite orb_false_r.
    + rewrite merge_value_nested. by apply IH.
  - destruct bv as [bb|rb]; done.
Qed.
End relations.

Section relations_wf.
Implicit Types (r a b acc : list (string * RelVal)) (v : RelVal).

(** Induction on a relations value: the hypothesis holds for every
    value of a nested object. *)
Lemma RelVal_nested_ind (P : RelVal → Prop) :
  (∀ flag : bool, P (RFlag flag)) →
  (∀ r, Forall (λ kv, P kv.2) r → P (RNested r)) →
  ∀ v, P v.
Proof.
  intros Hflag Hnested. fix IH 1. intros [flag|r]; [apply Hflag|].
  apply Hnested. induction r as [|[k v] r IHr]; constructor; [apply IH | exact IHr].
Qed.

Lemma rel_wf_set acc k v : rel_wf acc → rel_wf_val v → rel_wf (JsMap.set k v acc).
Proof.
  rewrite !rel_wf_unfold. intros [Hnd Hall] Hv. split.
  - by apply JsMapFacts.keys_set_NoDup.
  - by apply Forall_set.
Qed.

Lemma rel_wf_merge_value bv :
  rel_wf_val bv →
  ∀ av, (∀ x, av = Some x → rel_wf_val x) → rel_wf_val (merge_value av bv).
Proof.
  induction bv as [bb|rb IH] using RelVal_nested_ind; intros Hbv av Hav.
  - destruct av as [[[]|ra]|]; try done. exact (Hav (RNested ra) eq_refl).
  - destruct av as [[ba|ra]|]; try exact Hbv.
    rewrite merge_value_nested. change (rel_wf (merge_into ra rb)).
    assert (rel_wf ra) as Hra by (by apply Hav).
    apply rel_wf_unfold in Hbv as [_ Hall].
    clear Hav. unfold merge_into. revert ra Hra.
    induction rb as [|[k v] rb IHrb]; intros ra Hra; simpl; [done|].
    apply Forall_cons in IH as [IHv IH]. apply Forall_cons in Hall as [Hv Hall].
    apply IHrb; [done..|]. apply rel_wf_set; [done|].
    apply IHv; [done|]. intros x Hx. by apply (rel_wf_get ra k).
Qed.

Lemma rel_wf_merge_into a b : rel_wf a → rel_wf b → rel_wf (merge_into a b).
Proof.
  intros Ha Hb.
  change (rel_wf_val (RNested (merge_into a b))).
  rewrite <- merge_value_nested. apply rel_wf_merge_value; [done|].
  by intros x [= <-].
Qed.
End relations_wf.

(** X12. [mergeRelataions] is a union: the merged object asks for a
    relation path exactly when one of the two objects does, whether the
    path is asked for with [true] or with a nested object, and it is again
    an object in which no key occurs twice. *)
Theorem X12_mergeRelataions_is_a_union (a b : list (string * RelVal)) :
  rel_wf a → rel_wf b →
  (∀ path, requests (mergeRelataions a b) path =
           requests a path || requests b path) ∧
  rel_wf (mergeRelataions a b).
Proof.
  intros Ha Hb. pose proof (proj1 (rel_wf_unfold a) Ha) as [Hnd _].
  rewrite (mergeRelataions_merge_into a b Hnd). split.
  - intros path. by apply requests_merge_into.
  - by apply rel_wf_merge_into.
Qed.

Lemma X12_witness :
  let a := [("from", RFlag true); ("to", RFlag false)] in
  let b := [("to", RNested [("owner", RFlag true)])] in
  (∀ path, requests (mergeRelataions a b) path =
           requests a path || requests b path) ∧
  rel_wf (mergeRelataions a b).
Proof.
  apply (X12_mergeRelataions_is_a_union
           [("from", RFlag true); ("to", RFlag false)]
           [("to", RNested [("owner", RFlag true)])]).
  - split; [compute_done | simpl; done].
  - split; [compute_done | simpl; split_and!; try done; compute_done].
Defined.

Section V1_relations.
Context `{rt : Runtime}.
Implicit Types (s : State V1.DeferData).

(** [defer] merges the relations it is given into those deferred for
    the type so far. *)
Lemma V1_defer_relations cls i r s :
  V1_deferred_relations (V1.defer cls i r s).1 cls =
  match r with
  | Some r => mergeRelataions (V1_deferred_relations s cls) r
  | None => V1_deferred_relations s cls
  end.
Proof.
  unfold V1_deferred_relations, V1.defer.
  rewrite bind_modify.
  destruct (V1_getDeferData_run cls (with_classes (JsMap.set cls cls) s))
    as (d & Hd & ->).
  rewrite (bind_ok _ _ _ _ _ Hd). rewrite bind_modify. simpl.
  rewrite JsMapFacts.get_set_eq. simpl.
  destruct (JsMap.get cls (deferred s)) eqn:Hg; simpl; [by rewrite Hg|].
  by rewrite JsMapFacts.get_set_eq.
Qed.

(** The query that resolves the ids deferred for a type. *)
Lemma V1_get_resolves_query cls i s :
  i ∈ V1_deferred_ids s cls →
  calls (V1.get cls (inl i) s).1 =
  calls (V1.flush (Some cls) s).1 ++
  [CFind cls {| fo_where := Some (WIdIn (V1_deferred_ids s cls));
                fo_relations :=
                  Some (mergeRelataions (V1_deferred_relations s cls)
                                        (V1_deferred_relations s cls)) |}].
Proof.
  intros Hi. destruct (V1.get cls (inl i) s) as [s' out] eqn:Hrun.
  unfold V1.get, V1.load in Hrun.
  destruct (V1_getDeferData_run cls s) as (d & Hd & Hdeq).
  assert (V1.ids d = V1_deferred_ids s cls) as Hids by (by rewrite Hdeq).
  assert (V1.relations d = V1_deferred_relations s cls) as Hrels
    by (by rewrite Hdeq).
  rewrite bind_assoc, (bind_ok _ _ _ _ _ Hd) in Hrun.
  set (s0 := with_deferred _ s) in Hrun.
  assert (default V1.new_DeferData (JsMap.get cls (deferred s0)) = d) as Hd0.
  { rewrite Hdeq. unfold s0. simpl.
    destruct (JsMap.get cls (deferred s)) eqn:Hg; simpl; [by rewrite Hg|].
    by rewrite JsMapFacts.get_set_eq. }
  clear Hd.
  rewrite bool_decide_false in Hrun.
  2: { rewrite Hids. intros Hlen. apply nil_length_inv in Hlen.
       rewrite Hlen in Hi. by apply elem_of_nil in Hi. }
  unfold getCacheMap at 1 in Hrun. rewrite !bind_assoc, bind_modify in Hrun.
  set (s1 := with_cacheMap (Nested.ensure cls) s0) in Hrun.
  destruct (V1_premark_spec cls (V1.ids d) s1)
    as (s2 & Hpre & Hh2 & Ho2 & Hd2 & _ & Hin2).
  rewrite !bind_assoc, (bind_ok _ _ _ _ _ Hpre) in Hrun. clear Hpre.
  set (o := Some {| fo_where := Some (WIdIn (V1.ids d));
                    fo_relations := Some (V1.relations d) |}) in Hrun.
  pose proof (V1_find_flushes cls o s2) as (Hc3 & _ & _).
  pose proof (V1_entries_kept_find cls o s2) as Hk3.
  assert (flush_input s2 = flush_input s) as Hin.
  { unfold flush_input, outside in *. rewrite Hh2. simpl.
    injection Ho2 as -> -> -> ->. done. }
  apply (V1_flush_input (Some cls)) in Hin. unfold flush_input in Hin.
  injection Hin as _ Hfc _ _ _.
  rewrite Hfc, Hd2 in Hc3. change (deferred s1) with (deferred s0) in Hc3.
  rewrite Hd0 in Hc3. unfold V1.with_deferred_relations in Hc3. subst o.
  cbn [from_option Datatypes.id fo_where fo_relations] in Hc3.
  rewrite Hids, Hrels in Hc3, Hk3, Hrun.
  cbn [snd]. rewrite <- Hc3. rewrite !bind_assoc in Hrun.
  destruct (V1.find cls _ s2) as [s3 [res|e]] eqn:Hfind; simpl in Hk3.
  2: { rewrite (bind_throw _ _ _ _ _ Hfind) in Hrun. by injection Hrun as <- <-. }
  rewrite (bind_ok _ _ _ _ _ Hfind), bind_modify in Hrun.
  unfold getCacheMap in Hrun. rewrite bind_modify, bind_gets in Hrun.
  simpl in Hrun. rewrite NestedFacts.lookup_ensure in Hrun.
  destruct (Hk3 cls i) as [x Hx].
  { apply Hin2. by rewrite Hids. }
  rewrite Hx in Hrun. destruct x as [l|].
  2: { by injection Hrun as <- <-. }
  pose proof (but_heap_copy_anything (D:=V1.DeferData) stack_limit l
    (with_cacheMap (Nested.ensure cls)
       (with_deferred (JsMap.delete cls) s3))) as Hcopy.
  apply keeps_but_heap in Hcopy as (Hcc & _).
  unfold V1.copy, bind in Hrun.
  destruct (copy_anything stack_limit l _) as [s5 [c|e]]; simpl in *;
    by injection Hrun as <- <-.
Qed.
End V1_relations.

(** X13. In the first variant [find] and [findOne] pass the filter of
    the caller on, and ask the store for the relations of the caller
    together with the relations deferred for the type so far: the query
    asks for a relation path exactly when the options do or a pending
    [defer] of the type did. *)
Theorem X13_V1_find_also_loads_the_deferred_relations `{rt : Runtime}
    (cls : string) (options : FindOptions) (s : State V1.DeferData) :
  rel_wf (default [] (fo_relations options)) →
  rel_wf (V1_deferred_relations s cls) →
  ∃ q,
    calls (V1.find cls (Some options) s).1 =
      calls (V1.flush (Some cls) s).1 ++ [CFind cls q] ∧
    calls (V1.findOne cls options s).1 =
      calls (V1.flush (Some cls) s).1 ++ [CFindOne cls q] ∧
    fo_where q = fo_where options ∧
    ∃ R, fo_relations q = Some R ∧
         ∀ path, requests R path =
                 requests (default [] (fo_relations options)) path ||
                 requests (V1_deferred_relations s cls) path.
Proof.
  intros Ho Hd.
  destruct (V1_find_flushes cls (Some options) s) as (Hfind & _).
  destruct (V1_findOne_flushes cls options s) as (Hone & _).
  eexists. split; [exact Hfind|]. split; [exact Hone|]. split; [done|].
  unfold V1.with_deferred_relations.
  cbn [from_option Datatypes.id fo_where fo_relations].
  fold (V1_deferred_relations s cls).
  eexists. split; [done|]. intros path.
  destruct (fo_relations options) as [r|]; simpl in *.
  - pose proof (proj1 (rel_wf_unfold r) Ho) as [Hnd _].
    rewrite (mergeRelataions_merge_into _ _ Hnd). by apply requests_merge_into.
  - by destruct path.
Qed.

Lemma X13_witness :
  let options := {| fo_where := Some (WCaller "amount > 0");
                    fo_relations := Some [("from", RFlag true)] |} in
  let s := (V1.defer (rt:=Demo.runtime) "Transfer" "t1"
              (Some [("to", RFlag true)]) Demo.start).1 in
  ∃ q,
    calls (V1.find (rt:=Demo.runtime) "Transfer" (Some options) s).1 =
      calls (V1.flush (rt:=Demo.runtime) (Some "Transfer") s).1 ++
      [CFind "Transfer" q] ∧
    calls (V1.findOne (rt:=Demo.runtime) "Transfer" options s).1 =
      calls (V1.flush (rt:=Demo.runtime) (Some "Transfer") s).1 ++
      [CFindOne "Transfer" q] ∧
    fo_where q = fo_where options ∧
    ∃ R, fo_relations q = Some R ∧
         ∀ path, requests R path =
                 requests (default [] (fo_relations options)) path ||
                 requests (V1_deferred_relations s "Transfer") path.
Proof.
  apply (X13_V1_find_also_loads_the_deferred_relations
           (rt:=Demo.runtime) "Transfer"
           {| fo_where := Some (WCaller "amount > 0");
              fo_relations := Some [("from", RFlag true)] |}
           (V1.defer (rt:=Demo.runtime) "Transfer" "t1"
              (Some [("to", RFlag true)]) Demo.start).1).
  - split; [compute_done | simpl; done].
  - assert (V1_deferred_relations
              (V1.defer (rt:=Demo.runtime) "Transfer" "t1"
                 (Some [("to", RFlag true)]) Demo.start).1 "Transfer" =
            [("to", RFlag true)]) as -> by (vm_compute; reflexivity).
    split; [compute_done | simpl; done].
Defined.

(** X14. In the first variant the relations passed to [defer] reach the
    query that resolves the deferred ids: after [defer] of an id with
    relations, resolving it issues, after the flush, one bulk find whose
    filter lists the deferred ids and which asks for a relation path
    exactly when that [defer] or an earlier [defer] of the type did. *)
Theorem X14_V1_deferred_relations_reach_the_bulk_find `{rt : Runtime}
    (cls i : string) (r : list (string * RelVal)) (s : State V1.DeferData) :
  rel_wf (V1_deferred_relations s cls) → rel_wf r →
  let s1 := (V1.defer cls i (Some r) s).1 in
  rel_wf (V1_deferred_relations s1 cls) ∧
  ∃ q R,
    calls (V1.get cls (inl i) s1).1 =
      calls (V1.flush (Some cls) s1).1 ++ [CFind cls q] ∧
    fo_where q = Some (WIdIn (JsSet.add i (V1_deferred_ids s cls))) ∧
    fo_relations q = Some R ∧
    ∀ path, requests R path =
            requests (V1_deferred_relations s cls) path || requests r path.
Proof.
  intros Hd Hr s1.
  assert (V1_deferred_relations s1 cls =
          merge_into (V1_deferred_relations s cls) r) as Hrels.
  { unfold s1. rewrite V1_defer_relations.
    apply mergeRelataions_merge_into. by apply rel_wf_unfold in Hd as [? _]. }
  assert (rel_wf (V1_deferred_relations s1 cls)) as Hwf1.
  { rewrite Hrels. by apply rel_wf_merge_into. }
  split; [done|].
  assert (i ∈ V1_deferred_ids s1 cls) as Hi.
  { unfold s1. rewrite V1_defer_ids. apply JsSet_add_elem. }
  eexists _, _. split; [apply (V1_get_resolves_query cls i s1 Hi)|].
  cbn [fo_where fo_relations]. split; [unfold s1; by rewrite V1_defer_ids|].
  split; [done|]. intros path.
  rewrite (mergeRelataions_merge_into _ _
             (proj1 (proj1 (rel_wf_unfold _) Hwf1))).
  rewrite (requests_merge_into path _ _ Hwf1 Hwf1), orb_diag, Hrels.
  by apply requests_merge_into.
Qed.

Lemma X14_witness :
  let s1 := (V1.defer (rt:=Demo.runtime) "Transfer" "t1"
               (Some [("to", RFlag true)]) Demo.start).1 in
  rel_wf (V1_deferred_relations s1 "Transfer") ∧
  ∃ q R,
    calls (V1.get (rt:=Demo.runtime) "Transfer" (inl "t1") s1).1 =
      calls (V1.flush (rt:=Demo.runtime) (Some "Transfer") s1).1 ++
      [CFind "Transfer" q] ∧
    fo_where q =
      Some (WIdIn (JsSet.add "t1" (V1_deferred_ids (H:=Demo.store)
                                     Demo.start "Transfer"))) ∧
    fo_relations q = Some R ∧
    ∀ path, requests R path =
            requests (V1_deferred_relations (H:=Demo.store) Demo.start "Transfer")
                     path ||
            requests [("to", RFlag true)] path.
Proof.
  apply (X14_V1_deferred_relations_reach_the_bulk_find
           (rt:=Demo.runtime) "Transfer" "t1" [("to", RFlag true)] Demo.start).
  - split; [constructor | done].
  - split; [compute_done | simpl; done].
Defined.

(** ** What a resolution leaves in the cache *)

Section V1_batch.
Context `{rt : Runtime}.
Implicit Types (s : State V1.DeferData).

(** When the resolution of the ids deferred for a type returns, the
    cache has an entry for each of them, an entity or the absent marker,
    and nothing is deferred for the type. *)
Lemma V1_get_resolves_entries cls i s s' r :
  i ∈ V1_deferred_ids s cls →
  V1.get cls (inl i) s = (s', Ok r) →
  (∀ j, j ∈ V1_deferred_ids s cls → is_Some (Nested.lookup cls j (cacheMap s'))) ∧
  V1_deferred_ids s' cls = [].
Proof.
  intros Hi Hrun.
  destruct (V1_get_resolves cls i s s' (Ok r) Hi Hrun) as (_ & _ & _ & Hdone).
  split; [|unfold V1_deferred_ids; by rewrite (Hdone r eq_refl)].
  unfold V1.get, V1.load in Hrun.
  destruct (V1_getDeferData_run cls s) as (d & Hd & Hdeq).
  assert (V1.ids d = V1_deferred_ids s cls) as Hids by (by rewrite Hdeq).
  rewrite bind_assoc, (bind_ok _ _ _ _ _ Hd) in Hrun. clear Hd.
  set (s0 := with_deferred _ s) in Hrun.
  rewrite bool_decide_false in Hrun.
  2: { rewrite Hids. intros Hlen. apply nil_length_inv in Hlen.
       rewrite Hlen in Hi. by apply elem_of_nil in Hi. }
  unfold getCacheMap at 1 in Hrun. rewrite !bind_assoc, bind_modify in Hrun.
  set (s1 := with_cacheMap (Nested.ensure cls) s0) in Hrun.
  destruct (V1_premark_spec cls (V1.ids d) s1)
    as (s2 & Hpre & _ & _ & _ & _ & Hin2).
  rewrite !bind_assoc, (bind_ok _ _ _ _ _ Hpre) in Hrun. clear Hpre.
  rewrite !bind_assoc in Hrun.
  match type of Hrun with
  | bind (V1.find cls ?o) _ _ = _ =>
      pose proof (V1_entries_kept_find cls o s2) as Hk3;
      destruct (V1.find cls o s2) as [s3 [res|e]] eqn:Hfind
  end.
  2: { by rewrite (bind_throw _ _ _ _ _ Hfind) in Hrun. }
  simpl in Hk3.
  rewrite (bind_ok _ _ _ _ _ Hfind), bind_modify in Hrun.
  unfold getCacheMap in Hrun. rewrite bind_modify, bind_gets in Hrun.
  simpl in Hrun. rewrite NestedFacts.lookup_ensure in Hrun.
  assert (∀ j, j ∈ V1_deferred_ids s cls →
               is_Some (Nested.lookup cls j
                          (cacheMap (with_cacheMap (Nested.ensure cls)
                                       (with_deferred (JsMap.delete cls) s3)))))
    as Hall.
  { intros j Hj. simpl. rewrite NestedFacts.lookup_ensure.
    apply Hk3, Hin2. by rewrite Hids. }
  destruct (Nested.lookup cls i (cacheMap s3)) as [[l|]|] eqn:Hlook.
  - pose proof (but_heap_copy_anything (D:=V1.DeferData) stack_limit l
      (with_cacheMap (Nested.ensure cls)
         (with_deferred (JsMap.delete cls) s3))) as Hcopy.
    apply keeps_but_heap in Hcopy as (_ & _ & _ & _ & Hcm).
    unfold V1.copy, bind in Hrun.
    destruct (copy_anything stack_limit l _) as [s5 [c|e]]; [|done].
    injection Hrun as <- _. simpl in Hcm. by rewrite Hcm.
  - by injection Hrun as <- _.
  - exfalso. destruct (Hk3 cls i) as [x Hx]; [|congruence].
    apply Hin2. by rewrite Hids.
Qed.
End V1_batch.

(** X15. In the first variant one resolution serves the whole batch:
    once [get] has resolved one of the ids deferred for a type, the cache
    has an entry for every id that was deferred for the type, an entity or
    the absent marker, nothing is deferred for the type, and a [get] of
    any other id of the batch makes no call on the store and leaves the
    buffers as they are. [DeferredValue.get] is this [get]. *)
Theorem X15_V1_one_resolution_serves_the_batch `{rt : Runtime}
    (cls i j : string) (s s1 : State V1.DeferData) (r : option loc) :
  i ∈ V1_deferred_ids s cls → j ∈ V1_deferred_ids s cls →
  V1.get cls (inl i) s = (s1, Ok r) →
  V1_deferred_ids s1 cls = [] ∧
  is_Some (Nested.lookup cls j (cacheMap s1)) ∧
  outside (V1.get cls (inl j) s1).1 = outside s1.
Proof.
  intros Hi Hj Hrun.
  destruct (V1_get_resolves_entries cls i s s1 r Hi Hrun) as [Hall Hnone].
  destruct (Hall j Hj) as [x Hx].
  split; [done|]. split; [by exists x|]. by apply (V1_get_hit cls j x).
Qed.

Lemma X15_witness :
  let s := V1_defer_all (H:=Demo.runtime) "Account"
             [("0x1", None); ("0x2", None)] Demo.start in
  let s1 := (V1.get (rt:=Demo.runtime) "Account" (inl "0x1") s).1 in
  V1_deferred_ids s1 "Account" = [] ∧
  is_Some (Nested.lookup "Account" "0x2" (cacheMap s1)) ∧
  outside (V1.get (rt:=Demo.runtime) "Account" (inl "0x2") s1).1 = outside s1.
Proof.
  apply (X15_V1_one_resolution_serves_the_batch
           (rt:=Demo.runtime) "Account" "0x1" "0x2"
           (V1_defer_all (H:=Demo.runtime) "Account"
              [("0x1", None); ("0x2", None)] Demo.start)
           (V1.get (rt:=Demo.runtime) "Account" (inl "0x1")
              (V1_defer_all (H:=Demo.runtime) "Account"
                 [("0x1", None); ("0x2", None)] Demo.start)).1
           None).
  - compute_done.
  - compute_done.
  - vm_compute. reflexivity.
Defined.

(** ** What the find operations of the first variant hand out *)

Section fetched_objects.
Context {D : Type} `{rt : Runtime}.
Implicit Types (s s_f s_m : State D).

Lemma materialize_run f s :
  materialize f s =
  (with_heap (λ h, h ++ (shift_obj (length (heap s)) <$> fetched_objects f)) s,
   Ok ((λ r, length (heap s) + r) <$> fetched_roots f)).
Proof. done. Qed.

(** Objects added to the heap since the state [s_f], which the cache
    of [s_f] therefore does not hold, are still not held once [cache]
    has run. *)
Lemma callers_own_after_cache s_f s_m (s' : State D) (ls : list loc) :
  cache_wf s_f →
  (∀ name k l, present s_m name k l → present s_f name k l) →
  (length (heap s_f) ≤ length (heap s_m))%nat →
  Forall (λ l, (length (heap s_f) ≤ l < length (heap s_m))%nat) ls →
  (cache_wf s_m → cache_effect s_m s') →
  Forall (callers_own s') ls.
Proof.
  intros [Hclosed Hinj] Hsame Hlen Hls Hstep.
  assert (cache_wf s_m) as Hwf.
  { split.
    - intros name k l Hp%Hsame. apply Hclosed in Hp.
      apply lookup_lt_is_Some in Hp. apply lookup_lt_is_Some. lia.
    - intros name k name' k' l Hp%Hsame Hp'%Hsame. eauto. }
  destruct (Hstep Hwf). eapply Forall_impl; [exact Hls|].
  intros l [Hge Hlt]. split.
  - intros name k Hp. destruct (ce_new0 name k l Hp) as [Hold|[Hnew _]]; [|lia].
    apply Hsame, Hclosed, lookup_lt_is_Some in Hold. lia.
  - apply lookup_lt_is_Some. lia.
Qed.

Lemma call_findOne_run cls q s :
  ∃ ls, call_findOne cls q s =
        (with_heap (λ h, h ++ (shift_obj (length (heap s)) <$>
                                 fetched_objects (store_findOne (db s) cls q)))
           (with_store (db s) (CFindOne cls q) s), Ok (head ls)) ∧
        ls = (λ r, length (heap s) + r) <$>
             fetched_roots (store_findOne (db s) cls q).
Proof. by eexists. Qed.

Lemma call_findOneBy_run cls w s :
  ∃ ls, call_findOneBy cls w s =
        (with_heap (λ h, h ++ (shift_obj (length (heap s)) <$>
                                 fetched_objects (store_findOneBy (db s) cls w)))
           (with_store (db s) (CFindOneBy cls w) s), Ok (head ls)) ∧
        ls = (λ r, length (heap s) + r) <$>
             fetched_roots (store_findOneBy (db s) cls w).
Proof. by eexists. Qed.

Lemma materialized_range f s :
  roots_in_range f →
  Forall (λ l, (length (heap s) ≤ l <
                length (heap s ++ (shift_obj (length (heap s)) <$>
                                     fetched_objects f)))%nat)
         ((λ r, length (heap s) + r) <$> fetched_roots f).
Proof.
  intros Hin. apply Forall_fmap. eapply Forall_impl; [exact Hin|].
  intros r Hr. simpl in *. rewrite length_app, length_fmap. lia.
Qed.
End fetched_objects.

Section V1_find_results.
Context `{rt : Runtime}.
Implicit Types (s : State V1.DeferData).

(** The state in which a find operation caches what the store
    returned, [s_m], against the state the operation started in. *)
Lemma fetched_callers_own s s_f (s' : State V1.DeferData) f (ls : list loc) :
  cache_wf s → roots_in_range f →
  heap s_f = heap s →
  (∀ name k, Nested.lookup name k (cacheMap s_f) =
             Nested.lookup name k (cacheMap s)) →
  let s_m := with_heap (λ h, h ++ (shift_obj (length (heap s_f)) <$>
                                     fetched_objects f)) s_f in
  ls ⊆ ((λ r, length (heap s_f) + r) <$> fetched_roots f) →
  (cache_wf s_m → cache_effect s_m s') →
  Forall (callers_own s') ls.
Proof.
  intros Hwf Hin Hh Hc s_m Hls Hstep.
  apply (callers_own_after_cache s s_m s' ls Hwf).
  - intros name k l. unfold present, s_m. simpl. by rewrite Hc.
  - unfold s_m. simpl. rewrite length_app, Hh. lia.
  - apply Forall_forall. intros l Hl%Hls.
    pose proof (materialized_range f s_f Hin) as Hall.
    rewrite Forall_forall in Hall. specialize (Hall l Hl).
    unfold s_m. simpl. rewrite <- Hh. exact Hall.
  - done.
Qed.

Lemma V1_find_results cls o s s' res :
  cache_wf s → store_answers_in_range →
  V1.find cls o s = (s', Ok res) → Forall (callers_own s') res.
Proof.
  intros Hwf Hrange Hrun. unfold V1.find in Hrun.
  destruct (V1_flush_same_cache (Some cls) s) as (Hh & _ & Hc).
  pose proof (V1_flush_ok (Some cls) s) as Hok.
  destruct (V1.flush (Some cls) s) as [s_f out] eqn:Hflush.
  simpl in Hh, Hc, Hok. subst out.
  rewrite (bind_ok _ _ _ _ _ Hflush) in Hrun.
  destruct (V1_getDeferData_run cls s_f) as (d & Hd & _).
  rewrite (bind_ok _ _ _ _ _ Hd) in Hrun. set (s1 := with_deferred _ s_f) in Hrun.
  rewrite (bind_ok _ _ _ _ _ (call_find_run _ _ _)) in Hrun.
  match type of Hrun with
  | bind (V1.cache _ ?ls) _ ?s_m = _ =>
      pose proof (V1_cache_step stack_limit ls s_m) as Hstep;
      destruct (V1.cache stack_limit ls s_m) as [s2 [cs|e]] eqn:Hcache
  end.
  2: { by rewrite (bind_throw _ _ _ _ _ Hcache) in Hrun. }
  rewrite (bind_ok _ _ _ _ _ Hcache) in Hrun. injection Hrun as <- <-.
  eapply (fetched_callers_own s (with_store (db s1) _ s1)); [done| |done|done|done|].
  - apply Hrange.
  - exact Hstep.
Qed.

Lemma V1_findBy_results cls w s s' res :
  cache_wf s → store_answers_in_range →
  V1.findBy cls w s = (s', Ok res) → Forall (callers_own s') res.
Proof.
  intros Hwf Hrange Hrun. unfold V1.findBy in Hrun.
  destruct (V1_flush_same_cache (Some cls) s) as (Hh & _ & Hc).
  pose proof (V1_flush_ok (Some cls) s) as Hok.
  destruct (V1.flush (Some cls) s) as [s_f out] eqn:Hflush.
  simpl in Hh, Hc, Hok. subst out.
  rewrite (bind_ok _ _ _ _ _ Hflush) in Hrun.
  unfold call_findBy in Hrun.
  rewrite !bind_assoc, bind_gets, !bind_assoc, bind_modify in Hrun.
  rewrite (bind_ok _ _ _ _ _ (materialize_run _ _)) in Hrun.
  match type of Hrun with
  | bind (V1.cache _ ?ls) _ ?s_m = _ =>
      pose proof (V1_cache_step stack_limit ls s_m) as Hstep;
      destruct (V1.cache stack_limit ls s_m) as [s2 [cs|e]] eqn:Hcache
  end.
  2: { by rewrite (bind_throw _ _ _ _ _ Hcache) in Hrun. }
  rewrite (bind_ok _ _ _ _ _ Hcache) in Hrun. injection Hrun as <- <-.
  eapply (fetched_callers_own s (with_store (db s_f) _ s_f)); [done| |done|done|done|].
  - apply Hrange.
  - exact Hstep.
Qed.

Lemma head_subseteq {A} (ls : list A) r : head ls = Some r → [r] ⊆ ls.
Proof.
  destruct ls as [|x ls]; [done|]. intros [= ->] y ->%list_elem_of_singleton.
  apply list_elem_of_here.
Qed.

Lemma V1_findOne_results cls o s s' r :
  cache_wf s → store_answers_in_range →
  V1.findOne cls o s = (s', Ok (Some r)) → callers_own s' r.
Proof.
  intros Hwf Hrange Hrun. unfold V1.findOne in Hrun.
  destruct (V1_flush_same_cache (Some cls) s) as (Hh & _ & Hc).
  pose proof (V1_flush_ok (Some cls) s) as Hok.
  destruct (V1.flush (Some cls) s) as [s_f out] eqn:Hflush.
  simpl in Hh, Hc, Hok. subst out.
  rewrite (bind_ok _ _ _ _ _ Hflush) in Hrun.
  destruct (V1_getDeferData_run cls s_f) as (d & Hd & _).
  rewrite (bind_ok _ _ _ _ _ Hd) in Hrun. set (s1 := with_deferred _ s_f) in Hrun.
  destruct (call_findOne_run cls (V1.with_deferred_relations o d) s1)
    as (ls & Hcall & Hls).
  rewrite (bind_ok _ _ _ _ _ Hcall) in Hrun.
  destruct (head ls) as [r0|] eqn:Hhead; [|done].
  match type of Hrun with
  | bind (V1.cache_one _) _ ?s_m = _ =>
      pose proof (V1_cache_one_step r0 s_m) as Hstep;
      destruct (V1.cache_one r0 s_m) as [s2 [c|e]] eqn:Hcache
  end.
  2: { by rewrite (bind_throw _ _ _ _ _ Hcache) in Hrun. }
  rewrite (bind_ok _ _ _ _ _ Hcache) in Hrun. injection Hrun as <- <-.
  apply head_subseteq in Hhead. rewrite Hls in Hhead.
  eapply Forall_singleton.
  eapply (fetched_callers_own s (with_store (db s1) _ s1)); [done| |done|done|done|].
  - apply Hrange.
  - exact Hstep.
Qed.

Lemma V1_findOneBy_results cls w s s' r :
  cache_wf s → store_answers_in_range →
  V1.findOneBy cls w s = (s', Ok (Some r)) → callers_own s' r.
Proof.
  intros Hwf Hrange Hrun. unfold V1.findOneBy in Hrun.
  destruct (V1_flush_same_cache (Some cls) s) as (Hh & _ & Hc).
  pose proof (V1_flush_ok (Some cls) s) as Hok.
  destruct (V1.flush (Some cls) s) as [s_f out] eqn:Hflush.
  simpl in Hh, Hc, Hok. subst out.
  rewrite (bind_ok _ _ _ _ _ Hflush) in Hrun.
  destruct (call_findOneBy_run cls w s_f) as (ls & Hcall & Hls).
  rewrite (bind_ok _ _ _ _ _ Hcall) in Hrun.
  destruct (head ls) as [r0|] eqn:Hhead; [|done].
  match type of Hrun with
  | bind (V1.cache_one _) _ ?s_m = _ =>
      pose proof (V1_cache_one_step r0 s_m) as Hstep;
      destruct (V1.cache_one r0 s_m) as [s2 [c|e]] eqn:Hcache
  end.
  2: { by rewrite (bind_throw _ _ _ _ _ Hcache) in Hrun. }
  rewrite (bind_ok _ _ _ _ _ Hcache) in Hrun. injection Hrun as <- <-.
  apply head_subseteq in Hhead. rewrite Hls in Hhead.
  eapply Forall_singleton.
  eapply (fetched_callers_own s (with_store (db s_f) _ s_f)); [done| |done|done|done|].
  - apply Hrange.
  - exact Hstep.
Qed.
End V1_find_results.

Section Demo_store.
Lemma Demo_rows_in_range db cls w : roots_in_range (Demo.rows db cls w).
Proof.
  unfold roots_in_range, Demo.rows. simpl. apply Forall_forall.
  intros r Hr%elem_of_seq. lia.
Qed.

Lemma Demo_first_row_in_range db cls w :
  roots_in_range (Demo.first_row (Demo.rows db cls w)).
Proof.
  unfold roots_in_range, Demo.first_row, Demo.rows. simpl.
  destruct (filter _ db) as [|o found]; simpl; [constructor|].
  rewrite take_0. apply Forall_singleton. lia.
Qed.

Lemma Demo_store_in_range : store_answers_in_range (H:=Demo.store).
Proof.
  intros d cls. split_and!; intros ?; simpl;
    auto using Demo_rows_in_range, Demo_first_row_in_range.
Qed.
End Demo_store.

(** X16. In the first variant what [find], [findBy], [findOne] and
    [findOneBy] return are the objects the store built, which the cache
    does not hold: [cache] copies them into objects of its own. Whatever
    the caller writes into a result leaves the cache as it is. This holds
    at any time of a session, for a store whose answers name rows of the
    batch they come with. *)
Theorem X16_V1_find_results_are_the_callers_own `{rt : Runtime}
    (d : DB) (ops : list V1.Op) (cls : string) :
  store_answers_in_range →
  let st := V1.run ops (init d) in
  (∀ o s' res, V1.find cls o st = (s', Ok res) → Forall (callers_own s') res) ∧
  (∀ w s' res, V1.findBy cls w st = (s', Ok res) → Forall (callers_own s') res) ∧
  (∀ o s' r, V1.findOne cls o st = (s', Ok (Some r)) → callers_own s' r) ∧
  (∀ w s' r, V1.findOneBy cls w st = (s', Ok (Some r)) → callers_own s' r).
Proof.
  intros Hrange st.
  assert (session_inv st) as [Hwf _]
    by apply V1_session_inv_run, session_inv_init.
  split_and!.
  - intros o s' res. by apply V1_find_results.
  - intros w s' res. by apply V1_findBy_results.
  - intros o s' r. by apply V1_findOne_results.
  - intros w s' r. by apply V1_findOneBy_results.
Qed.

Lemma X16_witness :
  let st := V1.run (rt:=Demo.runtime) [] Demo.cold in
  (∀ o s' res, V1.find (rt:=Demo.runtime) "Transfer" o st = (s', Ok res) →
               Forall (callers_own s') res) ∧
  (∀ w s' res, V1.findBy (rt:=Demo.runtime) "Transfer" w st = (s', Ok res) →
               Forall (callers_own s') res) ∧
  (∀ o s' r, V1.findOne (rt:=Demo.runtime) "Transfer" o st = (s', Ok (Some r)) →
             callers_own s' r) ∧
  (∀ w s' r, V1.findOneBy (rt:=Demo.runtime) "Transfer" w st = (s', Ok (Some r)) →
             callers_own s' r).
Proof.
  apply (X16_V1_find_results_are_the_callers_own
           (rt:=Demo.runtime)
           [{| constructor_name := "Transfer"; id := "t1";
               props := [("amount", VPrim "5")] |}] [] "Transfer").
  apply Demo_store_in_range.
Defined.

(** ** An entity class the connection has no metadata for *)

Section V1_no_metadata.
Context `{rt : Runtime}.
Implicit Types (s : State V1.DeferData).

(** [cache] creates the object it would write into, finds no metadata,
    and throws before it writes anything. *)
Lemma V1_cache_one_no_metadata e s o :
  heap s !! e = Some o →
  metadata_of entityMetadatas (constructor_name o) = None →
  stack_limit ≠ 0 →
  ∃ s',
    V1.cache_one e s =
      (s', Throw (AssertionError
                    (Some ("Missing metadata for " +:+ constructor_name o)))) ∧
    same_store_and_cache s s' ∧ deferred s' = deferred s ∧
    (∀ l, is_Some (heap s !! l) → heap s' !! l = heap s !! l).
Proof.
  intros He Hmd Hstack. unfold V1.cache_one.
  destruct stack_limit as [|depth]; [done|]. simpl.
  rewrite ?bind_assoc, (bind_ok _ _ _ _ _ (constructor_of_Some _ _ _ He)).
  unfold getCacheMap. rewrite ?bind_assoc, bind_modify.
  set (s0 := with_cacheMap (Nested.ensure (constructor_name o)) s).
  assert (heap s0 !! e = Some o) as He0 by done.
  unfold V1.cache_entity.
  rewrite ?bind_assoc, (bind_ok _ _ _ _ _ (constructor_of_Some _ _ _ He0)).
  rewrite ?bind_assoc, (bind_ok _ _ _ _ _ (id_of_Some _ _ _ He0)).
  rewrite ?bind_assoc, bind_gets.
  set (new := {| constructor_name := constructor_name o; id := ""; props := [] |}).
  destruct (V1_pick_cached s0 (constructor_name o) (id o) new)
    as (s1 & cached & Hpick & Hcase).
  rewrite ?bind_assoc, (bind_ok _ _ _ _ _ Hpick), Hmd.
  exists s1. split; [done|].
  assert (same_store_and_cache s s0) as Hsame.
  { split_and!; [done..|]. intros name k. simpl. apply NestedFacts.lookup_ensure. }
  destruct Hcase as [[-> _]|(-> & _ & _)]; simpl; [done|].
  split_and!; [done..|].
  intros l [x Hl]. rewrite Hl. by apply lookup_app_l_Some.
Qed.

Lemma same_store_and_cache_registered s name :
  same_store_and_cache s (registered name s).
Proof.
  split_and!; [done..| |].
  - intros n. split; simpl; apply NestedFacts.inner_ensure.
  - intros n k. simpl. apply NestedFacts.lookup_ensure.
Qed.

#[export] Instance same_store_and_cache_preorder {D} :
  PreOrder (same_store_and_cache (D:=D)).
Proof.
  split.
  - by intros s.
  - intros s1 s2 s3 (Hc1 & Hd1 & Hp1 & Hl1) (Hc2 & Hd2 & Hp2 & Hl2). split_and!.
    + congruence.
    + congruence.
    + intros n. destruct (Hp1 n), (Hp2 n). split; congruence.
    + intros n k. by rewrite Hl2, Hl1.
Qed.
End V1_no_metadata.

(** X17. In the first variant [upsert] of an entity whose class the
    connection has no metadata for throws an assertion error with the
    message "Missing metadata for" and the name of the class, and so does
    [insert] when the id passes its checks. Nothing is buffered and
    nothing is cached: the calls, the database, the buffers, the deferred
    loads and every cache entry are as before, and so is every object
    that existed. *)
Theorem X17_V1_write_without_metadata_throws `{rt : Runtime}
    (s : State V1.DeferData) (e : loc) (o : Obj) :
  heap s !! e = Some o →
  metadata_of entityMetadatas (constructor_name o) = None →
  stack_limit ≠ 0 →
  let err := Throw (AssertionError
                      (Some ("Missing metadata for " +:+ constructor_name o))) in
  let unchanged s' :=
    same_store_and_cache s s' ∧
    (∀ name, JsMap.get name (deferred s') = JsMap.get name (deferred s)) ∧
    (∀ l, is_Some (heap s !! l) → heap s' !! l = heap s !! l) in
  ((V1.upsert [e] s).2 = err ∧ unchanged (V1.upsert [e] s).1) ∧
  (¬ duplicate s (constructor_name o) (id o) →
   (V1.insert [e] s).2 = err ∧ unchanged (V1.insert [e] s).1).
Proof.
  intros He Hmd Hstack err unchanged. subst err unchanged. cbv beta. split.
  - rewrite (V1_upsert_cons _ _ _ _ He), for_each_one.
    set (name := constructor_name o) in *. set (s0 := with_upsertMap _ _).
    assert (heap s0 !! e = Some o) as He0 by done.
    destruct (V1_cache_one_no_metadata e s0 o He0 Hmd Hstack)
      as (s' & Hrun & Hsame & Hd & Hh).
    unfold V1.upsert_entity. rewrite (bind_throw _ _ _ _ _ Hrun).
    cbn [fst snd]. split; [done|]. split_and!.
    + etrans; [|exact Hsame]. split_and!; [done..| |done].
      intros n. split; simpl; apply NestedFacts.inner_ensure.
    + intros n. by rewrite Hd.
    + done.
  - intros Hfresh.
    rewrite (V1_insert_cons _ _ _ _ He), for_each_one.
    set (name := constructor_name o) in *. set (s0 := registered name s).
    assert (heap s0 !! e = Some o) as He0 by done.
    assert (¬ duplicate s0 name (id o)) as Hfresh0
      by (unfold s0; by rewrite duplicate_registered).
    rewrite (V1_insert_entity_fresh _ _ _ _ He0 Hfresh0).
    destruct (V1_cache_one_no_metadata e s0 o He0 Hmd Hstack)
      as (s' & Hrun & Hsame & Hd & Hh).
    rewrite (bind_throw _ _ _ _ _ Hrun). cbn [fst snd]. split; [done|].
    split_and!; [|intros n; by rewrite Hd|done].
    etrans; [apply same_store_and_cache_registered | exact Hsame].
Qed.

Lemma X17_witness :
  let o := {| constructor_name := "Block"; id := "b1"; props := [] |} in
  let s : State V1.DeferData := with_heap (λ _, [o]) (init (rt:=Demo.runtime) []) in
  let err := Throw (AssertionError (Some "Missing metadata for Block")) in
  let unchanged s' :=
    same_store_and_cache s s' ∧
    (∀ name, JsMap.get name (deferred s') = JsMap.get name (deferred s)) ∧
    (∀ l, is_Some (heap s !! l) → heap s' !! l = heap s !! l) in
  ((V1.upsert (rt:=Demo.runtime) [0] s).2 = err ∧
   unchanged (V1.upsert (rt:=Demo.runtime) [0] s).1) ∧
  (¬ duplicate s "Block" "b1" →
   (V1.insert (rt:=Demo.runtime) [0] s).2 = err ∧
   unchanged (V1.insert (rt:=Demo.runtime) [0] s).1).
Proof.
  apply (X17_V1_write_without_metadata_throws
           (rt:=Demo.runtime)
           (with_heap (λ _, [{| constructor_name := "Block"; id := "b1";
                                props := [] |}])
                      (init (rt:=Demo.runtime) []))
           0 {| constructor_name := "Block"; id := "b1"; props := [] |}).
  - reflexivity.
  - reflexivity.
  - discriminate.
Defined.

(** ** Writing an entity whose id is deferred *)

Section V2_defer_write.
Context `{rt : Runtime}.
Implicit Types (s : State (list string)).

Lemma V2_get_present cls i l s :
  (∀ name, V2.deferList_of name s = []) → present s cls i l →
  outside (V2.get cls (inl i) s).1 = outside s ∧
  (V2.get cls (inl i) s).2 ≠ Ok None.
Proof.
  intros Hnone Hl. split; [by apply (V2_get_hit cls i (Some l))|].
  unfold V2.get. rewrite (bind_ok _ _ _ _ _ (V2_load_nothing s Hnone)).
  unfold getCacheMap. rewrite bind_modify, bind_gets. simpl.
  unfold present in Hl. rewrite NestedFacts.lookup_ensure, Hl.
  unfold bind. by destruct (structuredClone l _) as [s1 [c|e]].
Qed.

(** [defer] adds the id to the deferred set of the type unless the
    cache has an entry for it, and does nothing else that shows. *)
Lemma V2_defer_spec cls i s :
  let s' := (V2.defer cls i s).1 in
  heap s' = heap s ∧ outside s' = outside s ∧
  (∀ name k, Nested.lookup name k (cacheMap s') = Nested.lookup name k (cacheMap s)) ∧
  (∀ name, name ≠ cls → V2.deferList_of name s' = V2.deferList_of name s) ∧
  V2.deferList_of cls s' =
    if JsMap.has i (Nested.inner cls (cacheMap s)) then V2.deferList_of cls s
    else JsSet.add i (V2.deferList_of cls s).
Proof.
  intros s'. subst s'. unfold V2.defer, V2.getDeferList, getCacheMap.
  rewrite !bind_modify, bind_gets. simpl. rewrite NestedFacts.inner_ensure.
  assert (∀ name,
    default [] (JsMap.get name
      match JsMap.get cls (deferred s) with
      | Some _ => deferred s
      | None => JsMap.set cls [] (deferred s)
      end) = default [] (JsMap.get name (deferred s))) as Hreg.
  { intros name. destruct (JsMap.get cls (deferred s)) eqn:Hg; [done|].
    rewrite JsMapFacts.get_set. case_decide; [|done]. subst. by rewrite Hg. }
  destruct (JsMap.has i (Nested.inner cls (cacheMap s))); simpl.
  - split_and!; [done..| | |].
    + intros name k. apply NestedFacts.lookup_ensure.
    + intros name _. apply Hreg.
    + apply Hreg.
  - split_and!; [done..| | |].
    + intros name k. apply NestedFacts.lookup_ensure.
    + intros name Hne. unfold V2.deferList_of. simpl.
      rewrite JsMapFacts.get_set_ne by done. apply Hreg.
    + unfold V2.deferList_of. simpl. rewrite JsMapFacts.get_set_eq. simpl.
      by rewrite Hreg.
Qed.

Lemma deferList_of_registered name name' s :
  V2.deferList_of name' (V2_registered name s) = V2.deferList_of name' s.
Proof.
  unfold V2.deferList_of, V2_registered. simpl.
  destruct (JsMap.get name (deferred s)) eqn:Hg; [done|].
  rewrite JsMapFacts.get_set. case_decide; [|done]. subst. by rewrite Hg.
Qed.

Lemma deferList_of_undeferred name k name' s :
  V2.deferList_of name' (V2_undeferred name k s) =
  if decide (name' = name) then JsSet.delete k (V2.deferList_of name s)
  else V2.deferList_of name' s.
Proof. apply deferList_of_update. Qed.

(** [insert] and [upsert] take the id of the entity out of the deferred
    set of its type, whether they return or throw. *)
Lemma V2_write_undefers e s o :
  heap s !! e = Some o →
  ∀ name,
    V2.deferList_of name (V2.upsert [e] s).1 =
      (if decide (name = constructor_name o)
       then JsSet.delete (id o) (V2.deferList_of (constructor_name o) s)
       else V2.deferList_of name s) ∧
    V2.deferList_of name (V2.insert [e] s).1 =
      (if decide (name = constructor_name o)
       then JsSet.delete (id o) (V2.deferList_of (constructor_name o) s)
       else V2.deferList_of name s).
Proof.
  intros He name. set (cls := constructor_name o).
  assert (heap (V2_registered cls s) !! e = Some o) as He0 by done.
  assert (V2.deferList_of name (V2_undeferred cls (id o) (V2_registered cls s)) =
          if decide (name = cls) then JsSet.delete (id o) (V2.deferList_of cls s)
          else V2.deferList_of name s) as Hun.
  { rewrite deferList_of_undeferred. by rewrite !deferList_of_registered. }
  split.
  - rewrite (V2_upsert_cons _ _ _ _ He), for_each_one. fold cls.
    destruct (JsMap.has (id o) (Nested.inner cls (insertMap (V2_registered cls s))))
      eqn:Hi.
    + by rewrite (V2_upsert_entity_inserted _ _ _ _ He0 Hi).
    + rewrite (V2_upsert_entity_filed _ _ _ _ He0); [done|].
      unfold pending_insert. congruence.
  - rewrite (V2_insert_cons _ _ _ _ He), for_each_one. fold cls.
    destruct (duplicate_dec (V2_registered cls s) cls (id o)) as [Hdup|Hfresh].
    + by rewrite (V2_insert_entity_duplicate _ _ _ _ He0 Hdup).
    + by rewrite (V2_insert_entity_fresh _ _ _ _ He0 Hfresh).
Qed.

Lemma JsSet_delete_added k (l : list string) :
  l = [] → JsSet.delete k (JsSet.add k l) = [].
Proof. intros ->. unfold JsSet.add. simpl. by rewrite decide_True. Qed.

Lemma V2_write_calls e s :
  calls (V2.upsert [e] s).1 = calls s ∧ calls (V2.insert [e] s).1 = calls s.
Proof.
  destruct (heap s !! e) as [o|] eqn:He.
  2: { unfold V2.upsert, V2.insert.
       by rewrite !(bind_throw _ _ _ _ _ (constructor_of_None _ _ He)). }
  assert (heap (V2_registered (constructor_name o) s) !! e = Some o) as He0 by done.
  split.
  - rewrite (V2_upsert_cons _ _ _ _ He), for_each_one.
    destruct (JsMap.has (id o) (Nested.inner (constructor_name o)
                (insertMap (V2_registered (constructor_name o) s)))) eqn:Hi.
    + by rewrite (V2_upsert_entity_inserted _ _ _ _ He0 Hi).
    + rewrite (V2_upsert_entity_filed _ _ _ _ He0); [done|].
      unfold pending_insert. congruence.
  - rewrite (V2_insert_cons _ _ _ _ He), for_each_one.
    destruct (duplicate_dec (V2_registered (constructor_name o) s)
                (constructor_name o) (id o)) as [Hdup|Hfresh].
    + by rewrite (V2_insert_entity_duplicate _ _ _ _ He0 Hdup).
    + by rewrite (V2_insert_entity_fresh _ _ _ _ He0 Hfresh).
Qed.
End V2_defer_write.

(** X18. In the second variant a write cancels a deferred load: when
    an id is deferred and the application then upserts or inserts an
    entity of that type with that id, the id is deferred no more, whether
    the write returned or threw, and no call was made on the store. When
    nothing else was deferred and the write returned, a [get] of the id
    is answered from the cache, without any call on the store. *)
Theorem X18_V2_a_write_cancels_the_deferred_load `{rt : Runtime}
    (s : State (list string)) (e : loc) (o : Obj) :
  heap s !! e = Some o → (∀ name, V2.deferList_of name s = []) →
  let cls := constructor_name o in
  let s1 := (V2.defer cls (id o) s).1 in
  let served s2 :=
    outside (V2.get cls (inl (id o)) s2).1 = outside s2 ∧
    (V2.get cls (inl (id o)) s2).2 ≠ Ok None in
  ((V2.upsert [e] s1).2 = Ok tt ∧ calls (V2.upsert [e] s1).1 = calls s ∧
   (∀ name, V2.deferList_of name (V2.upsert [e] s1).1 = []) ∧
   served (V2.upsert [e] s1).1) ∧
  (calls (V2.insert [e] s1).1 = calls s ∧
   (∀ name, V2.deferList_of name (V2.insert [e] s1).1 = []) ∧
   ((V2.insert [e] s1).2 = Ok tt → served (V2.insert [e] s1).1)).
Proof.
  intros He Hnone cls s1 served.
  destruct (V2_defer_spec cls (id o) s) as (Hh1 & Ho1 & Hc1 & Hother1 & Hcls1).
  fold s1 in Hh1, Ho1, Hc1, Hother1, Hcls1.
  assert (heap s1 !! e = Some o) as He1 by (by rewrite Hh1).
  assert (calls s1 = calls s) as Hcalls1.
  { apply keeps_outside in Ho1 as (? & _). done. }
  assert (∀ name, JsSet.delete (id o) (V2.deferList_of cls s1) = [] ∧
                  (name ≠ cls → V2.deferList_of name s1 = [])) as Hdef.
  { intros name. split.
    - rewrite Hcls1. destruct (JsMap.has _ _).
      + by rewrite Hnone.
      + by apply JsSet_delete_added.
    - intros Hne. by rewrite Hother1. }
  assert (∀ name, V2.deferList_of name (V2.upsert [e] s1).1 = [] ∧
                  V2.deferList_of name (V2.insert [e] s1).1 = []) as Hdone.
  { intros name. destruct (V2_write_undefers e s1 o He1 name) as [-> ->].
    fold cls. destruct (Hdef name) as [Hd Ho]. case_decide; auto. }
  destruct (V2_write_calls e s1) as [Hcu Hci].
  split; split_and!.
  - rewrite (V2_upsert_cons _ _ _ _ He1), for_each_one.
    apply (V2_upsert_entity_spec cls e (V2_registered cls s1) o). done.
  - congruence.
  - intros name. apply Hdone.
  - apply (V2_get_present cls (id o) e); [intros name; apply Hdone|].
    rewrite (V2_upsert_cons _ _ _ _ He1), for_each_one.
    apply (V2_upsert_entity_spec cls e (V2_registered cls s1) o). done.
  - congruence.
  - intros name. apply Hdone.
  - intros Hok. apply (V2_get_present cls (id o) e); [intros name; apply Hdone|].
    by apply V2_insert_pending.
Qed.

Lemma X18_witness :
  let o := Demo.account "0xabc" in
  let s : State (list string) := Demo.start in
  let s1 := (V2.defer (rt:=Demo.runtime) "Account" "0xabc" s).1 in
  let served s2 :=
    outside (V2.get (rt:=Demo.runtime) "Account" (inl "0xabc") s2).1 = outside s2 ∧
    (V2.get (rt:=Demo.runtime) "Account" (inl "0xabc") s2).2 ≠ Ok None in
  ((V2.upsert (rt:=Demo.runtime) [0] s1).2 = Ok tt ∧
   calls (V2.upsert (rt:=Demo.runtime) [0] s1).1 = calls s ∧
   (∀ name, V2.deferList_of name (V2.upsert (rt:=Demo.runtime) [0] s1).1 = []) ∧
   served (V2.upsert (rt:=Demo.runtime) [0] s1).1) ∧
  (calls (V2.insert (rt:=Demo.runtime) [0] s1).1 = calls s ∧
   (∀ name, V2.deferList_of name (V2.insert (rt:=Demo.runtime) [0] s1).1 = []) ∧
   ((V2.insert (rt:=Demo.runtime) [0] s1).2 = Ok tt →
    served (V2.insert (rt:=Demo.runtime) [0] s1).1)).
Proof.
  apply (X18_V2_a_write_cancels_the_deferred_load
           (rt:=Demo.runtime) Demo.start 0 (Demo.account "0xabc")).
  - reflexivity.
  - intros name. reflexivity.
Defined.

Section V1_defer_write.
Context `{rt : Runtime}.
Implicit Types (s : State V1.DeferData).

Lemma V1_deferred_cache depth es : frames (keeps deferred) (V1.cache depth es).
Proof.
  revert es. induction depth as [|depth IH]; intros es; simpl.
  - frames_auto.
  - destruct es; frames_auto; done.
Qed.

Lemma V1_deferred_cache_one e : frames (keeps deferred) (V1.cache_one e).
Proof. pose proof V1_deferred_cache. unfold V1.cache_one. frames_auto. Qed.

Lemma V1_deferred_upsert es : frames (keeps deferred) (V1.upsert es).
Proof.
  pose proof V1_deferred_cache_one.
  unfold V1.upsert, V1.upsert_entity. destruct es; frames_auto; done.
Qed.

Lemma V1_deferred_insert es : frames (keeps deferred) (V1.insert es).
Proof.
  pose proof V1_deferred_cache_one.
  unfold V1.insert, V1.insert_entity. destruct es; frames_auto; done.
Qed.
End V1_defer_write.

(** X19. In the first variant a write does not cancel a deferred load:
    whatever the application inserts or upserts after [defer], whether
    the write returns or throws, the id stays deferred, and a [get] of
    the id flushes and then issues the bulk find for the deferred ids,
    even when the cache holds the entity by then. *)
Theorem X19_V1_a_deferred_id_is_fetched_whatever_was_written `{rt : Runtime}
    (cls i : string) (r : option (list (string * RelVal))) (es : list loc)
    (s : State V1.DeferData) :
  let s1 := (V1.defer cls i r s).1 in
  let fetched s2 :=
    i ∈ V1_deferred_ids s2 cls ∧
    ∃ q, fo_where q = Some (WIdIn (V1_deferred_ids s2 cls)) ∧
         calls (V1.get cls (inl i) s2).1 =
           calls (V1.flush (Some cls) s2).1 ++ [CFind cls q] in
  fetched (V1.upsert es s1).1 ∧ fetched (V1.insert es s1).1.
Proof.
  intros s1 fetched.
  assert (i ∈ V1_deferred_ids s1 cls) as Hi.
  { unfold s1. rewrite V1_defer_ids. apply JsSet_add_elem. }
  assert (∀ s2, deferred s2 = deferred s1 → fetched s2) as Hfetched.
  { intros s2 Hd.
    assert (V1_deferred_ids s2 cls = V1_deferred_ids s1 cls) as Hids
      by (unfold V1_deferred_ids; by rewrite Hd).
    split; [by rewrite Hids|]. eexists. split; [|apply V1_get_resolves_query].
    - done.
    - by rewrite Hids. }
  split; apply Hfetched.
  - apply (V1_deferred_upsert es s1).
  - apply (V1_deferred_insert es s1).
Qed.

(** ** One query for the deferred ids of a type (second variant) *)

Section V2_resolving_facts.
Context `{rt : Runtime}.
Implicit Types (s : State (list string)).

#[export] Instance V2_resolving_preorder : PreOrder V2_resolving.
Proof.
  split.
  - intros s. split_and!; [by intros name k | done | by left].
  - intros s1 s2 s3 (Hk1 & Hs1 & Ht1) (Hk2 & Hs2 & Ht2). split_and!.
    + intros name k Hs. by apply Hk2, Hk1.
    + intros name j Hj. by apply Hs1, Hs2.
    + intros name j Hj. destruct (Ht1 name j Hj) as [Hj2|Hent]; [by apply Ht2|].
      right. by apply Hk2.
Qed.

(** A step that leaves the deferred sets and the cache alone. *)
Lemma V2_resolving_same s s' :
  deferred s' = deferred s →
  (∀ name k, Nested.lookup name k (cacheMap s') = Nested.lookup name k (cacheMap s)) →
  V2_resolving s s'.
Proof.
  intros Hd Hc. unfold V2_resolving, entries_kept, V2.deferList_of.
  rewrite Hd. split_and!.
  - intros name k. by rewrite Hc.
  - done.
  - intros name j Hj. by left.
Qed.

Lemma elem_of_JsSet_delete (k j : string) (l : list string) :
  j ∈ JsSet.delete k l ↔ j ∈ l ∧ j ≠ k.
Proof.
  induction l as [|x l IH]; simpl.
  - split; [by intros ?%elem_of_nil | by intros [?%elem_of_nil _]].
  - case_decide as Hk.
    + subst x. rewrite IH, elem_of_cons. split; [intros [? ?]; auto|].
      intros [[->|?] ?]; [done|auto].
    + rewrite !elem_of_cons, IH. split.
      * intros [->|[? ?]]; auto.
      * intros [[->|?] ?]; auto.
Qed.

(** [cache] takes the id of an entity out of the deferred set as it
    files the entity in the cache. *)
Lemma V2_resolving_file s name k e :
  V2_resolving s
    (with_cacheMap (Nested.update name (JsMap.set k (Some e)))
       (V2_undeferred name k s)).
Proof.
  split_and!.
  - intros n j Hs. simpl. rewrite NestedFacts.lookup_update_set.
    by case_decide.
  - intros n j. change (j ∈ V2.deferList_of n (V2_undeferred name k s) →
                        j ∈ V2.deferList_of n s).
    rewrite deferList_of_undeferred. case_decide; [subst|done].
    by intros [? _]%elem_of_JsSet_delete.
  - intros n j Hj.
    change (j ∈ V2.deferList_of n (V2_undeferred name k s) ∨
            is_Some (Nested.lookup n j
                       (Nested.update name (JsMap.set k (Some e)) (cacheMap s)))).
    rewrite deferList_of_undeferred, NestedFacts.lookup_update_set.
    destruct (decide (n = name)) as [->|Hn].
    + destruct (decide (j = k)) as [->|Hk].
      * right. rewrite decide_True by done. by eexists.
      * left. by apply elem_of_JsSet_delete.
    + by left.
Qed.

Lemma V2_resolving_getDeferList name : frames V2_resolving (V2.getDeferList name).
Proof.
  intros s. unfold V2.getDeferList. simpl.
  assert (∀ n, V2.deferList_of n
                 (with_deferred (λ m, match JsMap.get name m with
                                      | Some _ => m
                                      | None => JsMap.set name [] m
                                      end) s) = V2.deferList_of n s) as Hreg.
  { intros n. unfold V2.deferList_of. simpl.
    destruct (JsMap.get name (deferred s)) eqn:Hg; [done|].
    rewrite JsMapFacts.get_set. case_decide; [|done]. subst. by rewrite Hg. }
  split_and!.
  - by intros n k.
  - intros n j. by rewrite Hreg.
  - intros n j Hj. left. by rewrite Hreg.
Qed.

Lemma V2_resolving_cache_tail (rec : list loc → M (list loc)) e :
  (∀ es, frames V2_resolving (rec es)) →
  frames V2_resolving
    (cls <- constructor_of (D:=list string) e ;;
     match metadata_of entityMetadatas cls with
     | None => throw (AssertionError None)
     | Some metadata =>
         for_each (md_relations metadata) (V2.cache_relation rec e) ;;
         ret e
     end).
Proof. intros Hrec. unfold V2.cache_relation. frames_auto. Qed.

Lemma V2_resolving_cache depth es : frames V2_resolving (V2.cache depth es).
Proof.
  pose proof V2_resolving_getDeferList.
  revert es. induction depth as [|depth IH]; intros es; simpl; [frames_auto|].
  destruct es as [|e0 es]; [frames_auto|].
  frames_rule @frames_bind; [frames_auto|]. intros name0.
  frames_rule @frames_bind; [done|]. intros _.
  frames_rule @frames_bind.
  { unfold getCacheMap. frames_auto. apply V2_resolving_same; [done|].
    intros n k. simpl. apply NestedFacts.lookup_ensure. }
  intros _. frames_rule @frames_map_each. intros e _ s.
  unfold V2.cache_entity.
  destruct (heap s !! e) as [o|] eqn:He.
  2: { by rewrite (bind_throw _ _ _ _ _ (id_of_None _ _ He)). }
  rewrite (bind_ok _ _ _ _ _ (id_of_Some _ _ _ He)).
  unfold V2.update_deferList. rewrite !bind_modify.
  etrans; [apply (V2_resolving_file s name0 (id o) e)|].
  apply (V2_resolving_cache_tail (V2.cache depth) e IH).
Qed.

Lemma V2_resolving_flush entityClass : frames V2_resolving (V2.flush entityClass).
Proof.
  intros s. destruct (V2_flush_same_cache entityClass s) as (_ & Hd & Hc).
  by apply V2_resolving_same.
Qed.

Lemma V2_resolving_call_find cls q :
  frames V2_resolving (call_find (D:=list string) cls q).
Proof. intros s. by apply V2_resolving_same. Qed.

Lemma V2_resolving_find cls o : frames V2_resolving (V2.find cls o).
Proof.
  pose proof V2_resolving_flush. pose proof V2_resolving_call_find.
  pose proof V2_resolving_cache. unfold V2.find. frames_auto.
Qed.
End V2_resolving_facts.

Section V2_batch.
Context `{rt : Runtime}.
Implicit Types (s : State (list string)).

(** The round of [load] for a type with deferred ids, whatever the
    store answers: after the flush, one bulk find for the deferred ids;
    when the round returns, nothing is deferred for the type and each of
    the ids has an entry in the cache. *)
Lemma V2_load_entry_resolves cls s :
  V2.deferList_of cls s ≠ [] → JsMap.get cls (classes s) = Some cls →
  let r := V2.load_entry cls s in
  calls r.1 =
    calls (V2.flush cls s).1 ++
    [CFind cls {| fo_where := Some (WIdIn (V2.deferList_of cls s));
                  fo_relations := None |}] ∧
  (∀ name, V2.deferList_of name s = [] → V2.deferList_of name r.1 = []) ∧
  (r.2 = Ok tt →
   V2.deferList_of cls r.1 = [] ∧
   ∀ j, j ∈ V2.deferList_of cls s → is_Some (Nested.lookup cls j (cacheMap r.1))).
Proof.
  intros Hsome Hcls r. subst r. unfold V2.load_entry.
  rewrite bind_gets, bool_decide_false.
  2: { intros Hlen. by apply nil_length_inv in Hlen. }
  rewrite bind_gets, Hcls.
  set (o := Some {| fo_where := Some (WIdIn (V2.deferList_of cls s));
                    fo_relations := None |}).
  destruct (V2_find_flushes cls o s) as (Hcalls1 & _).
  destruct (V2_resolving_find cls o s) as (Hkept & Hshrink & Htrack).
  assert (∀ s', (∀ name j, j ∈ V2.deferList_of name s' → j ∈ V2.deferList_of name s) →
                ∀ name, V2.deferList_of name s = [] → V2.deferList_of name s' = [])
    as Hempty.
  { intros s' Hsub name Hnil. destruct (V2.deferList_of name s') as [|j l] eqn:Hl;
      [done|]. exfalso. specialize (Hsub name j). rewrite Hl, Hnil in Hsub.
    eapply elem_of_nil, Hsub, list_elem_of_here. }
  destruct (V2.find cls o s) as [s1 [res|e]] eqn:Hfind; simpl in *.
  2: { rewrite (bind_throw _ _ _ _ _ Hfind). simpl. split_and!; [done| |done].
       by apply Hempty. }
  rewrite (bind_ok _ _ _ _ _ Hfind). unfold getCacheMap.
  rewrite bind_modify, bind_gets.
  set (s2 := with_cacheMap (Nested.ensure cls) s1).
  destruct (premark_spec cls (V2.deferList_of cls s2) s2)
    as (s3 & Hpre & Hh3 & Ho3 & Hd3 & _ & Hk3 & Hin3).
  rewrite (bind_ok _ _ _ _ _ Hpre). unfold V2.update_deferList. simpl.
  apply keeps_outside in Ho3 as (Hc3 & _).
  assert (∀ name, name ≠ cls →
            V2.deferList_of name
              (with_deferred (λ m, JsMap.set cls [] m) s3) =
            V2.deferList_of name s1) as Hother.
  { intros name Hne. unfold V2.deferList_of. simpl.
    rewrite JsMapFacts.get_set_ne by done. by rewrite Hd3. }
  assert (V2.deferList_of cls (with_deferred (λ m, JsMap.set cls [] m) s3) = [])
    as Hcleared.
  { unfold V2.deferList_of. simpl. by rewrite JsMapFacts.get_set_eq. }
  split_and!.
  - by rewrite Hc3.
  - intros name Hnil. destruct (decide (name = cls)) as [->|Hne]; [done|].
    rewrite Hother by done. by apply Hempty.
  - intros _. split; [done|]. intros j Hj.
    assert (is_Some (Nested.lookup cls j (cacheMap s2)) →
            is_Some (Nested.lookup cls j (cacheMap s3))) as Hkeep.
    { intros [x Hx]. destruct (Hk3 cls j) as [->|[Hnone _]]; [by exists x|].
      congruence. }
    destruct (Htrack cls j Hj) as [Hj1|Hent].
    + apply Hin3. done.
    + apply Hkeep. unfold s2. simpl. by rewrite NestedFacts.lookup_ensure.
Qed.

(** When only [cls] has deferred ids, the loop of [load] is its round
    for [cls], also when the round throws. *)
Lemma V2_load_loop_throws names cls s s' e :
  cls ∈ names → (∀ name, name ≠ cls → V2.deferList_of name s = []) →
  V2.load_entry cls s = (s', Throw e) →
  for_each names V2.load_entry s = (s', Throw e).
Proof.
  intros Hin Hothers Hrun.
  induction names as [|name names IH]; simpl; [by apply elem_of_nil in Hin|].
  destruct (decide (name = cls)) as [->|Hne].
  - by rewrite (bind_throw _ _ _ _ _ Hrun).
  - rewrite (bind_ok _ _ _ _ _ (V2_load_entry_skip _ _ (Hothers name Hne))).
    apply IH. by apply elem_of_cons in Hin as [?|?].
Qed.

(** [get] with a string id when ids are deferred for its type only. *)
Lemma V2_get_resolves cls i s :
  i ∈ V2.deferList_of cls s →
  (∀ name, name ≠ cls → V2.deferList_of name s = []) →
  JsMap.get cls (classes s) = Some cls →
  let r := V2.get cls (inl i) s in
  calls r.1 =
    calls (V2.flush cls s).1 ++
    [CFind cls {| fo_where := Some (WIdIn (V2.deferList_of cls s));
                  fo_relations := None |}] ∧
  ∀ x, r.2 = Ok x →
    (∀ name, V2.deferList_of name r.1 = []) ∧
    ∀ j, j ∈ V2.deferList_of cls s → is_Some (Nested.lookup cls j (cacheMap r.1)).
Proof.
  intros Hi Hothers Hcls r. subst r.
  assert (V2.deferList_of cls s ≠ []) as Hsome.
  { intros Heq. rewrite Heq in Hi. by apply elem_of_nil in Hi. }
  destruct (V2_load_entry_resolves cls s Hsome Hcls) as (Hcalls & Hempty & Hdone).
  assert (cls ∈ JsMap.keys (deferred s)) as Hin.
  { destruct (decide (cls ∈ JsMap.keys (deferred s))) as [|Hnot]; [done|].
    apply JsMapFacts.get_None_keys in Hnot. unfold V2.deferList_of in Hsome.
    by rewrite Hnot in Hsome. }
  unfold V2.get, V2.load. rewrite bind_assoc, bind_gets.
  destruct (V2.load_entry cls s) as [s1 [[]|e]] eqn:Hround; simpl in *.
  2: { rewrite (bind_throw _ _ _ _ _
                  (V2_load_loop_throws _ cls s s1 e Hin Hothers Hround)).
       simpl. split; [done|]. by intros x. }
  destruct (Hdone eq_refl) as [Hcleared Hentries].
  assert (∀ name, V2.deferList_of name s1 = []) as Hall.
  { intros name. destruct (decide (name = cls)) as [->|Hne]; [done|].
    by apply Hempty, Hothers. }
  rewrite (bind_ok _ _ _ _ _ (V2_load_loop_one _ cls s s1 Hin Hothers Hround Hall)).
  unfold getCacheMap. rewrite bind_modify, bind_gets. simpl.
  rewrite NestedFacts.lookup_ensure.
  destruct (Hentries i Hi) as [x Hx]. rewrite Hx.
  assert (∀ name j, Nested.lookup name j
                      (cacheMap (with_cacheMap (Nested.ensure cls) s1)) =
                    Nested.lookup name j (cacheMap s1)) as Hens.
  { intros name j. simpl. apply NestedFacts.lookup_ensure. }
  destruct x as [l|].
  - pose proof (but_heap_structuredClone (D:=list string) l
                  (with_cacheMap (Nested.ensure cls) s1)) as Hcopy.
    apply keeps_but_heap in Hcopy as (Hcc & _ & _ & Hcd & Hcm).
    unfold bind.
    destruct (structuredClone l _) as [s2 [c|e]]; simpl in *.
    + split; [congruence|]. intros _ _. split.
      * intros name. unfold V2.deferList_of. rewrite Hcd. apply Hall.
      * intros j Hj. rewrite Hcm, NestedFacts.lookup_ensure. by apply Hentries.
    + split; [congruence|]. by intros x.
  - simpl. split; [done|]. intros _ _. split; [apply Hall|].
    intros j Hj. rewrite NestedFacts.lookup_ensure. by apply Hentries.
Qed.
End V2_batch.

(** X20. In the second variant, too, the ids deferred for a type are
    resolved by one query. When ids are deferred for one type only,
    [get] of one of them flushes and then issues one bulk find whose id
    filter lists all the deferred ids, and makes no other call. When it
    returns, nothing is deferred, every id of the batch has an entry in
    the cache, an entity or the absent marker, and a [get] of any of them
    makes no call on the store. *)
Theorem X20_V2_deferred_ids_are_resolved_by_one_query `{rt : Runtime}
    (cls i j : string) (s : State (list string)) :
  i ∈ V2.deferList_of cls s → j ∈ V2.deferList_of cls s →
  (∀ name, name ≠ cls → V2.deferList_of name s = []) →
  JsMap.get cls (classes s) = Some cls →
  let r := V2.get cls (inl i) s in
  calls r.1 =
    calls (V2.flush cls s).1 ++
    [CFind cls {| fo_where := Some (WIdIn (V2.deferList_of cls s));
                  fo_relations := None |}] ∧
  ∀ x, r.2 = Ok x →
    (∀ name, V2.deferList_of name r.1 = []) ∧
    is_Some (Nested.lookup cls j (cacheMap r.1)) ∧
    outside (V2.get cls (inl j) r.1).1 = outside r.1.
Proof.
  intros Hi Hj Hothers Hcls r.
  destruct (V2_get_resolves cls i s Hi Hothers Hcls) as [Hcalls Hdone].
  fold r in Hcalls, Hdone. split; [done|]. intros x Hx.
  destruct (Hdone x Hx) as [Hall Hentries].
  destruct (Hentries j Hj) as [y Hy].
  split; [done|]. split; [by exists y|]. by apply (V2_get_hit cls j y).
Qed.

Lemma X20_witness :
  let s := (V2.defer (rt:=Demo.runtime) "Account" "0x2"
              (V2.defer (rt:=Demo.runtime) "Account" "0x1" Demo.start).1).1 in
  let r := V2.get (rt:=Demo.runtime) "Account" (inl "0x1") s in
  calls r.1 =
    calls (V2.flush (rt:=Demo.runtime) "Account" s).1 ++
    [CFind "Account" {| fo_where := Some (WIdIn (V2.deferList_of "Account" s));
                        fo_relations := None |}] ∧
  ∀ x, r.2 = Ok x →
    (∀ name, V2.deferList_of name r.1 = []) ∧
    is_Some (Nested.lookup "Account" "0x2" (cacheMap r.1)) ∧
    outside (V2.get (rt:=Demo.runtime) "Account" (inl "0x2") r.1).1 = outside r.1.
Proof.
  apply (X20_V2_deferred_ids_are_resolved_by_one_query
           (rt:=Demo.runtime) "Account" "0x1" "0x2"
           (V2.defer (rt:=Demo.runtime) "Account" "0x2"
              (V2.defer (rt:=Demo.runtime) "Account" "0x1" Demo.start).1).1).
  - compute_done.
  - compute_done.
  - intros name Hne. unfold V2.deferList_of.
    assert (deferred (V2.defer (rt:=Demo.runtime) "Account" "0x2"
                        (V2.defer (rt:=Demo.runtime) "Account" "0x1"
                           Demo.start).1).1 = [("Account", ["0x1"; "0x2"])])
      as -> by (vm_compute; reflexivity).
    simpl. by rewrite decide_False.
  - vm_compute. reflexivity.
Defined.

(** ** The batch handler *)

#[export] Instance preserves_preorder {S} (I : S → Prop) : PreOrder (preserves I).
Proof.
  split; [intros s H; exact H | intros s1 s2 s3 H1 H2 H; apply H2, H1, H].
Qed.

Lemma JsSet_add_mono k j (ids : list string) : j ∈ ids → j ∈ JsSet.add k ids.
Proof.
  intros Hj. unfold JsSet.add, JsSet.has. case_bool_decide; [done|].
  apply elem_of_app. by left.
Qed.

Section handler_ids.
Context `{gen : Main.Generated}.

Lemma add_accounts_mono ids log j : j ∈ ids → j ∈ add_accounts ids log.
Proof.
  intros Hj. unfold add_accounts.
  destruct (Main.Transfer_decode log) as [[[f t] v]|e]; [|done].
  by do 2 apply JsSet_add_mono.
Qed.

Lemma foldl_add_accounts_mono logs ids j :
  j ∈ ids → j ∈ foldl add_accounts ids logs.
Proof.
  revert ids. induction logs as [|log logs IH]; intros ids Hj; simpl; [done|].
  by apply IH, add_accounts_mono.
Qed.

Lemma deferred_in_mono ids ids' t :
  (∀ j, j ∈ ids → j ∈ ids') → deferred_in ids t → deferred_in ids' t.
Proof. intros Hsub (Hf & Ht & Hfi & Hti). split_and!; auto. Qed.
End handler_ids.

(** What the handler does, from what it needs of the store with cache:
    [P ids] holds while [ids] wait to be resolved, and [Q ids] once they
    are. *)
Section handler_generic.
Context {D : Type} `{rt : Runtime} `{gen : Main.Generated} `{swc : !StoreWithCache D}.
Implicit Types (s : State D) (ids : list string).

Variables (c0 : list StoreCall) (query : list string → StoreCall).
Variables (P Q : list string → State D → Prop).

Hypothesis P_calls : ∀ ids s, P ids s → calls s = c0.
Hypothesis P_defer : ∀ ids i s, P ids s →
  ∃ s', swc_defer "Account" i s = (s', Ok (Account_handle i)) ∧
        P (JsSet.add i ids) s'.
Hypothesis P_get : ∀ ids i s, P ids s → i ∈ ids →
  calls (swc_get (Account_handle i) s).1.1 = c0 ++ [query ids] ∧
  ∀ x, (swc_get (Account_handle i) s).2 = Ok x →
       Q ids (swc_get (Account_handle i) s).1.1.
Hypothesis Q_calls : ∀ ids s, Q ids s → calls s = c0 ++ [query ids].
Hypothesis Q_get : ∀ ids i s, Q ids s → i ∈ ids →
  Q ids (swc_get (Account_handle i) s).1.1.
Hypothesis Q_insert : ∀ ids es, frames (preserves (Q ids)) (swc_insert es).
Hypothesis Q_alloc : ∀ ids o, frames (preserves (Q ids)) (alloc o).
Hypothesis insert_nothing : ∀ s, swc_insert [] s = (s, Ok tt).

Lemma getTransfer_spec ids log s :
  P ids s →
  match Main.getTransfer log s with
  | (s', Throw _) => calls s' = c0
  | (s', Ok t) => P (add_accounts ids log) s' ∧ deferred_in (add_accounts ids log) t
  end.
Proof.
  intros HP. unfold Main.getTransfer, add_accounts. unfold bind at 1.
  destruct (Main.Transfer_decode log) as [[[f t] v]|e]; [|by apply (P_calls ids)].
  destruct (Main.transaction log) as [tx|]; simpl.
  2: { unfold bind. simpl. by apply (P_calls ids). }
  rewrite bind_ret.
  destruct (P_defer ids (Main.toLowerCase f) s HP) as (s1 & Hrun1 & HP1).
  rewrite (bind_ok _ _ _ _ _ Hrun1).
  destruct (P_defer _ (Main.toLowerCase t) s1 HP1) as (s2 & Hrun2 & HP2).
  rewrite (bind_ok _ _ _ _ _ Hrun2). simpl.
  split; [done|]. split_and!; [done..| |].
  - apply JsSet_add_mono, JsSet_add_elem.
  - apply JsSet_add_elem.
Qed.

Lemma logs_loop_spec logs ids transfers s :
  P ids s → Forall (deferred_in ids) transfers →
  match Main.logs_loop logs transfers s with
  | (s', Throw _) => calls s' = c0
  | (s', Ok ts) =>
      let found :=
        filter (λ log, Main.topics log !! 0%nat = Some Main.Transfer_topic) logs in
      P (foldl add_accounts ids found) s' ∧
      Forall (deferred_in (foldl add_accounts ids found)) ts ∧
      length ts = (length transfers + length found)%nat
  end.
Proof.
  revert ids transfers s.
  induction logs as [|log logs IH]; intros ids transfers s HP Hts; simpl.
  - split_and!; [done..|lia].
  - rewrite filter_cons. case_bool_decide as Htopic.
    + rewrite decide_True by done. simpl.
      pose proof (getTransfer_spec ids log s HP) as Hget.
      destruct (Main.getTransfer log s) as [s1 [t|e]] eqn:Hrun.
      2: { by rewrite (bind_throw _ _ _ _ _ Hrun). }
      rewrite (bind_ok _ _ _ _ _ Hrun). destruct Hget as [HP1 Ht].
      assert (Forall (deferred_in (add_accounts ids log)) (transfers ++ [t])) as Hts1.
      { apply Forall_app. split; [|by apply Forall_singleton].
        eapply Forall_impl; [exact Hts|]. intros t0. apply deferred_in_mono.
        intros j. apply add_accounts_mono. }
      specialize (IH _ _ s1 HP1 Hts1).
      destruct (Main.logs_loop logs (transfers ++ [t]) s1) as [s2 [ts|e]]; [|done].
      destruct IH as (HP2 & Hts2 & Hlen). split_and!; [done..|].
      rewrite Hlen, length_app. simpl. lia.
    + rewrite decide_False by done. by apply IH.
Qed.

Lemma blocks_loop_spec blocks ids transfers s :
  P ids s → Forall (deferred_in ids) transfers →
  match Main.blocks_loop blocks transfers s with
  | (s', Throw _) => calls s' = c0
  | (s', Ok ts) =>
      P (foldl add_accounts ids (transfer_logs blocks)) s' ∧
      Forall (deferred_in (foldl add_accounts ids (transfer_logs blocks))) ts ∧
      length ts = (length transfers + length (transfer_logs blocks))%nat
  end.
Proof.
  revert ids transfers s.
  induction blocks as [|block blocks IH]; intros ids transfers s HP Hts; simpl.
  - split_and!; [done..|]. unfold transfer_logs. simpl. lia.
  - pose proof (logs_loop_spec (Main.logs block) ids transfers s HP Hts) as Hlogs.
    destruct (Main.logs_loop (Main.logs block) transfers s) as [s1 [ts1|e]] eqn:Hrun.
    2: { by rewrite (bind_throw _ _ _ _ _ Hrun). }
    rewrite (bind_ok _ _ _ _ _ Hrun). destruct Hlogs as (HP1 & Hts1 & Hlen1).
    specialize (IH _ _ s1 HP1 Hts1).
    destruct (Main.blocks_loop blocks ts1 s1) as [s2 [ts2|e]]; [|done].
    unfold transfer_logs in *. simpl. rewrite filter_app, foldl_app, length_app.
    destruct IH as (HP2 & Hts2 & Hlen2). cbv zeta in Hlen1.
    split_and!; [done..|]. rewrite Hlen2, Hlen1.
    exact (eq_sym (Nat.add_assoc _ _ _)).
Qed.

(** Once the ids are resolved, the rest of the handler keeps them so. *)
Lemma Q_DeferredValue_get ids i :
  i ∈ ids → frames (preserves (Q ids)) (Main.DeferredValue_get (Account_handle i)).
Proof.
  intros Hi s HQ. pose proof (Q_get ids i s HQ Hi) as Hget.
  unfold Main.DeferredValue_get.
  by destruct (swc_get (Account_handle i) s) as [[s' h] r].
Qed.

Lemma Q_createAccount ids i : frames (preserves (Q ids)) (Main.createAccount i).
Proof. unfold Main.createAccount. frames_auto. Qed.

Lemma Q_processTransfers_tail ids t rest transfers (from : option loc) :
  deferred_in ids t →
  (∀ transfers, frames (preserves (Q ids)) (Main.processTransfers_loop rest transfers)) →
  frames (preserves (Q ids))
    (from <- match from with
             | Some from => ret from
             | None => Main.createAccount (Main.fromId t)
             end ;;
     to <- Main.DeferredValue_get (Main.to t) ;;
     to <- match to with
           | Some to => ret to
           | None => Main.createAccount (Main.toId t)
           end ;;
     transfer <- alloc (Main.new_Transfer (Main.te_id t)
                          (Main.height (Main.te_block t))
                          (Main.timestamp (Main.te_block t))
                          (Main.hash (Main.te_transaction t))
                          from to (Main.amount t)) ;;
     Main.processTransfers_loop rest (transfers ++ [transfer])).
Proof.
  intros (Hf & Ht & Hfi & Hti) IH. rewrite Ht.
  pose proof (Q_DeferredValue_get ids (Main.toId t) Hti).
  pose proof (Q_createAccount ids).
  frames_auto.
Qed.

Lemma Q_processTransfers_loop ids data transfers :
  Forall (deferred_in ids) data →
  frames (preserves (Q ids)) (Main.processTransfers_loop data transfers).
Proof.
  revert transfers. induction data as [|t rest IH]; intros transfers Hdata; simpl.
  - frames_auto.
  - apply Forall_cons in Hdata as [Ht Hrest].
    frames_rule @frames_bind.
    + destruct Ht as (Hf & _ & Hfi & _). rewrite Hf.
      by apply Q_DeferredValue_get.
    + intros from. apply Q_processTransfers_tail; [done|].
      intros ts. by apply IH.
Qed.

(** Resolving the first handle asks the store once; nothing that follows
    asks again. *)
Lemma processTransfers_spec ids t data s :
  P ids s → Forall (deferred_in ids) (t :: data) →
  calls (Main.processTransfers (t :: data) s).1 = c0 ++ [query ids].
Proof.
  intros HP Hdata. apply Forall_cons in Hdata as [Ht Hrest].
  unfold Main.processTransfers. cbn [Main.processTransfers_loop].
  rewrite bind_assoc.
  pose proof Ht as (Hf & _ & Hfi & _).
  destruct (P_get ids (Main.fromId t) s HP Hfi) as [Hcalls Hdone].
  rewrite Hf. unfold bind at 1. unfold Main.DeferredValue_get at 1.
  destruct (swc_get (Account_handle (Main.fromId t)) s) as [[s1 h] [from|e]];
    simpl in *; [|done].
  apply (Q_calls ids).
  assert (frames (preserves (Q ids))
            (bind (from <- match from with
                           | Some from => ret from
                           | None => Main.createAccount (Main.fromId t)
                           end ;;
                   to <- Main.DeferredValue_get (Main.to t) ;;
                   to <- match to with
                         | Some to => ret to
                         | None => Main.createAccount (Main.toId t)
                         end ;;
                   transfer <- alloc (Main.new_Transfer (Main.te_id t)
                                        (Main.height (Main.te_block t))
                                        (Main.timestamp (Main.te_block t))
                                        (Main.hash (Main.te_transaction t))
                                        from to (Main.amount t)) ;;
                   Main.processTransfers_loop data ([] ++ [transfer]))
                  swc_insert)) as Hrest'.
  { frames_rule @frames_bind; [|intros ts; apply Q_insert].
    apply Q_processTransfers_tail; [done|].
    intros ts. by apply Q_processTransfers_loop. }
  apply (Hrest' s1). by apply (Hdone from).
Qed.

Hypothesis P_new : ∀ s, calls s = c0 → P [] (Main.new_StoreWithCache s).

Lemma handler_spec blocks s :
  calls s = c0 →
  let r := Main.handler blocks s in
  (calls r.1 = c0 ∨ ∃ ids, calls r.1 = c0 ++ [query ids]) ∧
  (r.2 = Ok tt →
   calls r.1 = c0 ++ match transfer_logs blocks with
                     | [] => []
                     | _ => [query (account_ids (transfer_logs blocks))]
                     end).
Proof.
  intros Hc0 r. subst r. unfold Main.handler. rewrite bind_modify.
  pose proof (blocks_loop_spec blocks [] [] _ (P_new s Hc0) (Forall_nil_2 _)) as Hloop.
  destruct (Main.blocks_loop blocks [] (Main.new_StoreWithCache s))
    as [s1 [ts|e]] eqn:Hrun.
  2: { rewrite (bind_throw _ _ _ _ _ Hrun). simpl. split; [by left|done]. }
  rewrite (bind_ok _ _ _ _ _ Hrun). destruct Hloop as (HP1 & Hts & Hlen).
  fold (account_ids (transfer_logs blocks)) in HP1, Hts.
  destruct ts as [|t ts].
  - unfold Main.processTransfers. simpl. rewrite bind_ret, insert_nothing. simpl.
    pose proof (P_calls _ _ HP1) as Hc1. split; [by left|]. intros _.
    destruct (transfer_logs blocks); [by rewrite app_nil_r|done].
  - pose proof (processTransfers_spec _ t ts s1 HP1 Hts) as Hcalls.
    split; [right; by eexists|]. intros _.
    destruct (transfer_logs blocks); [done|]. done.
Qed.
End handler_generic.

(** *** The first variant under the handler *)

Section V1_handler.
Context `{rt : Runtime}.
Implicit Types (s : State V1.DeferData) (ids : list string).

Lemma V1_outside_defer cls i r : frames (keeps outside) (V1.defer cls i r).
Proof. unfold V1.defer, V1.getDeferData. frames_auto; done. Qed.

Lemma V1_calls_cache_one e : frames (keeps calls) (V1.cache_one e).
Proof.
  eapply frames_weaken; [|apply V1_outside_cache_one].
  intros s s' Hout. by apply keeps_outside in Hout as [? _].
Qed.

Lemma V1_calls_insert es : frames (keeps calls) (V1.insert es).
Proof.
  pose proof V1_calls_cache_one.
  unfold V1.insert, V1.insert_entity, getInsertList, getUpsertList, getCacheMap.
  destruct es; frames_auto; done.
Qed.

Lemma V1_entries_kept_cache_one e : frames entries_kept (V1.cache_one e).
Proof.
  pose proof V1_entries_kept_cache. unfold V1.cache_one. frames_auto.
Qed.

Lemma V1_entries_kept_insert es : frames entries_kept (V1.insert es).
Proof.
  pose proof V1_entries_kept_cache_one.
  unfold V1.insert, V1.insert_entity, getInsertList, getUpsertList, getCacheMap.
  destruct es; frames_auto;
    first [apply entries_kept_ensure | by intros ? ? ?].
Qed.

Lemma V1_flush_nothing cls s :
  (∀ name, nothing_pending s name) → calls (V1.flush cls s).1 = calls s.
Proof.
  intros Hnone. unfold V1.flush, getTopologicalOrder. rewrite bind_ret.
  apply V1_flush_loop_quiet. intros name _. apply Hnone.
Qed.

(** [get] of an id that has an entry, when nothing is deferred for the
    type. *)
Lemma V1_get_hit_state cls i x s :
  V1_deferred_ids s cls = [] → Nested.lookup cls i (cacheMap s) = Some x →
  let s' := (V1.get cls (inl i) s).1 in
  calls s' = calls s ∧ V1_deferred_ids s' cls = [] ∧ entries_kept s s'.
Proof.
  intros Hids Hx s'. subst s'. unfold V1.get, V1.load.
  destruct (V1_getDeferData_run cls s) as (d & Hd & Hdeq).
  rewrite bind_assoc, (bind_ok _ _ _ _ _ Hd).
  assert (V1.ids d = []) as -> by (by rewrite Hdeq).
  simpl. rewrite bind_ret. unfold getCacheMap. rewrite bind_modify, bind_gets.
  set (s0 := with_cacheMap _ _).
  assert (calls s0 = calls s ∧ V1_deferred_ids s0 cls = [] ∧ entries_kept s s0)
    as (Hc0 & Hd0 & Hk0).
  { split_and!; [done| |].
    - unfold V1_deferred_ids in *. simpl.
      destruct (JsMap.get cls (deferred s)) eqn:Hg; simpl; [by rewrite Hg|].
      by rewrite JsMapFacts.get_set_eq.
    - intros n k Hs. simpl. by rewrite NestedFacts.lookup_ensure. }
  assert (Nested.lookup cls i (cacheMap s0) = Some x) as ->.
  { unfold s0. simpl. by rewrite NestedFacts.lookup_ensure. }
  destruct x as [l|]; [|done].
  pose proof (but_heap_copy_anything (D:=V1.DeferData) stack_limit l s0) as Hcopy.
  apply keeps_but_heap in Hcopy as (Hcc & _ & _ & Hcd & Hcm).
  unfold V1.copy, bind.
  destruct (copy_anything stack_limit l s0) as [s1 [c|e]]; simpl in *.
  - split_and!; [congruence| |].
    + unfold V1_deferred_ids in *. by rewrite Hcd.
    + intros n k Hs. rewrite Hcm. by apply Hk0.
  - split_and!; [congruence| |].
    + unfold V1_deferred_ids in *. by rewrite Hcd.
    + intros n k Hs. rewrite Hcm. by apply Hk0.
Qed.

Lemma V1_waiting_defer c0 ids i s :
  V1_waiting c0 ids s →
  ∃ s', V1.defer "Account" i None s = (s', Ok (Account_handle i)) ∧
        V1_waiting c0 (JsSet.add i ids) s'.
Proof.
  intros (Hc & Hnone & Hids & Hrels).
  pose proof (V1_defer_returns "Account" i None s) as Hret.
  pose proof (V1_outside_defer "Account" i None s) as Hout.
  pose proof (V1_defer_ids "Account" i None s) as Hids'.
  pose proof (V1_defer_relations "Account" i None s) as Hrels'.
  destruct (V1.defer "Account" i None s) as [s' out]; simpl in *. subst out.
  exists s'. split; [done|].
  apply keeps_outside in Hout as (Hc' & _ & Hi' & Hu').
  split_and!.
  - congruence.
  - intros name. destruct (Hnone name) as [Hi Hu].
    unfold nothing_pending. by rewrite Hi', Hu'.
  - by rewrite Hids', Hids.
  - by rewrite Hrels'.
Qed.

Lemma V1_waiting_get c0 ids i s :
  V1_waiting c0 ids s → i ∈ ids →
  calls (V1.DeferredValue_get (Account_handle i) s).1.1 =
    c0 ++ [Account_query (Some []) ids] ∧
  ∀ x, (V1.DeferredValue_get (Account_handle i) s).2 = Ok x →
       V1_resolved (c0 ++ [Account_query (Some []) ids]) ids
                   (V1.DeferredValue_get (Account_handle i) s).1.1.
Proof.
  intros (Hc & Hnone & Hids & Hrels) Hi. rewrite <- Hids in Hi.
  pose proof (V1_get_resolves_query "Account" i s Hi) as Hcalls.
  rewrite (V1_flush_nothing _ _ Hnone), Hc, Hids, Hrels in Hcalls.
  unfold V1.DeferredValue_get, Account_handle. cbn [dv_memo dv_entityClass dv_id].
  destruct (V1.get "Account" (inl i) s) as [s' out] eqn:Hrun; cbn [fst snd] in *.
  split; [exact Hcalls|]. intros x ->.
  destruct (V1_get_resolves_entries "Account" i s s' x Hi Hrun) as [Hall Hdone].
  split_and!; [done..|]. intros j Hj. apply Hall. by rewrite Hids.
Qed.

Lemma V1_resolved_get c ids i s :
  V1_resolved c ids s → i ∈ ids →
  V1_resolved c ids (V1.DeferredValue_get (Account_handle i) s).1.1.
Proof.
  intros (Hc & Hnone & Hall) Hi. destruct (Hall i Hi) as [x Hx].
  destruct (V1_get_hit_state "Account" i x s Hnone Hx) as (Hc' & Hd' & Hk').
  unfold V1.DeferredValue_get, Account_handle. cbn [dv_memo dv_entityClass dv_id].
  destruct (V1.get "Account" (inl i) s) as [s' out]; cbn [fst snd] in *.
  split_and!; [congruence|done|]. intros j Hj. by apply Hk', Hall.
Qed.

Lemma V1_resolved_insert c ids es :
  frames (preserves (V1_resolved c ids)) (V1.insert es).
Proof.
  intros s (Hc & Hnone & Hall).
  pose proof (V1_calls_insert es s) as Hc'.
  pose proof (V1_deferred_insert es s) as Hd'.
  pose proof (V1_entries_kept_insert es s) as Hk'.
  unfold keeps in *. split_and!.
  - congruence.
  - unfold V1_deferred_ids in *. by rewrite Hd'.
  - intros j Hj. by apply Hk', Hall.
Qed.

Lemma V1_resolved_alloc c ids o :
  frames (preserves (V1_resolved c ids)) (alloc o).
Proof. intros s HQ. exact HQ. Qed.

Lemma V1_waiting_new s :
  V1_waiting (calls s) [] (Main.new_StoreWithCache s).
Proof. by split_and!. Qed.
End V1_handler.

(** *** The second variant under the handler *)

Section V2_handler.
Context `{rt : Runtime}.
Implicit Types (s : State (list string)) (ids : list string).

Lemma V2_calls_insert es : frames (keeps calls) (V2.insert es).
Proof.
  unfold V2.insert, V2.insert_entity, V2.getDeferList, V2.update_deferList,
    getInsertList, getUpsertList, getCacheMap.
  destruct es; frames_auto; done.
Qed.

Lemma V2_entries_kept_insert es : frames entries_kept (V2.insert es).
Proof.
  unfold V2.insert, V2.insert_entity, V2.getDeferList, V2.update_deferList,
    getInsertList, getUpsertList, getCacheMap.
  destruct es; frames_auto;
    first [apply entries_kept_ensure | apply entries_kept_set | by intros ? ? ?].
Qed.

Lemma V2_settled_insert es :
  frames (preserves (λ s, ∀ name, V2.deferList_of name s = [])) (V2.insert es).
Proof.
  unfold V2.insert, V2.insert_entity, V2.getDeferList, V2.update_deferList,
    getInsertList, getUpsertList, getCacheMap.
  destruct es; frames_auto; try (intros Hnone; exact Hnone).
  - intros Hnone name. unfold V2.deferList_of in *. simpl.
    destruct (JsMap.get a (deferred _)) eqn:Hg; [apply Hnone|].
    rewrite JsMapFacts.get_set. case_decide; [done|apply Hnone].
  - intros Hnone name. rewrite deferList_of_update. case_decide; [|apply Hnone].
    by rewrite Hnone.
Qed.

Lemma V2_flush_nothing cls s :
  (∀ name, nothing_pending s name) → calls (V2.flush cls s).1 = calls s.
Proof.
  intros Hnone. unfold V2.flush, getTopologicalOrder. rewrite bind_ret.
  apply V2_flush_loop_quiet. intros name _. apply Hnone.
Qed.

Lemma V2_get_hit_state cls i x s :
  (∀ name, V2.deferList_of name s = []) →
  Nested.lookup cls i (cacheMap s) = Some x →
  let s' := (V2.get cls (inl i) s).1 in
  calls s' = calls s ∧ (∀ name, V2.deferList_of name s' = []) ∧ entries_kept s s'.
Proof.
  intros Hnone Hx s'. subst s'. unfold V2.get.
  rewrite (bind_ok _ _ _ _ _ (V2_load_nothing s Hnone)). unfold getCacheMap.
  rewrite bind_modify, bind_gets. simpl.
  rewrite NestedFacts.lookup_ensure, Hx.
  assert (entries_kept s (with_cacheMap (Nested.ensure cls) s)) as Hk0
    by apply entries_kept_ensure.
  destruct x as [l|]; [|done].
  pose proof (but_heap_structuredClone (D:=list string) l
                (with_cacheMap (Nested.ensure cls) s)) as Hcopy.
  apply keeps_but_heap in Hcopy as (Hcc & _ & _ & Hcd & Hcm).
  unfold bind.
  destruct (structuredClone l _) as [s1 [c|e]]; simpl in *.
  - split_and!; [done| |].
    + intros name. unfold V2.deferList_of. rewrite Hcd. apply Hnone.
    + intros n k Hs. rewrite Hcm. by apply Hk0.
  - split_and!; [done| |].
    + intros name. unfold V2.deferList_of. rewrite Hcd. apply Hnone.
    + intros n k Hs. rewrite Hcm. by apply Hk0.
Qed.

Lemma V2_defer_classes cls i s :
  JsMap.get cls (classes (V2.defer cls i s).1) = Some cls.
Proof.
  unfold V2.defer, V2.getDeferList, getCacheMap, V2.update_deferList.
  rewrite !bind_modify, bind_gets.
  destruct (JsMap.has i _); simpl; apply JsMapFacts.get_set_eq.
Qed.

Lemma V2_waiting_defer c0 ids i s :
  V2_waiting c0 ids s →
  ∃ s', V2.defer "Account" i s = (s', Ok (Account_handle i)) ∧
        V2_waiting c0 (JsSet.add i ids) s'.
Proof.
  intros (Hc & Hnone & Hids & Hothers & Hcls & Hcache).
  pose proof (V2_defer_returns "Account" i s) as Hret.
  pose proof (V2_defer_classes "Account" i s) as Hcls'.
  destruct (V2_defer_spec "Account" i s) as (_ & Hout & Hlook & Hother' & Hlist).
  assert (JsMap.has i (Nested.inner "Account" (cacheMap s)) = false) as Hhas.
  { apply JsMapFacts.has_false. apply (Hcache i). }
  rewrite Hhas in Hlist.
  destruct (V2.defer "Account" i s) as [s' out]; simpl in *. subst out.
  exists s'. split; [done|].
  apply keeps_outside in Hout as (Hc' & _ & Hi' & Hu').
  split_and!.
  - congruence.
  - intros name. destruct (Hnone name) as [Hi Hu].
    unfold nothing_pending. by rewrite Hi', Hu'.
  - by rewrite Hlist, Hids.
  - intros name Hne. rewrite Hother' by done. by apply Hothers.
  - done.
  - intros k. rewrite Hlook. apply Hcache.
Qed.

Lemma V2_waiting_get c0 ids i s :
  V2_waiting c0 ids s → i ∈ ids →
  calls (V2.DeferredValue_get (Account_handle i) s).1.1 =
    c0 ++ [Account_query None ids] ∧
  ∀ x, (V2.DeferredValue_get (Account_handle i) s).2 = Ok x →
       V2_resolved (c0 ++ [Account_query None ids]) ids
                   (V2.DeferredValue_get (Account_handle i) s).1.1.
Proof.
  intros (Hc & Hnone & Hids & Hothers & Hcls & Hcache) Hi.
  assert (ids ≠ []) as Hsome.
  { intros ->. by apply elem_of_nil in Hi. }
  rewrite <- Hids in Hi.
  destruct (V2_get_resolves "Account" i s Hi Hothers (Hcls Hsome))
    as [Hcalls Hdone].
  rewrite (V2_flush_nothing _ _ Hnone), Hc, Hids in Hcalls.
  unfold V2.DeferredValue_get, Account_handle. cbn [dv_memo dv_entityClass dv_id].
  destruct (V2.get "Account" (inl i) s) as [s' out]; cbn [fst snd] in *.
  split; [exact Hcalls|]. intros x ->.
  destruct (Hdone x eq_refl) as [Hall Hentries].
  split_and!; [done..|]. intros j Hj. apply Hentries. by rewrite Hids.
Qed.

Lemma V2_resolved_get c ids i s :
  V2_resolved c ids s → i ∈ ids →
  V2_resolved c ids (V2.DeferredValue_get (Account_handle i) s).1.1.
Proof.
  intros (Hc & Hnone & Hall) Hi. destruct (Hall i Hi) as [x Hx].
  destruct (V2_get_hit_state "Account" i x s Hnone Hx) as (Hc' & Hd' & Hk').
  unfold V2.DeferredValue_get, Account_handle. cbn [dv_memo dv_entityClass dv_id].
  destruct (V2.get "Account" (inl i) s) as [s' out]; cbn [fst snd] in *.
  split_and!; [congruence|done|]. intros j Hj. by apply Hk', Hall.
Qed.

Lemma V2_resolved_insert c ids es :
  frames (preserves (V2_resolved c ids)) (V2.insert es).
Proof.
  intros s (Hc & Hnone & Hall).
  pose proof (V2_calls_insert es s) as Hc'.
  pose proof (V2_settled_insert es s Hnone) as Hd'.
  pose proof (V2_entries_kept_insert es s) as Hk'.
  unfold keeps in *. split_and!.
  - congruence.
  - done.
  - intros j Hj. by apply Hk', Hall.
Qed.

Lemma V2_resolved_alloc c ids o :
  frames (preserves (V2_resolved c ids)) (alloc o).
Proof. intros s HQ. exact HQ. Qed.

Lemma V2_waiting_new s :
  V2_waiting (calls s) [] (Main.new_StoreWithCache s).
Proof. by split_and!. Qed.
End V2_handler.

(** X21. The batch handler of the squid, over either variant, asks the
    store once and never writes to it. Whatever the batch and whatever
    the outcome, the handler makes no call on the store or one, a bulk
    find of [Account] with an id filter. When it returns, it has made no
    call if no log of the batch has the topic of [Transfer], and
    otherwise exactly one: the bulk find whose id filter lists the
    lower-cased senders and receivers of these logs, each once, in the
    order of their first appearance. The accounts it creates and the
    transfers are never sent to the store. *)
Theorem X21_the_handler_asks_the_store_once_and_never_writes
    `{rt : Runtime} `{gen : Main.Generated} (blocks : list Main.BlockData) :
  let asked (query : list string → StoreCall) (before after : list StoreCall)
      (out : Outcome unit) :=
    (after = before ∨ ∃ ids, after = before ++ [query ids]) ∧
    (out = Ok tt →
     after = before ++ match transfer_logs blocks with
                       | [] => []
                       | _ => [query (account_ids (transfer_logs blocks))]
                       end) in
  (∀ s : State V1.DeferData,
     asked (Account_query (Some [])) (calls s)
           (calls (Main.handler blocks s).1) (Main.handler blocks s).2) ∧
  (∀ s : State (list string),
     asked (Account_query None) (calls s)
           (calls (Main.handler blocks s).1) (Main.handler blocks s).2).
Proof.
  intros asked. subst asked. cbv beta. split; intros s.
  - apply (handler_spec (calls s) (Account_query (Some []))
             (V1_waiting (calls s))
             (λ ids, V1_resolved (calls s ++ [Account_query (Some []) ids]) ids)).
    + by intros ids s0 (Hc & _).
    + intros ids i s0. apply V1_waiting_defer.
    + intros ids i s0. apply V1_waiting_get.
    + by intros ids s0 (Hc & _).
    + intros ids i s0. apply V1_resolved_get.
    + intros ids es. apply V1_resolved_insert.
    + intros ids o. apply V1_resolved_alloc.
    + done.
    + intros s0 <-. apply V1_waiting_new.
    + done.
  - apply (handler_spec (calls s) (Account_query None)
             (V2_waiting (calls s))
             (λ ids, V2_resolved (calls s ++ [Account_query None ids]) ids)).
    + by intros ids s0 (Hc & _).
    + intros ids i s0. apply V2_waiting_defer.
    + intros ids i s0. apply V2_waiting_get.
    + by intros ids s0 (Hc & _).
    + intros ids i s0. apply V2_resolved_get.
    + intros ids es. apply V2_resolved_insert.
    + intros ids o. apply V2_resolved_alloc.
    + done.
    + intros s0 <-. apply V2_waiting_new.
    + done.
Qed.

Lemma X21_witness :
  let r := Main.handler (D:=V1.DeferData) (rt:=Demo.runtime) (gen:=Demo.generated)
             Demo.batch (init (rt:=Demo.runtime) ([] : list Obj)) in
  let r2 := Main.handler (D:=list string) (rt:=Demo.runtime) (gen:=Demo.generated)
              Demo.batch (init (rt:=Demo.runtime) ([] : list Obj)) in
  (r.2 = Ok tt ∧ calls r.1 = [Account_query (Some []) ["0xab"; "0xcd"; "0xef"]]) ∧
  (r2.2 = Ok tt ∧ calls r2.1 = [Account_query None ["0xab"; "0xcd"; "0xef"]]).
Proof.
  intros r r2.
  assert (r.2 = Ok tt) as Hok by (vm_compute; reflexivity).
  assert (r2.2 = Ok tt) as Hok2 by (vm_compute; reflexivity).
  destruct (X21_the_handler_asks_the_store_once_and_never_writes
              (rt:=Demo.runtime) (gen:=Demo.generated) Demo.batch) as [H1 H2].
  split; (split; [done|]).
  - destruct (H1 (init (rt:=Demo.runtime) ([] : list Obj))) as [_ Hcalls].
    fold r in Hcalls. rewrite (Hcalls Hok). vm_compute. reflexivity.
  - destruct (H2 (init (rt:=Demo.runtime) ([] : list Obj))) as [_ Hcalls].
    fold r2 in Hcalls. rewrite (Hcalls Hok2). vm_compute. reflexivity.
Defined.

(** ** What the bulk find of a resolution caches (first variant) *)

Section shifted.
Lemma obj_get_shift base p (o : Obj) :
  obj_get p (shift_obj base o) = shift_value base (obj_get p o).
Proof.
  unfold obj_get, shift_obj. simpl.
  induction (props o) as [|[k v] m IH]; simpl; [done|].
  by case_decide.
Qed.

Lemma obj_has_shift base p (o : Obj) :
  obj_has p (shift_obj base o) = obj_has p o.
Proof.
  unfold obj_has, JsMap.has, shift_obj. simpl.
  induction (props o) as [|[k v] m IH]; simpl; [done|].
  by case_decide.
Qed.

Lemma refs_in_impl (P Q : loc → Prop) v :
  (∀ l, P l → Q l) → refs_in P v → refs_in Q v.
Proof.
  intros HPQ. destruct v; simpl; try done; [apply HPQ|].
  intros Hall. by eapply Forall_impl.
Qed.

Lemma refs_in_shift base (P : loc → Prop) v :
  refs_in (λ r, P (base + r)) v → refs_in P (shift_value base v).
Proof. destruct v; simpl; try done. by rewrite Forall_fmap. Qed.

Lemma lookup_materialized (h objs : list Obj) l ob :
  (h ++ (shift_obj (length h) <$> objs)) !! l = Some ob → (length h ≤ l)%nat →
  ∃ ob0, objs !! (l - length h) = Some ob0 ∧ ob = shift_obj (length h) ob0.
Proof.
  intros Hl Hge. rewrite lookup_app_r, list_lookup_fmap in Hl by done.
  destruct (objs !! (l - length h)) as [ob0|]; [|done].
  injection Hl as <-. by exists ob0.
Qed.

Lemma lookup_materialized_2 (h objs : list Obj) r ob0 :
  objs !! r = Some ob0 →
  (h ++ (shift_obj (length h) <$> objs)) !! (length h + r) =
  Some (shift_obj (length h) ob0).
Proof.
  intros Hr. rewrite lookup_app_r by lia.
  replace (length h + r - length h) with r by lia.
  by rewrite list_lookup_fmap, Hr.
Qed.
End shifted.

Section caches_batch_facts.
Context {D : Type} `{rt : Runtime}.
Implicit Types (s : State D).

#[export] Instance caches_batch_preorder base n :
  PreOrder (caches_batch (D:=D) base n).
Proof.
  split.
  - intros s Hwf Hok. split_and!; [done..|]. intros name k. by left.
  - intros s1 s2 s3 H12 H23 Hwf1 Hok1.
    destruct (H12 Hwf1 Hok1) as (Hwf2 & Hok2 & Hobj2 & Hent2).
    destruct (H23 Hwf2 Hok2) as (Hwf3 & Hok3 & Hobj3 & Hent3).
    split_and!; [done..| |].
    + intros l Hl. by rewrite Hobj3, Hobj2.
    + intros name k.
      destruct (Hent3 name k) as [->|(l & o & Hl & Ho & Hid)]; [apply Hent2|].
      right. exists l, o. split_and!; [done| |done]. by rewrite <- Hobj2.
Qed.

(** A step that keeps the objects of the batch and the entries of the
    cache. *)
Lemma caches_batch_frame base n s s' :
  (cache_wf s → cache_wf s') →
  (∀ l o, in_batch base n l → heap s !! l = Some o → heap s' !! l = Some o) →
  (∀ name k,
     Nested.lookup name k (cacheMap s') = Nested.lookup name k (cacheMap s)) →
  caches_batch base n s s'.
Proof.
  intros Hwf' Hobj Hent Hwf [Hthere Hout].
  assert (∀ l, in_batch base n l → heap s' !! l = heap s !! l) as Hsame.
  { intros l Hl. destruct (Hthere l Hl) as (o & Ho & _). rewrite Ho.
    by apply Hobj. }
  split_and!; [by apply Hwf'| |done|].
  - split.
    + intros l Hl. rewrite Hsame by done. by apply Hthere.
    + intros name k l Hp. apply (Hout name k). unfold present in *.
      by rewrite <- Hent.
  - intros name k. left. apply Hent.
Qed.

Lemma cache_wf_insert s l o :
  cache_wf s → cache_wf (with_heap (λ h, <[l := o]> h) s).
Proof.
  intros [Hclosed Hinj]. split; [|done].
  intros name k l' Hp. simpl. apply lookup_lt_is_Some. rewrite length_insert.
  apply lookup_lt_is_Some. by apply (Hclosed name k).
Qed.

Lemma caches_batch_alloc base n o :
  frames (caches_batch base n) (alloc (D:=D) o).
Proof.
  intros s. simpl. apply caches_batch_frame.
  - intros Hwf. apply (ce_wf _ _ (cache_step_alloc o s Hwf)).
  - intros l o' _ Hl. by apply lookup_app_l_Some.
  - done.
Qed.

Lemma caches_batch_write_prop base n l p v :
  ¬ in_batch base n l → frames (caches_batch base n) (write_prop (D:=D) l p v).
Proof.
  intros Hout s. unfold write_prop, deref, bind, gets, modify. simpl.
  destruct (heap s !! l) as [o|] eqn:Hl; simpl; [|reflexivity].
  apply caches_batch_frame.
  - apply cache_wf_insert.
  - intros l' o' Hin Hl'. simpl. rewrite list_lookup_insert_ne; [done|].
    by intros ->.
  - done.
Qed.

Lemma caches_batch_write_id base n l i :
  ¬ in_batch base n l → frames (caches_batch base n) (write_id (D:=D) l i).
Proof.
  intros Hout s. unfold write_id, deref, bind, gets, modify. simpl.
  destruct (heap s !! l) as [o|] eqn:Hl; simpl; [|reflexivity].
  apply caches_batch_frame.
  - apply cache_wf_insert.
  - intros l' o' Hin Hl'. simpl. rewrite list_lookup_insert_ne; [done|].
    by intros ->.
  - done.
Qed.

Lemma caches_batch_getCacheMap base n name :
  frames (caches_batch base n) (getCacheMap (D:=D) name).
Proof.
  intros s. simpl. apply caches_batch_frame.
  - intros Hwf. apply (ce_wf _ _ (cache_step_getCacheMap name s Hwf)).
  - done.
  - intros k name'. simpl. apply NestedFacts.lookup_ensure.
Qed.

(** What is read from an object of the batch refers to the batch. *)
Lemma caches_batch_read base n l p {A} (f : Value → M (S:=State D) A) :
  in_batch base n l →
  (∀ v, refs_in (in_batch base n) v → frames (caches_batch base n) (f v)) →
  frames (caches_batch base n) (bind (read_prop l p) f).
Proof.
  intros Hin Hf s. destruct (heap s !! l) as [o|] eqn:Hl.
  - rewrite (bind_ok _ _ _ _ _ (read_prop_Some _ _ _ p Hl)).
    intros Hwf Hok. apply Hf; [|done..].
    destruct (proj1 Hok l Hin) as (o' & Ho' & Hrefs).
    assert (o' = o) as -> by congruence. apply Hrefs.
  - assert (read_prop l p s = (s, Throw TypeError)) as Hr.
    { unfold read_prop. by rewrite (bind_throw _ _ _ _ _ (deref_None _ _ Hl)). }
    rewrite (bind_throw _ _ _ _ _ Hr). reflexivity.
Qed.

(** The batch a query has put into the heap, when its answer is
    closed. *)
Lemma materialized_batch_ok s f :
  cache_wf s → closed_answer f →
  batch_ok (length (heap s)) (length (fetched_objects f))
    (with_heap (λ h, h ++ (shift_obj (length (heap s)) <$> fetched_objects f)) s).
Proof.
  intros [Hclosed _] [_ Hrefs]. split.
  - intros l [Hge Hlt].
    destruct (lookup_lt_is_Some_2 (fetched_objects f) (l - length (heap s)))
      as [o Ho]; [lia|].
    exists (shift_obj (length (heap s)) o). split.
    + simpl. rewrite lookup_app_r by done. by rewrite list_lookup_fmap, Ho.
    + intros p. rewrite obj_get_shift. apply refs_in_shift.
      eapply refs_in_impl; [|apply (Hrefs o p)].
      * intros r Hr. unfold in_batch. simpl in *. lia.
      * by eapply list_elem_of_lookup_2.
  - intros name k l Hp [Hge _].
    destruct (Hclosed name k l Hp) as [? ?%lookup_lt_Some]. lia.
Qed.
End caches_batch_facts.

Section V1_caches_batch.
Context `{rt : Runtime}.
Implicit Types (s : State V1.DeferData).
Variables (base n : nat).

Lemma V1_caches_batch_relation rec v :
  refs_in (in_batch base n) v →
  (∀ es, Forall (in_batch base n) es → frames (caches_batch base n) (rec es)) →
  frames (caches_batch base n) (V1.cache_relation rec v).
Proof.
  intros Hv Hrec. destruct v as [| | |l|[|l ls]]; simpl in *.
  - frames_auto.
  - frames_auto.
  - frames_auto.
  - frames_rule @frames_bind; [|intros cs; frames_auto].
    apply Hrec. by constructor.
  - frames_rule @frames_bind; [|intros cs; frames_auto].
    apply Hrec. constructor.
  - frames_rule @frames_bind; [|intros cs; frames_auto].
    by apply Hrec.
Qed.

Lemma V1_caches_batch_column rec entity cached column :
  in_batch base n entity → ¬ in_batch base n cached →
  (∀ es, Forall (in_batch base n) es → frames (caches_batch base n) (rec es)) →
  frames (caches_batch base n) (V1.cache_column rec entity cached column).
Proof.
  intros Hin Hout Hrec.
  assert (∀ p, frames (caches_batch (D:=V1.DeferData) base n)
                 (bind (read_prop entity p) (λ v, write_prop cached p v)))
    as Hcopy.
  { intros p. apply caches_batch_read; [done|]. intros v _.
    by apply caches_batch_write_prop. }
  unfold V1.cache_column. destruct (relationMetadata column) as [rm|]; [|done].
  frames_rule @frames_bind; [unfold has_prop, deref; frames_auto|].
  intros present. frames_rule @frames_bind.
  - destruct present; [|frames_auto].
    frames_rule @frames_bind; [frames_auto|]. intros _.
    apply caches_batch_read; [done|]. intros v Hv.
    frames_rule @frames_bind; [by apply V1_caches_batch_relation|].
    intros c. by apply caches_batch_write_prop.
  - intros _. case_bool_decide; [done|frames_auto].
Qed.

(** One round of the loop of [cache] on an object of the batch. *)
Lemma V1_caches_batch_entity rec mapName entity :
  in_batch base n entity →
  (∀ es, frames cache_step (rec es)) →
  (∀ es, Forall (in_batch base n) es → frames (caches_batch base n) (rec es)) →
  frames (caches_batch base n) (V1.cache_entity rec mapName entity).
Proof.
  intros Hin Hstep Hrec s Hwf Hok.
  destruct (V1.cache_entity rec mapName entity s) as [s' out] eqn:Hrun. simpl.
  destruct (V1_cache_entity_spec _ _ _ _ _ _ Hstep Hwf Hrun) as (E & Hpost).
  destruct (proj1 Hok entity Hin) as (o & He & Hrefs).
  unfold V1.cache_entity in Hrun.
  rewrite (bind_ok _ _ _ _ _ (constructor_of_Some _ _ _ He)) in Hrun.
  rewrite (bind_ok _ _ _ _ _ (id_of_Some _ _ _ He)) in Hrun.
  rewrite bind_gets in Hrun.
  set (new := {| constructor_name := constructor_name o; id := ""; props := [] |})
    in Hrun.
  destruct (V1_pick_cached s mapName (id o) new) as (s1 & cached & Hpick & Hcase).
  rewrite (bind_ok _ _ _ _ _ Hpick) in Hrun.
  assert (¬ in_batch base n cached) as Hout.
  { destruct Hcase as [[_ Hp]|(_ & -> & _)]; [by apply (proj2 Hok _ _ _ Hp)|].
    intros Hb. destruct (proj1 Hok _ Hb) as (? & ?%lookup_lt_Some & _). lia. }
  assert (caches_batch base n s s1) as C1.
  { destruct Hcase as [[-> _]|(-> & _ & _)]; [reflexivity|].
    apply (caches_batch_alloc base n new s). }
  destruct (metadata_of entityMetadatas (constructor_name o)) as [metadata|].
  2: { injection Hrun as <- <-. by apply C1. }
  pose proof (caches_batch_write_id base n cached (id o) Hout s1) as C2.
  destruct (write_id cached (id o) s1) as [s2 [[]|e]] eqn:Hw; simpl in C2.
  2: { rewrite (bind_throw _ _ _ _ _ Hw) in Hrun. injection Hrun as <- <-.
       by apply (transitivity C1 C2). }
  rewrite (bind_ok _ _ _ _ _ Hw) in Hrun.
  pose proof (frames_for_each (caches_batch base n) (columns metadata)
                (V1.cache_column rec entity cached)
                (λ x _, V1_caches_batch_column rec entity cached x Hin Hout Hrec)
                s2) as C3.
  destruct (for_each (columns metadata) (V1.cache_column rec entity cached) s2)
    as [s3 [[]|e]] eqn:Hfe; simpl in C3.
  2: { rewrite (bind_throw _ _ _ _ _ Hfe) in Hrun. injection Hrun as <- <-.
       by apply (transitivity C1 (transitivity C2 C3)). }
  rewrite (bind_ok _ _ _ _ _ Hfe) in Hrun.
  destruct (transitivity C1 (transitivity C2 C3) Hwf Hok)
    as (Hwf3 & Hok3 & Hobj3 & Hent3).
  destruct (heap s3 !! cached) as [oc3|] eqn:Hc3.
  2: { rewrite (bind_throw _ _ _ _ _ (id_of_None _ _ Hc3)) in Hrun.
       by injection Hrun as <- <-. }
  rewrite (bind_ok _ _ _ _ _ (id_of_Some _ _ _ Hc3)), bind_modify in Hrun.
  injection Hrun as <- <-.
  destruct (Hpost cached eq_refl) as (o0 & oc & He0 & _ & _ & Hp).
  assert (o0 = o) as -> by congruence.
  assert (id oc3 = id o) as Hid.
  { eapply (proj2 (ce_wf _ _ E)); [|exact Hp]. apply present_set. by left. }
  split_and!.
  - apply E.
  - split; [apply Hok3|].
    intros name k l [(_ & _ & <-)|[_ Hp']]%present_set; [done|].
    by apply (proj2 Hok3 name k).
  - apply Hobj3.
  - intros name k. simpl. rewrite NestedFacts.lookup_update_set.
    case_decide as Hd; [|apply Hent3].
    right. exists entity, o. destruct Hd as [_ <-]. done.
Qed.

(** Caching objects of the batch. *)
Lemma V1_caches_batch_cache depth es :
  Forall (in_batch base n) es →
  frames (caches_batch base n) (V1.cache depth es).
Proof.
  revert es. induction depth as [|depth IH]; intros es Hes; simpl.
  - frames_auto.
  - destruct es as [|e0 es']; [frames_auto|].
    frames_rule @frames_bind; [unfold constructor_of, deref; frames_auto|].
    intros name0.
    frames_rule @frames_bind; [apply caches_batch_getCacheMap|]. intros _.
    frames_rule @frames_map_each. intros e He.
    apply V1_caches_batch_entity; [|apply V1_cache_step|exact IH].
    rewrite Forall_forall in Hes. by apply Hes.
Qed.
End V1_caches_batch.

Section V1_unfound.
Context `{rt : Runtime}.
Implicit Types (s : State V1.DeferData).

Lemma sets_no_relation_shift base (o : Obj) :
  sets_no_relation o → sets_no_relation (shift_obj base o).
Proof.
  intros (md & Hmd & Hplain). exists md. split; [done|].
  intros c rm Hc Hrm. rewrite obj_has_shift. by eapply Hplain.
Qed.

(** One round of the loop of [cache] returns for an entity that sets no
    relation and that the cache does not hold. *)
Lemma V1_cache_entity_plain rec mapName e s o :
  cache_wf s → heap s !! e = Some o → sets_no_relation o → unheld s e →
  ∃ s' c, V1.cache_entity rec mapName e s = (s', Ok c).
Proof.
  intros Hwf He (md & Hmd & Hplain) Hun. unfold V1.cache_entity.
  rewrite ?bind_assoc, (bind_ok _ _ _ _ _ (constructor_of_Some _ _ _ He)).
  rewrite ?bind_assoc, (bind_ok _ _ _ _ _ (id_of_Some _ _ _ He)).
  rewrite ?bind_assoc, bind_gets.
  set (new := {| constructor_name := constructor_name o; id := ""; props := [] |}).
  destruct (V1_pick_cached s mapName (id o) new) as (s1 & cached & Hpick & Hcase).
  rewrite ?bind_assoc, (bind_ok _ _ _ _ _ Hpick), Hmd.
  assert (∃ x, heap s1 !! cached = Some x ∧ heap s1 !! e = Some o ∧ e ≠ cached)
    as (x & Hx & He1 & Hne).
  { destruct Hcase as [[-> Hp]|(-> & -> & Hnone)].
    - destruct (proj1 Hwf _ _ _ Hp) as [x Hx]. exists x. split_and!; [done..|].
      intros ->. by apply (Hun mapName (id o)).
    - exists new. split_and!.
      + simpl. by apply list_lookup_middle.
      + simpl. by apply lookup_app_l_Some.
      + apply lookup_lt_Some in He. lia. }
  rewrite ?bind_assoc, (bind_ok _ _ _ _ _ (write_id_Some _ _ _ (id o) Hx)).
  set (s2 := with_heap _ s1).
  assert (heap s2 !! e = Some o) as He2.
  { simpl. by rewrite list_lookup_insert_ne. }
  assert (heap s2 !! cached = Some (obj_with_id (id o) x)) as Hc2.
  { simpl. apply list_lookup_insert_eq. by eapply lookup_lt_Some. }
  destruct (V1_cache_plain_columns rec e cached (columns md) s2 o _ Hne He2 Hc2
              Hplain) as (s3 & oc3 & Hrun & _ & Hc3 & _).
  rewrite ?bind_assoc, (bind_ok _ _ _ _ _ Hrun).
  rewrite ?bind_assoc, (bind_ok _ _ _ _ _ (id_of_Some _ _ _ Hc3)).
  rewrite ?bind_assoc, bind_modify. by eexists _, _.
Qed.

(** [cache] returns for objects of a batch that set no relation. *)
Lemma V1_cache_plain_batch base n depth es s :
  cache_wf s → batch_ok base n s → Forall (in_batch base n) es →
  (∀ e, e ∈ es → ∃ o, heap s !! e = Some o ∧ sets_no_relation o) →
  ∃ s' cs, V1.cache (S depth) es s = (s', Ok cs).
Proof.
  intros Hwf Hok Hes Hplain. simpl. destruct es as [|e0 es0]; [by eexists _, _|].
  set (es := e0 :: es0) in *.
  destruct (Hplain e0) as (o0 & He0 & _); [apply list_elem_of_here|].
  rewrite (bind_ok _ _ _ _ _ (constructor_of_Some _ _ _ He0)).
  unfold getCacheMap. rewrite bind_modify.
  set (s0 := with_cacheMap _ s).
  pose proof (caches_batch_getCacheMap base n (constructor_name o0) s Hwf Hok)
    as (Hwf0 & Hok0 & _). simpl in Hwf0, Hok0. fold s0 in Hwf0, Hok0.
  assert (∀ e, e ∈ es → ∃ o, heap s0 !! e = Some o ∧ sets_no_relation o)
    as Hplain0 by done.
  clearbody es s0. clear He0 Hplain Hwf Hok.
  revert s0 Hwf0 Hok0 Hplain0.
  induction es as [|e es IH]; intros s0 Hwf0 Hok0 Hplain0; simpl;
    [by eexists _, _|].
  apply Forall_cons in Hes as [He Hes].
  destruct (Hplain0 e) as (o & Ho & Hflat); [apply list_elem_of_here|].
  destruct (V1_cache_entity_plain (V1.cache depth) (constructor_name o0) e s0 o)
    as (s1 & c & Hrun); [done..| |].
  { intros name k Hp. by apply (proj2 Hok0 name k e). }
  pose proof (V1_caches_batch_entity base n (V1.cache depth)
                (constructor_name o0) e He (V1_cache_step depth)
                (V1_caches_batch_cache base n depth) s0 Hwf0 Hok0)
    as (Hwf1 & Hok1 & Hobj1 & _).
  rewrite Hrun in Hwf1, Hok1, Hobj1. simpl in Hwf1, Hok1, Hobj1.
  rewrite (bind_ok _ _ _ _ _ Hrun).
  destruct (IH Hes s1 Hwf1 Hok1) as (s2 & cs & Hrun2).
  { intros e' He'. rewrite Forall_forall in Hes. rewrite Hobj1 by (by apply Hes).
    apply Hplain0. by apply list_elem_of_further. }
  rewrite (bind_ok _ _ _ _ _ Hrun2). by eexists _, _.
Qed.

(** A find whose answer is closed: the entries it writes into the cache
    are under ids of objects of the answer; and it returns when the rows
    of the answer set no relation. *)
Lemma V1_find_batch cls o s :
  cache_wf s →
  let d := db (V1.flush (Some cls) s).1 in
  (∀ q, fo_where q = fo_where (default empty_options o) →
        closed_answer (store_find d cls q)) →
  (∀ name k,
     Nested.lookup name k (cacheMap (V1.find cls o s).1) =
       Nested.lookup name k (cacheMap s) ∨
     ∃ q ob, fo_where q = fo_where (default empty_options o) ∧
             ob ∈ fetched_objects (store_find d cls q) ∧ id ob = k) ∧
  (stack_limit ≠ 0 →
   (∀ q, fo_where q = fo_where (default empty_options o) →
      Forall (λ r, ∃ ob, fetched_objects (store_find d cls q) !! r = Some ob ∧
                         sets_no_relation ob)
             (fetched_roots (store_find d cls q))) →
   ∃ res, (V1.find cls o s).2 = Ok res).
Proof.
  intros Hwf d Hclosed. subst d. unfold V1.find.
  destruct (V1_flush_same_cache (Some cls) s) as (Hh & _ & Hc).
  pose proof (V1_flush_ok (Some cls) s) as Hok.
  destruct (V1.flush (Some cls) s) as [s_f out] eqn:Hflush.
  simpl in Hh, Hc, Hok, Hclosed |- *. subst out.
  rewrite (bind_ok _ _ _ _ _ Hflush).
  destruct (V1_getDeferData_run cls s_f) as (d & Hd & _).
  rewrite (bind_ok _ _ _ _ _ Hd). set (s1 := with_deferred _ s_f).
  rewrite (bind_ok _ _ _ _ _ (call_find_run _ _ _)).
  set (q := V1.with_deferred_relations (default empty_options o) d).
  assert (fo_where q = fo_where (default empty_options o)) as Hq by done.
  change (db s1) with (db s_f).
  set (f := store_find (db s_f) cls q).
  set (s_q := with_store (db s_f) (CFind cls q) s1).
  assert (cache_wf s_q) as Hwfq.
  { destruct Hwf as [Hex Hinj]. split.
    - intros name k l Hp. change (heap s_q) with (heap s_f). rewrite Hh.
      apply (Hex name k). unfold present in *. by rewrite <- Hc.
    - intros name k name' k' l Hp Hp'. apply (Hinj name k name' k' l);
        unfold present in *; by rewrite <- Hc. }
  pose proof (materialized_batch_ok s_q f Hwfq (Hclosed q Hq)) as Hbatch.
  set (s_m := with_heap _ s_q) in *.
  assert (cache_wf s_m) as Hwfm.
  { destruct Hwfq as [Hex Hinj]. split; [|done].
    intros name k l Hp. apply lookup_lt_is_Some. simpl. rewrite length_app.
    destruct (Hex name k l Hp) as [? ?%lookup_lt_Some]. simpl in *. lia. }
  set (res := (λ r, length (heap s_q) + r) <$> fetched_roots f).
  assert (Forall (in_batch (length (heap s_q)) (length (fetched_objects f))) res)
    as Hres.
  { apply Forall_fmap. eapply Forall_impl; [apply (Hclosed q Hq)|].
    intros r Hr. unfold in_batch. cbv beta in Hr. fold f in Hr. simpl. lia. }
  pose proof (V1_caches_batch_cache _ _ stack_limit res Hres s_m Hwfm Hbatch)
    as (_ & _ & _ & Hent).
  split.
  - assert (∀ name k,
              Nested.lookup name k (cacheMap (V1.cache stack_limit res s_m).1) =
                Nested.lookup name k (cacheMap s) ∨
              ∃ q ob, fo_where q = fo_where (default empty_options o) ∧
                      ob ∈ fetched_objects (store_find (db s_f) cls q) ∧
                      id ob = k) as Hent'.
    { intros name k. destruct (Hent name k) as [->|(l & ob & Hl & Hob & Hid)].
      - left. apply Hc.
      - right. exists q. destruct Hl as [Hge Hlt].
        destruct (lookup_materialized _ _ _ _ Hob Hge) as (ob0 & Hob0 & ->).
        exists ob0. split_and!; [done| |done].
        by eapply list_elem_of_lookup_2. }
    destruct (V1.cache stack_limit res s_m) as [s2 [cs|e]] eqn:Hcache.
    + by rewrite (bind_ok _ _ _ _ _ Hcache).
    + by rewrite (bind_throw _ _ _ _ _ Hcache).
  - intros Hstack Hplain. destruct stack_limit as [|depth]; [done|].
    destruct (V1_cache_plain_batch _ _ depth res s_m Hwfm Hbatch Hres)
      as (s2 & cs & Hrun).
    { intros e (r & -> & Hr)%list_elem_of_fmap.
      specialize (Hplain q Hq). rewrite Forall_forall in Hplain.
      destruct (Hplain r Hr) as (ob & Hob & Hflat).
      exists (shift_obj (length (heap s_q)) ob). split.
      - exact (lookup_materialized_2 _ _ _ _ Hob).
      - by apply sets_no_relation_shift. }
    rewrite (bind_ok _ _ _ _ _ Hrun). by eexists.
Qed.

(** Resolving a deferred id for which the cache holds no entity, when
    the answer to the bulk find is closed and has no object of the id:
    the cache has the absent marker for the id, the resolution returns
    nothing if it returns, and it returns when the rows of the answer set
    no relation. *)
Lemma V1_get_unfound cls i s :
  cache_wf s → i ∈ V1_deferred_ids s cls → (∀ l, ¬ present s cls i l) →
  let d := db (V1.flush (Some cls) s).1 in
  let ids := V1_deferred_ids s cls in
  finds_closed d cls ids → finds_no i d cls ids →
  let r := V1.get cls (inl i) s in
  Nested.lookup cls i (cacheMap r.1) = Some None ∧
  (∀ x, r.2 = Ok x → x = None ∧ V1_deferred_ids r.1 cls = []) ∧
  (stack_limit ≠ 0 → finds_plain_rows d cls ids → r.2 = Ok None).
Proof.
  intros Hwf Hi Hnp d0 ids Hclosed Hno r. subst d0 ids.
  assert (r = V1.get cls (inl i) s) as Hr by done. clearbody r.
  unfold V1.get, V1.load in Hr.
  destruct (V1_getDeferData_run cls s) as (d & Hd & Hdeq).
  assert (V1.ids d = V1_deferred_ids s cls) as Hids by (by rewrite Hdeq).
  rewrite bind_assoc, (bind_ok _ _ _ _ _ Hd) in Hr. clear Hd.
  set (s0 := with_deferred _ s) in Hr.
  rewrite bool_decide_false in Hr.
  2: { rewrite Hids. intros Hlen. apply nil_length_inv in Hlen.
       rewrite Hlen in Hi. by apply elem_of_nil in Hi. }
  unfold getCacheMap at 1 in Hr. rewrite !bind_assoc, bind_modify in Hr.
  set (s1 := with_cacheMap (Nested.ensure cls) s0) in Hr.
  destruct (premark_spec cls (V1.ids d) s1)
    as (s2 & Hpre & Hh2 & Ho2 & Hd2 & _ & Hk2 & Hin2).
  rewrite !bind_assoc, (bind_ok _ _ _ _ _ Hpre) in Hr. clear Hpre.
  assert (Nested.lookup cls i (cacheMap s2) = Some None) as Hmark.
  { destruct (Hin2 i) as [x Hx]; [by rewrite Hids|].
    destruct (Hk2 cls i) as [Heq|[_ ?]]; [|done].
    rewrite Hx in Heq. simpl in Heq. rewrite NestedFacts.lookup_ensure in Heq.
    destruct x as [l|]; [|done]. by destruct (Hnp l). }
  assert (∀ name k l, present s2 name k l → present s name k l) as Hheld.
  { intros name k l Hp. unfold present in *.
    destruct (Hk2 name k) as [Heq|[_ Heq]]; [|congruence].
    rewrite Heq in Hp. simpl in Hp. by rewrite NestedFacts.lookup_ensure in Hp. }
  assert (cache_wf s2) as Hwf2.
  { destruct Hwf as [Hex Hinj]. split.
    - intros name k l Hp%Hheld. rewrite Hh2. by apply (Hex name k).
    - intros name k name' k' l Hp%Hheld Hp'%Hheld. by eapply Hinj. }
  assert (flush_input s2 = flush_input s) as Hin.
  { unfold flush_input, outside in *. rewrite Hh2. simpl.
    injection Ho2 as -> -> -> ->. done. }
  apply (V1_flush_input (Some cls)) in Hin. unfold flush_input in Hin.
  injection Hin as _ _ Hdb _ _.
  set (o := Some {| fo_where := Some (WIdIn (V1.ids d));
                    fo_relations := Some (V1.relations d) |}) in Hr.
  destruct (V1_find_batch cls o s2 Hwf2) as (Hent & Hreturns).
  { intros q Hq. rewrite Hdb. apply Hclosed. rewrite Hq. simpl. by rewrite Hids. }
  assert (Nested.lookup cls i (cacheMap (V1.find cls o s2).1) = Some None)
    as Hmark3.
  { destruct (Hent cls i) as [->|(q & ob & Hq & Hob & Hid)]; [done|].
    exfalso. rewrite Hdb in Hob. apply (Hno q ob); [|done..].
    rewrite Hq. simpl. by rewrite Hids. }
  assert (stack_limit ≠ 0 → finds_plain_rows (db (V1.flush (Some cls) s).1) cls
                              (V1_deferred_ids s cls) →
          ∃ res, (V1.find cls o s2).2 = Ok res) as Hlive.
  { intros Hstack Hplain. apply Hreturns; [done|].
    intros q Hq. rewrite Hdb. apply Hplain. rewrite Hq. simpl. by rewrite Hids. }
  clear Hent Hreturns.
  destruct (V1.find cls o s2) as [s3 [res|e]] eqn:Hfind; simpl in Hmark3, Hlive.
  - rewrite !bind_assoc, (bind_ok _ _ _ _ _ Hfind), bind_modify in Hr.
    unfold getCacheMap in Hr. rewrite bind_modify, bind_gets in Hr.
    simpl in Hr. rewrite NestedFacts.lookup_ensure, Hmark3 in Hr.
    subst r. simpl. rewrite NestedFacts.lookup_ensure.
    split_and!; [done| |done].
    intros x [= <-]. split; [done|].
    unfold V1_deferred_ids. simpl. by rewrite JsMapFacts.get_delete_eq.
  - rewrite !bind_assoc, (bind_throw _ _ _ _ _ Hfind) in Hr. subst r. simpl.
    split_and!; [done|done|].
    intros Hstack Hplain. by destruct (Hlive Hstack Hplain).
Qed.
End V1_unfound.

(** ** What the bulk finds of a resolution cache (second variant) *)

Section brings_facts.
Context {D : Type} `{rt : Runtime}.
Implicit Types (s : State D).

#[export] Instance brings_preorder base : PreOrder (brings (D:=D) base).
Proof.
  split.
  - intros s Hge Hrefs. split_and!; [|done|].
    + exists []. by rewrite app_nil_r.
    + intros name k. by left.
  - intros s1 s2 s3 H12 H23 Hge1 Hrefs1.
    destruct (H12 Hge1 Hrefs1) as ([m2 Hm2] & Hrefs2 & Hent2).
    assert (base ≤ length (heap s2))%nat as Hge2.
    { rewrite Hm2, length_app. lia. }
    destruct (H23 Hge2 Hrefs2) as ([m3 Hm3] & Hrefs3 & Hent3).
    split_and!; [|done|].
    + exists (m2 ++ m3). by rewrite Hm3, Hm2, app_assoc.
    + intros name k. destruct (Hent3 name k) as [->|[?|?]]; [|auto..].
      destruct (Hent2 name k) as [?|[?|(l & o & Hl & Ho & Hid)]]; [auto..|].
      right. right. exists l, o. split_and!; [done| |done].
      rewrite Hm3. by apply lookup_app_l_Some.
Qed.

(** A step that keeps the heap and the entries of the cache. *)
Lemma brings_frame base s s' :
  heap s' = heap s →
  (∀ name k,
     Nested.lookup name k (cacheMap s') = Nested.lookup name k (cacheMap s)) →
  brings base s s'.
Proof.
  intros Hh Hent Hge Hrefs. split_and!.
  - exists []. by rewrite app_nil_r.
  - unfold new_refs. rewrite Hh. exact Hrefs.
  - intros name k. left. apply Hent.
Qed.

Lemma refs_in_all (P : loc → Prop) v : (∀ l, P l) → refs_in P v.
Proof.
  intros HP. destruct v; simpl; try done. by apply Forall_forall.
Qed.

(** What is read from an object from [base] on refers to objects from
    [base] on. *)
Lemma brings_read base l p {A} (f : Value → M (S:=State D) A) :
  (base ≤ l)%nat →
  (∀ v, refs_in (λ r, (base ≤ r)%nat) v → frames (brings base) (f v)) →
  frames (brings base) (bind (read_prop l p) f).
Proof.
  intros Hl Hf s. destruct (heap s !! l) as [o|] eqn:Ho.
  - rewrite (bind_ok _ _ _ _ _ (read_prop_Some _ _ _ p Ho)).
    intros Hge Hrefs. apply Hf; [|done..]. by apply (Hrefs l o p).
  - assert (read_prop l p s = (s, Throw TypeError)) as Hr.
    { unfold read_prop. by rewrite (bind_throw _ _ _ _ _ (deref_None _ _ Ho)). }
    rewrite (bind_throw _ _ _ _ _ Hr). reflexivity.
Qed.

(** A query puts its batch at the end of the heap. *)
Lemma brings_call_find base cls q :
  frames (brings base) (call_find (D:=D) cls q).
Proof.
  intros s Hge Hrefs. rewrite call_find_run. simpl. split_and!.
  - by eexists.
  - intros l o p Hl Ho. simpl in Ho.
    destruct (decide (l < length (heap s))%nat) as [Hlt|Hnlt].
    + rewrite lookup_app_l in Ho by done. by apply (Hrefs l o p).
    + destruct (lookup_materialized _ _ _ _ Ho) as (ob0 & _ & ->); [lia|].
      rewrite obj_get_shift. apply refs_in_shift, refs_in_all. lia.
  - intros name k. by left.
Qed.

(** The loop of [load] that marks ids as absent. *)
Lemma brings_premark base cls ids :
  frames (brings base)
    (for_each ids (λ id,
       bind (gets (λ st : State D, JsMap.has id (Nested.inner cls (cacheMap st))))
            (λ known : bool,
               if known then ret tt
               else modify (with_cacheMap
                              (Nested.update cls (JsMap.set id None)))))).
Proof.
  intros s Hge Hrefs.
  destruct (premark_spec cls ids s) as (s' & -> & Hh & _ & _ & _ & Hk & _).
  simpl. split_and!.
  - exists []. by rewrite app_nil_r.
  - unfold new_refs. rewrite Hh. exact Hrefs.
  - intros name k. destruct (Hk name k) as [?|[_ ?]]; auto.
Qed.
End brings_facts.

Section V2_brings.
Context `{rt : Runtime}.
Implicit Types (s : State (list string)).
Variable (base : nat).

Lemma V2_brings_relation rec entity relation :
  (base ≤ entity)%nat →
  (∀ es, Forall (λ e, (base ≤ e)%nat) es → frames (brings base) (rec es)) →
  frames (brings base) (V2.cache_relation rec entity relation).
Proof.
  intros Hge Hrec. unfold V2.cache_relation. apply brings_read; [done|].
  intros v Hv. destruct v as [| | |l|ls]; simpl in Hv.
  - frames_auto.
  - frames_auto.
  - frames_auto.
  - frames_rule @frames_bind; [|intros cs; frames_auto].
    apply Hrec. by constructor.
  - frames_rule @frames_bind; [|intros cs; frames_auto].
    by apply Hrec.
Qed.

Lemma V2_brings_entity rec mapName entity :
  (base ≤ entity)%nat →
  (∀ es, Forall (λ e, (base ≤ e)%nat) es → frames (brings base) (rec es)) →
  frames (brings base) (V2.cache_entity rec mapName entity).
Proof.
  intros Hge Hrec s. unfold V2.cache_entity.
  destruct (heap s !! entity) as [o|] eqn:He.
  2: { by rewrite (bind_throw _ _ _ _ _ (id_of_None _ _ He)). }
  rewrite (bind_ok _ _ _ _ _ (id_of_Some _ _ _ He)).
  unfold V2.update_deferList. rewrite !bind_modify.
  match goal with
  | |- brings _ _ (?m ?s1).1 =>
      transitivity s1; [|assert (frames (brings base) m) as Hm; [|apply Hm]]
  end.
  - intros _ Hrefs. split_and!.
    + exists []. by rewrite app_nil_r.
    + exact Hrefs.
    + intros name k. simpl. rewrite NestedFacts.lookup_update_set.
      case_decide as Hd; [|by left]. destruct Hd as [_ <-].
      right. right. by exists entity, o.
  - frames_rule @frames_bind; [unfold constructor_of, deref; frames_auto|].
    intros cls. destruct (metadata_of entityMetadatas cls); [|frames_auto].
    frames_rule @frames_bind; [|intros _; frames_auto].
    frames_rule @frames_for_each. intros rm _.
    by apply V2_brings_relation.
Qed.

Lemma V2_brings_cache depth es :
  Forall (λ e, (base ≤ e)%nat) es → frames (brings base) (V2.cache depth es).
Proof.
  revert es. induction depth as [|depth IH]; intros es Hes; simpl.
  - frames_auto.
  - destruct es as [|e0 es']; [frames_auto|].
    frames_rule @frames_bind; [unfold constructor_of, deref; frames_auto|].
    intros name0.
    frames_rule @frames_bind.
    { intros s. by apply brings_frame. }
    intros _. frames_rule @frames_bind.
    { intros s. apply brings_frame; [done|].
      intros name k. simpl. apply NestedFacts.lookup_ensure. }
    intros _. frames_rule @frames_map_each. intros e He.
    apply V2_brings_entity; [|exact IH].
    rewrite Forall_forall in Hes. by apply Hes.
Qed.

Lemma V2_brings_flush cls : frames (brings base) (V2.flush cls).
Proof.
  intros s. destruct (V2_flush_same_cache cls s) as (Hh & _ & Hc).
  by apply brings_frame.
Qed.

Lemma V2_brings_find cls o : frames (brings base) (V2.find cls o).
Proof.
  intros s Hge Hrefs. unfold V2.find.
  pose proof (V2_brings_flush cls s) as B1.
  pose proof (V2_flush_ok cls s) as Hok.
  destruct (V2_flush_same_cache cls s) as (Hh & _ & _).
  destruct (V2.flush cls s) as [s_f out] eqn:Hflush. simpl in B1, Hok, Hh.
  subst out. rewrite (bind_ok _ _ _ _ _ Hflush).
  pose proof (brings_call_find base cls (default empty_options o) s_f) as B2.
  rewrite call_find_run in B2. rewrite (bind_ok _ _ _ _ _ (call_find_run _ _ _)).
  simpl in B2.
  match goal with
  | |- context [V2.cache stack_limit ?res ?s_m] =>
      assert (brings base s_m (V2.cache stack_limit res s_m).1) as B3
  end.
  { apply V2_brings_cache. apply Forall_fmap, Forall_forall. intros r _.
    simpl. rewrite Hh. lia. }
  by apply (transitivity B1 (transitivity B2 B3)).
Qed.
End V2_brings.

Section V2_rounds.
Context `{rt : Runtime}.
Implicit Types (s : State (list string)).

Lemma V2_heap_cache depth es : frames (keeps heap) (V2.cache depth es).
Proof.
  revert es. induction depth as [|depth IH]; intros es; simpl.
  - frames_auto.
  - destruct es; frames_auto; done.
Qed.

(** One round of the loop of [load], taken apart: the round does
    nothing when no id is deferred for the name; it throws when the name
    has no class; else it is the bulk find, and, when that returns, the
    marking of the ids that are left and the clearing of the deferred
    set. *)
Lemma V2_load_entry_run name s :
  (V2.deferList_of name s = [] ∧ V2.load_entry name s = (s, Ok tt)) ∨
  (V2.deferList_of name s ≠ [] ∧ JsMap.get name (classes s) = None ∧
   V2.load_entry name s = (s, Throw (AssertionError None))) ∨
  ∃ c, V2.deferList_of name s ≠ [] ∧ JsMap.get name (classes s) = Some c ∧
    let rf := V2.find c (Some {| fo_where := Some (WIdIn (V2.deferList_of name s));
                                 fo_relations := None |}) s in
    match rf.2 with
    | Throw e => V2.load_entry name s = (rf.1, Throw e)
    | Ok _ =>
        ∃ s3,
          V2.load_entry name s =
            (with_deferred (λ m, JsMap.set name [] m) s3, Ok tt) ∧
          heap s3 = heap rf.1 ∧ outside s3 = outside rf.1 ∧
          deferred s3 = deferred rf.1 ∧ classes s3 = classes rf.1 ∧
          (∀ n k,
             Nested.lookup n k (cacheMap s3) = Nested.lookup n k (cacheMap rf.1) ∨
             (Nested.lookup n k (cacheMap rf.1) = None ∧
              Nested.lookup n k (cacheMap s3) = Some None)) ∧
          ∀ j, j ∈ V2.deferList_of name rf.1 →
               is_Some (Nested.lookup name j (cacheMap s3))
    end.
Proof.
  unfold V2.load_entry. rewrite bind_gets.
  destruct (V2.deferList_of name s) as [|j0 js] eqn:Hlist; [by left|].
  right. rewrite bool_decide_false by done. rewrite bind_gets.
  destruct (JsMap.get name (classes s)) as [c|] eqn:Hcls; [right|by left].
  exists c. split_and!; [done..|]. cbv zeta.
  destruct (V2.find c _ s) as [s1 [res|e]] eqn:Hfind; simpl.
  2: { by rewrite (bind_throw _ _ _ _ _ Hfind). }
  rewrite (bind_ok _ _ _ _ _ Hfind). unfold getCacheMap.
  rewrite bind_modify, bind_gets.
  set (s2 := with_cacheMap (Nested.ensure name) s1).
  destruct (premark_spec name (V2.deferList_of name s2) s2)
    as (s3 & Hpre & Hh3 & Ho3 & Hd3 & Hc3 & Hk3 & Hin3).
  rewrite (bind_ok _ _ _ _ _ Hpre). exists s3. split_and!; try done.
  intros n k. specialize (Hk3 n k). unfold s2 in Hk3. simpl in Hk3.
  by rewrite NestedFacts.lookup_ensure in Hk3.
Qed.

Lemma V2_brings_load_entry base name : frames (brings base) (V2.load_entry name).
Proof.
  intros s.
  destruct (V2_load_entry_run name s)
    as [[_ ->]|[(_ & _ & ->)|(c & _ & _ & Hrun)]]; [reflexivity..|].
  cbv zeta in Hrun.
  match type of Hrun with
  | context [V2.find c ?o s] => pose proof (V2_brings_find base c o s) as B
  end.
  destruct (V2.find c _ s) as [s1 [res|e]]; simpl in *; [|by rewrite Hrun].
  destruct Hrun as (s3 & -> & Hh & _ & _ & _ & Hk & _). simpl.
  etrans; [exact B|]. intros Hge Hrefs. split_and!.
  - exists []. by rewrite app_nil_r.
  - unfold new_refs. simpl. rewrite Hh. exact Hrefs.
  - intros n k. simpl. destruct (Hk n k) as [?|[_ ?]]; auto.
Qed.

Lemma V2_brings_load base : frames (brings base) V2.load.
Proof.
  unfold V2.load. frames_rule @frames_bind; [frames_auto|]. intros names.
  frames_rule @frames_for_each. intros name _. apply V2_brings_load_entry.
Qed.

Lemma V2_resolving_load_entry name : frames V2_resolving (V2.load_entry name).
Proof.
  intros s.
  destruct (V2_load_entry_run name s)
    as [[_ ->]|[(_ & _ & ->)|(c & _ & _ & Hrun)]]; [reflexivity..|].
  cbv zeta in Hrun.
  match type of Hrun with
  | context [V2.find c ?o s] => pose proof (V2_resolving_find c o s) as B
  end.
  destruct (V2.find c _ s) as [s1 [res|e]]; simpl in *; [|by rewrite Hrun].
  destruct Hrun as (s3 & -> & _ & _ & Hd & _ & Hk & Hin). simpl.
  etrans; [exact B|].
  assert (∀ n k, is_Some (Nested.lookup n k (cacheMap s1)) →
                 is_Some (Nested.lookup n k (cacheMap s3))) as Hkept.
  { intros n k [x Hx]. destruct (Hk n k) as [->|[? _]]; [by exists x|congruence]. }
  assert (∀ n, V2.deferList_of n (with_deferred (λ m, JsMap.set name [] m) s3) =
               if decide (n = name) then [] else V2.deferList_of n s1) as Hlists.
  { intros n. unfold V2.deferList_of. simpl. rewrite JsMapFacts.get_set, Hd.
    by repeat case_decide; subst. }
  split_and!.
  - exact Hkept.
  - intros n j. rewrite Hlists. case_decide; [by intros ?%elem_of_nil|done].
  - intros n j Hj. rewrite Hlists. case_decide; [subst n|by left].
    right. by apply Hin.
Qed.

Lemma V2_resolving_load : frames V2_resolving V2.load.
Proof.
  unfold V2.load. frames_rule @frames_bind; [frames_auto|]. intros names.
  frames_rule @frames_for_each. intros name _. apply V2_resolving_load_entry.
Qed.

(** A round that returns leaves no id deferred for its name. *)
Lemma V2_load_entry_clears name s s' :
  V2.load_entry name s = (s', Ok tt) → V2.deferList_of name s' = [].
Proof.
  intros Hrun.
  destruct (V2_load_entry_run name s)
    as [[Hnil Heq]|[(_ & _ & Heq)|(c & _ & _ & Hcase)]].
  - rewrite Hrun in Heq. by injection Heq as ->.
  - rewrite Hrun in Heq. done.
  - cbv zeta in Hcase. destruct (V2.find c _ s) as [s1 [res|e]]; simpl in *.
    + destruct Hcase as (s3 & Heq & _). rewrite Hrun in Heq.
      injection Heq as ->. unfold V2.deferList_of. simpl.
      by rewrite JsMapFacts.get_set_eq.
    + rewrite Hrun in Hcase. done.
Qed.

(** When [load] returns, no id is deferred any more. *)
Lemma V2_load_clears s s' :
  V2.load s = (s', Ok tt) → ∀ name, V2.deferList_of name s' = [].
Proof.
  unfold V2.load. rewrite bind_gets. intros Hrun name.
  assert (name ∈ JsMap.keys (deferred s) ∨ V2.deferList_of name s = []) as Hname.
  { destruct (decide (name ∈ JsMap.keys (deferred s))) as [|Hnot]; [by left|].
    right. apply JsMapFacts.get_None_keys in Hnot. unfold V2.deferList_of.
    by rewrite Hnot. }
  set (names := JsMap.keys (deferred s)) in *. clearbody names.
  revert s Hrun Hname. induction names as [|n names IH]; intros s Hrun Hname.
  - simpl in Hrun. injection Hrun as <-.
    by destruct Hname as [?%elem_of_nil|?].
  - simpl in Hrun. pose proof (V2_resolving_load_entry n s) as (_ & Hshrink & _).
    destruct (V2.load_entry n s) as [s1 [[]|e]] eqn:Hround; simpl in *.
    2: { by rewrite (bind_throw _ _ _ _ _ Hround) in Hrun. }
    rewrite (bind_ok _ _ _ _ _ Hround) in Hrun.
    apply (IH s1 Hrun).
    destruct Hname as [[->|Hin]%elem_of_cons|Hnil]; [|by left|].
    + right. by apply (V2_load_entry_clears n s).
    + right. destruct (V2.deferList_of name s1) as [|j l] eqn:Hl; [done|].
      exfalso. specialize (Hshrink name j). rewrite Hl, Hnil in Hshrink.
      eapply elem_of_nil, Hshrink, list_elem_of_here.
Qed.

(** When [load] returns and has brought no object of the id [i], which
    was deferred and for which the cache held no entity, the cache has
    the absent marker for the id. *)
Lemma V2_load_unfound cls i s s1 :
  i ∈ V2.deferList_of cls s → (∀ l, ¬ present s cls i l) →
  V2.load s = (s1, Ok tt) →
  (∀ l o, (length (heap s) ≤ l)%nat → heap s1 !! l = Some o → id o ≠ i) →
  Nested.lookup cls i (cacheMap s1) = Some None.
Proof.
  intros Hi Hnp Hload Hnew.
  pose proof (V2_brings_load (length (heap s)) s) as B.
  pose proof (V2_resolving_load s) as (_ & _ & Htrack).
  pose proof (V2_load_clears s s1 Hload) as Hclear.
  rewrite Hload in B, Htrack. simpl in B, Htrack.
  destruct B as (_ & _ & Hent); [done| |].
  { intros l o p Hl Ho. apply lookup_lt_Some in Ho. lia. }
  destruct (Htrack cls i Hi) as [Hin|[y Hy]].
  { rewrite Hclear in Hin. by apply elem_of_nil in Hin. }
  destruct (Hent cls i) as [Heq|[?|(l & o & Hl & Ho & Hid)]]; [|done|].
  - rewrite Hy in Heq. rewrite Hy. destruct y as [l|]; [|done].
    by destruct (Hnp l).
  - by destruct (Hnew l o Hl Ho).
Qed.

Lemma V2_get_marked_after_load cls i s s1 :
  V2.load s = (s1, Ok tt) → Nested.lookup cls i (cacheMap s1) = Some None →
  V2.get cls (inl i) s = (with_cacheMap (Nested.ensure cls) s1, Ok None).
Proof.
  intros Hload Hmark. unfold V2.get.
  rewrite (bind_ok _ _ _ _ _ Hload). unfold getCacheMap.
  rewrite bind_modify, bind_gets. simpl.
  by rewrite NestedFacts.lookup_ensure, Hmark.
Qed.
End V2_rounds.

Section V2_plain.
Context `{rt : Runtime}.
Implicit Types (s : State (list string)).

Lemma V2_relations_plain rec e rels s o :
  heap s !! e = Some o →
  (∀ rm, rm ∈ rels → obj_get (rel_propertyName rm) o = VUndefined ∨
                     obj_get (rel_propertyName rm) o = VNull) →
  for_each rels (V2.cache_relation rec e) s = (s, Ok tt).
Proof.
  intros He Hplain. induction rels as [|rm rels IH]; simpl; [done|].
  unfold V2.cache_relation at 1.
  rewrite bind_assoc, (bind_ok _ _ _ _ _ (read_prop_Some _ _ _ _ He)).
  destruct (Hplain rm) as [-> | ->]; [apply list_elem_of_here|..];
    rewrite bind_ret; apply IH; intros; apply Hplain;
    by apply list_elem_of_further.
Qed.

Lemma V2_cache_entity_plain rec mapName e s o :
  heap s !! e = Some o → loads_no_relation o →
  ∃ s', V2.cache_entity rec mapName e s = (s', Ok e) ∧ heap s' = heap s.
Proof.
  intros He (md & Hmd & Hplain). unfold V2.cache_entity.
  rewrite (bind_ok _ _ _ _ _ (id_of_Some _ _ _ He)).
  unfold V2.update_deferList. rewrite !bind_modify.
  set (s1 := with_cacheMap _ _).
  assert (heap s1 !! e = Some o) as He1 by done.
  rewrite (bind_ok _ _ _ _ _ (constructor_of_Some _ _ _ He1)), Hmd.
  rewrite (bind_ok _ _ _ _ _ (V2_relations_plain rec e _ s1 o He1 Hplain)).
  by exists s1.
Qed.

Lemma V2_map_each_plain rec mapName es s :
  (∀ e, e ∈ es → ∃ o, heap s !! e = Some o ∧ loads_no_relation o) →
  ∃ s' cs, map_each es (V2.cache_entity rec mapName) s = (s', Ok cs).
Proof.
  revert s. induction es as [|e es IH]; intros s Hplain; simpl;
    [by eexists _, _|].
  destruct (Hplain e) as (o & Ho & Hflat); [apply list_elem_of_here|].
  destruct (V2_cache_entity_plain rec mapName e s o Ho Hflat) as (s1 & Hrun & Hh1).
  rewrite (bind_ok _ _ _ _ _ Hrun).
  destruct (IH s1) as (s2 & cs & Hrun2).
  { intros e' He'. rewrite Hh1. apply Hplain. by apply list_elem_of_further. }
  rewrite (bind_ok _ _ _ _ _ Hrun2). by eexists _, _.
Qed.

(** [cache] returns for entities that hold nothing in their
    relations. *)
Lemma V2_cache_plain depth es s :
  (∀ e, e ∈ es → ∃ o, heap s !! e = Some o ∧ loads_no_relation o) →
  ∃ s' cs, V2.cache (S depth) es s = (s', Ok cs).
Proof.
  intros Hplain. simpl. destruct es as [|e0 es0]; [by eexists _, _|].
  destruct (Hplain e0) as (o0 & He0 & _); [apply list_elem_of_here|].
  rewrite (bind_ok _ _ _ _ _ (constructor_of_Some _ _ _ He0)).
  unfold V2.getDeferList, getCacheMap. rewrite !bind_modify.
  by apply V2_map_each_plain.
Qed.

(** A find returns when the store answers in range and the objects it
    brings hold nothing in their relations. *)
Lemma V2_find_plain_returns cls o s :
  store_answers_in_range → stack_limit ≠ 0 →
  (∀ l ob, (length (heap s) ≤ l)%nat →
           heap (V2.find cls o s).1 !! l = Some ob → loads_no_relation ob) →
  ∃ res, (V2.find cls o s).2 = Ok res.
Proof.
  intros Hrange Hstack. unfold V2.find.
  pose proof (V2_flush_ok cls s) as Hok.
  destruct (V2_flush_same_cache cls s) as (Hh & _ & _).
  destruct (V2.flush cls s) as [s_f out] eqn:Hflush. simpl in Hok, Hh.
  subst out. rewrite (bind_ok _ _ _ _ _ Hflush).
  rewrite (bind_ok _ _ _ _ _ (call_find_run _ _ _)).
  set (f := store_find (db s_f) cls (default empty_options o)).
  set (s_q := with_store (db s_f) (CFind cls (default empty_options o)) s_f).
  set (s_m := with_heap _ s_q).
  set (res := (λ r, length (heap s_f) + r) <$> fetched_roots f).
  pose proof (V2_heap_cache stack_limit res s_m) as Hheap. unfold keeps in Hheap.
  rewrite Hheap. intros Hflat.
  destruct stack_limit as [|depth]; [done|].
  destruct (V2_cache_plain depth res s_m) as (s2 & cs & Hrun).
  { intros e (r & -> & Hr)%list_elem_of_fmap.
    destruct (Hrange (db s_f) cls) as (Hfind & _).
    specialize (Hfind (default empty_options o)). fold f in Hfind.
    unfold roots_in_range in Hfind. rewrite Forall_forall in Hfind.
    destruct (lookup_lt_is_Some_2 (fetched_objects f) r (Hfind r Hr))
      as [ob Hob].
    pose proof (lookup_materialized_2 (heap s_q) _ _ _ Hob) as Hl.
    eexists. split; [exact Hl|]. apply (Hflat (length (heap s_f) + r)); [|exact Hl].
    rewrite Hh. lia. }
  rewrite Hrun. by eexists.
Qed.

Lemma V2_classes_cache depth es : frames (keeps classes) (V2.cache depth es).
Proof.
  revert es. induction depth as [|depth IH]; intros es; simpl.
  - frames_auto.
  - destruct es; frames_auto; done.
Qed.

Lemma V2_classes_load_entry name : frames (keeps classes) (V2.load_entry name).
Proof.
  intros s.
  destruct (V2_load_entry_run name s)
    as [[_ ->]|[(_ & _ & ->)|(c & _ & _ & Hrun)]]; [done..|].
  cbv zeta in Hrun.
  assert (∀ o, classes (V2.find c o s).1 = classes s) as Hfind.
  { intros o. pose proof V2_flush_classes. pose proof V2_classes_cache.
    assert (frames (keeps classes) (V2.find c o)) as Hf; [|apply Hf].
    unfold V2.find. frames_auto; done. }
  specialize (Hfind (Some {| fo_where := Some (WIdIn (V2.deferList_of name s));
                             fo_relations := None |})).
  destruct (V2.find c _ s) as [s1 [res|e]]; simpl in *.
  - destruct Hrun as (s3 & -> & _ & _ & _ & Hc & _). unfold keeps. simpl.
    congruence.
  - rewrite Hrun. done.
Qed.

(** A round of [load] returns when the name has its class, the store
    answers in range and the objects the round brings hold nothing in
    their relations. *)
Lemma V2_load_entry_returns name s :
  store_answers_in_range → stack_limit ≠ 0 →
  (V2.deferList_of name s ≠ [] → is_Some (JsMap.get name (classes s))) →
  (∀ l ob, (length (heap s) ≤ l)%nat →
           heap (V2.load_entry name s).1 !! l = Some ob → loads_no_relation ob) →
  (V2.load_entry name s).2 = Ok tt.
Proof.
  intros Hrange Hstack Hknown Hflat.
  destruct (V2_load_entry_run name s)
    as [[_ ->]|[(Hne & Hnone & _)|(c & _ & _ & Hcase)]]; [done| |].
  { destruct (Hknown Hne) as [? ?]. congruence. }
  cbv zeta in Hcase.
  match type of Hcase with
  | context [V2.find c ?o s] =>
      pose proof (V2_find_plain_returns c o s Hrange Hstack) as Hf
  end.
  destruct (V2.find c _ s) as [s1 [res|e]]; simpl in *.
  - by destruct Hcase as (s3 & -> & _).
  - rewrite Hcase in Hflat. by destruct Hf.
Qed.

Lemma V2_load_loop_returns names s base :
  store_answers_in_range → stack_limit ≠ 0 →
  (base ≤ length (heap s))%nat → V2_classes_known s →
  (∀ l ob, (base ≤ l)%nat →
           heap (for_each names V2.load_entry s).1 !! l = Some ob →
           loads_no_relation ob) →
  (for_each names V2.load_entry s).2 = Ok tt.
Proof.
  intros Hrange Hstack. revert s.
  induction names as [|n names IH]; intros s Hge Hknown Hflat; simpl in *;
    [done|].
  pose proof (V2_load_entry_returns n s Hrange Hstack (Hknown n)) as Hround.
  pose proof (V2_brings_load_entry (length (heap s)) n s) as B.
  pose proof (V2_resolving_load_entry n s) as (_ & Hshrink & _).
  pose proof (V2_classes_load_entry n s) as Hcls. unfold keeps in Hcls.
  destruct B as ([more Hmore] & _); [done| |].
  { intros l o p Hl Ho. apply lookup_lt_Some in Ho. lia. }
  destruct (V2.load_entry n s) as [s1 [[]|e]] eqn:Hrun; simpl in *.
  - rewrite (bind_ok _ _ _ _ _ Hrun) in Hflat |- *. apply IH; [| |done].
    + rewrite Hmore, length_app. lia.
    + intros name Hne. rewrite Hcls. apply Hknown. intros Hnil.
      destruct (V2.deferList_of name s1) as [|j l] eqn:Hl; [done|].
      specialize (Hshrink name j). rewrite Hl, Hnil in Hshrink.
      eapply elem_of_nil, Hshrink, list_elem_of_here.
  - exfalso. rewrite (bind_throw _ _ _ _ _ Hrun) in Hflat. simpl in Hflat.
    assert (Throw e = Ok tt) as Habs; [|done]. apply Hround.
    intros l ob Hl. apply Hflat. lia.
Qed.

(** Resolving a deferred id for which the cache holds no entity, when
    none of the objects the load brings has the id: when the resolution
    returns, it returns nothing, the cache has the absent marker for the
    id, and no id is deferred any more; and it returns when the classes
    of the deferred ids are registered, the store answers in range and
    the objects the load brings hold nothing in their relations. *)
Lemma V2_get_unfound cls i s :
  i ∈ V2.deferList_of cls s → (∀ l, ¬ present s cls i l) →
  (∀ l o, (length (heap s) ≤ l)%nat → heap (V2.load s).1 !! l = Some o →
          id o ≠ i) →
  let r := V2.get cls (inl i) s in
  (∀ x, r.2 = Ok x →
     x = None ∧ Nested.lookup cls i (cacheMap r.1) = Some None ∧
     ∀ name, V2.deferList_of name r.1 = []) ∧
  (stack_limit ≠ 0 → store_answers_in_range → V2_classes_known s →
   (∀ l o, (length (heap s) ≤ l)%nat → heap (V2.load s).1 !! l = Some o →
           loads_no_relation o) →
   r.2 = Ok None).
Proof.
  intros Hi Hnp Hnew r. subst r.
  assert (stack_limit ≠ 0 → store_answers_in_range → V2_classes_known s →
          (∀ l o, (length (heap s) ≤ l)%nat → heap (V2.load s).1 !! l = Some o →
                  loads_no_relation o) →
          (V2.load s).2 = Ok tt) as Hlive.
  { intros Hstack Hrange Hknown Hflat. unfold V2.load in *.
    rewrite bind_gets in Hflat |- *.
    by apply (V2_load_loop_returns _ s (length (heap s))). }
  destruct (V2.load s) as [s1 [[]|e]] eqn:Hload; simpl in Hlive, Hnew.
  - pose proof (V2_load_unfound cls i s s1 Hi Hnp Hload Hnew) as Hmark.
    rewrite (V2_get_marked_after_load cls i s s1 Hload Hmark). simpl.
    split; [|done]. intros x [= <-]. rewrite NestedFacts.lookup_ensure.
    split_and!; [done..|]. apply (V2_load_clears s s1 Hload).
  - unfold V2.get. rewrite (bind_throw _ _ _ _ _ Hload). simpl.
    split; [done|]. intros Hstack Hrange Hknown Hflat.
    by specialize (Hlive Hstack Hrange Hknown Hflat).
Qed.
End V2_plain.

(** C5, as it holds. A handle for a deferred id is resolved when the
    cache holds no entity for the id and the resolution brings no object
    of that id. In the first variant, where the cache is well formed as
    it is in every state of a session, this is said of the answer to the
    bulk find for the ids deferred for the type, which is closed: the
    cache then has the absent marker for the type and the id, whatever
    else the find brings; the resolution returns nothing if it returns,
    and then no id is deferred for the type any more; and it returns when
    the rows of the answer set no relation. In the second variant it is
    said of the objects that [load] adds to the heap, with the bulk finds
    for all the types that ids are deferred for: when the resolution
    returns, it returns nothing, the cache has the absent marker for the
    type and the id, and no id is deferred any more; and it returns when
    the classes of the deferred ids are registered, the store answers in
    range, and the objects brought hold nothing in their relations. In
    the second variant a later [defer] of that id registers nothing, and
    resolving its handle returns nothing without any call on the store.
    In the first variant [defer] registers the id whether or not the
    cache has an entry for it, and resolving the handle flushes and
    issues a bulk find whose id filter holds the id. The handles are
    resolved with call stack to spare. *)
Theorem C5_absence_is_cached `{rt : Runtime} (cls i : string) :
  stack_limit ≠ 0 →
  let h := {| dv_entityClass := cls; dv_id := i; dv_memo := None |} in
  (∀ (s : State V1.DeferData),
     cache_wf s → i ∈ V1_deferred_ids s cls → (∀ l, ¬ present s cls i l) →
     let d := db (V1.flush (Some cls) s).1 in
     let ids := V1_deferred_ids s cls in
     finds_closed d cls ids → finds_no i d cls ids →
     let r := V1.DeferredValue_get h s in
     Nested.lookup cls i (cacheMap r.1.1) = Some None ∧
     (∀ x, r.2 = Ok x → x = None ∧ V1_deferred_ids r.1.1 cls = []) ∧
     (finds_plain_rows d cls ids → r.2 = Ok None)) ∧
  (∀ (s : State V1.DeferData) rels,
     let s2 := (V1.defer cls i rels s).1 in
     (V1.defer cls i rels s).2 = Ok h ∧
     i ∈ V1_deferred_ids s2 cls ∧
     ∃ q, fo_where q = Some (WIdIn (V1_deferred_ids s2 cls)) ∧
          flushes_then_asks (V1.flush (Some cls) s2).1
                            (V1.DeferredValue_get h s2).1.1 (CFind cls q)) ∧
  (∀ (s : State (list string)),
     i ∈ V2.deferList_of cls s → (∀ l, ¬ present s cls i l) →
     (∀ l o, (length (heap s) ≤ l)%nat → heap (V2.load s).1 !! l = Some o →
             id o ≠ i) →
     let r := V2.DeferredValue_get h s in
     (∀ x, r.2 = Ok x →
        x = None ∧ Nested.lookup cls i (cacheMap r.1.1) = Some None ∧
        ∀ name, V2.deferList_of name r.1.1 = []) ∧
     (store_answers_in_range → V2_classes_known s →
      (∀ l o, (length (heap s) ≤ l)%nat → heap (V2.load s).1 !! l = Some o →
              loads_no_relation o) →
      r.2 = Ok None)) ∧
  (∀ (s : State (list string)),
     (∀ name, V2.deferList_of name s = []) →
     Nested.lookup cls i (cacheMap s) = Some None →
     let s2 := (V2.defer cls i s).1 in
     let r := V2.DeferredValue_get h s2 in
     (V2.defer cls i s).2 = Ok h ∧ (∀ name, V2.deferList_of name s2 = []) ∧
     r.2 = Ok None ∧ calls r.1.1 = calls s ∧
     Nested.lookup cls i (cacheMap r.1.1) = Some None).
Proof.
  intros Hstack h. split_and!.
  - intros s Hwf Hi Hnp d ids Hclosed Hno r.
    destruct (V1_get_unfound cls i s Hwf Hi Hnp Hclosed Hno)
      as (Hmark & Hret & Hlive).
    subst r. unfold V1.DeferredValue_get, h. cbn [dv_memo dv_entityClass dv_id].
    destruct (V1.get cls (inl i) s) as [s' out]. cbn [fst snd] in *.
    split_and!; [done..|]. intros Hplain. by apply Hlive.
  - intros s rels s2. split; [apply V1_defer_returns|].
    assert (i ∈ V1_deferred_ids s2 cls) as Hi.
    { unfold s2. rewrite V1_defer_ids. apply JsSet_add_elem. }
    split; [done|].
    unfold V1.DeferredValue_get, h. cbn [dv_memo dv_entityClass dv_id].
    destruct (V1.get cls (inl i) s2) as [s' out] eqn:Hrun. cbn [fst snd].
    destruct (V1_get_resolves cls i s2 s' out Hi Hrun) as (q & Hq & Hasks & _).
    by exists q.
  - intros s Hi Hnp Hnew r.
    destruct (V2_get_unfound cls i s Hi Hnp Hnew) as (Hret & Hlive).
    subst r. unfold V2.DeferredValue_get, h. cbn [dv_memo dv_entityClass dv_id].
    destruct (V2.get cls (inl i) s) as [s' out]. cbn [fst snd] in *.
    split; [done|]. intros Hrange Hknown Hflat. by apply Hlive.
  - intros s Hall Hmark s2 r.
    destruct (V2_defer_known cls i s) as (Hlists & Hcache & Hout); [by eexists|].
    fold s2 in Hlists, Hcache, Hout.
    assert (∀ name, V2.deferList_of name s2 = []) as Hall2.
    { intros name. by rewrite Hlists. }
    assert (Nested.lookup cls i (cacheMap s2) = Some None) as Hmark2.
    { by rewrite Hcache. }
    destruct (V2_get_marked cls i s2 Hall2 Hmark2) as (Hret & Hsame & Hlook).
    subst r. unfold V2.DeferredValue_get, h. cbn [dv_memo dv_entityClass dv_id].
    destruct (V2.get cls (inl i) s2) as [s' out] eqn:Hrun. cbn [fst snd] in *.
    split_and!; [apply V2_defer_returns | done | done | |].
    + apply keeps_outside in Hsame as (-> & _).
      by apply keeps_outside in Hout as (-> & _).
    + by rewrite Hlook.
Qed.

(** The theorem at work on mixed batches. The store has an account and
    a transfer. In the first variant that account and an account the
    store does not have are deferred, and the handle of the second is
    resolved: the bulk find brings the first account, and the resolution
    returns nothing. In the second variant the transfer is deferred as
    well, and the resolution asks for both types. *)
Lemma C5_witness :
  let h := {| dv_entityClass := "Account"; dv_id := "0x1"; dv_memo := None |} in
  let d := [Demo.account "0x2";
            {| constructor_name := "Transfer"; id := "t1";
               props := [("amount", VPrim "5")] |}] in
  let s1 := (V1.defer (rt:=Demo.runtime) "Account" "0x1" None
               (V1.defer (rt:=Demo.runtime) "Account" "0x2" None
                  (init (rt:=Demo.runtime) d)).1).1 in
  let r1 := V1.DeferredValue_get h s1 in
  let s2 := (V2.defer (rt:=Demo.runtime) "Transfer" "t1"
               (V2.defer (rt:=Demo.runtime) "Account" "0x1"
                  (V2.defer (rt:=Demo.runtime) "Account" "0x2"
                     (init (rt:=Demo.runtime) d)).1).1).1 in
  let r2 := V2.DeferredValue_get h s2 in
  (Nested.lookup "Account" "0x1" (cacheMap r1.1.1) = Some None ∧
   r1.2 = Ok None ∧ V1_deferred_ids r1.1.1 "Account" = []) ∧
  (r2.2 = Ok None ∧
   Nested.lookup "Account" "0x1" (cacheMap r2.1.1) = Some None ∧
   ∀ name, V2.deferList_of name r2.1.1 = []).
Proof.
  intros h d s1 r1 s2 r2.
  pose proof (C5_absence_is_cached (rt:=Demo.runtime) "Account" "0x1"
                ltac:(done)) as (H1 & _ & H2 & _).
  split.
  - destruct (H1 s1) as (Hmark & Hret & Hlive).
    + split; intros name k; intros; discriminate.
    + compute_done.
    + intros l Hp. discriminate Hp.
    + intros q Hq.
      change (closed_answer (Demo.rows d "Account" (fo_where q))).
      rewrite Hq. split.
      * repeat constructor.
      * intros o p [->|?%elem_of_nil]%elem_of_cons; done.
    + intros q o Hq.
      change (o ∈ fetched_objects (Demo.rows d "Account" (fo_where q)) →
              id o ≠ "0x1").
      rewrite Hq. by intros [->|?%elem_of_nil]%elem_of_cons.
    + assert (r1.2 = Ok None) as Hr1.
      { apply Hlive. intros q Hq.
        change (Forall (λ r, ∃ o,
                  fetched_objects (Demo.rows d "Account" (fo_where q)) !! r =
                    Some o ∧ sets_no_relation (rt:=Demo.runtime) o)
                  (fetched_roots (Demo.rows d "Account" (fo_where q)))).
        rewrite Hq. repeat constructor. exists (Demo.account "0x2").
        split; [done|]. exists Demo.Account. split; [done|].
        by intros c rm ?%elem_of_nil. }
      split_and!; [done..|]. by destruct (Hret None Hr1).
  - destruct (H2 s2) as (Hret & Hlive).
    + compute_done.
    + intros l Hp. discriminate Hp.
    + assert (heap (V2.load (rt:=Demo.runtime) s2).1 = d) as ->
        by (vm_compute; reflexivity).
      intros [|[|l]] o _ [= <-]; done.
    + assert (r2.2 = Ok None) as Hr2.
      { apply Hlive.
        - apply Demo_store_in_range.
        - intros name Hne.
          assert (classes s2 = [("Account", "Account"); ("Transfer", "Transfer")])
            as -> by (vm_compute; reflexivity).
          assert (JsMap.keys (deferred s2) = ["Account"; "Transfer"]) as Hkeys
            by (vm_compute; reflexivity).
          destruct (decide (name ∈ ["Account"; "Transfer"])) as [Hin|Hnot].
          + repeat (apply elem_of_cons in Hin as [->|Hin]); [by eexists..|].
            by apply elem_of_nil in Hin.
          + exfalso. rewrite <- Hkeys in Hnot.
            apply JsMapFacts.get_None_keys in Hnot.
            unfold V2.deferList_of in Hne. by rewrite Hnot in Hne.
        - assert (heap (V2.load (rt:=Demo.runtime) s2).1 = d) as ->
            by (vm_compute; reflexivity).
          intros [|[|l]] o _ [= <-].
          + exists Demo.Account. split; [done|]. by intros rm ?%elem_of_nil.
          + exists Demo.Transfer. split; [done|].
            intros rm Hrm. repeat (apply elem_of_cons in Hrm as [->|Hrm]);
              [by left..|]. by apply elem_of_nil in Hrm. }
      by destruct (Hret None Hr2).
Defined.

(** C5 fails as stated. In the first variant an account the store does
    not have is deferred and resolved, which leaves the absent marker;
    it is deferred and resolved again, and the second resolution asks
    the store again, with a bulk find for that id. *)
Lemma C5_second_resolution_asks_again :
  let h := {| dv_entityClass := "Account"; dv_id := "0x1"; dv_memo := None |} in
  let s1 := (V1.DeferredValue_get h
               (V1.defer (rt:=Demo.runtime) "Account" "0x1" None Demo.start).1).1.1 in
  let s2 := (V1.DeferredValue_get h
               (V1.defer (rt:=Demo.runtime) "Account" "0x1" None s1).1).1.1 in
  Nested.lookup "Account" "0x1" (cacheMap s1) = Some None ∧
  ∃ q, calls s2 = calls s1 ++ [CFind "Account" q] ∧
       fo_where q = Some (WIdIn ["0x1"]).
Proof.
  split; [vm_compute; reflexivity|].
  exists {| fo_where := Some (WIdIn ["0x1"]); fo_relations := Some [] |}.
  split; vm_compute; reflexivity.
Qed.
